(** * PyFrac: the time-stepping engine, its elasto-hydrodynamic solver and
      the reattempt controller

    A shallow embedding of the control flow of
    - [src/ElastoHydrodynamicSolver.py] ([check_covergance], [Picard_Newton],
      [MakeEquationSystem_volumeControl]),
    - [src/TimeSteppingViscousFluid.py] and [src/TimeSteppingVolumeControl.py]
      (same-footprint and extended-footprint injection, the front loop),
    - [src/Controller.py] ([advance_time_step], [run]) and
      [src/CartesianMesh.py] ([Neighbors], the connectivity array),
    - [src/Symmetry.py] ([get_symetric_elements]) and [src/Utility.py]
      ([find_regime]).

    Numbers are IEEE binary64 values (Rocq's primitive floats), so [nan],
    the comparisons and the literals behave as numpy's float64 does.  One- and
    two-dimensional ndarrays are lists and lists of rows.  Python exceptions
    and early [return]s are explicit in the result types.  Functions of
    numpy, scipy and libm whose rounding is not fixed by IEEE 754 (BLAS dot
    products, LAPACK solves, pairwise sums, [pow]) and the modules of PyFrac
    that the engine only calls (level set, volume integrals, tip inversion,
    the Fracture class) are interfaces, given as type classes. *)

From Stdlib Require Import ZArith Floats Lia Bool List String.
From stdpp Require Import base list option.

Set Warnings "-inexact-float".
Set Default Proof Using "Type".

(** ** Python control flow: exceptions and early returns *)

Inductive exn :=
| IndexError
| ValueError
| LinAlgError
| SystemExit (msg : string)
| ZeroDivisionError
| UnboundLocalError
| AttributeError
| TypeError
| OverflowError
| NonTermination.

(** The result of a Python call: a returned value or a raised exception. *)
Inductive res (A : Type) :=
| Ok (a : A)
| Raise (e : exn).
Arguments Ok {A} a.
Arguments Raise {A} e.

(** The state of control inside a function body whose [return] type is [R]:
    fall through to the next statement with a value, [return r], or raise. *)
Inductive ctl (R A : Type) :=
| Next (a : A)
| Ret (r : R)
| Exc (e : exn).
Arguments Next {R A} a.
Arguments Ret {R A} r.
Arguments Exc {R A} e.

Definition ctl_bind {R A B} (f : A -> ctl R B) (m : ctl R A) : ctl R B :=
  match m with
  | Next a => f a
  | Ret r => Ret r
  | Exc e => Exc e
  end.

Definition res_bind {A B} (f : A -> res B) (m : res A) : res B :=
  match m with
  | Ok a => f a
  | Raise e => Raise e
  end.

#[global] Instance ctl_mbind R : MBind (ctl R) := @ctl_bind R.
#[global] Instance ctl_mret R : MRet (ctl R) := @Next R.
#[global] Instance res_mbind : MBind res := @res_bind.
#[global] Instance res_mret : MRet res := @Ok.

(** A call from inside a body: the callee's exception propagates. *)
Definition call {R A} (m : res A) : ctl R A :=
  match m with
  | Ok a => Next a
  | Raise e => Exc e
  end.

(** A whole function: falling off the end with [r] or [return r]. *)
Definition body {R} (m : ctl R R) : res R :=
  match m with
  | Next r => Ok r
  | Ret r => Ok r
  | Exc e => Raise e
  end.

(** [if b: return r] *)
Definition return_if {R} (b : bool) (r : R) : ctl R unit :=
  if b then Ret r else Next tt.

(** [x is None] *)
Definition is_None {A} (x : option A) : bool :=
  match x with
  | None => true
  | Some _ => false
  end.

(** [if b: raise e] *)
Definition raise_if {R} (b : bool) (e : exn) : ctl R unit :=
  if b then Exc e else Next tt.

(** ** numpy arrays of float64 *)

Abbreviation vec := (list float).
Abbreviation matrix := (list (list float)).

Module NumPy.

Local Open Scope float_scope.

(** [np.nan], [np.pi] and [np.finfo(float).eps]. *)
Definition np_nan : float := nan.
Definition np_pi : float := 3.141592653589793.
Definition eps : float := 0x1p-52.

(** int -> float conversion, rounding to nearest even. *)
Definition Z2float (z : Z) : float := SF2Prim (binary_normalize prec emax z 0%Z false).

(** [a[i]] for an index inside or outside the array. *)
Definition getitem {R A} (a : list A) (i : nat) : ctl R A :=
  match a !! i with
  | Some x => Next x
  | None => Exc IndexError
  end.

(** [a[idx]] for an integer index array [idx] (a copy). *)
Fixpoint take {R A} (a : list A) (idx : list nat) : ctl R (list A) :=
  match idx with
  | [] => Next []
  | i :: idx' => x ← getitem a i; xs ← take a idx'; Next (x :: xs)
  end.

(** [a[idx] = c] for a scalar [c]. *)
Fixpoint fill {R A} (a : list A) (idx : list nat) (c : A) : ctl R (list A) :=
  match idx with
  | [] => Next a
  | i :: idx' =>
      if decide (i < length a)%nat then fill (<[i:=c]> a) idx' c else Exc IndexError
  end.

Fixpoint put_zip {R A} (a : list A) (idx : list nat) (vals : list A) : ctl R (list A) :=
  match idx, vals with
  | [], [] => Next a
  | i :: idx', v :: vals' =>
      if decide (i < length a)%nat then put_zip (<[i:=v]> a) idx' vals' else Exc IndexError
  | _, _ => Exc ValueError
  end.

(** [a[idx] = vals]: later writes to a repeated index win; a one-element
    [vals] is broadcast; other length mismatches raise ValueError. *)
Definition put {R A} (a : list A) (idx : list nat) (vals : list A) : ctl R (list A) :=
  match vals with
  | [c] => fill a idx c
  | _ => put_zip a idx vals
  end.

(** [a[mask] = c] where [mask] is the elementwise test [cond]. *)
Definition put_where {A} (cond : A -> bool) (c : A) (a : list A) : list A :=
  map (fun x => if cond x then c else x) a.

(** [np.where(cond)[0]]: the positions at which the test holds. *)
Fixpoint where_from {A} (cond : A -> bool) (a : list A) (i : nat) : list nat :=
  match a with
  | [] => []
  | x :: a' => if cond x then i :: where_from cond a' (S i) else where_from cond a' (S i)
  end.
Definition np_where {A} (cond : A -> bool) (a : list A) : list nat := where_from cond a 0.

(** [cond.any()] *)
Definition any {A} (cond : A -> bool) (a : list A) : bool := existsb cond a.

Definition isnan_any (a : vec) : bool := any is_nan a.

(** Elementwise binary operations with numpy's broadcasting of one-element
    arrays. *)
Definition vbinop {R} (op : float -> float -> float) (a b : vec) : ctl R vec :=
  if decide (length a = length b) then Next (zip_with op a b)
  else match a, b with
       | [x], _ => Next (map (op x) b)
       | _, [y] => Next (map (fun x => op x y) a)
       | _, _ => Exc ValueError
       end.

Definition vabs (a : vec) : vec := map abs a.
Definition vneg (a : vec) : vec := map opp a.
Definition vscale (c : float) (a : vec) : vec := map (mul c) a.

(** [np.full((n,), np.nan)] *)
Definition full_nan (n : nat) : vec := replicate n np_nan.

(** [np.minimum]: the first argument when it is smaller or equal or NaN,
    the second otherwise, so that a NaN on either side propagates. *)
Definition np_minimum1 (a b : float) : float :=
  if (a <=? b) || is_nan a then a else b.

(** Python's builtin [sum]: a left fold from 0. *)
Definition py_sum (a : vec) : float := fold_left add a 0.

(** Python's builtin [max]: the first maximal item; ValueError when empty. *)
Definition py_max {R} (a : vec) : ctl R float :=
  match a with
  | [] => Exc ValueError
  | x :: a' => Next (fold_left (fun m y => if m <? y then y else m) a' x)
  end.

(** [max] over an array of positions. *)
Definition py_max_int {R} (a : list nat) : ctl R nat :=
  match a with
  | [] => Exc ValueError
  | x :: a' => Next (fold_left Nat.max a' x)
  end.

(** [np.delete(a, idx)]: the array without the positions listed in [idx].
    Releases of numpy before 1.19 ignore positions past the end, later ones
    raise IndexError; [strict] says which. *)
Fixpoint delete_from {A} (a : list A) (idx : list nat) (i : nat) : list A :=
  match a with
  | [] => []
  | x :: a' => if bool_decide (i ∈ idx) then delete_from a' idx (S i)
               else x :: delete_from a' idx (S i)
  end.
Definition np_delete {R A} (strict : bool) (a : list A) (idx : list nat) : ctl R (list A) :=
  if strict && negb (forallb (fun i => bool_decide (i < length a)%nat) idx)
  then Exc IndexError
  else Next (delete_from a idx 0).

(** [C[i, j]] *)
Definition getitem2 {R} (C : matrix) (i j : nat) : ctl R float :=
  row ← getitem C i; getitem row j.

(** [C[i, j] = c] *)
Definition setitem2 {R} (C : matrix) (i j : nat) (c : float) : ctl R matrix :=
  match C !! i with
  | Some row =>
      if decide (j < length row)%nat then Next (<[i := <[j := c]> row]> C)
      else Exc IndexError
  | None => Exc IndexError
  end.

(** [C[np.ix_(rows, cols)]] (a copy of the sub-block). *)
Fixpoint ix_get {R} (C : matrix) (rows cols : list nat) : ctl R matrix :=
  match rows with
  | [] => Next []
  | i :: rows' =>
      row ← getitem C i; r ← take row cols; rs ← ix_get C rows' cols; Next (r :: rs)
  end.

(** [C[np.ix_(rows, cols)] = B] for a block [B] of matching shape. *)
Fixpoint ix_put {R} (C : matrix) (rows cols : list nat) (B : matrix) : ctl R matrix :=
  match rows, B with
  | [], [] => Next C
  | i :: rows', b :: B' =>
      row ← getitem C i; row' ← put_zip row cols b; ix_put (<[i := row']> C) rows' cols B'
  | _, _ => Exc ValueError
  end.

End NumPy.

Export NumPy.

(** ** Library functions whose floating-point result IEEE 754 does not fix *)

(** numpy, LAPACK and libm as the engine calls them.  [pow x y] is [x ** y],
    which raises OverflowError or ZeroDivisionError on Python floats;
    [np_linalg_solve] raises [LinAlgError] on a singular matrix and [np_dot]
    raises [ValueError] on mismatched shapes; [delete_strict] is numpy's
    treatment of out-of-range positions in [np.delete]. *)
Class NumLib := {
  pow : float -> float -> res float;
  np_sum : vec -> float;
  np_mean : vec -> float;
  np_dot : matrix -> vec -> res vec;
  np_linalg_norm : vec -> float;
  np_linalg_solve : matrix -> vec -> res vec;
  delete_strict : bool
}.

(** ** ElastoHydrodynamicSolver.py *)

Module ElastoHydrodynamicSolver.

Local Open Scope float_scope.

(** The three index arrays a system-assembly function returns: the positions
    in the solution vector of the channel widths, of the pressures and of the
    tractions in the cells with an active width constraint. *)
Definition indices := (list nat * list nat * list nat)%type.

Section Solver.
Context `{NumLib}.

(** [norm(abs(a - b) / abs(b))] for the sub-vectors [a] and [b]. *)
Definition relative_norm (a b : vec) : res float :=
  body (d ← vbinop sub a b; q ← vbinop div (vabs d) (vabs b); Next (np_linalg_norm q)).

(** [check_covergance(solk, solkm1, indices, tol)], lines 1001-1035. *)
Definition check_covergance (solk solkm1 : vec) (ind : indices) (tol : float)
  : res (bool * float) :=
  let '(idx_w, idx_p, idx_tr) := ind in
  body (
    let solkm1_is_0 := np_where (fun x => x =? 0) solkm1 in
    norm_w ←
      (if decide (0 < length solkm1_is_0)%nat then
         delw ← take solk idx_w;
         delw_km1 ← take solkm1 idx_w;
         delw ← np_delete delete_strict delw solkm1_is_0;
         delw_km1 ← np_delete delete_strict delw_km1 solkm1_is_0;
         call (relative_norm delw delw_km1)
       else
         a ← take solk idx_w; b ← take solkm1 idx_w; call (relative_norm a b));
    a ← take solk idx_p; b ← take solkm1 idx_p;
    norm_p ← call (relative_norm a b);
    norm_tr ←
      (if decide (0 < length idx_tr)%nat then
         a ← take solk idx_tr; b ← take solkm1 idx_tr; call (relative_norm a b)
       else Next 0);
    let norm := (norm_w + norm_p + norm_tr) / 3 in
    let converged := (norm_w <=? tol) && (norm_p <=? tol) && (norm_tr <=? tol) in
    Next (converged, norm)).

(** [MakeEquationSystem_volumeControl], lines 853-869. *)
Definition MakeEquationSystem_volumeControl (w_lst_tmstp wTip : vec)
    (EltChannel EltTip : list nat) (sigma_o : vec) (C : matrix) (dt : float)
    (Q : vec) (ElemArea : float) (lkOff : vec) : res (matrix * vec) :=
  body (
    Ccc ← ix_get C EltChannel EltChannel;
    Cct ← ix_get C EltChannel EltTip;
    (* A = np.hstack((Ccc, -np.ones((EltChannel.size, 1)))) *)
    let A := map (fun row => row ++ [- 1]) Ccc in
    (* A = np.vstack((A, np.ones((1, EltChannel.size + 1)))) *)
    let A := A ++ [replicate (length EltChannel + 1) 1] in
    (* A[-1, -1] = 0 *)
    A ← setitem2 A (length A - 1) (length EltChannel) 0;
    s0 ← take sigma_o EltChannel;
    wch ← take w_lst_tmstp EltChannel;
    d1 ← call (np_dot Ccc wch);
    d2 ← call (np_dot Cct wTip);
    t ← vbinop sub (vneg s0) d1;
    S ← vbinop sub t d2;
    wtip_old ← take w_lst_tmstp EltTip;
    let S := S ++ [py_sum Q * dt / ElemArea - (py_sum wTip - py_sum wtip_old) - np_sum lkOff] in
    Next (A, S)).

(** The three ways in which [Picard_Newton] leaves, each named by the line
    it prints there: the [return] of line 955 after a singular system, the
    [return] of line 964 in the pass in which [k] has reached [maxitr], and
    the [return] of line 972 after the loop. *)
Inductive PN_print :=
| singular_matrix
| not_converged_after (maxitr : Z)
| converged_after (k : Z).

Section Picard_Newton.
(** [interItr], the data handed from one iteration to the next. *)
Context {I : Type}.
(** [Res_fun(solk, sys_fun, *args, interItr)] and
    [sys_fun(solk, interItr, *args)] with [*args] fixed, and
    [Jacobian(Res_fun, solk, TypValue, *args, interItr)]. *)
Variable Res_fun : vec -> I -> res (vec * I * indices).
Variable sys_fun : vec -> I -> res (matrix * vec * I * indices).
Variable Jacobian : vec -> vec -> I -> res matrix.
Variables (TypValue : vec) (Tol : float) (maxitr : Z) (relax : float)
          (PicardPerNewton : Z).

Definition PN_result := (PN_print * (vec * option I))%type.

(** The body of the [try], lines 950-951. *)
Definition picard_step (solk : vec) (interItr : I) : res (vec * I * indices) :=
  '(A, b, interItr, ind) ← sys_fun solk interItr;
  x ← np_linalg_solve A b;
  solk' ← body (vbinop add (vscale (1 - relax) solk) (vscale relax x));
  Ok (solk', interItr, ind).

(** The Newton branch, lines 942-947. *)
Definition newton_step (solk : vec) (interItr : I) (newton : Z) (Jac : option matrix)
  : res (vec * I * indices * option matrix) :=
  '(Fx, interItr, ind) ← Res_fun solk interItr;
  Jac ← (if (newton mod 3 =? 0)%Z
         then J ← Jacobian solk TypValue interItr; Ok (Some J) else Ok Jac);
  match Jac with
  | None => Raise UnboundLocalError
  | Some J =>
      dx ← np_linalg_solve J (vneg Fx);
      solk' ← body (vbinop add solk dx);
      Ok (solk', interItr, ind, Jac)
  end.

(** The [while] loop, lines 938-968; [fuel] bounds the iterations left. *)
Fixpoint PN_loop (fuel : nat) (solk : vec) (k : Z) (interItr : I) (newton : Z)
    (Jac : option matrix) (converged : bool) : ctl PN_result PN_result :=
  if negb converged && (k <? maxitr)%Z then
    match fuel with
    | O => Exc NonTermination
    | S fuel =>
        let solkm1 := solk in
        _ ← raise_if (PicardPerNewton =? 0)%Z ZeroDivisionError;
        '(solk, interItr, ind, newton, Jac) ←
          (if (k mod PicardPerNewton =? 0)%Z then
             '(solk, interItr, ind, Jac) ← call (newton_step solk interItr newton Jac);
             Next (solk, interItr, ind, (newton + 1)%Z, Jac)
           else
             match picard_step solk interItr with
             | Ok (solk, interItr, ind) => Next (solk, interItr, ind, newton, Jac)
             | Raise LinAlgError =>
                 Ret (singular_matrix, (full_nan (length solk), None))
             | Raise e => Exc e
             end);
        '(converged, norm) ← call (check_covergance solk solkm1 ind Tol);
        let k := (k + 1)%Z in
        _ ← return_if (k =? maxitr)%Z
              (not_converged_after maxitr, (full_nan (length solk), None));
        PN_loop fuel solk k interItr newton Jac converged
    end
  else Next (converged_after k, (solk, Some interItr)).

(** [Picard_Newton(Res_fun, sys_fun, guess, TypValue, interItr_init, Tol,
    maxitr, *args, relax, PicardPerNewton)], lines 908-972, with the line it
    prints on leaving. *)
Definition Picard_Newton_printing (guess : vec) (interItr_init : I) : res PN_result :=
  body (PN_loop (Z.to_nat (maxitr - 1)) guess 1 interItr_init 0 None false).

Definition Picard_Newton (guess : vec) (interItr_init : I) : res (vec * option I) :=
  r ← Picard_Newton_printing guess interItr_init; Ok (snd r).

End Picard_Newton.
End Solver.
End ElastoHydrodynamicSolver.

(** ** CartesianMesh.py *)

Module CartesianMesh.

Record t := {
  hx : float;
  hy : float;
  nx : Z;
  ny : Z;
  NumberOfElts : nat;
  EltArea : float;
  (** one row [left, right, bottom, up] per element *)
  NeiElements : list (list nat)
}.

(** [Neighbors(elem, nx, ny)], lines 164-203: boundary elements have
    themselves as neighbour. *)
Definition Neighbors (elem nx ny : Z) : res (Z * Z * Z * Z) :=
  body (
    _ ← raise_if (nx =? 0)%Z ZeroDivisionError;
    let j := (elem / nx)%Z in
    let i := (elem mod nx)%Z in
    let left := if (i =? 0)%Z then elem else (j * nx + i - 1)%Z in
    let right := if (i =? nx - 1)%Z then elem else (j * nx + i + 1)%Z in
    let bottom := if (j =? 0)%Z then elem else ((j - 1) * nx + i)%Z in
    let up := if (j =? ny - 1)%Z then elem else ((j + 1) * nx + i)%Z in
    Next (left, right, bottom, up)).

(** The [NeiElements] array that [__init__] fills, lines 128-131. *)
Definition make_NeiElements (nx ny : Z) : res (list (list nat)) :=
  mapM (fun e => '(l, r, b, u) ← Neighbors (Z.of_nat e) nx ny;
                 Ok [Z.to_nat l; Z.to_nat r; Z.to_nat b; Z.to_nat u])
       (seq 0 (Z.to_nat (nx * ny))).

End CartesianMesh.

(** ** The objects the time-stepping functions read and build *)

(** A Python callable over floats, such as [K1cFunc] or [KprimeFunc]. *)
Definition closure := list float -> float.

Module MaterialProperties.
Record t := {
  Eprime : float;
  Kprime : vec;
  Cprime : vec;
  SigmaO : vec;
  grainSize : float;
  anisotropic : bool;
  K1cFunc : option closure;
  KprimeFunc : option closure
}.
End MaterialProperties.

Module FluidProperties.
Record t := {
  density : float;
  turbulence : bool
}.
End FluidProperties.

Module SimulationParameters.
Record t := {
  toleranceEHL : float;
  maxSolverItr : Z;
  tolFractFront : float;
  maxFrontItr : Z;
  toleranceToughness : float;
  maxToughnessItr : Z;
  tmStpPrefactor : float;
  tipAsymptote : string;
  frontAdvancing : string;
  saveRegime : bool;
  maxReattempts : Z;
  reAttemptFactor : float;
  timeStep_limit : float;
  viscousInjection : bool;
  dryCrack_mechLoading : bool;
  volumeControl : bool
}.
End SimulationParameters.

Module Fracture.
Record t := {
  mesh : CartesianMesh.t;
  time : float;
  w : vec;
  p : vec;
  sgndDist : vec;
  sgndDist_last : option vec;
  timeStep_last : option float;
  EltChannel : list nat;
  EltTip : list nat;
  EltCrack : list nat;
  EltRibbon : list nat;
  ZeroVertex : list nat;
  InCrack : list Z;
  FillF : vec;
  alpha : vec;
  l : vec;
  v : option vec;
  muPrime : vec;
  FractureVolume : float;
  regime : option matrix
}.

(** [Fr.FractureVolume = V] *)
Definition set_FractureVolume (V : float) (Fr : t) : t :=
  {| mesh := mesh Fr; time := time Fr; w := w Fr; p := p Fr; sgndDist := sgndDist Fr;
     sgndDist_last := sgndDist_last Fr; timeStep_last := timeStep_last Fr;
     EltChannel := EltChannel Fr; EltTip := EltTip Fr; EltCrack := EltCrack Fr;
     EltRibbon := EltRibbon Fr; ZeroVertex := ZeroVertex Fr; InCrack := InCrack Fr;
     FillF := FillF Fr; alpha := alpha Fr; l := l Fr; v := v Fr; muPrime := muPrime Fr;
     FractureVolume := V; regime := regime Fr |}.

(** [Fr.v = v'], [Fr.regime = r], [Fr.sgndDist = d], [Fr.sgndDist_last =
    d_last] and [Fr.timeStep_last = dt] *)
Definition set_front (Fr : t) (d d_last : vec) (dt : float) (v' : option vec)
    (r : option matrix) : t :=
  {| mesh := mesh Fr; time := time Fr; w := w Fr; p := p Fr; sgndDist := d;
     sgndDist_last := Some d_last; timeStep_last := Some dt;
     EltChannel := EltChannel Fr; EltTip := EltTip Fr; EltCrack := EltCrack Fr;
     EltRibbon := EltRibbon Fr; ZeroVertex := ZeroVertex Fr; InCrack := InCrack Fr;
     FillF := FillF Fr; alpha := alpha Fr; l := l Fr; v := v'; muPrime := muPrime Fr;
     FractureVolume := FractureVolume Fr; regime := r |}.
End Fracture.

Module InjectionProperties.
Record t := {
  (** row 0: the times at which the rate changes; row 1: the rates *)
  injectionRate : matrix;
  source_location : list nat
}.
End InjectionProperties.

(** The keyword arguments of [Integral_over_cell] and [VolumeIntegral]. *)
Record integral_kwargs := {
  kw_frac : option Fracture.t;
  kw_mat_prop : option MaterialProperties.t;
  kw_muPrime : option vec;
  kw_Vel : option vec;
  kw_Kprime : option vec;
  kw_stagnant : option (list bool);
  kw_KIPrime : option vec
}.

Definition no_kwargs : integral_kwargs :=
  {| kw_frac := None; kw_mat_prop := None; kw_muPrime := None; kw_Vel := None;
     kw_Kprime := None; kw_stagnant := None; kw_KIPrime := None |}.

(** The positional arguments [argSameFP] and [arg] that the viscous-fluid
    steps hand to [Picard_Newton] for its system functions. *)
Record sameFP_args := {
  sf_w : vec; sf_EltCrack : list nat; sf_Qin : vec; sf_C : matrix; sf_dt : float;
  sf_muPrime : vec; sf_mesh : CartesianMesh.t; sf_InCrack : list Z; sf_DLkOff : vec;
  sf_SigmaO : vec; sf_density : float; sf_turbulence : bool; sf_grainSize : float
}.

Record extendedFP_args := {
  ef_EltChannel : list nat; ef_EltsTipNew : list nat; ef_w : vec; ef_wTip : vec;
  ef_EltCrack : list nat; ef_mesh : CartesianMesh.t; ef_dt : float; ef_Qin : vec;
  ef_C : matrix; ef_muPrime : vec; ef_density : float; ef_InCrack : list Z;
  ef_DLkOff : vec; ef_SigmaO : vec; ef_turbulence : bool; ef_grainSize : float
}.

(** ** The modules of PyFrac that the engine calls

    [LevelSet], [VolIntegral], the [Fracture] class and the system functions
    of the same-footprint and extended-footprint steps are called by the
    time-stepping functions and left abstract here, as are the root-finding
    tip inversion and the front projection.  Each takes its arguments in the
    order of the Python call and may raise.  [SolveFMM] returns the level set
    that the Python function updates in place.  None of them assigns into the
    elasticity matrix it is handed. *)
Class PyFracModules := {
  TipAsymInversion : vec -> Fracture.t -> MaterialProperties.t -> SimulationParameters.t ->
                     float -> option vec -> res vec;
  StressIntensityFactor : vec -> vec -> list nat -> list nat -> list bool ->
                          CartesianMesh.t -> float -> res vec;
  SolveFMM : vec -> list nat -> list nat -> CartesianMesh.t -> list nat -> list nat -> res vec;
  reconstruct_front : vec -> list nat -> CartesianMesh.t ->
                      res (list nat * vec * vec * list Z);
  UpdateLists : list nat -> list nat -> vec -> vec -> CartesianMesh.t ->
                res (list nat * list nat * list nat * list nat * list nat * list Z);
  Integral_over_cell : list nat -> vec -> vec -> CartesianMesh.t -> string ->
                       integral_kwargs -> res vec;
  VolumeIntegral : list nat -> vec -> vec -> CartesianMesh.t -> string ->
                   MaterialProperties.t -> vec -> vec -> integral_kwargs -> res vec;
  projection_from_ribbon : list nat -> list nat -> CartesianMesh.t -> vec -> res vec;
  get_toughness_from_cellCenter : vec -> vec -> list nat -> MaterialProperties.t ->
                                  CartesianMesh.t -> res vec;
  get_toughness_from_zeroVertex : list nat -> CartesianMesh.t -> MaterialProperties.t ->
                                  vec -> vec -> list nat -> res vec;
  toughness_at_tip_CellCenter : list nat -> CartesianMesh.t -> MaterialProperties.t ->
                                vec -> res vec;
  velocity : vec -> list nat -> CartesianMesh.t -> list Z -> vec -> matrix -> vec ->
             res matrix;
  find_regime : vec -> Fracture.t -> MaterialProperties.t -> SimulationParameters.t ->
                float -> option vec -> vec -> res vec;
  process_fracture_front : Fracture.t -> res Fracture.t;
  MakeEquationSystem_volumeControl_sameFP :
    vec -> list nat -> matrix -> float -> float -> float -> res (matrix * vec);
  MakeEquationSystem_volumeControl_extendedFP :
    vec -> vec -> list nat -> list nat -> matrix -> float -> float -> float ->
    res (matrix * vec);
  Elastohydrodynamic_ResidualFun_sameFP :
    sameFP_args -> vec -> matrix -> res (vec * matrix * ElastoHydrodynamicSolver.indices);
  MakeEquationSystem_viscousFluid_sameFP :
    sameFP_args -> vec -> matrix ->
    res (matrix * vec * matrix * ElastoHydrodynamicSolver.indices);
  Elastohydrodynamic_ResidualFun_ExtendedFP :
    extendedFP_args -> vec -> matrix -> res (vec * matrix * ElastoHydrodynamicSolver.indices);
  MakeEquationSystem_viscousFluid_extendedFP :
    extendedFP_args -> vec -> matrix ->
    res (matrix * vec * matrix * ElastoHydrodynamicSolver.indices);
  Jacobian :
    (vec -> matrix -> res (vec * matrix * ElastoHydrodynamicSolver.indices)) ->
    vec -> vec -> matrix -> res matrix
}.

(** ** Standard output

    The lines of standard output that tell the paths of the solver and of
    the controller apart: the three reports of [Picard_Newton]
    (ElastoHydrodynamicSolver.py lines 953, 962 and 970) and the lines of
    [advance_time_step] on its reattempts (Controller.py lines 151, 180, 193
    and 196).  A list of messages is what a call has printed of these
    lines, in order; the other prints of the source, such as those of
    TimeSteppingViscousFluid.py lines 65, 80, 89 and 110, are left out, so
    that two messages that follow each other in a list need not follow each
    other on standard output. *)
Inductive message :=
| print_Picard_Newton (m : ElastoHydrodynamicSolver.PN_print)
| print_attempting_time_step (smallerTimeStep : float)
| print_status (status : Z)
| print_time_step_failed.

(** ** Statements that the time-stepping files share

    [TimeSteppingViscousFluid.py] and [TimeSteppingVolumeControl.py] repeat
    these statements verbatim; each is modelled once. *)

Module Shared.

Local Open Scope float_scope.

Section Shared.
Context `{NumLib} `{PyFracModules}.

(** The filling-fraction correction of the tip diagonal, for example
    TimeSteppingViscousFluid.py lines 143-149 and
    TimeSteppingVolumeControl.py lines 241-247 and 591-596: the loop
    [for e in range(0, len(tips))], entered at position [e]. *)
Fixpoint tip_correction {R} (C : matrix) (FillF : vec) (tips : list nat) (e : nat)
  : ctl R matrix :=
  match tips with
  | [] => Next C
  | t :: tips' =>
      f ← getitem FillF e;
      let r := f - 0.25 in
      let r := if r <? 0.1 then 0.1 else r in
      let ac := (1 - r) / r in
      c ← getitem2 C t t;
      C ← setitem2 C t t (c * (1 + ac * np_pi / 4));
      tip_correction C FillF tips' (S e)
  end.

(** [(hx ** 2 + hy ** 2) ** 0.5] *)
Definition cell_diagonal {R} (mesh : CartesianMesh.t) : ctl R float :=
  hx2 ← call (pow (CartesianMesh.hx mesh) 2);
  hy2 ← call (pow (CartesianMesh.hy mesh) 2);
  call (pow (hx2 + hy2) 0.5).

(** [front_region], [front_region[pstv_region]] and
    [front_region[ngtv_region]] for the band
    [abs(sgndDist) < factor * (hx ** 2 + hy ** 2) ** 0.5]. *)
Definition search_regions {R} (sgndDist : vec) (mesh : CartesianMesh.t) (factor : float)
  : ctl R (list nat * list nat * list nat) :=
  diagonal ← cell_diagonal mesh;
  let front_region := np_where (fun x => abs x <? factor * diagonal) sgndDist in
  d ← take sgndDist front_region;
  diagonal ← cell_diagonal mesh;
  let pstv_region := np_where (fun x => - diagonal <=? x) d in
  let ngtv_region := np_where (fun x => x <? 0) d in
  pstv ← take front_region pstv_region;
  ngtv ← take front_region ngtv_region;
  Next (front_region, pstv, ngtv).

(** The test before [exitstatus = 3]: NaN or out-of-range angle or length. *)
Definition front_not_tracked {R} (alpha_k l_k : vec) : ctl R bool :=
  _ ← raise_if (negb (bool_decide (length alpha_k = length l_k))
                && negb (bool_decide (length alpha_k = 1%nat))
                && negb (bool_decide (length l_k = 1%nat))) ValueError;
  Next (isnan_any alpha_k || isnan_any l_k
        || any (fun x => x <? 0) l_k
        || any (fun x => x <? 0) alpha_k
        || any (fun x => np_pi / 2 <? x) alpha_k).

(** The loop over the new tip cells that looks for a cell among its own four
    neighbours: [(np.where(tipNeighb[i, :] == EltsTipNew[i])[0]).size > 0]
    for some [i]. *)
Definition tip_at_grid_boundary {R} (mesh : CartesianMesh.t) (EltsTipNew : list nat)
  : ctl R bool :=
  tipNeighb ← take (CartesianMesh.NeiElements mesh) EltsTipNew;
  Next (existsb (fun '(e, row) => bool_decide (e ∈ row)) (zip EltsTipNew tipNeighb)).

(** [InCrack_k]: ones on the channel and on the new tip cells. *)
Definition make_InCrack {R} (mesh : CartesianMesh.t) (EltChannel EltsTipNew : list nat)
  : ctl R (list Z) :=
  let InCrack_k := replicate (CartesianMesh.NumberOfElts mesh) 0%Z in
  InCrack_k ← fill InCrack_k EltChannel 1%Z;
  fill InCrack_k EltsTipNew 1%Z.

(** [-(sgndDist_k[EltsTipNew] - Fr_lstTmStp.sgndDist[EltsTipNew]) / timeStep] *)
Definition front_velocity {R} (sgndDist_k sgndDist : vec) (EltsTipNew : list nat)
    (timeStep : float) : ctl R vec :=
  a ← take sgndDist_k EltsTipNew;
  b ← take sgndDist EltsTipNew;
  d ← vbinop sub a b;
  Next (map (fun x => - x / timeStep) d).

(** [FillFrac_k[np.logical_and(FillFrac_k > 1.0, FillFrac_k < 1 + tol)] = 1.0] *)
Definition round_filling_fraction (tol : float) (FillFrac_k : vec) : vec :=
  put_where (fun x => (1 <? x) && (x <? 1 + tol)) 1 FillFrac_k.

(** [(FillFrac_k > 1.0).any() or (FillFrac_k < 0.0 - np.finfo(float).eps).any()] *)
Definition filling_fraction_not_correct (FillFrac_k : vec) : bool :=
  any (fun x => 1 <? x) FillFrac_k || any (fun x => x <? 0 - eps) FillFrac_k.

(** [np.arange(EltsTipNew.shape[0])[np.in1d(EltsTipNew, EltTip_k)]] *)
Definition partly_filled (EltsTipNew EltTip_k : list nat) : list nat :=
  np_where (fun e => bool_decide (e ∈ EltTip_k)) EltsTipNew.

(** [a[idx] += vals], that is [a[idx] = a[idx] + vals]. *)
Definition iadd {R} (a : vec) (idx : list nat) (vals : vec) : ctl R vec :=
  old ← take a idx; new ← vbinop add old vals; put a idx new.

(** [find_zero_vertex(Elts, level_set, mesh)], as defined in TipInversion.py
    lines 312-331 and in anisotropy.py lines 387-405. *)
Definition find_zero_vertex (Elts : list nat) (level_set : vec) (mesh : CartesianMesh.t)
  : res (list nat) :=
  body (
    neighbors ← take (CartesianMesh.NeiElements mesh) Elts;
    rows ← mapM (fun row => take level_set row) neighbors;
    mapM (fun row =>
            n0 ← getitem row 0; n1 ← getitem row 1;
            n2 ← getitem row 2; n3 ← getitem row 3;
            Next (if (n0 <=? n1) && (n2 <=? n3) then 0%nat
                  else if (n1 <? n0) && (n2 <=? n3) then 1%nat
                  else if (n1 <? n0) && (n3 <? n2) then 2%nat
                  else if (n0 <=? n1) && (n3 <? n2) then 3%nat
                  else 0%nat)) rows).

End Shared.
End Shared.

(** ** TimeSteppingViscousFluid.py *)

Module TimeSteppingViscousFluid.

Import ElastoHydrodynamicSolver Shared.
Local Open Scope float_scope.

Section Step.
Context `{NumLib} `{PyFracModules}.

(** The hack of lines 211-214: a width that is negative but greater than
    minus the mean width becomes 0.01 times its absolute value. *)
Definition ignore_small_negative_width {R} (w_k : vec) : ctl R vec :=
  let mean := np_mean w_k in
  let smallNgtvWTip := np_where (fun x => (x <? 0) && (-1 * mean <? x)) w_k in
  if decide (0 < length smallNgtvWTip)%nat then
    neg ← take w_k smallNgtvWTip;
    put w_k smallNgtvWTip (vscale 0.01 (vabs neg))
  else Next w_k.

(** Lines 207-223: the check of the width [w_k] that the solve has given,
    and the pair that [injection_same_footprint] returns. *)
Definition check_width {R} (w_k : vec) : ctl R (Z * option vec) :=
  w_k ← ignore_small_negative_width w_k;
  if isnan_any w_k || any (fun x => x <? 0) w_k
  then Next (5%Z, None)
  else Next (1%Z, Some w_k).

(** Lines 139-204 of [injection_same_footprint]: the call of
    [Picard_Newton] on the footprint of the last time step, with the
    [return] it leaves by. *)
Definition Picard_Newton_same_footprint (Fr_lstTmStp : Fracture.t) (C : matrix)
    (timeStep : float) (Qin : vec) (mat_properties : MaterialProperties.t)
    (Fluid_properties : FluidProperties.t) (Simulation_Parameters : SimulationParameters.t)
  : res (@PN_result matrix) :=
  let EltTip := Fracture.EltTip Fr_lstTmStp in
  let EltCrack := Fracture.EltCrack Fr_lstTmStp in
  let mesh := Fracture.mesh Fr_lstTmStp in
  body (
    C_EltTip ← ix_get C EltTip EltTip;
    C ← tip_correction C (Fracture.FillF Fr_lstTmStp) EltTip 0;
    let delwGuess :=
      vscale (timeStep * py_sum Qin / Z2float (Z.of_nat (length EltCrack)))
             (replicate (length EltCrack) 1) in
    let DLkOff := replicate (CartesianMesh.NumberOfElts mesh) 0 in
    wguess ← iadd (Fracture.w Fr_lstTmStp) EltCrack delwGuess;
    vk ← call (velocity wguess EltCrack mesh (Fracture.InCrack Fr_lstTmStp)
                        (Fracture.muPrime Fr_lstTmStp) C
                        (MaterialProperties.SigmaO mat_properties));
    let argSameFP :=
      {| sf_w := Fracture.w Fr_lstTmStp; sf_EltCrack := EltCrack; sf_Qin := Qin;
         sf_C := C; sf_dt := timeStep; sf_muPrime := Fracture.muPrime Fr_lstTmStp;
         sf_mesh := mesh; sf_InCrack := Fracture.InCrack Fr_lstTmStp;
         sf_DLkOff := DLkOff; sf_SigmaO := MaterialProperties.SigmaO mat_properties;
         sf_density := FluidProperties.density Fluid_properties;
         sf_turbulence := FluidProperties.turbulence Fluid_properties;
         sf_grainSize := MaterialProperties.grainSize mat_properties |} in
    let typclValue := delwGuess in
    call (Picard_Newton_printing
            (Elastohydrodynamic_ResidualFun_sameFP argSameFP)
            (MakeEquationSystem_viscousFluid_sameFP argSameFP)
            (Jacobian (Elastohydrodynamic_ResidualFun_sameFP argSameFP))
            typclValue
            (SimulationParameters.toleranceEHL Simulation_Parameters)
            (SimulationParameters.maxSolverItr Simulation_Parameters)
            1 1000
            delwGuess vk)).

(** [injection_same_footprint], lines 121-223.  The result is the returned
    pair, the elasticity matrix [C] as the call leaves it, and what the call
    printed. *)
Definition injection_same_footprint (Fr_lstTmStp : Fracture.t) (C : matrix)
    (timeStep : float) (Qin : vec) (mat_properties : MaterialProperties.t)
    (Fluid_properties : FluidProperties.t) (Simulation_Parameters : SimulationParameters.t)
  : res ((Z * option vec) * matrix * list message) :=
  let EltTip := Fracture.EltTip Fr_lstTmStp in
  let EltCrack := Fracture.EltCrack Fr_lstTmStp in
  let mesh := Fracture.mesh Fr_lstTmStp in
  body (
    C_EltTip ← ix_get C EltTip EltTip;
    C ← tip_correction C (Fracture.FillF Fr_lstTmStp) EltTip 0;
    let delwGuess :=
      vscale (timeStep * py_sum Qin / Z2float (Z.of_nat (length EltCrack)))
             (replicate (length EltCrack) 1) in
    let DLkOff := replicate (CartesianMesh.NumberOfElts mesh) 0 in
    wguess ← iadd (Fracture.w Fr_lstTmStp) EltCrack delwGuess;
    vk ← call (velocity wguess EltCrack mesh (Fracture.InCrack Fr_lstTmStp)
                        (Fracture.muPrime Fr_lstTmStp) C
                        (MaterialProperties.SigmaO mat_properties));
    let argSameFP :=
      {| sf_w := Fracture.w Fr_lstTmStp; sf_EltCrack := EltCrack; sf_Qin := Qin;
         sf_C := C; sf_dt := timeStep; sf_muPrime := Fracture.muPrime Fr_lstTmStp;
         sf_mesh := mesh; sf_InCrack := Fracture.InCrack Fr_lstTmStp;
         sf_DLkOff := DLkOff; sf_SigmaO := MaterialProperties.SigmaO mat_properties;
         sf_density := FluidProperties.density Fluid_properties;
         sf_turbulence := FluidProperties.turbulence Fluid_properties;
         sf_grainSize := MaterialProperties.grainSize mat_properties |} in
    let typclValue := delwGuess in
    '(printed, (sol, vel)) ←
      call (Picard_Newton_printing
              (Elastohydrodynamic_ResidualFun_sameFP argSameFP)
              (MakeEquationSystem_viscousFluid_sameFP argSameFP)
              (Jacobian (Elastohydrodynamic_ResidualFun_sameFP argSameFP))
              typclValue
              (SimulationParameters.toleranceEHL Simulation_Parameters)
              (SimulationParameters.maxSolverItr Simulation_Parameters)
              1 1000
              delwGuess vk);
    w_k ← iadd (Fracture.w Fr_lstTmStp) EltCrack sol;
    (* regain original C (without filling fraction correction) *)
    C ← ix_put C EltTip EltTip C_EltTip;
    r ← check_width w_k;
    Ret (r, C, [print_Picard_Newton printed])).

(** The toughness loop of [injection_extended_footprint], lines 266-331:
    [while itr < sim_parameters.maxToughnessItr].  It ends with the values
    of [itr] and [sgndDist_k], or returns from the function. *)
Fixpoint toughness_loop {R} (fuel : nat) (w_k : vec) (Fr_lstTmStp : Fracture.t)
    (timeStep : float) (Material_properties : MaterialProperties.t)
    (sim_parameters : SimulationParameters.t) (failed : Z -> R)
    (itr : Z) (sgndDist_k : vec) : ctl R (Z * vec) :=
  let EltRibbon := Fracture.EltRibbon Fr_lstTmStp in
  let mesh := Fracture.mesh Fr_lstTmStp in
  if (itr <? SimulationParameters.maxToughnessItr sim_parameters)%Z then
    match fuel with
    | O => Exc NonTermination
    | S fuel =>
        let sgndDist_km1 := sgndDist_k in
        l_m1 ← take sgndDist_km1 EltRibbon;
        Kprime_k ←
          (if MaterialProperties.anisotropic Material_properties
           then K ← call (toughness_at_tip_CellCenter EltRibbon mesh Material_properties
                                                      sgndDist_k);
                Next (Some K)
           else Next None);
        let sgndDist_k := vscale 1e10 (replicate (CartesianMesh.NumberOfElts mesh) 1) in
        inv ← call (TipAsymInversion w_k Fr_lstTmStp Material_properties sim_parameters
                                     timeStep Kprime_k);
        sgndDist_k ← put sgndDist_k EltRibbon (vneg inv);
        r ← take sgndDist_k EltRibbon;
        _ ← return_if (isnan_any r) (failed 7%Z);
        '(front_region, pstv, ngtv) ←
          search_regions (Fracture.sgndDist Fr_lstTmStp) mesh 2;
        sgndDist_k ← call (SolveFMM sgndDist_k EltRibbon (Fracture.EltChannel Fr_lstTmStp)
                                    mesh pstv ngtv);
        r ← take sgndDist_k EltRibbon;
        q ← vbinop div l_m1 r;
        let norm := np_linalg_norm (map (fun x => 1 - x) (vabs q)) in
        if norm <? SimulationParameters.toleranceToughness sim_parameters
        then Next (itr, sgndDist_k)
        else if is_None (MaterialProperties.KprimeFunc Material_properties)
        then Next (itr, sgndDist_k)
        else toughness_loop fuel w_k Fr_lstTmStp timeStep Material_properties
                            sim_parameters failed (itr + 1)%Z sgndDist_k
    end
  else Next (itr, sgndDist_k).

(** The pair that a failed step returns, with nothing printed. *)
Definition failed (exitstatus : Z) : (Z * option Fracture.t) * list message :=
  ((exitstatus, None), []).

(** Lines 337-567 of [injection_extended_footprint]: the new footprint for
    the level set [sgndDist_k] that the toughness loop has left, and the
    elasto-hydrodynamic solve on it. *)
Definition extend_footprint (sgndDist_k : vec) (w_k : vec) (Fr_lstTmStp : Fracture.t)
    (C : matrix) (timeStep : float) (Qin : vec) (Material_properties : MaterialProperties.t)
    (Fluid_properties : FluidProperties.t) (sim_parameters : SimulationParameters.t)
  : ctl ((Z * option Fracture.t) * list message) ((Z * option Fracture.t) * list message) :=
  let mesh := Fracture.mesh Fr_lstTmStp in
  let EltArea := CartesianMesh.EltArea mesh in
  let EltChannel := Fracture.EltChannel Fr_lstTmStp in
  let EltCrack := Fracture.EltCrack Fr_lstTmStp in
  let muPrime := Fracture.muPrime Fr_lstTmStp in
    '(EltsTipNew, l_k, alpha_k, CellStatus) ← call (reconstruct_front sgndDist_k EltChannel mesh);
    not_tracked ← front_not_tracked alpha_k l_k;
    _ ← return_if not_tracked (failed 3%Z);
    at_boundary ← tip_at_grid_boundary mesh EltsTipNew;
    _ ← raise_if at_boundary (SystemExit "Reached end of the grid. exiting....");
    InCrack_k ← make_InCrack mesh EltChannel EltsTipNew;
    Vel_k ← front_velocity sgndDist_k (Fracture.sgndDist Fr_lstTmStp) EltsTipNew timeStep;
    area ← call (VolumeIntegral EltsTipNew alpha_k l_k mesh "A" Material_properties muPrime
                                Vel_k no_kwargs);
    let FillFrac_k := map (fun x => x / EltArea) area in
    let FillFrac_k := round_filling_fraction 1e-6 FillFrac_k in
    _ ← return_if (filling_fraction_not_correct FillFrac_k) (failed 9%Z);
    '(EltChannel_k, EltTip_k, EltCrack_k, EltRibbon_k, zrVertx_k, CellStatus_k) ←
      call (UpdateLists EltChannel EltsTipNew FillFrac_k sgndDist_k mesh);
    let partlyFilledTip := partly_filled EltsTipNew EltTip_k in
    a ← take sgndDist_k EltsTipNew;
    b ← take (Fracture.sgndDist Fr_lstTmStp) EltsTipNew;
    q ← vbinop div a b;
    let stagnant := map (fun x => abs (1 - x) <? 1e-5) q in
    wTip ←
      (if existsb id stagnant then
         KIPrime ← call (StressIntensityFactor w_k sgndDist_k EltsTipNew EltRibbon_k stagnant
                                               mesh (MaterialProperties.Eprime Material_properties));
         _ ← return_if (isnan_any KIPrime) (failed 8%Z);
         vol ← call (VolumeIntegral EltsTipNew alpha_k l_k mesh
                       (SimulationParameters.tipAsymptote sim_parameters) Material_properties
                       muPrime Vel_k
                       {| kw_frac := None; kw_mat_prop := None; kw_muPrime := None;
                          kw_Vel := None; kw_Kprime := None; kw_stagnant := Some stagnant;
                          kw_KIPrime := Some KIPrime |});
         Next (map (fun x => x / EltArea) vol)
       else
         vol ← call (VolumeIntegral EltsTipNew alpha_k l_k mesh
                       (SimulationParameters.tipAsymptote sim_parameters) Material_properties
                       muPrime Vel_k no_kwargs);
         Next (map (fun x => x / EltArea) vol));
    _ ← return_if (any (fun x => x <? 0) wTip) (failed 4%Z);
    let guess := replicate (length EltChannel + length EltsTipNew) 0 in
    guess ← put guess (seq 0 (length EltChannel))
              (vscale (timeStep * py_sum Qin / Z2float (Z.of_nat (length EltCrack)))
                      (replicate (length EltCrack) 1));
    let DLkOff := replicate (CartesianMesh.NumberOfElts mesh) 0 in
    g ← take guess (seq 0 (length EltChannel));
    wguess ← iadd (Fracture.w Fr_lstTmStp) EltChannel g;
    wguess ← put wguess EltsTipNew wTip;
    vk ← call (velocity wguess EltCrack_k mesh InCrack_k muPrime C
                        (MaterialProperties.SigmaO Material_properties));
    typValue ← fill guess (map (fun i => length EltChannel + i)%nat (seq 0 (length EltsTipNew)))
                 1e5;
    let arg :=
      {| ef_EltChannel := EltChannel; ef_EltsTipNew := EltsTipNew;
         ef_w := Fracture.w Fr_lstTmStp; ef_wTip := wTip; ef_EltCrack := EltCrack_k;
         ef_mesh := mesh; ef_dt := timeStep; ef_Qin := Qin; ef_C := C; ef_muPrime := muPrime;
         ef_density := FluidProperties.density Fluid_properties; ef_InCrack := InCrack_k;
         ef_DLkOff := DLkOff; ef_SigmaO := MaterialProperties.SigmaO Material_properties;
         ef_turbulence := FluidProperties.turbulence Fluid_properties;
         ef_grainSize := MaterialProperties.grainSize Material_properties |} in
    '(printed, (sol, vel)) ←
      call (Picard_Newton_printing
              (Elastohydrodynamic_ResidualFun_ExtendedFP arg)
              (MakeEquationSystem_viscousFluid_extendedFP arg)
              (Jacobian (Elastohydrodynamic_ResidualFun_ExtendedFP arg))
              typValue
              (SimulationParameters.toleranceEHL sim_parameters)
              (SimulationParameters.maxSolverItr sim_parameters)
              1 1000
              guess vk);
    let out := [print_Picard_Newton printed] in
    dw ← take sol (seq 0 (length EltChannel));
    w ← iadd (Fracture.w Fr_lstTmStp) EltChannel dw;
    w ← put w EltsTipNew wTip;
    _ ← return_if (isnan_any w) ((5%Z, None), out);
    FillF ← take FillFrac_k partlyFilledTip;
    Ccc ← ix_get C EltCrack_k EltCrack_k;
    wc ← take w EltCrack_k;
    pc ← call (np_dot Ccc wc);
    p ← put (Fracture.p Fr_lstTmStp) EltCrack_k pc;
    alpha ← take alpha_k partlyFilledTip;
    l ← take l_k partlyFilledTip;
    v ← take Vel_k partlyFilledTip;
    Fr_kplus1 ← call (process_fracture_front
      {| Fracture.mesh := mesh;
         Fracture.time := Fracture.time Fr_lstTmStp + timeStep;
         Fracture.w := w; Fracture.p := p; Fracture.sgndDist := sgndDist_k;
         Fracture.sgndDist_last := Fracture.sgndDist_last Fr_lstTmStp;
         Fracture.timeStep_last := Fracture.timeStep_last Fr_lstTmStp;
         Fracture.EltChannel := EltChannel_k; Fracture.EltTip := EltTip_k;
         Fracture.EltCrack := EltCrack_k; Fracture.EltRibbon := EltRibbon_k;
         Fracture.ZeroVertex := zrVertx_k; Fracture.InCrack := InCrack_k;
         Fracture.FillF := FillF; Fracture.alpha := alpha; Fracture.l := l;
         Fracture.v := Some v; Fracture.muPrime := muPrime;
         Fracture.FractureVolume := Fracture.FractureVolume Fr_lstTmStp;
         Fracture.regime := Fracture.regime Fr_lstTmStp |});
    Ret ((1%Z, Some (Fracture.set_FractureVolume
                       (np_sum (Fracture.w Fr_kplus1)
                        * CartesianMesh.EltArea (Fracture.mesh Fr_kplus1)) Fr_kplus1)), out).

(** [injection_extended_footprint], lines 228-567.  The result is the
    returned pair and what the call printed.  The call reads the elasticity
    matrix and does not assign into it. *)
Definition injection_extended_footprint (w_k : vec) (Fr_lstTmStp : Fracture.t) (C : matrix)
    (timeStep : float) (Qin : vec) (Material_properties : MaterialProperties.t)
    (Fluid_properties : FluidProperties.t) (sim_parameters : SimulationParameters.t)
  : res ((Z * option Fracture.t) * list message) :=
  let maxToughnessItr := SimulationParameters.maxToughnessItr sim_parameters in
  body (
    '(itr, sgndDist_k) ←
      toughness_loop (Z.to_nat maxToughnessItr) w_k Fr_lstTmStp timeStep Material_properties
                     sim_parameters failed 0%Z (Fracture.sgndDist Fr_lstTmStp);
    _ ← return_if (itr =? maxToughnessItr)%Z (failed 10%Z);
    extend_footprint sgndDist_k w_k Fr_lstTmStp C timeStep Qin Material_properties
                     Fluid_properties sim_parameters).

(** The fracture front loop of [attempt_time_step_viscousFluid], lines
    87-114: [while norm > Simulation_Parameters.tolFractFront].  A cap
    [maxFrontItr] below 1 is never met by [k], so [fuel] bounds the
    iterations. *)
Fixpoint front_loop (fuel : nat) (Frac : Fracture.t) (C : matrix) (TimeStep : float)
    (Qin : vec) (Material_properties : MaterialProperties.t)
    (Fluid_properties : FluidProperties.t) (Simulation_Parameters : SimulationParameters.t)
    (norm : float) (k : Z) (Fr_k : Fracture.t) (w_k : vec) (exitstatus : Z)
    (out : list message)
  : ctl ((Z * option Fracture.t) * list message) ((Z * option Fracture.t) * list message) :=
  if SimulationParameters.tolFractFront Simulation_Parameters <? norm then
    match fuel with
    | O => Exc NonTermination
    | S fuel =>
        let k := (k + 1)%Z in
        let Fr_kminus1 := Fr_k in
        '((exitstatus, Fr_k), printed) ←
          call (injection_extended_footprint w_k Frac C TimeStep Qin Material_properties
                                             Fluid_properties Simulation_Parameters);
        let out := out ++ printed in
        _ ← return_if (negb (exitstatus =? 1)%Z) ((exitstatus, None), out);
        match Fr_k with
        | Some Fr_k =>
            let w_k := Fracture.w Fr_k in
            _ ← raise_if (bool_decide (Fracture.FillF Fr_k = [])
                          && bool_decide (Fracture.FillF Fr_kminus1 = [])) ZeroDivisionError;
            let norm := abs ((py_sum (Fracture.FillF Fr_k) - py_sum (Fracture.FillF Fr_kminus1))
                             / Z2float (Z.of_nat (length (Fracture.FillF Fr_k)))) in
            _ ← return_if (k =? SimulationParameters.maxFrontItr Simulation_Parameters)%Z
                  ((6%Z, None), out);
            front_loop fuel Frac C TimeStep Qin Material_properties Fluid_properties
                       Simulation_Parameters norm k Fr_k w_k exitstatus out
        | None => Exc AttributeError
        end
    end
  else Next ((exitstatus, Some Fr_k), out).

(** Lines 58-62 of [attempt_time_step_viscousFluid]: the injection rate at
    the time of the fracture, put in the source cells. *)
Definition current_injection (Frac : Fracture.t)
    (Injection_Parameters : InjectionProperties.t) : res vec :=
  body (
    times ← getitem (InjectionProperties.injectionRate Injection_Parameters) 0;
    indxCurTime ← py_max_int (np_where (fun t => t <=? Fracture.time Frac) times);
    CurrentRate ← getitem2 (InjectionProperties.injectionRate Injection_Parameters) 1
                           indxCurTime;
    fill (replicate (CartesianMesh.NumberOfElts (Fracture.mesh Frac)) 0)
         (InjectionProperties.source_location Injection_Parameters) CurrentRate).

(** [attempt_time_step_viscousFluid], lines 21-116.  The result is the
    returned pair, the elasticity matrix as the call leaves it, and what the
    call printed. *)
Definition attempt_time_step_viscousFluid (fuel : nat) (Frac : Fracture.t) (C : matrix)
    (Material_properties : MaterialProperties.t) (Fluid_properties : FluidProperties.t)
    (Simulation_Parameters : SimulationParameters.t)
    (Injection_Parameters : InjectionProperties.t) (TimeStep : float)
  : res ((Z * option Fracture.t) * matrix * list message) :=
  body (
    times ← getitem (InjectionProperties.injectionRate Injection_Parameters) 0;
    indxCurTime ← py_max_int (np_where (fun t => t <=? Fracture.time Frac) times);
    CurrentRate ← getitem2 (InjectionProperties.injectionRate Injection_Parameters) 1
                           indxCurTime;
    Qin ← fill (replicate (CartesianMesh.NumberOfElts (Fracture.mesh Frac)) 0)
               (InjectionProperties.source_location Injection_Parameters) CurrentRate;
    '((exitstatus, w_k), C, out) ←
      call (injection_same_footprint Frac C TimeStep Qin Material_properties
                                     Fluid_properties Simulation_Parameters);
    _ ← return_if (negb (exitstatus =? 1)%Z) ((exitstatus, None), C, out);
    match w_k with
    | Some w_k =>
        '(r, out) ← call (body (front_loop fuel Frac C TimeStep Qin Material_properties
                                            Fluid_properties Simulation_Parameters
                                            10 0%Z Frac w_k exitstatus out));
        Ret (r, C, out)
    | None => Exc TypeError
    end).

End Step.
End TimeSteppingViscousFluid.

(** ** TimeSteppingVolumeControl.py

    The functions are modelled for the default [performance_node=None] and
    [PerfNode=None]; the bookkeeping of performance nodes is left out, and
    so are the prints, which depend on [verbosity].  The call that
    [Controller.advance_time_step] makes, with the mesh in the place of
    [PerfNode], is modelled apart as
    [attempt_time_step_volumeControl_PerfNode]. *)

Module TimeSteppingVolumeControl.

Import ElastoHydrodynamicSolver Shared.
Local Open Scope float_scope.

Section Step.
Context `{NumLib} `{PyFracModules}.

(** [injection_same_footprint_volumeControl], lines 219-293.  The result is
    the returned pair and the elasticity matrix [C] as the call leaves it. *)
Definition injection_same_footprint_volumeControl (Fr_lstTmStp : Fracture.t) (C : matrix)
    (timeStep : float) (Q : float) : res ((Z * option vec) * matrix) :=
  let EltTip := Fracture.EltTip Fr_lstTmStp in
  let EltCrack := Fracture.EltCrack Fr_lstTmStp in
  body (
    C_EltTip ← ix_get C EltTip EltTip;
    C ← tip_correction C (Fracture.FillF Fr_lstTmStp) EltTip 0;
    '(A, b) ← call (MakeEquationSystem_volumeControl_sameFP
                      (Fracture.w Fr_lstTmStp) EltCrack C timeStep Q
                      (CartesianMesh.EltArea (Fracture.mesh Fr_lstTmStp)));
    sol ← call (np_linalg_solve A b);
    dw ← take sol (seq 0 (length EltCrack));
    w_k ← iadd (Fracture.w Fr_lstTmStp) EltCrack dw;
    (* regain original C (without filling fraction correction) *)
    C ← ix_put C EltTip EltTip C_EltTip;
    if isnan_any w_k then Ret ((5%Z, None), C) else Ret ((1%Z, Some w_k), C)).

(** [(32 / math.pi) ** 0.5] *)
Definition Kprime_factor {R} : ctl R float := call (pow (32 / np_pi) 0.5).

(** Lines 373-392 and, in the explicit step, lines 969-986: the signed
    distance in the ribbon cells by inversion of the tip asymptote, bounded
    by the signed distance of the last time step.  The other cells hold
    1e10.  [failed 7] is returned from the function when the inversion gives
    a NaN. *)
Definition invert_tip_asymptote {R} (failed : Z -> R) (w : vec) (Fr_lstTmStp : Fracture.t)
    (Material_properties : MaterialProperties.t) (sim_parameters : SimulationParameters.t)
    (timeStep : float) (Kprime_k : option vec) : ctl R vec :=
  let EltRibbon := Fracture.EltRibbon Fr_lstTmStp in
  let sgndDist_k :=
    vscale 1e10 (replicate (CartesianMesh.NumberOfElts (Fracture.mesh Fr_lstTmStp)) 1) in
  inv ← call (TipAsymInversion w Fr_lstTmStp Material_properties sim_parameters timeStep
                               Kprime_k);
  sgndDist_k ← put sgndDist_k EltRibbon (vneg inv);
  r ← take sgndDist_k EltRibbon;
  _ ← return_if (isnan_any r) (failed 7%Z);
  last ← take (Fracture.sgndDist Fr_lstTmStp) EltRibbon;
  m ← vbinop np_minimum1 r last;
  put sgndDist_k EltRibbon m.

(** Lines 350-368 and 947-966: the under-relaxed toughness at the ribbon
    cells; [failed 11] is returned when the projection is not found. *)
Definition relax_toughness {R} (failed : Z -> R) (Fr_lstTmStp : Fracture.t)
    (Material_properties : MaterialProperties.t) (sgndDist_k : vec) (Kprime_k : option vec)
  : ctl R (option vec) :=
  let EltRibbon := Fracture.EltRibbon Fr_lstTmStp in
  let mesh := Fracture.mesh Fr_lstTmStp in
  if negb (is_None (MaterialProperties.K1cFunc Material_properties)) then
    alpha_ribbon ← call (projection_from_ribbon EltRibbon (Fracture.EltChannel Fr_lstTmStp)
                                                mesh sgndDist_k);
    _ ← return_if (isnan_any alpha_ribbon) (failed 11%Z);
    K ← call (get_toughness_from_cellCenter alpha_ribbon sgndDist_k EltRibbon
                                            Material_properties mesh);
    match Kprime_k with
    | None => Exc TypeError
    | Some Kprime_k =>
        factor ← Kprime_factor;
        Kprime_k ← vbinop add (vscale 0.3 Kprime_k) (map (fun x => 0.7 * x * factor) K);
        _ ← return_if (isnan_any Kprime_k) (failed 11%Z);
        Next (Some Kprime_k)
    end
  else Next None.

(** Lines 333-343 and 928-939: the first estimate of the toughness. *)
Definition initial_toughness {R} (Fr_lstTmStp : Fracture.t)
    (Material_properties : MaterialProperties.t) (sgndDist_k : vec)
  : ctl R (option vec * option vec) :=
  if negb (is_None (MaterialProperties.K1cFunc Material_properties)) then
    alpha_ribbon ← call (projection_from_ribbon (Fracture.EltRibbon Fr_lstTmStp)
                           (Fracture.EltChannel Fr_lstTmStp) (Fracture.mesh Fr_lstTmStp)
                           sgndDist_k);
    K ← call (get_toughness_from_cellCenter alpha_ribbon sgndDist_k
                (Fracture.EltRibbon Fr_lstTmStp) Material_properties
                (Fracture.mesh Fr_lstTmStp));
    factor ← Kprime_factor;
    let Kprime_k := vscale factor K in
    Next (Some Kprime_k, Some (vscale 0 Kprime_k))
  else Next (None, None).

(** [np.linalg.norm(1 - abs(Kprime_k / Kprime_km1))] *)
Definition toughness_norm {R} (Kprime_k Kprime_km1 : option vec) : ctl R float :=
  match Kprime_k, Kprime_km1 with
  | Some K, Some Km1 =>
      q ← vbinop div K Km1;
      Next (np_linalg_norm (map (fun x => 1 - x) (vabs q)))
  | _, None => Exc UnboundLocalError
  | None, Some _ => Exc TypeError
  end.

(** The toughness loop of [injection_extended_footprint_volumeControl],
    lines 346-435: [while itr < sim_parameters.maxToughnessItr].  It ends
    with the values of [itr] and [sgndDist_k], or returns from the
    function. *)
Fixpoint toughness_loop {R} (fuel : nat) (failed : Z -> R) (w_k : vec)
    (Fr_lstTmStp : Fracture.t) (timeStep : float)
    (Material_properties : MaterialProperties.t) (sim_parameters : SimulationParameters.t)
    (itr : Z) (sgndDist_k : vec) (Kprime_k Kprime_km1 : option vec) : ctl R (Z * vec) :=
  let mesh := Fracture.mesh Fr_lstTmStp in
  if (itr <? SimulationParameters.maxToughnessItr sim_parameters)%Z then
    match fuel with
    | O => Exc NonTermination
    | S fuel =>
        Kprime_k ← relax_toughness failed Fr_lstTmStp Material_properties sgndDist_k Kprime_k;
        sgndDist_k ← invert_tip_asymptote failed w_k Fr_lstTmStp Material_properties
                       sim_parameters timeStep Kprime_k;
        '(front_region, pstv, ngtv) ←
          search_regions (Fracture.sgndDist Fr_lstTmStp) mesh
            (SimulationParameters.tmStpPrefactor sim_parameters * 6.66);
        sgndDist_k ← call (SolveFMM sgndDist_k (Fracture.EltRibbon Fr_lstTmStp)
                                    (Fracture.EltChannel Fr_lstTmStp) mesh pstv ngtv);
        outside ← take sgndDist_k pstv;
        largest ← py_max outside;
        _ ← return_if ((largest =? 1e10) || (largest =? 1e10)) (failed 2%Z);
        if is_None (MaterialProperties.K1cFunc Material_properties)
        then Next (itr, sgndDist_k)
        else
          n ← toughness_norm Kprime_k Kprime_km1;
          size ← call (pow (Z2float (Z.of_nat (length (default [] Kprime_k)))) 0.5);
          let norm := n / size in
          if norm <? SimulationParameters.toleranceToughness sim_parameters
          then Next (itr, sgndDist_k)
          else toughness_loop fuel failed w_k Fr_lstTmStp timeStep Material_properties
                              sim_parameters (itr + 1)%Z sgndDist_k Kprime_k Kprime_k
    end
  else Next (itr, sgndDist_k).

(** [abs(1 - sgndDist_k[EltsTipNew] / Fr_lstTmStp.sgndDist[EltsTipNew]) < 1e-5] *)
Definition stagnant_tip {R} (sgndDist_k sgndDist : vec) (EltsTipNew : list nat)
  : ctl R (list bool) :=
  a ← take sgndDist_k EltsTipNew;
  b ← take sgndDist EltsTipNew;
  q ← vbinop div a b;
  Next (map (fun x => abs (1 - x) <? 1e-5) q).

(** Lines 507-516 and 786-795: the toughness at the new tip cells. *)
Definition tip_toughness {R} (Material_properties : MaterialProperties.t)
    (EltsTipNew : list nat) (sgndDist_k : vec) (mesh : CartesianMesh.t) (alpha_k l_k : vec)
  : ctl R (option vec) :=
  if negb (is_None (MaterialProperties.K1cFunc Material_properties)) then
    zrVrtx_newTip ← call (find_zero_vertex EltsTipNew sgndDist_k mesh);
    K ← call (get_toughness_from_zeroVertex EltsTipNew mesh Material_properties alpha_k l_k
                                            zrVrtx_newTip);
    factor ← Kprime_factor;
    Next (Some (vscale factor K))
  else Next None.

(** The pair that a failed step returns, with the elasticity matrix [C]. *)
Definition failed (C : matrix) (exitstatus : Z) : (Z * option Fracture.t) * matrix :=
  ((exitstatus, None), C).

(** Lines 441-662 of [injection_extended_footprint_volumeControl]: the new
    footprint for the level set [sgndDist_k] that the toughness loop has
    left, and the solve on it. *)
Definition extend_footprint_volumeControl (sgndDist_k : vec) (w_k : vec)
    (Fr_lstTmStp : Fracture.t) (C : matrix) (timeStep : float) (Qin : float)
    (Material_properties : MaterialProperties.t) (sim_parameters : SimulationParameters.t)
  : ctl ((Z * option Fracture.t) * matrix) ((Z * option Fracture.t) * matrix) :=
  let mesh := Fracture.mesh Fr_lstTmStp in
  let EltArea := CartesianMesh.EltArea mesh in
  let EltChannel := Fracture.EltChannel Fr_lstTmStp in
  let failed := failed C in
    '(EltsTipNew, l_k, alpha_k, CellStatus) ← call (reconstruct_front sgndDist_k EltChannel mesh);
    not_tracked ← front_not_tracked alpha_k l_k;
    _ ← return_if not_tracked (failed 3%Z);
    at_boundary ← tip_at_grid_boundary mesh EltsTipNew;
    _ ← return_if at_boundary (failed 12%Z);
    InCrack_k ← make_InCrack mesh EltChannel EltsTipNew;
    Vel_k ← front_velocity sgndDist_k (Fracture.sgndDist Fr_lstTmStp) EltsTipNew timeStep;
    area ← call (Integral_over_cell EltsTipNew alpha_k l_k mesh "A" no_kwargs);
    let FillFrac_k := map (fun x => x / EltArea) area in
    let FillFrac_k := round_filling_fraction 1e-4 FillFrac_k in
    _ ← return_if (filling_fraction_not_correct FillFrac_k) (failed 9%Z);
    '(EltChannel_k, EltTip_k, EltCrack_k, EltRibbon_k, zrVertx_k, CellStatus_k) ←
      call (UpdateLists EltChannel EltsTipNew FillFrac_k sgndDist_k mesh);
    let partlyFilledTip := partly_filled EltsTipNew EltTip_k in
    Kprime_tip ← tip_toughness Material_properties EltsTipNew sgndDist_k mesh alpha_k l_k;
    stagnant ← stagnant_tip sgndDist_k (Fracture.sgndDist Fr_lstTmStp) EltsTipNew;
    let kwargs :=
      {| kw_frac := None; kw_mat_prop := Some Material_properties; kw_muPrime := None;
         kw_Vel := Some Vel_k; kw_Kprime := Kprime_tip; kw_stagnant := None;
         kw_KIPrime := None |} in
    wTip ←
      (if existsb id stagnant then
         KIPrime ← call (StressIntensityFactor w_k sgndDist_k EltsTipNew EltRibbon_k stagnant
                                               mesh (MaterialProperties.Eprime Material_properties));
         _ ← return_if (isnan_any KIPrime) (failed 8%Z);
         vol ← call (Integral_over_cell EltsTipNew alpha_k l_k mesh
                       (SimulationParameters.tipAsymptote sim_parameters)
                       {| kw_frac := None; kw_mat_prop := Some Material_properties;
                          kw_muPrime := None; kw_Vel := Some Vel_k; kw_Kprime := Kprime_tip;
                          kw_stagnant := Some stagnant; kw_KIPrime := Some KIPrime |});
         Next (map (fun x => x / EltArea) vol)
       else
         vol ← call (Integral_over_cell EltsTipNew alpha_k l_k mesh
                       (SimulationParameters.tipAsymptote sim_parameters) kwargs);
         Next (map (fun x => x / EltArea) vol));
    _ ← return_if (any (fun x => x <? 0) wTip) (failed 4%Z);
    tips ← take EltsTipNew partlyFilledTip;
    C_EltTip ← ix_get C tips tips;
    (* filling fraction correction for element in the tip region *)
    FillF ← take FillFrac_k partlyFilledTip;
    C ← tip_correction C FillF tips 0;
    '(A, b) ← call (MakeEquationSystem_volumeControl_extendedFP
                      (Fracture.w Fr_lstTmStp) wTip EltChannel EltsTipNew C timeStep Qin
                      EltArea);
    sol ← call (np_linalg_solve A b);
    (* regain original C (without filling fraction correction) *)
    C ← ix_put C tips tips C_EltTip;
    dw ← take sol (seq 0 (length EltChannel));
    w ← iadd (Fracture.w Fr_lstTmStp) EltChannel dw;
    w ← put w EltsTipNew wTip;
    _ ← return_if (isnan_any w) ((5%Z, None), C);
    _ ← return_if (any (fun x => x <? 0) w) ((5%Z, None), C);
    FillF ← take FillFrac_k partlyFilledTip;
    pressure ← getitem sol (length sol - 1);
    p ← fill (replicate (CartesianMesh.NumberOfElts mesh) 0) EltCrack_k pressure;
    alpha ← take alpha_k partlyFilledTip;
    l ← take l_k partlyFilledTip;
    v ← take Vel_k partlyFilledTip;
    Fr_kplus1 ← call (process_fracture_front
      {| Fracture.mesh := mesh;
         Fracture.time := Fracture.time Fr_lstTmStp + timeStep;
         Fracture.w := w; Fracture.p := p; Fracture.sgndDist := sgndDist_k;
         Fracture.sgndDist_last := Some (Fracture.sgndDist Fr_lstTmStp);
         Fracture.timeStep_last := Some timeStep;
         Fracture.EltChannel := EltChannel_k; Fracture.EltTip := EltTip_k;
         Fracture.EltCrack := EltCrack_k; Fracture.EltRibbon := EltRibbon_k;
         Fracture.ZeroVertex := zrVertx_k; Fracture.InCrack := InCrack_k;
         Fracture.FillF := FillF; Fracture.alpha := alpha; Fracture.l := l;
         Fracture.v := Some v; Fracture.muPrime := Fracture.muPrime Fr_lstTmStp;
         Fracture.FractureVolume := Fracture.FractureVolume Fr_lstTmStp;
         Fracture.regime := Fracture.regime Fr_lstTmStp |});
    Ret ((1%Z, Some (Fracture.set_FractureVolume
                       (np_sum (Fracture.w Fr_kplus1)
                        * CartesianMesh.EltArea (Fracture.mesh Fr_kplus1)) Fr_kplus1)), C).

(** [injection_extended_footprint_volumeControl], lines 297-662.  The result
    is the returned pair and the elasticity matrix [C] as the call leaves
    it. *)
Definition injection_extended_footprint_volumeControl (w_k : vec) (Fr_lstTmStp : Fracture.t)
    (C : matrix) (timeStep : float) (Qin : float)
    (Material_properties : MaterialProperties.t) (sim_parameters : SimulationParameters.t)
  : res ((Z * option Fracture.t) * matrix) :=
  let maxToughnessItr := SimulationParameters.maxToughnessItr sim_parameters in
  body (
    let sgndDist_k := Fracture.sgndDist Fr_lstTmStp in
    '(Kprime_k, Kprime_km1) ← initial_toughness Fr_lstTmStp Material_properties sgndDist_k;
    '(itr, sgndDist_k) ←
      toughness_loop (Z.to_nat (maxToughnessItr - 1)) (failed C) w_k Fr_lstTmStp timeStep
                     Material_properties sim_parameters 1%Z sgndDist_k Kprime_k Kprime_km1;
    extend_footprint_volumeControl sgndDist_k w_k Fr_lstTmStp C timeStep Qin
                                   Material_properties sim_parameters).

(** The toughness loop of [time_step_explicit_front_volumeControl], lines
    942-1027, run on the width [w] of the new fracture.  It ends with the
    values of [sgndDist_k] and [Kprime_k], or returns from the function. *)
Fixpoint toughness_loop_explicit {R} (fuel : nat) (failed : Z -> R) (w : vec)
    (Fr_lstTmStp : Fracture.t) (timeStep : float)
    (Material_properties : MaterialProperties.t) (sim_parameters : SimulationParameters.t)
    (itr : Z) (sgndDist_k : vec) (Kprime_k Kprime_km1 : option vec)
  : ctl R (vec * option vec) :=
  let mesh := Fracture.mesh Fr_lstTmStp in
  if (itr <? SimulationParameters.maxToughnessItr sim_parameters)%Z then
    match fuel with
    | O => Exc NonTermination
    | S fuel =>
        l_m1 ← take sgndDist_k (Fracture.EltRibbon Fr_lstTmStp);
        Kprime_k ← relax_toughness failed Fr_lstTmStp Material_properties sgndDist_k Kprime_k;
        sgndDist_k ← invert_tip_asymptote failed w Fr_lstTmStp Material_properties
                       sim_parameters timeStep Kprime_k;
        '(front_region, pstv, ngtv) ←
          search_regions (Fracture.sgndDist Fr_lstTmStp) mesh
            (SimulationParameters.tmStpPrefactor sim_parameters * 6.66);
        sgndDist_k ← call (SolveFMM sgndDist_k (Fracture.EltRibbon Fr_lstTmStp)
                                    (Fracture.EltChannel Fr_lstTmStp) mesh pstv ngtv);
        if negb (MaterialProperties.anisotropic Material_properties)
        then Next (sgndDist_k, Kprime_k)
        else
          norm ← toughness_norm Kprime_k Kprime_km1;
          if norm <? SimulationParameters.toleranceToughness sim_parameters
          then Next (sgndDist_k, Kprime_k)
          else toughness_loop_explicit fuel failed w Fr_lstTmStp timeStep Material_properties
                 sim_parameters (itr + 1)%Z sgndDist_k Kprime_k Kprime_k
    end
  else Next (sgndDist_k, Kprime_k).

(** [time_step_explicit_front_volumeControl], lines 667-1046.  The call
    reads the elasticity matrix and does not assign into it. *)
Definition time_step_explicit_front_volumeControl (Fr_lstTmStp : Fracture.t) (C : matrix)
    (timeStep : float) (Qin : float) (Material_properties : MaterialProperties.t)
    (sim_parameters : SimulationParameters.t) : res (Z * option Fracture.t) :=
  let mesh := Fracture.mesh Fr_lstTmStp in
  let EltArea := CartesianMesh.EltArea mesh in
  let EltChannel := Fracture.EltChannel Fr_lstTmStp in
  let EltTip := Fracture.EltTip Fr_lstTmStp in
  let EltRibbon := Fracture.EltRibbon Fr_lstTmStp in
  let tipAsymptote := SimulationParameters.tipAsymptote sim_parameters in
  let failed (exitstatus : Z) : Z * option Fracture.t := (exitstatus, None) in
  body (
    let sgndDist_k := vscale 1e10 (replicate (CartesianMesh.NumberOfElts mesh) 1) in
    sgndDist_k ← fill sgndDist_k EltChannel 0;
    tipDist ← take (Fracture.sgndDist Fr_lstTmStp) EltTip;
    v ← match Fracture.v Fr_lstTmStp with Some v => Next v | None => Exc TypeError end;
    advanced ← vbinop sub tipDist (vscale timeStep v);
    sgndDist_k ← put sgndDist_k EltTip advanced;
    '(front_region, pstv, ngtv) ←
      search_regions (Fracture.sgndDist Fr_lstTmStp) mesh
        (SimulationParameters.tmStpPrefactor sim_parameters * 6.66);
    sgndDist_k ← call (SolveFMM sgndDist_k EltTip (Fracture.EltCrack Fr_lstTmStp) mesh
                                pstv ngtv);
    '(EltsTipNew, l_k, alpha_k, CellStatus) ← call (reconstruct_front sgndDist_k EltChannel mesh);
    not_tracked ← front_not_tracked alpha_k l_k;
    _ ← return_if not_tracked (failed 3%Z);
    at_boundary ← tip_at_grid_boundary mesh EltsTipNew;
    _ ← return_if at_boundary (failed 12%Z);
    InCrack_k ← make_InCrack mesh EltChannel EltsTipNew;
    area ← call (Integral_over_cell EltsTipNew alpha_k l_k mesh "A" no_kwargs);
    let FillFrac_k := map (fun x => x / EltArea) area in
    let FillFrac_k := round_filling_fraction 1e-4 FillFrac_k in
    _ ← return_if (filling_fraction_not_correct FillFrac_k) (failed 9%Z);
    '(EltChannel_k, EltTip_k, EltCrack_k, EltRibbon_k, zrVertx_k, CellStatus_k) ←
      call (UpdateLists EltChannel EltsTipNew FillFrac_k sgndDist_k mesh);
    let partlyFilledTip := partly_filled EltsTipNew EltTip_k in
    Kprime_tip ← tip_toughness Material_properties EltsTipNew sgndDist_k mesh alpha_k l_k;
    Vel_k ← front_velocity sgndDist_k (Fracture.sgndDist Fr_lstTmStp) EltsTipNew timeStep;
    let stagnant := map (fun x => x <? 1e-14) Vel_k in
    let stagnant :=
      if existsb id stagnant && negb (String.eqb tipAsymptote "U")
      then replicate (length EltsTipNew) false else stagnant in
    wTip ←
      (if existsb id stagnant then
         KIPrime ← call (StressIntensityFactor (Fracture.w Fr_lstTmStp) sgndDist_k EltsTipNew
                           EltRibbon_k stagnant mesh
                           (MaterialProperties.Eprime Material_properties));
         _ ← return_if (isnan_any KIPrime) (failed 8%Z);
         vol ← call (Integral_over_cell EltsTipNew alpha_k l_k mesh tipAsymptote
                       {| kw_frac := Some Fr_lstTmStp; kw_mat_prop := Some Material_properties;
                          kw_muPrime := None; kw_Vel := Some Vel_k; kw_Kprime := None;
                          kw_stagnant := Some stagnant; kw_KIPrime := Some KIPrime |});
         Next (map (fun x => x / EltArea) vol)
       else
         vol ← call (Integral_over_cell EltsTipNew alpha_k l_k mesh tipAsymptote
                       {| kw_frac := Some Fr_lstTmStp; kw_mat_prop := Some Material_properties;
                          kw_muPrime := None; kw_Vel := Some Vel_k; kw_Kprime := Kprime_tip;
                          kw_stagnant := Some stagnant; kw_KIPrime := None |});
         Next (map (fun x => x / EltArea) vol));
    _ ← return_if (any (fun x => x <? 0) wTip || (py_sum wTip =? 0)) (failed 4%Z);
    '(A, b) ← call (MakeEquationSystem_volumeControl_extendedFP
                      (Fracture.w Fr_lstTmStp) wTip EltChannel EltsTipNew C timeStep Qin
                      EltArea);
    sol ← call (np_linalg_solve A b);
    dw ← take sol (seq 0 (length EltChannel));
    w ← iadd (Fracture.w Fr_lstTmStp) EltChannel dw;
    w ← put w EltsTipNew wTip;
    _ ← return_if (isnan_any w) (failed 5%Z);
    _ ← return_if (any (fun x => x <? 0) w) (failed 5%Z);
    FillF ← take FillFrac_k partlyFilledTip;
    Ccc ← ix_get C EltCrack_k EltCrack_k;
    wc ← take w EltCrack_k;
    pc ← call (np_dot Ccc wc);
    p ← put (Fracture.p Fr_lstTmStp) EltCrack_k pc;
    alpha ← take alpha_k partlyFilledTip;
    l ← take l_k partlyFilledTip;
    Fr_kplus1 ← call (process_fracture_front
      {| Fracture.mesh := mesh;
         Fracture.time := Fracture.time Fr_lstTmStp + timeStep;
         Fracture.w := w; Fracture.p := p;
         Fracture.sgndDist := Fracture.sgndDist Fr_lstTmStp;
         Fracture.sgndDist_last := Fracture.sgndDist_last Fr_lstTmStp;
         Fracture.timeStep_last := Fracture.timeStep_last Fr_lstTmStp;
         Fracture.EltChannel := EltChannel_k; Fracture.EltTip := EltTip_k;
         Fracture.EltCrack := EltCrack_k; Fracture.EltRibbon := EltRibbon_k;
         Fracture.ZeroVertex := zrVertx_k; Fracture.InCrack := InCrack_k;
         Fracture.FillF := FillF; Fracture.alpha := alpha; Fracture.l := l;
         Fracture.v := Fracture.v Fr_lstTmStp; Fracture.muPrime := Fracture.muPrime Fr_lstTmStp;
         Fracture.FractureVolume := Fracture.FractureVolume Fr_lstTmStp;
         Fracture.regime := Fracture.regime Fr_lstTmStp |});
    let Fr_kplus1 :=
      Fracture.set_FractureVolume
        (np_sum (Fracture.w Fr_kplus1) * CartesianMesh.EltArea (Fracture.mesh Fr_kplus1))
        Fr_kplus1 in
    '(sgndDist_k, v, regime) ←
      (if String.eqb (SimulationParameters.frontAdvancing sim_parameters) "explicit" then
         '(Kprime_k, Kprime_km1) ← initial_toughness Fr_lstTmStp Material_properties sgndDist_k;
         '(sgndDist_k, Kprime_k) ←
           toughness_loop_explicit
             (Z.to_nat (SimulationParameters.maxToughnessItr sim_parameters)) failed
             (Fracture.w Fr_kplus1) Fr_lstTmStp timeStep Material_properties sim_parameters
             0%Z sgndDist_k Kprime_k Kprime_km1;
         v ← front_velocity sgndDist_k (Fracture.sgndDist Fr_lstTmStp)
               (Fracture.EltTip Fr_kplus1) timeStep;
         regime ←
           (if SimulationParameters.saveRegime sim_parameters then
              (* [Kprime_k] is assigned at line 932 or in the first pass of the loop *)
              _ ← raise_if (is_None (MaterialProperties.K1cFunc Material_properties)
                            && (SimulationParameters.maxToughnessItr sim_parameters <=? 0)%Z)
                           UnboundLocalError;
              r ← take sgndDist_k EltRibbon;
              regime_t ← call (find_regime (Fracture.w Fr_kplus1) Fr_lstTmStp
                                 Material_properties sim_parameters timeStep Kprime_k (vneg r));
              _ ← raise_if (negb (bool_decide (length regime_t = length EltRibbon))) ValueError;
              Next (Some [regime_t; map (fun e => Z2float (Z.of_nat e)) EltRibbon])
            else Next (Fracture.regime Fr_kplus1));
         Next (sgndDist_k, Some v, regime)
       else Next (sgndDist_k, None, Fracture.regime Fr_kplus1));
    Ret (1%Z, Some (Fracture.set_front Fr_kplus1 sgndDist_k
                      (Fracture.sgndDist Fr_lstTmStp) timeStep v regime))).

(** The fracture front loop of [attempt_time_step_volumeControl], lines
    157-207: [while norm > Simulation_Parameters.tolFractFront].  A cap
    [maxFrontItr] below 1 is never met by [k], so [fuel] bounds the
    iterations. *)
Fixpoint front_loop (fuel : nat) (Frac : Fracture.t) (TimeStep : float) (Qin : float)
    (Material_properties : MaterialProperties.t)
    (Simulation_Parameters : SimulationParameters.t)
    (norm : float) (k : Z) (Fr_k : Fracture.t) (w_k : vec) (exitstatus : Z) (C : matrix)
  : ctl ((Z * option Fracture.t) * matrix) ((Z * option Fracture.t) * matrix) :=
  if SimulationParameters.tolFractFront Simulation_Parameters <? norm then
    match fuel with
    | O => Exc NonTermination
    | S fuel =>
        let k := (k + 1)%Z in
        let fill_frac_last := Fracture.FillF Fr_k in
        '((exitstatus, Fr_new), C) ←
          call (injection_extended_footprint_volumeControl w_k Frac C TimeStep Qin
                  Material_properties Simulation_Parameters);
        _ ← return_if (negb (exitstatus =? 1)%Z) ((exitstatus, None), C);
        match Fr_new with
        | Some Fr_k =>
            let w_k := Fracture.w Fr_k in
            _ ← raise_if (bool_decide (Fracture.FillF Fr_k = [])
                          && bool_decide (fill_frac_last = [])) ZeroDivisionError;
            let norm := abs ((py_sum (Fracture.FillF Fr_k) - py_sum fill_frac_last)
                             / Z2float (Z.of_nat (length (Fracture.FillF Fr_k)))) in
            _ ← return_if (k =? SimulationParameters.maxFrontItr Simulation_Parameters)%Z
                  ((6%Z, None), C);
            front_loop fuel Frac TimeStep Qin Material_properties Simulation_Parameters
                       norm k Fr_k w_k exitstatus C
        | None => Exc AttributeError
        end
    end
  else Next ((exitstatus, Some Fr_k), C).

(** [attempt_time_step_volumeControl], lines 19-215, for [PerfNode=None].
    The result is the returned pair and the elasticity matrix as the call
    leaves it. *)
Definition attempt_time_step_volumeControl (fuel : nat) (Frac : Fracture.t) (C : matrix)
    (Material_properties : MaterialProperties.t)
    (Simulation_Parameters : SimulationParameters.t)
    (Injection_Parameters : InjectionProperties.t) (TimeStep : float)
  : res ((Z * option Fracture.t) * matrix) :=
  let frontAdvancing := SimulationParameters.frontAdvancing Simulation_Parameters in
  body (
    times ← getitem (InjectionProperties.injectionRate Injection_Parameters) 0;
    indxCurTime ← py_max_int (np_where (fun t => t <=? Fracture.time Frac) times);
    Qin ← getitem2 (InjectionProperties.injectionRate Injection_Parameters) 1 indxCurTime;
    '(exitstatus, w_k, C) ←
      (if String.eqb frontAdvancing "explicit" then
         r ← call (time_step_explicit_front_volumeControl Frac C TimeStep Qin
                     Material_properties Simulation_Parameters);
         Ret (r, C)
       else if String.eqb frontAdvancing "semi-implicit" then
         '(exitstatus, Fr_k) ←
           call (time_step_explicit_front_volumeControl Frac C TimeStep Qin
                   Material_properties Simulation_Parameters);
         Next (exitstatus, (if (exitstatus =? 1)%Z then Fracture.w <$> Fr_k else None), C)
       else if String.eqb frontAdvancing "implicit" then
         '((exitstatus, w_k), C) ←
           call (injection_same_footprint_volumeControl Frac C TimeStep Qin);
         Next (exitstatus, w_k, C)
       else Exc ValueError);
    _ ← return_if (negb (exitstatus =? 1)%Z) ((exitstatus, None), C);
    match w_k with
    | Some w_k =>
        call (body (front_loop fuel Frac TimeStep Qin Material_properties
                               Simulation_Parameters 1e10 0%Z Frac w_k exitstatus C))
    | None => Exc AttributeError
    end).

(** [attempt_time_step_volumeControl], lines 19-215, for a [PerfNode] that
    is not None and has no attribute [iterations], as the [Frac.mesh] that
    [Controller.advance_time_step] passes in that place (Controller.py line
    178; the attributes of a mesh are set in CartesianMesh.py lines 59-137).
    The first sub-step is handed a new [IterationProperties] node (lines 59,
    90 and 121), on which it only keeps records; when it has returned,
    [PerfNode.iterations += 1] (lines 74, 106 and 135) raises
    AttributeError.  The class [IterationProperties] is not among the
    sources: its instances are taken to hold the attributes that the
    sub-steps update. *)
Definition attempt_time_step_volumeControl_PerfNode (Frac : Fracture.t) (C : matrix)
    (Material_properties : MaterialProperties.t)
    (Simulation_Parameters : SimulationParameters.t)
    (Injection_Parameters : InjectionProperties.t) (TimeStep : float)
    (PerfNode : CartesianMesh.t)
  : res ((Z * option Fracture.t) * matrix) :=
  let frontAdvancing := SimulationParameters.frontAdvancing Simulation_Parameters in
  body (
    times ← getitem (InjectionProperties.injectionRate Injection_Parameters) 0;
    indxCurTime ← py_max_int (np_where (fun t => t <=? Fracture.time Frac) times);
    Qin ← getitem2 (InjectionProperties.injectionRate Injection_Parameters) 1 indxCurTime;
    if String.eqb frontAdvancing "explicit" then
      _ ← call (time_step_explicit_front_volumeControl Frac C TimeStep Qin
                  Material_properties Simulation_Parameters);
      (* PerfNode.iterations += 1 *)
      Exc AttributeError
    else if String.eqb frontAdvancing "semi-implicit" then
      _ ← call (time_step_explicit_front_volumeControl Frac C TimeStep Qin
                  Material_properties Simulation_Parameters);
      Exc AttributeError
    else if String.eqb frontAdvancing "implicit" then
      _ ← call (injection_same_footprint_volumeControl Frac C TimeStep Qin);
      Exc AttributeError
    else Exc ValueError).

End Step.
End TimeSteppingVolumeControl.

(** ** Controller.py *)

Module Controller.

Local Open Scope float_scope.

Section Controller.
Context `{NumLib}.

(** The three step functions that [advance_time_step] chooses from, each
    with its arguments after the time step fixed as the controller passes
    them: the fracture, the elasticity matrix, the simulation properties and
    the time step go in; the returned pair and the elasticity matrix come
    out.  For the viscous-fluid and the volume-control mode they are
    [viscousFluid_step] and [volumeControl_step_PerfNode] below;
    [TimeSteppingMechLoading] is not part of the sources modelled here. *)
Definition step_function :=
  Fracture.t -> matrix -> SimulationParameters.t -> float ->
  res ((Z * option Fracture.t) * matrix).

Variables attempt_time_step_viscousFluid attempt_time_step_mechLoading
          attempt_time_step_volumeControl : step_function.

(** [self.sim_prop.timeStep_limit = limit] *)
Definition set_timeStep_limit (limit : float) (s : SimulationParameters.t)
  : SimulationParameters.t :=
  {| SimulationParameters.toleranceEHL := SimulationParameters.toleranceEHL s;
     SimulationParameters.maxSolverItr := SimulationParameters.maxSolverItr s;
     SimulationParameters.tolFractFront := SimulationParameters.tolFractFront s;
     SimulationParameters.maxFrontItr := SimulationParameters.maxFrontItr s;
     SimulationParameters.toleranceToughness := SimulationParameters.toleranceToughness s;
     SimulationParameters.maxToughnessItr := SimulationParameters.maxToughnessItr s;
     SimulationParameters.tmStpPrefactor := SimulationParameters.tmStpPrefactor s;
     SimulationParameters.tipAsymptote := SimulationParameters.tipAsymptote s;
     SimulationParameters.frontAdvancing := SimulationParameters.frontAdvancing s;
     SimulationParameters.saveRegime := SimulationParameters.saveRegime s;
     SimulationParameters.maxReattempts := SimulationParameters.maxReattempts s;
     SimulationParameters.reAttemptFactor := SimulationParameters.reAttemptFactor s;
     SimulationParameters.timeStep_limit := limit;
     SimulationParameters.viscousInjection := SimulationParameters.viscousInjection s;
     SimulationParameters.dryCrack_mechLoading := SimulationParameters.dryCrack_mechLoading s;
     SimulationParameters.volumeControl := SimulationParameters.volumeControl s |}.

(** Lines 136-141: the time step that the reattempts start from, and the
    limit that is kept for the next call. *)
Definition limit_time_step (sim_prop : SimulationParameters.t) (TimeStep : float)
  : float * SimulationParameters.t :=
  let '(TimeStep, sim_prop) :=
    if SimulationParameters.timeStep_limit sim_prop <? TimeStep
    then (SimulationParameters.timeStep_limit sim_prop,
          set_timeStep_limit (SimulationParameters.timeStep_limit sim_prop * 1.8) sim_prop)
    else (TimeStep, sim_prop) in
  if TimeStep <? 0
  then (SimulationParameters.timeStep_limit sim_prop * 2, sim_prop)
  else (TimeStep, sim_prop).

(** Lines 145-149: the time step of reattempt [i]. *)
Definition smallerTimeStep (sim_prop : SimulationParameters.t) (TimeStep : float) (i : Z)
  : res float :=
  let reAttemptFactor := SimulationParameters.reAttemptFactor sim_prop in
  let maxReattempts := SimulationParameters.maxReattempts sim_prop in
  body (
    power ← call (pow reAttemptFactor (Z2float i));
    let smallerTimeStep := TimeStep * power in
    if Z2float maxReattempts / 2 - 1 <? Z2float i then
      _ ← raise_if (reAttemptFactor =? 0) ZeroDivisionError;
      power ← call (pow (1 / reAttemptFactor)
                        (Z2float (i + 1) - Z2float maxReattempts / 2));
      Next (TimeStep * power)
    else Next smallerTimeStep).

(** What a call of [advance_time_step] leaves behind: the returned pair, the
    elasticity matrix, the simulation properties (whose [timeStep_limit] the
    call may raise) and the lines printed. *)
Record advanced := {
  returned : Z * option Fracture.t;
  C_after : matrix;
  sim_prop_after : SimulationParameters.t;
  printed : list message
}.

(** Lines 153-178: the step function of the solver mode; without a mode,
    [status] and [Fr] keep the values of the reattempt before. *)
Definition dispatch (sim_prop : SimulationParameters.t) (Frac : Fracture.t) (C : matrix)
    (dt : float) (before : option (Z * option Fracture.t))
  : ctl advanced ((Z * option Fracture.t) * matrix) :=
  if SimulationParameters.viscousInjection sim_prop
  then call (attempt_time_step_viscousFluid Frac C sim_prop dt)
  else if SimulationParameters.dryCrack_mechLoading sim_prop
  then call (attempt_time_step_mechLoading Frac C sim_prop dt)
  else if SimulationParameters.volumeControl sim_prop
  then call (attempt_time_step_volumeControl Frac C sim_prop dt)
  else match before with
       | Some r => Next (r, C)
       | None => Exc UnboundLocalError
       end.

(** Lines 144-198: [for i in range(0, self.sim_prop.maxReattempts)], entered
    at reattempt [i] with [n] reattempts left, and the [return] after the
    loop.  The call of [self.output], which plots and saves, is left out. *)
Fixpoint reattempts (n : nat) (i : Z) (sim_prop : SimulationParameters.t)
    (Frac : Fracture.t) (C : matrix) (TimeStep : float)
    (before : option (Z * option Fracture.t)) (out : list message)
  : ctl advanced advanced :=
  match n with
  | O =>
      match before with
      | Some r => Next {| returned := r; C_after := C; sim_prop_after := sim_prop;
                          printed := out |}
      | None => Exc UnboundLocalError
      end
  | S n =>
      dt ← call (smallerTimeStep sim_prop TimeStep i);
      let out := out ++ [print_attempting_time_step dt] in
      '((status, Fr), C) ← dispatch sim_prop Frac C dt before;
      _ ← raise_if ((status <? -13)%Z || (12 <? status)%Z) IndexError;
      let out := out ++ [print_status status] in
      _ ← return_if ((status =? 1)%Z || (status =? 12)%Z)
            {| returned := (status, Fr); C_after := C; sim_prop_after := sim_prop;
               printed := out |};
      reattempts n (i + 1)%Z sim_prop Frac C TimeStep (Some (status, Fr))
                 (out ++ [print_time_step_failed])
  end.

(** [advance_time_step(self, Frac, C, TimeStep)], lines 103-198. *)
Definition advance_time_step (sim_prop : SimulationParameters.t) (Frac : Fracture.t)
    (C : matrix) (TimeStep : float) : res advanced :=
  let '(TimeStep, sim_prop) := limit_time_step sim_prop TimeStep in
  body (reattempts (Z.to_nat (SimulationParameters.maxReattempts sim_prop)) 0%Z sim_prop
                   Frac C TimeStep None []).

End Controller.
End Controller.

(** ** CartesianMesh.py: the constructor of the mesh *)

Module MeshInit.

Local Open Scope Z_scope.

(** [range(0, n)] *)
Definition range (n : Z) : list Z := map Z.of_nat (seq 0 (Z.to_nat n)).

(** Lines 97-107: the rows that the two loops assign to [conn], in the
    order of the counter [k]: the four vertices of each element,
    [3 2 / 0 1]. *)
Definition Connectivity (nx ny : Z) : list (list Z) :=
  concat (map (fun j =>
                 map (fun i => [i + j * (nx + 1);
                                (i + 1) + j * (nx + 1);
                                i + 1 + (j + 1) * (nx + 1);
                                i + (j + 1) * (nx + 1)])
                     (range nx))
              (range ny)).

End MeshInit.

(** ** Symmetry.py *)

Module Symmetry.

Local Open Scope Z_scope.

(** The value that an int64 holds after an operation whose exact result
    is [z]. *)
Definition int64 (z : Z) : Z := (z + 2 ^ 63) mod 2 ^ 64 - 2 ^ 63.

(** numpy's [%] and [//] on int64: the floored remainder and quotient, and 0
    for a zero divisor. *)
Definition np_mod (a b : Z) : Z := if b =? 0 then 0 else int64 (a mod b).
Definition np_floor_divide (a b : Z) : Z := if b =? 0 then 0 else int64 (a / b).

(** [get_symetric_elements(mesh, elements)], lines 11-26, for a mesh of
    [nx] by [ny] cells and an int64 array [elements]: one row for each
    element, with the element and its mirror images in the x axis, in the
    y axis and in both. *)
Definition get_symetric_elements (nx ny : Z) (elements : list Z) : list (list Z) :=
  map (fun e =>
         let i_x := np_mod e nx in
         let i_y := np_floor_divide e nx in
         let symetric_x := int64 (int64 (nx - i_x) - 1) in
         let symetric_y := int64 (int64 (ny - i_y) - 1) in
         [int64 (int64 (i_y * nx) + i_x);
          int64 (int64 (symetric_y * nx) + i_x);
          int64 (int64 (i_y * nx) + symetric_x);
          int64 (int64 (symetric_y * nx) + symetric_x)])
      elements.

End Symmetry.

(** ** Controller.py: the time-stepping loop of [run] *)

Module ControllerRun.

Import Controller.
Local Open Scope float_scope.

(** The attributes of [self.sim_prop] that [run] alone reads; the class of
    the simulation properties is not among the sources. *)
Record run_parameters := {
  FinalTime : float;
  maxTimeSteps : Z;
  solTimeSeries : vec;
  tmStpPrefactor_max : float
}.

(** What [run] keeps from one time step to the next: the local variables
    [Fr], [i], [tmSrs_indx] and [next_in_tmSrs], and the attributes [C],
    [sim_prop], [fr_queue] and [smallStep_cnt] of the controller. *)
Record run_state := {
  Fr : option Fracture.t;
  i : Z;
  tmSrs_indx : Z;
  next_in_tmSrs : float;
  C : matrix;
  sim_prop : SimulationParameters.t;
  fr_queue : list (option Fracture.t);
  smallStep_cnt : Z
}.

(** [self.sim_prop.tmStpPrefactor = prefactor] *)
Definition set_tmStpPrefactor (prefactor : float) (s : SimulationParameters.t)
  : SimulationParameters.t :=
  {| SimulationParameters.toleranceEHL := SimulationParameters.toleranceEHL s;
     SimulationParameters.maxSolverItr := SimulationParameters.maxSolverItr s;
     SimulationParameters.tolFractFront := SimulationParameters.tolFractFront s;
     SimulationParameters.maxFrontItr := SimulationParameters.maxFrontItr s;
     SimulationParameters.toleranceToughness := SimulationParameters.toleranceToughness s;
     SimulationParameters.maxToughnessItr := SimulationParameters.maxToughnessItr s;
     SimulationParameters.tmStpPrefactor := prefactor;
     SimulationParameters.tipAsymptote := SimulationParameters.tipAsymptote s;
     SimulationParameters.frontAdvancing := SimulationParameters.frontAdvancing s;
     SimulationParameters.saveRegime := SimulationParameters.saveRegime s;
     SimulationParameters.maxReattempts := SimulationParameters.maxReattempts s;
     SimulationParameters.reAttemptFactor := SimulationParameters.reAttemptFactor s;
     SimulationParameters.timeStep_limit := SimulationParameters.timeStep_limit s;
     SimulationParameters.viscousInjection := SimulationParameters.viscousInjection s;
     SimulationParameters.dryCrack_mechLoading := SimulationParameters.dryCrack_mechLoading s;
     SimulationParameters.volumeControl := SimulationParameters.volumeControl s |}.

(** Python's builtin [min] of two floats: the first unless the second is
    smaller. *)
Definition py_min (a b : float) : float := if b <? a then b else a.

Section Run.
Context `{NumLib}.

(** The step functions of [advance_time_step]; [np.max]; the method
    [Fr.remesh(2., self.C, self.solid_prop, self.fluid_prop,
    self.injection_prop, self.sim_prop)] of the Fracture class and
    [load_elasticity_matrix(mesh, Eprime)], neither among the sources, each
    with the properties of the controller fixed. *)
Variables attempt_time_step_viscousFluid attempt_time_step_mechLoading
          attempt_time_step_volumeControl : step_function.
Variable np_max : vec -> res float.
Variable remesh : Fracture.t -> float -> matrix -> SimulationParameters.t -> res Fracture.t.
Variable load_elasticity_matrix : CartesianMesh.t -> res matrix.
Variable p : run_parameters.

(** Lines 61-69: the time step from the current propagation velocity,
    shortened to meet the next time of the time series, with the position
    in the time series and the next time of it. *)
Definition choose_time_step {R} (Fr : Fracture.t) (st : run_state)
  : ctl R (float * Z * float) :=
  v ← match Fracture.v Fr with Some v => Next v | None => Exc TypeError end;
  largest ← call (np_max v);
  let TimeStep :=
    SimulationParameters.tmStpPrefactor (sim_prop st)
    * py_min (CartesianMesh.hx (Fracture.mesh Fr)) (CartesianMesh.hy (Fracture.mesh Fr))
    / largest in
  if next_in_tmSrs st <? Fracture.time Fr + TimeStep then
    let TimeStep := next_in_tmSrs st - Fracture.time Fr in
    let tmSrs_indx :=
      if (tmSrs_indx st <? Z.of_nat (length (solTimeSeries p)) - 1)%Z
      then (tmSrs_indx st + 1)%Z else tmSrs_indx st in
    next_in_tmSrs ← getitem (solTimeSeries p) (Z.to_nat tmSrs_indx);
    Next (TimeStep, tmSrs_indx, next_in_tmSrs)
  else Next (TimeStep, tmSrs_indx st, next_in_tmSrs st).

(** Lines 75-94: what is done with the status that [advance_time_step]
    returns for the fracture [Fr], and [i = i + 1]. *)
Definition after_time_step {R} (Fr : Fracture.t) (st : run_state) (tmSrs_indx : Z)
    (next_in_tmSrs : float) (a : advanced) : ctl R run_state :=
  let '(status, Fr_n_pls1) := returned a in
  let C := C_after a in
  let sim_prop := sim_prop_after a in
  if (status =? 1)%Z then
    let fr_queue := <[Z.to_nat (i st mod 5) := Fr_n_pls1]> (fr_queue st) in
    let smallStep_cnt := (smallStep_cnt st + 1)%Z in
    let sim_prop :=
      if (smallStep_cnt mod 4 =? 0)%Z
      then set_tmStpPrefactor (tmStpPrefactor_max p) sim_prop else sim_prop in
    Next {| Fr := Fr_n_pls1; i := (i st + 1)%Z; tmSrs_indx := tmSrs_indx;
            next_in_tmSrs := next_in_tmSrs; C := C; sim_prop := sim_prop;
            fr_queue := fr_queue; smallStep_cnt := smallStep_cnt |}
  else if (status =? 12)%Z then
    (* self.C *= 1/2. *)
    let C := map (map (fun x => x * (1 / 2))) C in
    Fr ← call (remesh Fr 2 C sim_prop);
    Next {| Fr := Some Fr; i := (i st + 1)%Z; tmSrs_indx := tmSrs_indx;
            next_in_tmSrs := next_in_tmSrs; C := C; sim_prop := sim_prop;
            fr_queue := fr_queue st; smallStep_cnt := smallStep_cnt st |}
  else
    let sim_prop :=
      set_tmStpPrefactor (SimulationParameters.tmStpPrefactor sim_prop * 0.8) sim_prop in
    check_point ← getitem (fr_queue st) (Z.to_nat ((i st + 1) mod 5));
    match check_point with
    | None => Exc (SystemExit "Simulation failed.")
    | Some check_point =>
        _ ← raise_if (SimulationParameters.tmStpPrefactor sim_prop <? 0.1)
              (SystemExit "Simulation failed.");
        Next {| Fr := Some check_point; i := (i st + 1)%Z; tmSrs_indx := tmSrs_indx;
                next_in_tmSrs := next_in_tmSrs; C := C; sim_prop := sim_prop;
                fr_queue := fr_queue st; smallStep_cnt := 0 |}
    end.

(** The body of the [while] loop, lines 60-94. *)
Definition time_step {R} (Fr : Fracture.t) (st : run_state) : ctl R run_state :=
  '(TimeStep, tmSrs_indx, next_in_tmSrs) ← choose_time_step Fr st;
  a ← call (advance_time_step attempt_time_step_viscousFluid attempt_time_step_mechLoading
              attempt_time_step_volumeControl (sim_prop st) Fr (C st) TimeStep);
  after_time_step Fr st tmSrs_indx next_in_tmSrs a.

(** [while (Fr.time < self.sim_prop.FinalTime) and (i <
    self.sim_prop.maxTimeSteps)], lines 59-94; [fuel] bounds the time steps
    left. *)
Fixpoint time_stepping_loop {R} (fuel : nat) (st : run_state) : ctl R run_state :=
  match Fr st with
  | None => Exc AttributeError
  | Some Fr =>
      if (Fracture.time Fr <? FinalTime p) && (i st <? maxTimeSteps p)%Z then
        match fuel with
        | O => Exc NonTermination
        | S fuel => st ← time_step Fr st; time_stepping_loop fuel st
        end
      else Next st
  end.

(** The state in which the loop is entered, lines 50-54. *)
Definition initial_state (fracture : Fracture.t) (C : matrix)
    (sim_prop : SimulationParameters.t) (next_in_tmSrs : float) : run_state :=
  {| Fr := Some fracture; i := 0; tmSrs_indx := 0; next_in_tmSrs := next_in_tmSrs;
     C := C; sim_prop := sim_prop; fr_queue := [None; None; None; None; None];
     smallStep_cnt := 0 |}.

(** [run(self)], lines 44-97, for a controller that has just been made from
    the fracture, the simulation properties and the elasticity matrix, if
    any; the result is the state in which the loop was left. *)
Definition run (fracture : Fracture.t) (sim_prop : SimulationParameters.t)
    (C : option matrix) : res run_state :=
  body (
    C ← match C with
        | None => call (load_elasticity_matrix (Fracture.mesh fracture))
        | Some C => Next C
        end;
    next_in_tmSrs ← getitem (solTimeSeries p) 0;
    _ ← raise_if (next_in_tmSrs <? Fracture.time fracture)
          (SystemExit ("The minimum time required in the given time series or the end time"
                       ++ " is less than initial time."));
    time_stepping_loop (Z.to_nat (maxTimeSteps p))
                       (initial_state fracture C sim_prop next_in_tmSrs)).

End Run.
End ControllerRun.

(** The viscous-fluid step as [advance_time_step] calls it, lines 153-160
    of Controller.py, for given material, fluid and injection properties;
    what the step prints is left out of the result. *)
Definition viscousFluid_step `{NumLib} `{PyFracModules} (fuel : nat)
    (solid_prop : MaterialProperties.t) (fluid_prop : FluidProperties.t)
    (injection_prop : InjectionProperties.t) : Controller.step_function :=
  fun Frac C sim_prop smallerTimeStep =>
    '(r, C, out) ← TimeSteppingViscousFluid.attempt_time_step_viscousFluid
                     fuel Frac C solid_prop fluid_prop sim_prop injection_prop
                     smallerTimeStep;
    Ok (r, C).

(** The volume-control step as [advance_time_step] calls it, lines 172-178
    of Controller.py: the seventh argument, [Frac.mesh], is taken by the
    parameter [PerfNode]. *)
Definition volumeControl_step_PerfNode `{NumLib} `{PyFracModules}
    (solid_prop : MaterialProperties.t) (injection_prop : InjectionProperties.t)
  : Controller.step_function :=
  fun Frac C sim_prop smallerTimeStep =>
    TimeSteppingVolumeControl.attempt_time_step_volumeControl_PerfNode
      Frac C solid_prop sim_prop injection_prop smallerTimeStep (Fracture.mesh Frac).

(** ** Utility.py *)

Module Utility.

Local Open Scope float_scope.

Section Utility.
Context `{NumLib} `{PyFracModules}.

(** [sim_parameters_tmp.set_tipAsymptote(tip_asymptote)] on the deep copy
    that [find_regime] makes of the simulation properties.  The class is
    not among the sources; the setter is called with the asymptotes 'K'
    and 'M' only. *)
Definition set_tipAsymptote (tip_asymptote : string) (s : SimulationParameters.t)
  : SimulationParameters.t :=
  {| SimulationParameters.toleranceEHL := SimulationParameters.toleranceEHL s;
     SimulationParameters.maxSolverItr := SimulationParameters.maxSolverItr s;
     SimulationParameters.tolFractFront := SimulationParameters.tolFractFront s;
     SimulationParameters.maxFrontItr := SimulationParameters.maxFrontItr s;
     SimulationParameters.toleranceToughness := SimulationParameters.toleranceToughness s;
     SimulationParameters.maxToughnessItr := SimulationParameters.maxToughnessItr s;
     SimulationParameters.tmStpPrefactor := SimulationParameters.tmStpPrefactor s;
     SimulationParameters.tipAsymptote := tip_asymptote;
     SimulationParameters.frontAdvancing := SimulationParameters.frontAdvancing s;
     SimulationParameters.saveRegime := SimulationParameters.saveRegime s;
     SimulationParameters.maxReattempts := SimulationParameters.maxReattempts s;
     SimulationParameters.reAttemptFactor := SimulationParameters.reAttemptFactor s;
     SimulationParameters.timeStep_limit := SimulationParameters.timeStep_limit s;
     SimulationParameters.viscousInjection := SimulationParameters.viscousInjection s;
     SimulationParameters.dryCrack_mechLoading := SimulationParameters.dryCrack_mechLoading s;
     SimulationParameters.volumeControl := SimulationParameters.volumeControl s |}.

(** [find_regime(w, Fr, Material_properties, sim_properties, timeStep,
    Kprime, asymptote_universal)], lines 140-161. *)
Definition find_regime (w : vec) (Fr : Fracture.t) (Material_properties : MaterialProperties.t)
    (sim_properties : SimulationParameters.t) (timeStep : float) (Kprime : option vec)
    (asymptote_universal : vec) : res vec :=
  body (
    let sim_parameters_tmp := set_tipAsymptote "K" sim_properties in
    asymptote_toughness ← call (TipAsymInversion w Fr Material_properties sim_parameters_tmp
                                                 timeStep Kprime);
    let sim_parameters_tmp := set_tipAsymptote "M" sim_parameters_tmp in
    asymptote_viscosity ← call (TipAsymInversion w Fr Material_properties sim_parameters_tmp
                                                 timeStep None);
    to_universal ← vbinop sub asymptote_viscosity asymptote_universal;
    to_toughness ← vbinop sub asymptote_viscosity asymptote_toughness;
    ratio ← vbinop div (vabs to_universal) (vabs to_toughness);
    let regime := map (fun x => 1 - x) ratio in
    (* regime[np.where(regime < 0.)[0]] = 0. *)
    let regime := put_where (fun x => x <? 0) 0 regime in
    (* regime[np.where(regime > 1.)[0]] = 1. *)
    let regime := put_where (fun x => 1 <? x) 1 regime in
    Next regime).

End Utility.
End Utility.

(** * Definitions for the statements *)

(** The body [m] leaves the function with the value [r], by falling off its
    end or by [return]. *)
Definition returns {R} (m : ctl R R) (r : R) : Prop := m = Next r \/ m = Ret r.

(** The time steps that [advance_time_step] has announced, in order. *)
Definition attempted_time_steps (out : list message) : list float :=
  omap (fun m => match m with
                 | print_attempting_time_step dt => Some dt
                 | _ => None
                 end) out.

(** The new and the previous iterate of the first [n] entries of the
    solution, without the entries whose previous iterate is zero: what the
    specification takes the width norm over. *)
Definition nonzero_previous (solk solkm1 : vec) (n : nat) : list (float * float) :=
  List.filter (fun p => negb (snd p =? 0)%float)
              (zip (firstn n solk) (firstn n solkm1)).

(** [C1] has the shape of [C] and differs from it at most in the diagonal
    entries of the cells [tips]. *)
Definition same_off_tip_diagonal (tips : list nat) (C C1 : matrix) : Prop :=
  length C1 = length C
  /\ forall i row, C !! i = Some row ->
       exists row1, C1 !! i = Some row1 /\ length row1 = length row
                    /\ forall j, j <> i \/ i ∉ tips -> row1 !! j = row !! j.

(** The test of the width hack, and the width vector it leaves for the
    validation: [w_k[smallNgtvWTip] = 0.01 * abs(w_k[smallNgtvWTip])]. *)
Definition small_negative_width `{NumLib} (w_k : vec) (x : float) : bool :=
  ((x <? 0) && (-1 * np_mean w_k <? x))%float.

Definition validated_width `{NumLib} (w_k : vec) : vec :=
  map (fun x => if small_negative_width w_k x then (0.01 * abs x)%float else x) w_k.

(** What the check of the filling fractions [F] of the new tip cells means
    for the status [s] and the fracture [o] that the step returns, when the
    window of the rounding is [tol]: the status 9 and no fracture when the
    rounded fractions fail the test; otherwise another status, and a
    fracture only with the status 1, made by [process_fracture_front] from
    a fracture whose filling fractions are among the rounded ones. *)
Definition fill_fraction_verdict `{NumLib} `{PyFracModules} (tol : float) (F : vec)
    (s : Z) (o : option Fracture.t) : Prop :=
  let F' := Shared.round_filling_fraction tol F in
  if Shared.filling_fraction_not_correct F' then s = 9%Z /\ o = None
  else s <> 9%Z
       /\ forall Fr', o = Some Fr' ->
            s = 1%Z
            /\ exists Fr0 Fr1,
                 process_fracture_front Fr0 = Ok Fr1
                 /\ Fr' = Fracture.set_FractureVolume
                            (np_sum (Fracture.w Fr1)
                             * CartesianMesh.EltArea (Fracture.mesh Fr1))%float Fr1
                 /\ forall f, f ∈ Fracture.FillF Fr0 ->
                      f ∈ F' /\ (1 <? f)%float = false /\ (f <? 0 - eps)%float = false.

(** The column and the row of the element [elem] in a mesh of [nx] columns,
    and the test that it lies in the first or last column or row. *)
Definition on_grid_boundary (nx ny elem : Z) : Prop :=
  (elem mod nx = 0 \/ elem mod nx = nx - 1 \/ elem / nx = 0 \/ elem / nx = ny - 1)%Z.

(** The statuses whose message [advance_time_step] has printed, in order. *)
Definition printed_statuses (out : list message) : list Z :=
  omap (fun m => match m with
                 | print_status s => Some s
                 | _ => None
                 end) out.

(** No check point has been stored yet in the places of [fr_queue] after
    the place [i]. *)
Definition no_check_point_after (st : ControllerRun.run_state) : Prop :=
  length (ControllerRun.fr_queue st) = 5%nat
  /\ forall j : nat, (ControllerRun.i st < Z.of_nat j)%Z ->
                     (j < 5)%nat -> ControllerRun.fr_queue st !! j = Some None.

(** The factor by which the filling-fraction correction multiplies the
    diagonal entry of a tip cell with the filling fraction [f]:
    [1 + ac * np.pi / 4] for [ac = (1 - r) / r] and [r = f - 0.25], or 0.1
    when that is smaller. *)
Definition tip_correction_factor (f : float) : float :=
  let r := (f - 0.25)%float in
  let r := if (r <? 0.1)%float then 0.1%float else r in
  let ac := ((1 - r) / r)%float in
  (1 + ac * np_pi / 4)%float.

(** [C[i, i]], when the matrix has that entry. *)
Definition diagonal_entry (C : matrix) (i : nat) : option float := C !! i ≫= (.!! i).

(** [abs(a - b) / abs(b)], entry by entry: the relative differences of the
    entries of [a] from those of [b]. *)
Definition relative_differences (a b : vec) : vec :=
  zip_with (fun x y => (abs (x - y) / abs y)%float) a b.

(** The reports that [Picard_Newton] has printed, one for each of its
    calls that has returned, in order. *)
Definition solver_reports (out : list message) : list ElastoHydrodynamicSolver.PN_print :=
  omap (fun m => match m with
                 | print_Picard_Newton p => Some p
                 | _ => None
                 end) out.

(** The passes of the loop of [Picard_Newton] (lines 938-968 of
    ElastoHydrodynamicSolver.py). *)
Section Iteration.
Import ElastoHydrodynamicSolver.
Context `{NumLib} {I : Type}.
Variable Res_fun : vec -> I -> res (vec * I * indices).
Variable sys_fun : vec -> I -> res (matrix * vec * I * indices).
Variable Jacobian : vec -> vec -> I -> res matrix.
Variables (TypValue : vec) (relax : float) (PicardPerNewton : Z).

(** The pass that is numbered [k]: a Newton step when [k] is a multiple of
    [PicardPerNewton], a Picard step otherwise.  It takes the iterate
    [solkm1] and the data [interItr] to the iterate [solk], the data
    [interItr'] and the index arrays [ind]. *)
Definition PN_pass (k : Z) (solkm1 : vec) (interItr : I) (solk : vec) (interItr' : I)
    (ind : indices) : Prop :=
  if (k mod PicardPerNewton =? 0)%Z
  then exists newton Jac Jac',
         newton_step Res_fun Jacobian TypValue solkm1 interItr newton Jac
         = Ok (solk, interItr', ind, Jac')
  else picard_step sys_fun relax solkm1 interItr = Ok (solk, interItr', ind).

(** The iterate and the data with which the pass numbered [k] starts:
    the guess and the initial data for [k = 1], what the pass before has
    given otherwise. *)
Inductive PN_iterate (guess : vec) (interItr_init : I) : Z -> vec -> I -> Prop :=
| iterate_guess : PN_iterate guess interItr_init 1 guess interItr_init
| iterate_pass k solkm1 interItr solk interItr' ind :
    PN_iterate guess interItr_init k solkm1 interItr ->
    PN_pass k solkm1 interItr solk interItr' ind ->
    PN_iterate guess interItr_init (k + 1) solk interItr'.

End Iteration.

(** ** Concrete inputs

    An instance of the numerical library for the examples.  Each function
    is the textbook definition in binary64 arithmetic; it gives the result
    of numpy and libm whenever the intermediate values are exact, as they
    are in the examples wherever the outcome depends on them (small
    integers, powers of two, identity matrices, a division by zero). *)
Module Examples.

Local Open Scope float_scope.

(** [x ** y] for a small non-negative integral [y] by repeated
    multiplication, and for [y = 0.5] by the square root. *)
Fixpoint pow_integral (fuel : nat) (x y : float) : float :=
  match fuel with
  | O => nan
  | S fuel => if y =? 0 then 1 else x * pow_integral fuel x (y - 1)
  end.

Definition example_pow (x y : float) : res float :=
  if y =? 0.5 then Ok (sqrt x) else Ok (pow_integral 64 x y).

Definition example_sum (a : vec) : float := fold_left add a 0.

Definition example_dot1 (row : vec) (x : vec) : float :=
  example_sum (zip_with mul row x).

Definition example_dot (M : matrix) (x : vec) : res vec :=
  if forallb (fun row => bool_decide (length row = length x)) M
  then Ok (map (fun row => example_dot1 row x) M)
  else Raise ValueError.

(** A solver for the systems of the examples: [x = b] when [A] is an
    identity matrix, LinAlgError when [A] has a zero row. *)
Definition example_solve (A : matrix) (b : vec) : res vec :=
  if existsb (forallb (fun x => x =? 0)) A then Raise LinAlgError else Ok b.

Definition example_NumLib : NumLib := {|
  pow := example_pow;
  np_sum := example_sum;
  np_mean := fun a => example_sum a / Z2float (Z.of_nat (length a));
  np_dot := example_dot;
  np_linalg_norm := fun a => sqrt (example_sum (map (fun x => x * x) a));
  np_linalg_solve := example_solve;
  delete_strict := true
|}.

(** Constant properties of the simulation for the examples. *)
Definition example_sim (maxSolverItr maxToughnessItr maxReattempts : Z)
    (frontAdvancing : string) : SimulationParameters.t :=
  {| SimulationParameters.toleranceEHL := 0.001;
     SimulationParameters.maxSolverItr := maxSolverItr;
     SimulationParameters.tolFractFront := 0.001;
     SimulationParameters.maxFrontItr := 3;
     SimulationParameters.toleranceToughness := 0.001;
     SimulationParameters.maxToughnessItr := maxToughnessItr;
     SimulationParameters.tmStpPrefactor := 0.5;
     SimulationParameters.tipAsymptote := "K";
     SimulationParameters.frontAdvancing := frontAdvancing;
     SimulationParameters.saveRegime := false;
     SimulationParameters.maxReattempts := maxReattempts;
     SimulationParameters.reAttemptFactor := 0.5;
     SimulationParameters.timeStep_limit := 100;
     SimulationParameters.viscousInjection := true;
     SimulationParameters.dryCrack_mechLoading := false;
     SimulationParameters.volumeControl := false |}.

(** A mesh of 5 x 5 cells with [hx = 3] and [hy = 4]:
<<
    20 21 22 23 24
    15 16 17 18 19
    10 11 12 13 14
     5  6  7  8  9
     0  1  2  3  4
>> *)
Definition example_mesh : CartesianMesh.t :=
  {| CartesianMesh.hx := 3; CartesianMesh.hy := 4;
     CartesianMesh.nx := 5; CartesianMesh.ny := 5;
     CartesianMesh.NumberOfElts := 25;
     CartesianMesh.EltArea := 12;
     CartesianMesh.NeiElements :=
       match CartesianMesh.make_NeiElements 5 5 with Ok N => N | Raise _ => [] end |}.

(** The value [x] in the cells [idx] and [y] elsewhere. *)
Definition cells (idx : list nat) (x y : float) : vec :=
  map (fun i => if bool_decide (i ∈ idx) then x else y) (seq 0 25).

(** A fracture on the centre cell 12 with the tip cells 7, 11, 13, 17. *)
Definition example_fracture : Fracture.t :=
  {| Fracture.mesh := example_mesh;
     Fracture.time := 1;
     Fracture.w := cells [12%nat] 2 0;
     Fracture.p := cells [] 0 0;
     Fracture.sgndDist := map (fun i => if bool_decide (i = 12%nat) then -2
                                        else if bool_decide (i ∈ [7; 11; 13; 17]%nat) then 2
                                        else 1e10) (seq 0 25);
     Fracture.sgndDist_last := None;
     Fracture.timeStep_last := None;
     Fracture.EltChannel := [12%nat];
     Fracture.EltTip := [7; 11; 13; 17]%nat;
     Fracture.EltCrack := [12; 7; 11; 13; 17]%nat;
     Fracture.EltRibbon := [12%nat];
     Fracture.ZeroVertex := [3; 1; 0; 0]%nat;
     Fracture.InCrack := map (fun i => if bool_decide (i ∈ [12; 7; 11; 13; 17]%nat)
                                       then 1%Z else 0%Z) (seq 0 25);
     Fracture.FillF := [0.5; 0.5; 0.5; 0.5];
     Fracture.alpha := [0; 0; 0; 0];
     Fracture.l := [1; 1; 1; 1];
     Fracture.v := Some [1; 1; 1; 1];
     Fracture.muPrime := cells [] 0 1;
     Fracture.FractureVolume := 24;
     Fracture.regime := None |}.

(** An elasticity matrix with 2 on the diagonal and 1 elsewhere. *)
Definition example_C : matrix :=
  map (fun i => map (fun j => if bool_decide (i = j) then 2 else 1) (seq 0 25)) (seq 0 25).

(** A step function that fails with exit status 5 whatever the time step. *)
Definition always_fails : Controller.step_function :=
  fun Frac C sim_prop dt => Ok ((5%Z, None), C).

Definition identity (n : nat) : matrix :=
  map (fun i => map (fun j => if bool_decide (i = j) then 1 else 0) (seq 0 n)) (seq 0 n).

(** An instance of the modules for the examples.  The tip inversion puts
    the front at the distance 3 from every ribbon cell; the fast marching
    method gives the distance 1 to the other cells of the outward search
    region; the front is found in the cells [tips], which all have the area
    [area] inside the fracture and the tip volume 12; the system of a step is
    the identity with the right-hand side 1 for a width increment and 7 for
    the pressure; the system of a viscous-fluid iteration is the identity
    with the right-hand side [rhs solk]. *)
Definition example_modules (tips : list nat) (area : float) (rhs : vec -> vec)
  : PyFracModules :=
  {| TipAsymInversion := fun w Fr mat sim dt K =>
       Ok (map (fun _ => 3) (Fracture.EltRibbon Fr));
     StressIntensityFactor := fun w sd tip ribbon stagnant mesh Eprime =>
       Ok (map (fun _ => 1) tip);
     SolveFMM := fun sd ribbon channel mesh pstv ngtv =>
       Ok (imap (fun i x => if bool_decide (i ∈ pstv) && negb (bool_decide (i ∈ ribbon))
                            then 1 else x) sd);
     reconstruct_front := fun sd channel mesh =>
       Ok (tips, map (fun _ => 1) tips, map (fun _ => 0.5) tips, []);
     UpdateLists := fun channel tipsNew FillFrac sd mesh =>
       Ok (channel, tipsNew, channel ++ tipsNew, channel, map (fun _ => 0%nat) tipsNew, []);
     Integral_over_cell := fun elts alpha l mesh function kwargs =>
       Ok (map (fun _ => if String.eqb function "A" then area else 12) elts);
     VolumeIntegral := fun elts alpha l mesh function mat muPrime Vel kwargs =>
       Ok (map (fun _ => if String.eqb function "A" then area else 12) elts);
     projection_from_ribbon := fun ribbon channel mesh sd => Ok (map (fun _ => 0.5) ribbon);
     get_toughness_from_cellCenter := fun alpha sd elts mat mesh =>
       Ok (map (fun _ => 2) elts);
     get_toughness_from_zeroVertex := fun elts mesh mat alpha l zero_vrtx =>
       Ok (map (fun _ => 2) elts);
     toughness_at_tip_CellCenter := fun ribbon mesh mat sd => Ok (map (fun _ => 2) ribbon);
     velocity := fun w crack mesh InCrack muPrime C sigma0 => Ok [];
     find_regime := fun w Fr mat sim dt K asymptote => Ok (map (fun _ => 1) asymptote);
     process_fracture_front := fun Fr => Ok Fr;
     MakeEquationSystem_volumeControl_sameFP := fun w crack C dt Q EltArea =>
       Ok (identity (length crack + 1), replicate (length crack) 1 ++ [7]);
     MakeEquationSystem_volumeControl_extendedFP := fun w wTip channel tip C dt Q EltArea =>
       Ok (identity (length channel + 1), replicate (length channel) 1 ++ [7]);
     Elastohydrodynamic_ResidualFun_sameFP := fun args solk interItr => Raise TypeError;
     MakeEquationSystem_viscousFluid_sameFP := fun args solk interItr =>
       Ok (identity (length solk), rhs solk, interItr, (seq 0 (length solk), [], []));
     Elastohydrodynamic_ResidualFun_ExtendedFP := fun args solk interItr => Raise TypeError;
     MakeEquationSystem_viscousFluid_extendedFP := fun args solk interItr =>
       Ok (identity (length solk), rhs solk, interItr, (seq 0 (length solk), [], []));
     Jacobian := fun Res_fun x TypValue interItr => Raise TypeError |}.

(** A material with a uniform toughness, and one whose toughness is given
    as a function. *)
Definition example_material (K1cFunc : option closure) : MaterialProperties.t :=
  {| MaterialProperties.Eprime := 1; MaterialProperties.Kprime := cells [] 0 1;
     MaterialProperties.Cprime := cells [] 0 0; MaterialProperties.SigmaO := cells [] 0 0;
     MaterialProperties.grainSize := 0; MaterialProperties.anisotropic := false;
     MaterialProperties.K1cFunc := K1cFunc; MaterialProperties.KprimeFunc := None |}.

Definition example_fluid : FluidProperties.t :=
  {| FluidProperties.density := 1000; FluidProperties.turbulence := false |}.

(** The injection of 10 into the centre cell. *)
Definition example_Qin : vec := cells [12%nat] 10 0.

End Examples.

(** ** Runs of the examples *)
Module Runs.
Import Examples.
Local Open Scope float_scope.

(** A right-hand side that doubles the iterate, so that the Picard
    iteration never converges. *)
Definition doubling (x : vec) : vec := map (fun y => y + y) x.

(** The four cells around the centre cell. *)
Definition interior : list nat := [7; 11; 13; 17]%nat.

(** The constant injection rate 10 into the centre cell. *)
Definition example_injection : InjectionProperties.t :=
  {| InjectionProperties.injectionRate := [[0]; [10]];
     InjectionProperties.source_location := [12%nat] |}.

(** The volume-control step on a new footprint whose tip cells are [tips],
    each with the area [area] inside the fracture. *)
Definition volumeControl_step (tips : list nat) (area : float) (K1cFunc : option closure)
    (maxToughnessItr : Z) : res ((Z * option Fracture.t) * matrix) :=
  TimeSteppingVolumeControl.injection_extended_footprint_volumeControl
    (H := example_NumLib) (H0 := example_modules tips area id)
    (Fracture.w example_fracture) example_fracture example_C 1 10
    (example_material K1cFunc) (example_sim 3 maxToughnessItr 4 "implicit").

(** The viscous-fluid step as the controller calls it. *)
Definition viscous_step (tips : list nat) (rhs : vec -> vec) : Controller.step_function :=
  fun Frac C sim_prop dt =>
    '(r, C, out) ← TimeSteppingViscousFluid.attempt_time_step_viscousFluid
                     (H := example_NumLib) (H0 := example_modules tips 6 rhs)
                     10 Frac C (example_material None) example_fluid sim_prop
                     example_injection dt;
    Ok (r, C).

(** A fracture of the centre cell alone. *)
Definition example_fracture_one_cell : Fracture.t :=
  {| Fracture.mesh := example_mesh;
     Fracture.time := 1;
     Fracture.w := cells [12%nat] 2 0;
     Fracture.p := cells [] 0 0;
     Fracture.sgndDist := Fracture.sgndDist example_fracture;
     Fracture.sgndDist_last := None;
     Fracture.timeStep_last := None;
     Fracture.EltChannel := [12%nat];
     Fracture.EltTip := [];
     Fracture.EltCrack := [12%nat];
     Fracture.EltRibbon := [12%nat];
     Fracture.ZeroVertex := [];
     Fracture.InCrack := map (fun i => if bool_decide (i = 12%nat) then 1%Z else 0%Z) (seq 0 25);
     Fracture.FillF := [];
     Fracture.alpha := [];
     Fracture.l := [];
     Fracture.v := Some [];
     Fracture.muPrime := cells [] 0 1;
     Fracture.FractureVolume := 24;
     Fracture.regime := None |}.

End Runs.

(** Further runs of the examples. *)
Module FurtherRuns.
Import Examples Runs ElastoHydrodynamicSolver.
Local Open Scope float_scope.

(** The Picard iteration on the system [x = rhs solk], where only Picard
    steps are made and the residual and the Jacobian are not called. *)
Definition solve (rhs : vec -> vec) (maxitr : Z) (guess : vec) : res (@PN_result unit) :=
  Picard_Newton_printing (H := example_NumLib)
    (fun _ _ => Raise TypeError)
    (fun solk interItr =>
       Ok (identity (length solk), rhs solk, interItr, (seq 0 (length solk), [], [])))
    (fun _ _ _ => Raise TypeError)
    guess 0.001 maxitr 1 1000 guess tt.

(** An injection that starts at the time 5. *)
Definition late_injection : InjectionProperties.t :=
  {| InjectionProperties.injectionRate := [[5]; [10]];
     InjectionProperties.source_location := [12%nat] |}.

(** The whole volume-control step of the example. *)
Definition whole_volumeControl_step : res ((Z * option Fracture.t) * matrix) :=
  TimeSteppingVolumeControl.attempt_time_step_volumeControl
    (H := example_NumLib) (H0 := example_modules interior 6 id)
    10 example_fracture example_C (example_material None) (example_sim 3 2 4 "implicit")
    example_injection 1.

(** The whole viscous-fluid step of the example, whose Picard iteration
    does not converge. *)
Definition whole_viscous_step : res ((Z * option Fracture.t) * matrix * list message) :=
  TimeSteppingViscousFluid.attempt_time_step_viscousFluid
    (H := example_NumLib) (H0 := example_modules interior 6 doubling)
    10 example_fracture example_C (example_material None) example_fluid
    (example_sim 3 2 4 "implicit") example_injection 1.

(** The largest entry of a vector without NaN. *)
Definition example_np_max (v : vec) : res float :=
  match v with
  | [] => Raise ValueError
  | x :: v => Ok (fold_left (fun m y => if m <? y then y else m) v x)
  end.

(** A run to the time 2 in at most 10 time steps, with the time series
    [9]; the mesh is not changed and no elasticity matrix is loaded. *)
Definition example_run_parameters : ControllerRun.run_parameters :=
  {| ControllerRun.FinalTime := 2; ControllerRun.maxTimeSteps := 10;
     ControllerRun.solTimeSeries := [9]; ControllerRun.tmStpPrefactor_max := 0.5 |}.

(** The fracture of the example at the time [t]. *)
Definition example_fracture_at (t : float) : Fracture.t :=
  {| Fracture.mesh := Fracture.mesh example_fracture;
     Fracture.time := t;
     Fracture.w := Fracture.w example_fracture;
     Fracture.p := Fracture.p example_fracture;
     Fracture.sgndDist := Fracture.sgndDist example_fracture;
     Fracture.sgndDist_last := Fracture.sgndDist_last example_fracture;
     Fracture.timeStep_last := Fracture.timeStep_last example_fracture;
     Fracture.EltChannel := Fracture.EltChannel example_fracture;
     Fracture.EltTip := Fracture.EltTip example_fracture;
     Fracture.EltCrack := Fracture.EltCrack example_fracture;
     Fracture.EltRibbon := Fracture.EltRibbon example_fracture;
     Fracture.ZeroVertex := Fracture.ZeroVertex example_fracture;
     Fracture.InCrack := Fracture.InCrack example_fracture;
     Fracture.FillF := Fracture.FillF example_fracture;
     Fracture.alpha := Fracture.alpha example_fracture;
     Fracture.l := Fracture.l example_fracture;
     Fracture.v := Fracture.v example_fracture;
     Fracture.muPrime := Fracture.muPrime example_fracture;
     Fracture.FractureVolume := Fracture.FractureVolume example_fracture;
     Fracture.regime := Fracture.regime example_fracture |}.

(** A step function that succeeds and moves the time on by the time
    step. *)
Definition always_succeeds : Controller.step_function :=
  fun Frac C sim_prop dt => Ok ((1%Z, Some (example_fracture_at (Fracture.time Frac + dt))), C).

(** The run of the example with the step function [step]. *)
Definition example_run (step : Controller.step_function) : res ControllerRun.run_state :=
  ControllerRun.run (H := example_NumLib) step step step example_np_max
    (fun _ _ _ _ => Raise AttributeError) (fun _ => Raise TypeError) example_run_parameters
    example_fracture (example_sim 2 2 4 "implicit") (Some example_C).

End FurtherRuns.

(** The inversion of the tip asymptote on the fracture of the example. *)
Module FrontRuns.
Import Examples Runs.
Local Open Scope float_scope.

(** The modules [M] with a tip inversion that puts the front at the
    distance [d] from every ribbon cell. *)
Definition inverting (d : float) (M : PyFracModules) : PyFracModules :=
  {| TipAsymInversion := fun w Fr mat sim dt K =>
       Ok (map (fun _ => d) (Fracture.EltRibbon Fr));
     StressIntensityFactor := @StressIntensityFactor M;
     SolveFMM := @SolveFMM M;
     reconstruct_front := @reconstruct_front M;
     UpdateLists := @UpdateLists M;
     Integral_over_cell := @Integral_over_cell M;
     VolumeIntegral := @VolumeIntegral M;
     projection_from_ribbon := @projection_from_ribbon M;
     get_toughness_from_cellCenter := @get_toughness_from_cellCenter M;
     get_toughness_from_zeroVertex := @get_toughness_from_zeroVertex M;
     toughness_at_tip_CellCenter := @toughness_at_tip_CellCenter M;
     velocity := @velocity M;
     find_regime := @find_regime M;
     process_fracture_front := @process_fracture_front M;
     MakeEquationSystem_volumeControl_sameFP := @MakeEquationSystem_volumeControl_sameFP M;
     MakeEquationSystem_volumeControl_extendedFP :=
       @MakeEquationSystem_volumeControl_extendedFP M;
     Elastohydrodynamic_ResidualFun_sameFP := @Elastohydrodynamic_ResidualFun_sameFP M;
     MakeEquationSystem_viscousFluid_sameFP := @MakeEquationSystem_viscousFluid_sameFP M;
     Elastohydrodynamic_ResidualFun_ExtendedFP := @Elastohydrodynamic_ResidualFun_ExtendedFP M;
     MakeEquationSystem_viscousFluid_extendedFP :=
       @MakeEquationSystem_viscousFluid_extendedFP M;
     Jacobian := @Jacobian M |}.

(** The inversion of the volume-control toughness loop on the fracture of
    the example, whose ribbon cell 12 had the signed distance -2 at the last
    time step, when the tip inversion gives the distance [d]. *)
Definition volumeControl_inversion (d : float) : ctl unit vec :=
  TimeSteppingVolumeControl.invert_tip_asymptote
    (H0 := inverting d (example_modules interior 6 id))
    (fun _ => tt) (Fracture.w example_fracture) example_fracture (example_material None)
    (example_sim 3 2 4 "implicit") 1 None.

(** The toughness loop of the viscous-fluid step on the same fracture. *)
Definition viscous_inversion (d : float) : ctl unit (Z * vec) :=
  TimeSteppingViscousFluid.toughness_loop
    (H := example_NumLib) (H0 := inverting d (example_modules interior 6 id))
    2 (Fracture.w example_fracture) example_fracture 1 (example_material None)
    (example_sim 3 2 4 "implicit") (fun _ => tt) 0%Z (Fracture.sgndDist example_fracture).

End FrontRuns.

(** The controller in the volume-control mode. *)
Module BoundaryRuns.
Import Examples Runs.
Local Open Scope float_scope.

(** The properties of the simulation of the examples in the volume-control
    mode. *)
Definition example_sim_volumeControl (frontAdvancing : string) : SimulationParameters.t :=
  {| SimulationParameters.toleranceEHL := 0.001;
     SimulationParameters.maxSolverItr := 3;
     SimulationParameters.tolFractFront := 0.001;
     SimulationParameters.maxFrontItr := 3;
     SimulationParameters.toleranceToughness := 0.001;
     SimulationParameters.maxToughnessItr := 2;
     SimulationParameters.tmStpPrefactor := 0.5;
     SimulationParameters.tipAsymptote := "K";
     SimulationParameters.frontAdvancing := frontAdvancing;
     SimulationParameters.saveRegime := false;
     SimulationParameters.maxReattempts := 4;
     SimulationParameters.reAttemptFactor := 0.5;
     SimulationParameters.timeStep_limit := 100;
     SimulationParameters.viscousInjection := false;
     SimulationParameters.dryCrack_mechLoading := false;
     SimulationParameters.volumeControl := true |}.

(** [advance_time_step] in the volume-control mode, on a front whose tip
    cells are [tips]. *)
Definition advance_volumeControl (tips : list nat) (frontAdvancing : string)
  : res Controller.advanced :=
  Controller.advance_time_step (H := example_NumLib) always_fails always_fails
    (volumeControl_step_PerfNode (H := example_NumLib) (H0 := example_modules tips 6 id)
                                 (example_material None) example_injection)
    (example_sim_volumeControl frontAdvancing) example_fracture example_C 1.

End BoundaryRuns.

(** The viscous-fluid step whose front loop may make one pass. *)
Module CapRuns.
Import Examples Runs.
Local Open Scope float_scope.

(** The properties of the simulation of the examples with a solver of at
    most 5 iterations and a front loop of at most [maxFrontItr] passes. *)
Definition example_sim_front (maxFrontItr : Z) : SimulationParameters.t :=
  {| SimulationParameters.toleranceEHL := 0.001;
     SimulationParameters.maxSolverItr := 5;
     SimulationParameters.tolFractFront := 0.001;
     SimulationParameters.maxFrontItr := maxFrontItr;
     SimulationParameters.toleranceToughness := 0.001;
     SimulationParameters.maxToughnessItr := 2;
     SimulationParameters.tmStpPrefactor := 0.5;
     SimulationParameters.tipAsymptote := "K";
     SimulationParameters.frontAdvancing := "implicit";
     SimulationParameters.saveRegime := false;
     SimulationParameters.maxReattempts := 4;
     SimulationParameters.reAttemptFactor := 0.5;
     SimulationParameters.timeStep_limit := 100;
     SimulationParameters.viscousInjection := true;
     SimulationParameters.dryCrack_mechLoading := false;
     SimulationParameters.volumeControl := false |}.

(** The step on the fracture of one cell, with a solver that converges. *)
Definition converging_step (maxFrontItr : Z)
  : res ((Z * option Fracture.t) * matrix * list message) :=
  TimeSteppingViscousFluid.attempt_time_step_viscousFluid
    (H := example_NumLib) (H0 := example_modules interior 6 id)
    10 example_fracture_one_cell example_C (example_material None) example_fluid
    (example_sim_front maxFrontItr) example_injection 1.

End CapRuns.

(** * Theorems *)

(** * Facts about binary64 arithmetic *)
Module FloatFacts.
Local Open Scope float_scope.

Lemma Prim2SF_nan : Prim2SF nan = S754_nan.
Proof. reflexivity. Qed.

Lemma SFcompare_refl f : f <> S754_nan -> SFcompare f f = Some Eq.
Proof.
  destruct f as [s|s| |s m e]; intros Hn; try congruence; simpl.
  - reflexivity.
  - destruct s; reflexivity.
  - destruct s; rewrite Z.compare_refl, Pos.compare_cont_refl; reflexivity.
Qed.

Lemma is_nan_spec x : is_nan x = true <-> x = nan.
Proof.
  unfold is_nan. rewrite FloatAxioms.eqb_spec. unfold SFeqb. split.
  - intros Hx. apply Prim2SF_inj. rewrite Prim2SF_nan.
    destruct (Prim2SF x) eqn:E; try reflexivity;
      rewrite SFcompare_refl in Hx by discriminate; discriminate.
  - intros ->. reflexivity.
Qed.

Lemma is_nan_false x : is_nan x = false <-> Prim2SF x <> S754_nan.
Proof.
  split.
  - intros Hx E. assert (x = nan) as -> by (apply Prim2SF_inj; rewrite E; reflexivity).
    discriminate.
  - intros Hx. destruct (is_nan x) eqn:E; [|reflexivity].
    apply is_nan_spec in E. subst. contradiction Hx. reflexivity.
Qed.

Lemma add_nan_r x : x + nan = nan.
Proof.
  apply Prim2SF_inj. rewrite FloatAxioms.add_spec, Prim2SF_nan. destruct (Prim2SF x); reflexivity.
Qed.

Lemma add_nan_l x : nan + x = nan.
Proof.
  apply Prim2SF_inj. rewrite FloatAxioms.add_spec, Prim2SF_nan. reflexivity.
Qed.

Lemma ltb_nan_l x : (nan <? x) = false.
Proof. rewrite FloatAxioms.ltb_spec. reflexivity. Qed.

Lemma ltb_nan_r x : (x <? nan) = false.
Proof. rewrite FloatAxioms.ltb_spec, Prim2SF_nan. unfold SFltb. destruct (Prim2SF x); reflexivity. Qed.

Lemma leb_nan_r x : (x <=? nan) = false.
Proof. rewrite FloatAxioms.leb_spec, Prim2SF_nan. unfold SFleb. destruct (Prim2SF x); reflexivity. Qed.

Lemma ltb_irrefl x : (x <? x) = false.
Proof.
  rewrite FloatAxioms.ltb_spec. unfold SFltb.
  destruct (Prim2SF x) eqn:E; try reflexivity;
    rewrite SFcompare_refl by discriminate; reflexivity.
Qed.

Lemma leb_refl x : is_nan x = false -> (x <=? x) = true.
Proof.
  intros Hx%is_nan_false. rewrite FloatAxioms.leb_spec. unfold SFleb.
  rewrite SFcompare_refl by assumption. reflexivity.
Qed.

Lemma SFcompare_antisym f g :
  SFcompare g f = option_map CompOpp (SFcompare f g).
Proof.
  destruct f as [s|s| |s m e], g as [s'|s'| |s' m' e']; simpl; try reflexivity;
    try (destruct s; reflexivity); try (destruct s'; reflexivity);
    try (destruct s, s'; reflexivity).
  destruct s, s'; simpl; try reflexivity;
    rewrite (Z.compare_antisym e' e); destruct (e' ?= e)%Z eqn:E; simpl; try reflexivity;
    rewrite (Pos.compare_cont_antisym m m' Eq); simpl; reflexivity.
Qed.

Lemma leb_not_gtb x y : (x <=? y) = true -> (y <? x) = false.
Proof.
  rewrite FloatAxioms.leb_spec, FloatAxioms.ltb_spec. unfold SFleb, SFltb.
  rewrite (SFcompare_antisym (Prim2SF x) (Prim2SF y)).
  destruct (SFcompare (Prim2SF x) (Prim2SF y)) as [[]|]; simpl; congruence.
Qed.

Lemma ltb_false_leb x y :
  is_nan x = false -> is_nan y = false -> (x <? y) = false -> (y <=? x) = true.
Proof.
  intros Hx%is_nan_false Hy%is_nan_false.
  rewrite FloatAxioms.leb_spec, FloatAxioms.ltb_spec. unfold SFleb, SFltb.
  rewrite (SFcompare_antisym (Prim2SF x) (Prim2SF y)).
  destruct (SFcompare (Prim2SF x) (Prim2SF y)) as [[]|] eqn:E; simpl; try congruence.
  destruct (Prim2SF x), (Prim2SF y); simpl in E; congruence.
Qed.

Lemma ltb_true_not_nan x y : (x <? y) = true -> is_nan x = false /\ is_nan y = false.
Proof.
  intros H. split.
  - destruct (is_nan x) eqn:E; [|reflexivity]. apply is_nan_spec in E. subst.
    rewrite ltb_nan_l in H. discriminate.
  - destruct (is_nan y) eqn:E; [|reflexivity]. apply is_nan_spec in E. subst.
    rewrite ltb_nan_r in H. discriminate.
Qed.

Lemma leb_false_leb x y :
  is_nan x = false -> is_nan y = false -> (x <=? y) = false -> (y <=? x) = true.
Proof.
  intros Hx%is_nan_false Hy%is_nan_false.
  rewrite !FloatAxioms.leb_spec. unfold SFleb.
  rewrite (SFcompare_antisym (Prim2SF x) (Prim2SF y)).
  destruct (SFcompare (Prim2SF x) (Prim2SF y)) as [[]|] eqn:E; simpl; try congruence.
  destruct (Prim2SF x), (Prim2SF y); simpl in E; congruence.
Qed.

Lemma is_nan_opp x : is_nan (- x) = is_nan x.
Proof.
  destruct (is_nan x) eqn:E.
  - apply is_nan_spec in E. subst. reflexivity.
  - apply is_nan_false. apply is_nan_false in E. rewrite FloatAxioms.opp_spec.
    destruct (Prim2SF x); simpl; congruence.
Qed.

End FloatFacts.

(** * Reasoning about bodies *)

Module BodyFacts.

Lemma body_Ok {R} (m : ctl R R) (r : R) : body m = Ok r <-> returns m r.
Proof.
  unfold returns. destruct m; simpl; split; intros E;
    try (destruct E as [E|E]); inversion E; auto.
Qed.

Lemma returns_Next {R} (a r : R) : returns (Next a) r <-> a = r.
Proof. unfold returns. split; [intros [E|E]; inversion E; auto | intros ->; auto]. Qed.

Lemma returns_Ret {R} (a r : R) : returns (Ret a) r <-> a = r.
Proof. unfold returns. split; [intros [E|E]; inversion E; auto | intros ->; auto]. Qed.

Lemma returns_Exc {R} e (r : R) : ~ returns (Exc e) r.
Proof. intros [E|E]; discriminate. Qed.

Lemma returns_bind {R A} (f : A -> ctl R R) (m : ctl R A) (r : R) :
  returns (m ≫= f) r -> m = Ret r \/ exists a, m = Next a /\ returns (f a) r.
Proof.
  unfold returns. destruct m; simpl; intros [E|E]; try discriminate; eauto.
  left. congruence.
Qed.

Lemma bind_Next_inv {R A B} (f : A -> ctl R B) (m : ctl R A) (b : B) :
  (m ≫= f) = Next b -> exists a, m = Next a /\ f a = Next b.
Proof. destruct m; simpl; intros E; try discriminate. eauto. Qed.

Lemma bind_Ret_inv {R A B} (f : A -> ctl R B) (m : ctl R A) (r : R) :
  (m ≫= f) = Ret r -> m = Ret r \/ exists a, m = Next a /\ f a = Ret r.
Proof. destruct m; simpl; intros E; try discriminate; [right; eauto | left; congruence]. Qed.

Lemma res_bind_Ok_inv {A B} (f : A -> res B) (m : res A) (b : B) :
  (m ≫= f) = Ok b -> exists a, m = Ok a /\ f a = Ok b.
Proof. destruct m; simpl; intros E; try discriminate. eauto. Qed.

Lemma bind_assoc {R A B C} (m : ctl R A) (f : A -> ctl R B) (g : B -> ctl R C) :
  ((m ≫= f) ≫= g) = (m ≫= fun x => f x ≫= g).
Proof. destruct m; reflexivity. Qed.

Lemma returns_call {R A} (f : A -> ctl R R) (m : res A) (r : R) :
  returns (call m ≫= f) r -> exists a, m = Ok a /\ returns (f a) r.
Proof. unfold returns. destruct m; simpl; intros [E|E]; try discriminate; eauto. Qed.

Lemma returns_call_last {R} (m : res R) (r : R) : returns (call m) r -> m = Ok r.
Proof. unfold returns. destruct m; simpl; intros [E|E]; inversion E; auto. Qed.

Lemma returns_return_if {R} (f : unit -> ctl R R) (b : bool) (r0 r : R) :
  returns (return_if b r0 ≫= f) r -> (b = true /\ r0 = r) \/ (b = false /\ returns (f tt) r).
Proof.
  unfold returns. destruct b; simpl; intros [E|E]; try discriminate; auto.
  left. split; congruence.
Qed.

Lemma returns_raise_if {R} (f : unit -> ctl R R) (b : bool) e (r : R) :
  returns (raise_if b e ≫= f) r -> b = false /\ returns (f tt) r.
Proof. unfold returns. destruct b; simpl; intros [E|E]; try discriminate; auto. Qed.

Lemma call_Next_inv {R A} (m : res A) (a : A) : @call R A m = Next a -> m = Ok a.
Proof. destruct m; simpl; intros E; inversion E; auto. Qed.

Lemma call_not_Ret {R A} (m : res A) (r : R) : @call R A m <> Ret r.
Proof. destruct m; discriminate. Qed.

Lemma raise_if_not_Ret {R} b e (r : R) : @raise_if R b e <> Ret r.
Proof. destruct b; discriminate. Qed.

Lemma bind_not_Ret {R A B} (m : ctl R A) (f : A -> ctl R B) (r : R) :
  m <> Ret r -> (forall a, f a <> Ret r) -> (m ≫= f) <> Ret r.
Proof.
  intros Hm Hf. destruct m; simpl; auto; try discriminate.
  intros E. apply Hm. congruence.
Qed.

End BodyFacts.

Create HintDb no_ret.
#[export] Hint Resolve BodyFacts.call_not_Ret BodyFacts.raise_if_not_Ret : no_ret.

(** [step H as a E] takes the first statement off the body in
    [H : returns _ _], naming its value [a] and its equation [E]; a
    statement that cannot [return] leaves one case. *)
Ltac step_named H a E :=
  repeat rewrite BodyFacts.bind_assoc in H;
  lazymatch type of H with
  | returns (call _ ≫= _) _ =>
      apply BodyFacts.returns_call in H; destruct H as (a & E & H)
  | returns (call _) _ => apply BodyFacts.returns_call_last in H
  | returns (return_if _ _ ≫= _) _ =>
      apply BodyFacts.returns_return_if in H; destruct H as [[E H] | [E H]]
  | returns (raise_if _ _ ≫= _) _ =>
      apply BodyFacts.returns_raise_if in H; destruct H as [E H]
  | returns (_ ≫= _) _ =>
      apply BodyFacts.returns_bind in H;
      destruct H as [E | (a & E & H)];
      [try (exfalso;
            lazymatch type of E with
            | ?m = Ret ?r => assert (m <> Ret r) by (solve [auto with no_ret])
            end; contradiction) | ]
  | returns (Next _) _ => apply BodyFacts.returns_Next in H
  | returns (Ret _) _ => apply BodyFacts.returns_Ret in H
  | returns (Exc _) _ => apply BodyFacts.returns_Exc in H; contradiction
  end.

Tactic Notation "step" hyp(H) "as" ident(a) ident(E) := step_named H a E.
Tactic Notation "step" hyp(H) "as" ident(E) := let a := fresh "a" in step_named H a E.
Tactic Notation "step" hyp(H) :=
  let a := fresh "a" in let E := fresh "E" in step_named H a E.

Module ControllerFacts.
Import Controller.
Local Open Scope float_scope.

Section Facts.
Context `{NumLib}.
Variables aV aM aC : step_function.

Lemma attempted_app out1 out2 :
  attempted_time_steps (out1 ++ out2) = attempted_time_steps out1 ++ attempted_time_steps out2.
Proof. unfold attempted_time_steps. apply omap_app. Qed.

(** The reattempt loop announces the time step of reattempt [i + k] as its
    [k]-th line, after what was announced before. *)
Lemma reattempts_announced n : forall i sim Frac C TimeStep before out r,
  body (reattempts aV aM aC n i sim Frac C TimeStep before out) = Ok r ->
  exists k steps,
    (k <= n)%nat /\ length steps = k /\
    attempted_time_steps (printed r) = attempted_time_steps out ++ steps /\
    forall j dt, steps !! j = Some dt ->
                 smallerTimeStep sim TimeStep (i + Z.of_nat j) = Ok dt.
Proof.
  induction n as [|n IH]; intros i sim Frac C TimeStep before out r Hr.
  - exists 0%nat, []. simpl in Hr. destruct before; inversion Hr; subst; simpl.
    rewrite app_nil_r. repeat split; auto. intros j dt Hj. discriminate.
  - simpl in Hr. apply BodyFacts.body_Ok in Hr.
    destruct (smallerTimeStep sim TimeStep i) as [dt|] eqn:Edt; simpl in Hr;
      [|destruct Hr; discriminate].
    destruct (dispatch aV aM aC sim Frac C dt before) as [[[status Fr] C']| |] eqn:Ed;
      simpl in Hr; try (destruct Hr; discriminate).
    + destruct ((status <? -13)%Z || (12 <? status)%Z); simpl in Hr;
        [destruct Hr; discriminate|].
      destruct ((status =? 1)%Z || (status =? 12)%Z) eqn:Es; simpl in Hr.
      * destruct Hr as [Hr|Hr]; inversion Hr; subst; simpl.
        exists 1%nat, [dt]. rewrite !attempted_app. simpl. rewrite app_nil_r.
        repeat split; auto; try lia.
        intros [|j] dt' Hj; simpl in Hj; inversion Hj; subst.
        rewrite Z.add_0_r. assumption.
      * assert (Hb : body (reattempts aV aM aC n (i + 1) sim Frac C' TimeStep
                             (Some (status, Fr))
                             ((out ++ [print_attempting_time_step dt]
                                   ++ [print_status status]) ++ [print_time_step_failed]))
                     = Ok r).
        { rewrite <- !app_assoc in *. simpl in *.
          destruct Hr as [Hr|Hr]; rewrite Hr; reflexivity. }
        apply IH in Hb. destruct Hb as (k & steps & Hk & Hlen & Hout & Hsteps).
        exists (S k), (dt :: steps). repeat split; simpl; auto; try lia.
        -- rewrite Hout, !attempted_app. simpl. rewrite app_nil_r, <- app_assoc.
           reflexivity.
        -- intros [|j] dt' Hj; simpl in Hj.
           ++ inversion Hj; subst. rewrite Z.add_0_r. assumption.
           ++ apply Hsteps in Hj. rewrite <- Hj. f_equal. lia.
    + exfalso. unfold dispatch in Ed.
      repeat match type of Ed with
             | (if ?b then _ else _) = _ => destruct b
             | call _ = Ret _ => apply BodyFacts.call_not_Ret in Ed; contradiction
             | match ?o with _ => _ end = _ => destruct o; try discriminate
             end.
Qed.

Lemma statuses_app out1 out2 :
  printed_statuses (out1 ++ out2) = printed_statuses out1 ++ printed_statuses out2.
Proof. unfold printed_statuses. apply omap_app. Qed.

(** The step function of the mode does not [return] from the body of
    [advance_time_step]. *)
Lemma dispatch_not_Ret sim Frac C dt before r :
  dispatch aV aM aC sim Frac C dt before <> Ret r.
Proof.
  unfold dispatch. intros Ed.
  repeat match type of Ed with
         | (if ?b then _ else _) = _ => destruct b
         | call _ = Ret _ => apply BodyFacts.call_not_Ret in Ed; contradiction
         | match ?o with _ => _ end = _ => destruct o; try discriminate
         end.
Qed.

(** The reattempt loop calls the step function of the mode with the time
    step that it has announced: the [k]-th line and the [k]-th call are
    those of reattempt [i + k], and the status printed after the line is the
    one that the call has returned. *)
Lemma reattempts_calls n : forall i sim Frac C TimeStep before out r,
  body (reattempts aV aM aC n i sim Frac C TimeStep before out) = Ok r ->
  exists calls : list (float * Z),
    (length calls <= n)%nat /\
    attempted_time_steps (printed r) = attempted_time_steps out ++ map fst calls /\
    printed_statuses (printed r) = printed_statuses out ++ map snd calls /\
    forall j dt status, calls !! j = Some (dt, status) ->
      smallerTimeStep sim TimeStep (i + Z.of_nat j) = Ok dt
      /\ exists C_j before_j Fr C_j',
           dispatch aV aM aC sim Frac C_j dt before_j = Next ((status, Fr), C_j').
Proof.
  induction n as [|n IH]; intros i sim Frac C TimeStep before out r Hr.
  - exists []. simpl in Hr. destruct before; inversion Hr; subst; simpl.
    rewrite !app_nil_r. split; [lia|]. split; [reflexivity|]. split; [reflexivity|].
    intros j dt status Hj. discriminate.
  - simpl in Hr. apply BodyFacts.body_Ok in Hr.
    destruct (smallerTimeStep sim TimeStep i) as [dt|] eqn:Edt; simpl in Hr;
      [|destruct Hr; discriminate].
    destruct (dispatch aV aM aC sim Frac C dt before) as [[[status Fr] C']| |] eqn:Ed;
      simpl in Hr; try (destruct Hr; discriminate).
    + destruct ((status <? -13)%Z || (12 <? status)%Z); simpl in Hr;
        [destruct Hr; discriminate|].
      assert (Hhead : forall j dt' status', ((dt, status) :: @nil (float * Z)) !! j
                                            = Some (dt', status') ->
                smallerTimeStep sim TimeStep (i + Z.of_nat j) = Ok dt'
                /\ exists C_j before_j Fr C_j',
                     dispatch aV aM aC sim Frac C_j dt' before_j
                     = Next ((status', Fr), C_j')).
      { intros [|j] dt' status' Hj; simpl in Hj; inversion Hj; subst.
        rewrite Z.add_0_r. split; [assumption|]. eauto. }
      destruct ((status =? 1)%Z || (status =? 12)%Z) eqn:Es; simpl in Hr.
      * destruct Hr as [Hr|Hr]; inversion Hr; subst; simpl.
        exists [(dt, status)]. rewrite !attempted_app, !statuses_app. simpl.
        rewrite !app_nil_r.
        split; [lia|]. split; [reflexivity|]. split; [reflexivity|]. exact Hhead.
      * assert (Hb : body (reattempts aV aM aC n (i + 1) sim Frac C' TimeStep
                             (Some (status, Fr))
                             ((out ++ [print_attempting_time_step dt]
                                   ++ [print_status status]) ++ [print_time_step_failed]))
                     = Ok r).
        { rewrite <- !app_assoc in *. simpl in *.
          destruct Hr as [Hr|Hr]; rewrite Hr; reflexivity. }
        apply IH in Hb. destruct Hb as (calls & Hk & Hout & Hst & Hcalls).
        exists ((dt, status) :: calls).
        split; [simpl; lia|]. split; [|split].
        -- rewrite Hout, !attempted_app. simpl.
           rewrite app_nil_r, <- app_assoc. reflexivity.
        -- rewrite Hst, !statuses_app. simpl. rewrite app_nil_r, <- app_assoc. reflexivity.
        -- intros [|j] dt' status' Hj.
           ++ apply (Hhead 0%nat). exact Hj.
           ++ simpl in Hj. apply Hcalls in Hj. destruct Hj as [Hj Hd].
              split; [rewrite <- Hj; f_equal; lia | exact Hd].
    + exfalso. eapply dispatch_not_Ret. exact Ed.
Qed.

Lemma limit_time_step_params sim TimeStep :
  SimulationParameters.maxReattempts (snd (limit_time_step sim TimeStep))
  = SimulationParameters.maxReattempts sim
  /\ SimulationParameters.reAttemptFactor (snd (limit_time_step sim TimeStep))
     = SimulationParameters.reAttemptFactor sim.
Proof.
  unfold limit_time_step.
  destruct (SimulationParameters.timeStep_limit sim <? TimeStep);
    match goal with |- context [if ?b then _ else _] => destruct b end; auto.
Qed.

Lemma smallerTimeStep_formula sim TimeStep i dt :
  smallerTimeStep sim TimeStep i = Ok dt ->
  exists power,
    dt = TimeStep * power /\
    if Z2float (SimulationParameters.maxReattempts sim) / 2 - 1 <? Z2float i
    then pow (1 / SimulationParameters.reAttemptFactor sim)
             (Z2float (i + 1) - Z2float (SimulationParameters.maxReattempts sim) / 2)
         = Ok power
    else pow (SimulationParameters.reAttemptFactor sim) (Z2float i) = Ok power.
Proof.
  unfold smallerTimeStep. intros Hdt. apply BodyFacts.body_Ok in Hdt.
  destruct (pow (SimulationParameters.reAttemptFactor sim) (Z2float i)) as [p1|] eqn:E1;
    simpl in Hdt; [|destruct Hdt; discriminate].
  destruct (Z2float (SimulationParameters.maxReattempts sim) / 2 - 1 <? Z2float i).
  - destruct (SimulationParameters.reAttemptFactor sim =? 0); simpl in Hdt;
      [destruct Hdt; discriminate|].
    destruct (pow _ _) as [p2|] eqn:E2 in Hdt; simpl in Hdt; [|destruct Hdt; discriminate].
    exists p2. split; [destruct Hdt as [Hdt|Hdt]; inversion Hdt; reflexivity | exact E2].
  - exists p1. split; [destruct Hdt as [Hdt|Hdt]; inversion Hdt; reflexivity | reflexivity].
Qed.

(** C6 (amended).  Whatever the step functions do, [advance_time_step]
    makes at most [maxReattempts] reattempts, numbered from 0.  The time
    step that it announces on reattempt [i] is the given time step, after
    [timeStep_limit] has been applied to it, times [reAttemptFactor ** i]
    as long as [i <= maxReattempts/2 - 1], and times
    [(1/reAttemptFactor) ** (i + 1 - maxReattempts/2)] on the later
    reattempts; it is the time step with which the step function of the
    mode is called on that reattempt, and the status printed next is the
    one that this call has returned. *)
Theorem advance_time_step_trial_steps sim Frac C TimeStep r :
  advance_time_step aV aM aC sim Frac C TimeStep = Ok r ->
  (length (attempted_time_steps (printed r))
   <= Z.to_nat (SimulationParameters.maxReattempts sim))%nat
  /\ forall (i : nat) (dt : float),
       attempted_time_steps (printed r) !! i = Some dt ->
       (Z.of_nat i < SimulationParameters.maxReattempts sim)%Z
       /\ (exists power,
             dt = fst (limit_time_step sim TimeStep) * power /\
             if Z2float (SimulationParameters.maxReattempts sim) / 2 - 1
                <? Z2float (Z.of_nat i)
             then pow (1 / SimulationParameters.reAttemptFactor sim)
                      (Z2float (Z.of_nat i + 1)
                       - Z2float (SimulationParameters.maxReattempts sim) / 2) = Ok power
             else pow (SimulationParameters.reAttemptFactor sim) (Z2float (Z.of_nat i))
                  = Ok power)
       /\ exists C_i before status Fr C_i',
            dispatch aV aM aC (snd (limit_time_step sim TimeStep)) Frac C_i dt before
            = Next ((status, Fr), C_i')
            /\ printed_statuses (printed r) !! i = Some status.
Proof.
  unfold advance_time_step. intros Hr.
  destruct (limit_time_step_params sim TimeStep) as [Hmax Hf].
  destruct (limit_time_step sim TimeStep) as [TimeStep' sim'] eqn:El. simpl in *.
  apply reattempts_calls in Hr. destruct Hr as (calls & Hk & Hout & Hst & Hcalls).
  simpl in Hout, Hst.
  rewrite Hmax in Hk.
  split; [rewrite Hout, length_map; exact Hk|].
  intros i dt Hi. rewrite Hout in Hi.
  apply list_lookup_fmap_Some in Hi. destruct Hi as ([dt' status] & Hdt & Hc).
  simpl in Hdt. subst dt.
  pose proof (lookup_lt_Some _ _ _ Hc) as Hlt.
  split; [lia|].
  destruct (Hcalls _ _ _ Hc) as [Hstep (C_i & before & Fr & C_i' & Hd)].
  rename dt' into dt.
  split.
  - simpl in Hstep. apply smallerTimeStep_formula in Hstep.
    rewrite Hmax, Hf in Hstep. exact Hstep.
  - exists C_i, before, status, Fr, C_i'. split; [exact Hd|].
    rewrite Hst, list_lookup_fmap, Hc. reflexivity.
Qed.

End Facts.

(** The run of the example: four reattempts of a step that always fails. *)
Lemma advance_time_step_trial_steps_witness :
  exists r,
    advance_time_step (H := Examples.example_NumLib) Examples.always_fails
      Examples.always_fails Examples.always_fails
      (Examples.example_sim 2 2 4 "implicit") Examples.example_fracture Examples.example_C 1
    = Ok r
    /\ attempted_time_steps (printed r) !! 3%nat = Some 4
    /\ (exists power, 4 = 1 * power
                     /\ Examples.example_pow (1 / 0.5) (Z2float 4 - Z2float 4 / 2) = Ok power)
    /\ exists C_i before status Fr C_i',
         dispatch Examples.always_fails Examples.always_fails Examples.always_fails
           (Examples.example_sim 2 2 4 "implicit") Examples.example_fracture C_i 4 before
         = Next ((status, Fr), C_i')
         /\ printed_statuses (printed r) !! 3%nat = Some status.
Proof.
  eexists. split; [vm_compute; reflexivity|]. split; [vm_compute; reflexivity|].
  pose proof (advance_time_step_trial_steps (H := Examples.example_NumLib)
                Examples.always_fails Examples.always_fails Examples.always_fails
                (Examples.example_sim 2 2 4 "implicit") Examples.example_fracture
                Examples.example_C 1 _ eq_refl) as [_ Hsteps].
  destruct (Hsteps 3%nat 4 eq_refl) as [_ [(power & Hp & Hpow) Hcall]].
  split; [exists power; split; [exact Hp|exact Hpow]|]. exact Hcall.
Defined.

(** C6 (as stated) fails: with [maxReattempts = 4], [reAttemptFactor = 0.5]
    and a time step of 1, reattempt 2 is made with the time step 2, not with
    [1 * 0.5 ** 2 = 0.25]; the sequence 1, 0.5, 2, 4 is not decreasing. *)
Lemma trial_step_grows_in_late_reattempts :
  exists r,
    advance_time_step (H := Examples.example_NumLib) Examples.always_fails
      Examples.always_fails Examples.always_fails
      (Examples.example_sim 2 2 4 "implicit") Examples.example_fracture Examples.example_C 1
    = Ok r
    /\ attempted_time_steps (printed r) = [1; 0.5; 2; 4]
    /\ Examples.example_pow 0.5 (Z2float 2) = Ok 0.25
    /\ (2 =? 1 * 0.25) = false
    /\ (0.5 <? 2) = true.
Proof.
  eexists. repeat split; vm_compute; reflexivity.
Qed.

End ControllerFacts.

(** * Facts about array indexing *)
Module NumPyFacts.
Import BodyFacts.

Lemma getitem_Next {R A} (a : list A) i x : @getitem R A a i = Next x <-> a !! i = Some x.
Proof. unfold getitem. destruct (a !! i); split; intros E; inversion E; auto. Qed.

Lemma getitem_not_Ret {R A} (a : list A) i (r : R) : @getitem R A a i <> Ret r.
Proof. unfold getitem. destruct (a !! i); discriminate. Qed.

Lemma take_not_Ret {R A} (a : list A) idx (r : R) : @take R A a idx <> Ret r.
Proof.
  induction idx as [|i idx IH]; simpl; [discriminate|].
  apply bind_not_Ret; [apply getitem_not_Ret|]. intros x.
  apply bind_not_Ret; [apply IH|]. discriminate.
Qed.

Lemma take_Next {R A} (a : list A) idx xs :
  @take R A a idx = Next xs <-> Forall2 (fun i x => a !! i = Some x) idx xs.
Proof.
  revert xs. induction idx as [|i idx IH]; intros xs; simpl.
  - split; intros E; [inversion E; constructor | inversion E; reflexivity].
  - split.
    + intros E. apply bind_Next_inv in E. destruct E as (x & Ex & E).
      apply bind_Next_inv in E. destruct E as (ys & Eys & E). inversion E; subst.
      constructor; [apply getitem_Next in Ex; exact Ex | apply IH; exact Eys].
    + intros E. inversion E as [|? x ? ys Hx Hys]; subst.
      apply (getitem_Next (R := R)) in Hx. apply IH in Hys. rewrite Hx. simpl.
      rewrite Hys. reflexivity.
Qed.

Lemma take_length {R A} (a : list A) idx xs :
  @take R A a idx = Next xs -> length xs = length idx.
Proof. intros E%take_Next. symmetry. eapply Forall2_length. eassumption. Qed.

Lemma take_lookup {R A} (a : list A) idx xs i c :
  @take R A a idx = Next xs -> idx !! i = Some c -> xs !! i = a !! c.
Proof.
  intros E%take_Next Hi.
  destruct (Forall2_lookup_l _ _ _ _ _ E Hi) as (x & Hx & Hax). congruence.
Qed.

Lemma fill_not_Ret {R A} (a : list A) idx c (r : R) : @fill R A a idx c <> Ret r.
Proof.
  revert a. induction idx as [|i idx IH]; intros a; simpl; [discriminate|].
  destruct (decide _); [apply IH | discriminate].
Qed.

Lemma put_zip_not_Ret {R A} (a : list A) idx vals (r : R) : @put_zip R A a idx vals <> Ret r.
Proof.
  revert a vals. induction idx as [|i idx IH]; intros a [|v vals]; simpl; try discriminate.
  destruct (decide _); [apply IH | discriminate].
Qed.

Lemma put_not_Ret {R A} (a : list A) idx vals (r : R) : @put R A a idx vals <> Ret r.
Proof.
  unfold put. destruct vals as [|? [|? ?]];
    first [apply fill_not_Ret | apply put_zip_not_Ret].
Qed.

Lemma setitem2_not_Ret {R} C i j c (r : R) : @setitem2 R C i j c <> Ret r.
Proof.
  unfold setitem2. destruct (C !! i); [|discriminate]. destruct (decide _); discriminate.
Qed.

Lemma getitem2_not_Ret {R} C i j (r : R) : @getitem2 R C i j <> Ret r.
Proof.
  unfold getitem2. apply bind_not_Ret; [apply getitem_not_Ret|].
  intros. apply getitem_not_Ret.
Qed.

Lemma vbinop_not_Ret {R} op a b (r : R) : @vbinop R op a b <> Ret r.
Proof.
  unfold vbinop. destruct (decide _); [discriminate|].
  destruct a as [|? [|? ?]], b as [|? [|? ?]]; discriminate.
Qed.

Lemma ix_get_not_Ret {R} C rows cols (r : R) : @ix_get R C rows cols <> Ret r.
Proof.
  induction rows as [|i rows IH]; simpl; [discriminate|].
  apply bind_not_Ret; [apply getitem_not_Ret|]. intros row.
  apply bind_not_Ret; [apply take_not_Ret|]. intros x.
  apply bind_not_Ret; [apply IH|]. discriminate.
Qed.

Lemma ix_put_not_Ret {R} C rows cols B (r : R) : @ix_put R C rows cols B <> Ret r.
Proof.
  revert C B. induction rows as [|i rows IH]; intros C [|b B]; simpl; try discriminate.
  apply bind_not_Ret; [apply getitem_not_Ret|]. intros row.
  apply bind_not_Ret; [apply put_zip_not_Ret|]. intros row'. apply IH.
Qed.

Lemma np_delete_not_Ret {R A} strict (a : list A) idx (r : R) :
  @np_delete R A strict a idx <> Ret r.
Proof. unfold np_delete. destruct (_ && _); discriminate. Qed.

Lemma py_max_not_Ret {R} a (r : R) : @py_max R a <> Ret r.
Proof. destruct a; discriminate. Qed.

Lemma py_max_int_not_Ret {R} a (r : R) : @py_max_int R a <> Ret r.
Proof. destruct a; discriminate. Qed.

Lemma ix_get_length {R} C rows cols B :
  @ix_get R C rows cols = Next B -> length B = length rows.
Proof.
  revert B. induction rows as [|i rows IH]; intros B; simpl.
  - intros E. inversion E. reflexivity.
  - intros E. apply bind_Next_inv in E. destruct E as (row & _ & E).
    apply bind_Next_inv in E. destruct E as (x & _ & E).
    apply bind_Next_inv in E. destruct E as (rs & Ers & E). inversion E; subst.
    simpl. f_equal. apply IH. exact Ers.
Qed.

Lemma fill_length {R A} (a : list A) idx c a' :
  @fill R A a idx c = Next a' -> length a' = length a.
Proof.
  revert a. induction idx as [|i idx IH]; intros a; simpl.
  - intros E. inversion E. reflexivity.
  - destruct (decide _); [|discriminate]. intros E%IH. rewrite length_insert in E. exact E.
Qed.

Lemma fill_lookup_notin {R A} (a : list A) idx c a' k :
  @fill R A a idx c = Next a' -> k ∉ idx -> a' !! k = a !! k.
Proof.
  revert a. induction idx as [|i idx IH]; intros a; simpl.
  - intros E _. inversion E. reflexivity.
  - destruct (decide _); [|discriminate]. intros E Hk.
    apply not_elem_of_cons in Hk. destruct Hk as [Hki Hk].
    rewrite (IH _ E Hk). apply list_lookup_insert_ne. congruence.
Qed.

Lemma fill_lookup_in {R A} (a : list A) idx c a' k :
  @fill R A a idx c = Next a' -> k ∈ idx -> a' !! k = Some c.
Proof.
  revert a. induction idx as [|i idx IH]; intros a; simpl.
  - intros _ Hk. inversion Hk.
  - destruct (decide _) as [Hi|]; [|discriminate]. intros E Hk.
    destruct (decide (k ∈ idx)) as [Hin|Hin]; [eapply IH; eassumption|].
    apply elem_of_cons in Hk. destruct Hk as [->|Hk]; [|contradiction].
    rewrite (fill_lookup_notin _ _ _ _ _ E Hin).
    apply list_lookup_insert_eq. exact Hi.
Qed.

Lemma put_zip_length {R A} (a : list A) idx vals a' :
  @put_zip R A a idx vals = Next a' -> length a' = length a /\ length vals = length idx.
Proof.
  revert a vals. induction idx as [|i idx IH]; intros a [|v vals]; simpl; try discriminate.
  - intros E. inversion E. auto.
  - destruct (decide _); [|discriminate]. intros E%IH. rewrite length_insert in E.
    destruct E. split; [assumption|lia].
Qed.

Lemma put_zip_lookup_notin {R A} (a : list A) idx vals a' k :
  @put_zip R A a idx vals = Next a' -> k ∉ idx -> a' !! k = a !! k.
Proof.
  revert a vals. induction idx as [|i idx IH]; intros a [|v vals]; simpl; try discriminate.
  - intros E _. inversion E. reflexivity.
  - destruct (decide _); [|discriminate]. intros E Hk.
    apply not_elem_of_cons in Hk. destruct Hk as [Hki Hk].
    rewrite (IH _ _ E Hk). apply list_lookup_insert_ne. congruence.
Qed.

(** After [a[idx] = vals] the cell [k] of [idx] holds the value written for
    one of its positions in [idx]. *)
Lemma put_zip_lookup_in {R A} (a : list A) idx vals a' k :
  @put_zip R A a idx vals = Next a' -> k ∈ idx ->
  exists j x, idx !! j = Some k /\ vals !! j = Some x /\ a' !! k = Some x.
Proof.
  revert a vals. induction idx as [|i idx IH]; intros a [|v vals]; simpl; try discriminate.
  - intros _ Hk. inversion Hk.
  - destruct (decide _) as [Hi|]; [|discriminate]. intros E Hk.
    destruct (decide (k ∈ idx)) as [Hin|Hin].
    + destruct (IH _ _ E Hin) as (j & x & Hj & Hx & Hk'). exists (S j), x. auto.
    + apply elem_of_cons in Hk. destruct Hk as [->|Hk]; [|contradiction].
      exists 0%nat, v. split; [reflexivity|]. split; [reflexivity|].
      rewrite (put_zip_lookup_notin _ _ _ _ _ E Hin).
      apply list_lookup_insert_eq. exact Hi.
Qed.

Lemma put_lookup_in {R A} (a : list A) idx vals a' k :
  @put R A a idx vals = Next a' -> k ∈ idx -> exists x, x ∈ vals /\ a' !! k = Some x.
Proof.
  unfold put. intros E Hk.
  assert (Hz : @put_zip R A a idx vals = Next a' -> exists x, x ∈ vals /\ a' !! k = Some x).
  { intros Ez. destruct (put_zip_lookup_in _ _ _ _ _ Ez Hk) as (j & x & _ & Hx & Hk').
    exists x. split; [eapply list_elem_of_lookup_2; eassumption | exact Hk']. }
  destruct vals as [|c [|? ?]]; auto.
  exists c. split; [apply list_elem_of_singleton; reflexivity|].
  eapply fill_lookup_in; eassumption.
Qed.

(** [a[idx] = c] and [a[idx] = vals] leave in a cell the value written for
    its last place in [idx]. *)
Lemma put_zip_lookup_last {R A} (a : list A) idx vals a' j k :
  @put_zip R A a idx vals = Next a' -> idx !! j = Some k ->
  (forall j', (j < j')%nat -> idx !! j' <> Some k) ->
  exists x, vals !! j = Some x /\ a' !! k = Some x.
Proof.
  revert a vals j. induction idx as [|i idx IH]; intros a [|v vals] j; simpl; try discriminate.
  destruct (decide _) as [Hi|]; [|discriminate]. intros E Hj Hlast.
  destruct j as [|j]; simpl in Hj.
  - inversion Hj; subst i. exists v. split; [reflexivity|].
    assert (Hin : k ∉ idx).
    { intros (j' & Hj')%list_elem_of_lookup_1. apply (Hlast (S j')); [lia|exact Hj']. }
    rewrite (put_zip_lookup_notin _ _ _ _ _ E Hin).
    apply list_lookup_insert_eq. exact Hi.
  - apply (IH _ _ _ E Hj). intros j' Hlt. apply (Hlast (S j')). lia.
Qed.

Lemma put_lookup_last {R A} (a : list A) idx vals a' j k :
  @put R A a idx vals = Next a' -> idx !! j = Some k ->
  (forall j', (j < j')%nat -> idx !! j' <> Some k) ->
  exists x, (vals !! j = Some x \/ vals = [x]) /\ a' !! k = Some x.
Proof.
  unfold put. intros E Hj Hlast.
  assert (Hz : @put_zip R A a idx vals = Next a' ->
               exists x, (vals !! j = Some x \/ vals = [x]) /\ a' !! k = Some x).
  { intros Ez. destruct (put_zip_lookup_last _ _ _ _ _ _ Ez Hj Hlast) as (x & Hx & Hk).
    exists x. auto. }
  destruct vals as [|c [|? ?]]; auto.
  exists c. split; [right; reflexivity|].
  eapply fill_lookup_in; [exact E|]. eapply list_elem_of_lookup_2. exact Hj.
Qed.

Lemma put_lookup_notin {R A} (a : list A) idx vals a' k :
  @put R A a idx vals = Next a' -> k ∉ idx -> a' !! k = a !! k.
Proof.
  unfold put. intros E Hk.
  destruct vals as [|c [|? ?]];
    first [eapply fill_lookup_notin; eassumption | eapply put_zip_lookup_notin; eassumption].
Qed.

Lemma put_length {R A} (a : list A) idx vals a' :
  @put R A a idx vals = Next a' -> length a' = length a.
Proof.
  unfold put. intros E.
  destruct vals as [|c [|? ?]];
    first [eapply fill_length; eassumption | eapply put_zip_length; eassumption].
Qed.

Lemma any_false {A} (f : A -> bool) (a : list A) x :
  any f a = false -> x ∈ a -> f x = false.
Proof.
  unfold any. intros Hany Hx. apply list_elem_of_In in Hx.
  destruct (f x) eqn:E; [|reflexivity].
  assert (existsb f a = true) by (apply existsb_exists; eauto). congruence.
Qed.

Lemma any_true {A} (f : A -> bool) (a : list A) :
  any f a = true <-> exists x, x ∈ a /\ f x = true.
Proof.
  unfold any. rewrite existsb_exists. split; intros (x & Hx & Hf); exists x;
    (split; [apply list_elem_of_In; exact Hx | exact Hf]).
Qed.

Lemma vbinop_same_length {R} op (a b : vec) c :
  length a = length b -> @vbinop R op a b = Next c -> c = zip_with op a b.
Proof.
  unfold vbinop. intros Hlen. destruct (decide _); [|contradiction].
  intros E. inversion E. reflexivity.
Qed.

Lemma setitem2_last_row {R} (top : matrix) (row : vec) j c :
  (j < length row)%nat ->
  @setitem2 R (top ++ [row]) (length (top ++ [row]) - 1) j c = Next (top ++ [<[j:=c]> row]).
Proof.
  intros Hj. unfold setitem2. rewrite length_app. simpl.
  replace (length top + 1 - 1)%nat with (length top + 0)%nat by lia.
  rewrite lookup_app_r by lia. replace (length top + 0 - length top)%nat with 0%nat by lia.
  simpl. destruct (decide _); [|lia]. rewrite insert_app_r. reflexivity.
Qed.

End NumPyFacts.

#[export] Hint Resolve NumPyFacts.getitem_not_Ret NumPyFacts.take_not_Ret
  NumPyFacts.fill_not_Ret NumPyFacts.put_zip_not_Ret NumPyFacts.put_not_Ret
  NumPyFacts.setitem2_not_Ret NumPyFacts.getitem2_not_Ret NumPyFacts.vbinop_not_Ret
  NumPyFacts.ix_get_not_Ret NumPyFacts.ix_put_not_Ret NumPyFacts.np_delete_not_Ret
  NumPyFacts.py_max_not_Ret NumPyFacts.py_max_int_not_Ret : no_ret.

Module SolverFacts.
Import ElastoHydrodynamicSolver NumPyFacts BodyFacts.
Local Open Scope float_scope.

Section Facts.
Context `{NumLib}.

(** C7.  The system that [MakeEquationSystem_volumeControl] assembles for
    the increments of the channel widths and the uniform pressure has, as
    its last row, the coefficient 1 on each of the channel width increments
    and 0 on the pressure, and, as its last right-hand side, the injected
    volume per unit cell area [sum(Q) * dt / ElemArea], minus the sum of the
    imposed tip widths less the sum of the widths that the tip cells had at
    the last time step, minus the total leak-off. *)
Theorem volume_balance_row w_lst_tmstp wTip EltChannel EltTip sigma_o C dt Q ElemArea lkOff A S :
  MakeEquationSystem_volumeControl w_lst_tmstp wTip EltChannel EltTip sigma_o C dt Q
                                   ElemArea lkOff = Ok (A, S) ->
  (exists A_top, length A_top = length EltChannel
                 /\ A = A_top ++ [replicate (length EltChannel) 1 ++ [0]])
  /\ exists S_top w_tip_lst,
       Forall2 (fun e x => w_lst_tmstp !! e = Some x) EltTip w_tip_lst
       /\ S = S_top ++ [py_sum Q * dt / ElemArea - (py_sum wTip - py_sum w_tip_lst)
                        - np_sum lkOff].
Proof.
  unfold MakeEquationSystem_volumeControl. intros HAS. apply body_Ok in HAS.
  step HAS as Ccc ECcc. step HAS as Cct ECct. step HAS as A' EA.
  step HAS as s0 Es0. step HAS as wch Ewch. step HAS as d1 Ed1. step HAS as d2 Ed2.
  step HAS as t Et. step HAS as S' ES. step HAS as wtip_old Ewtip.
  step HAS. inversion HAS; subst. split.
  - exists (map (fun row => row ++ [-1]) Ccc).
    apply ix_get_length in ECcc.
    split; [rewrite length_map; exact ECcc|].
    rewrite setitem2_last_row in EA by (rewrite length_replicate; lia).
    inversion EA; subst. f_equal. f_equal.
    rewrite replicate_add. simpl.
    rewrite <- (length_replicate (length EltChannel) (1 : float)) at 1.
    rewrite <- (Nat.add_0_r (length (replicate (length EltChannel) (1 : float)))) at 1.
    rewrite (insert_app_r (replicate (length EltChannel) 1) [1] 0). reflexivity.
  - exists S', wtip_old. split; [|reflexivity].
    apply take_Next in Ewtip. exact Ewtip.
Qed.

End Facts.
End SolverFacts.

Module ConvergenceFacts.
Import ElastoHydrodynamicSolver NumPyFacts BodyFacts.
Local Open Scope float_scope.

Lemma take_seq {R A} (a : list A) n xs :
  @take R A a (seq 0 n) = Next xs -> xs = firstn n a /\ (n <= length a)%nat.
Proof.
  intros E%take_Next. split.
  - apply list_eq. intros i.
    destruct (decide (i < n)%nat) as [Hi|Hi].
    + assert (Hs : seq 0 n !! i = Some i) by (apply lookup_seq; lia).
      destruct (Forall2_lookup_l _ _ _ _ _ E Hs) as (x & Hx & Hax).
      rewrite Hx, lookup_take_lt by lia. congruence.
    + rewrite lookup_take_ge by lia. apply lookup_ge_None.
      apply Forall2_length in E. rewrite length_seq in E. lia.
  - destruct n as [|n]; [lia|].
    assert (Hs : seq 0 (S n) !! n = Some n) by (apply lookup_seq; lia).
    destruct (Forall2_lookup_l _ _ _ _ _ E Hs) as (x & Hx & Hax).
    apply lookup_lt_Some in Hax. lia.
Qed.

Lemma where_from_ge {A} (z : A -> bool) b k i : i ∈ where_from z b k -> (k <= i)%nat.
Proof.
  revert k. induction b as [|y b IH]; intros k; simpl.
  - intros Hi. inversion Hi.
  - destruct (z y).
    + intros [->|Hi]%elem_of_cons; [lia|]. apply IH in Hi. lia.
    + intros Hi. apply IH in Hi. lia.
Qed.

Lemma delete_from_ext {A} (a : list A) idx idx' k :
  (forall i, (k <= i)%nat -> i ∈ idx <-> i ∈ idx') ->
  delete_from a idx k = delete_from a idx' k.
Proof.
  revert k. induction a as [|x a IH]; intros k Hext; simpl; [reflexivity|].
  rewrite (IH (S k)) by (intros i Hi; apply Hext; lia).
  destruct (bool_decide_reflect (k ∈ idx)) as [Hk|Hk];
    destruct (bool_decide_reflect (k ∈ idx')) as [Hk'|Hk']; try reflexivity.
  - apply Hext in Hk; [contradiction | lia].
  - apply Hext in Hk'; [contradiction | lia].
Qed.

(** Deleting from [a] the positions at which [b] passes the test [z] keeps
    the entries of [a] whose partner in [b] fails it. *)
Lemma delete_from_where {A B} (z : B -> bool) (a : list A) (b : list B) k :
  (length a <= length b)%nat ->
  delete_from a (where_from z b k) k
  = map fst (List.filter (fun p => negb (z (snd p))) (zip a b)).
Proof.
  revert b k. induction a as [|x a IH]; intros [|y b] k Hlen; simpl in *; try reflexivity;
    try lia.
  destruct (z y) eqn:Ez; simpl.
  - rewrite bool_decide_eq_true_2 by (apply elem_of_cons; auto).
    rewrite <- (IH b (S k)) by lia. apply delete_from_ext.
    intros i Hi. rewrite elem_of_cons. split; [intros [->|Hin]; [lia|exact Hin] | auto].
  - rewrite bool_decide_eq_false_2
      by (intros Hin%where_from_ge; lia).
    f_equal. apply IH. lia.
Qed.

Lemma delete_from_where_snd {B} (z : B -> bool) (b : list B) n k :
  delete_from (firstn n b) (where_from z b k) k
  = List.filter (fun y => negb (z y)) (firstn n b).
Proof.
  revert n k. induction b as [|y b IH]; intros [|n] k; simpl; try reflexivity.
  destruct (z y) eqn:Ez; simpl.
  - rewrite bool_decide_eq_true_2 by (apply elem_of_cons; auto).
    rewrite <- (IH n (S k)). apply delete_from_ext.
    intros i Hi. rewrite elem_of_cons. split; [intros [->|Hin]; [lia|exact Hin] | auto].
  - rewrite bool_decide_eq_false_2 by (intros Hin%where_from_ge; lia).
    f_equal. apply IH.
Qed.

Lemma filter_zip_snd {A B} (z : B -> bool) (a : list A) (b : list B) :
  length a = length b ->
  map snd (List.filter (fun p => negb (z (snd p))) (zip a b))
  = List.filter (fun y => negb (z y)) b.
Proof.
  revert b. induction a as [|x a IH]; intros [|y b] Hlen; simpl in *; try reflexivity;
    try lia.
  destruct (z y); simpl; [|f_equal]; apply IH; lia.
Qed.

Lemma zip_firstn_r {A B} (a : list A) (b : list B) n :
  (length a <= n)%nat -> zip a (firstn n b) = zip a b.
Proof.
  revert b n. induction a as [|x a IH]; intros [|y b] [|n] Hn; simpl in *; try reflexivity;
    try lia.
  f_equal. apply IH. lia.
Qed.

Lemma where_from_nil {A} (z : A -> bool) b k :
  where_from z b k = [] -> forallb (fun y => negb (z y)) b = true.
Proof.
  revert k. induction b as [|y b IH]; intros k; simpl; [reflexivity|].
  destruct (z y); [discriminate|]. intros E. simpl. eapply IH. eassumption.
Qed.

Lemma zip_with_relative (a b : vec) :
  zip_with div (vabs (zip_with sub a b)) (vabs b) = relative_differences a b.
Proof.
  unfold relative_differences, vabs. revert b.
  induction a as [|x a IH]; intros [|y b]; simpl; try reflexivity.
  f_equal. apply IH.
Qed.

Lemma filter_all {A} (f : A -> bool) l : forallb f l = true -> List.filter f l = l.
Proof.
  induction l as [|x l IH]; simpl; [reflexivity|].
  intros [Hx Hl]%andb_prop. rewrite Hx. f_equal. apply IH. exact Hl.
Qed.

Section Facts.
Context `{NumLib}.

Lemma forallb_firstn {A} (f : A -> bool) l n :
  forallb f l = true -> forallb f (firstn n l) = true.
Proof.
  revert n. induction l as [|x l IH]; intros [|n]; simpl; auto.
  intros [Hx Hl]%andb_prop. rewrite Hx. simpl. apply IH. exact Hl.
Qed.

(** With the widths in the first [n] entries of the solution,
    [check_covergance] takes the width norm over the width entries whose
    previous iterate is not zero, the pressure and the traction norms over
    the entries listed for them, and compares each with [tol]. *)
Lemma check_covergance_norms (n : nat) (idx_p idx_tr : list nat) (solk solkm1 : vec)
    (tol : float) (converged : bool) (norm : float) :
  check_covergance solk solkm1 (seq 0 n, idx_p, idx_tr) tol = Ok (converged, norm) ->
  exists norm_w norm_p norm_tr p_k p_km1,
    relative_norm (map fst (nonzero_previous solk solkm1 n))
                  (map snd (nonzero_previous solk solkm1 n)) = Ok norm_w
    /\ Forall2 (fun i x => solk !! i = Some x) idx_p p_k
    /\ Forall2 (fun i x => solkm1 !! i = Some x) idx_p p_km1
    /\ relative_norm p_k p_km1 = Ok norm_p
    /\ match idx_tr with
       | [] => norm_tr = 0
       | _ => exists tr_k tr_km1,
                Forall2 (fun i x => solk !! i = Some x) idx_tr tr_k
                /\ Forall2 (fun i x => solkm1 !! i = Some x) idx_tr tr_km1
                /\ relative_norm tr_k tr_km1 = Ok norm_tr
       end
    /\ (converged = true <->
        (norm_w <=? tol) = true /\ (norm_p <=? tol) = true /\ (norm_tr <=? tol) = true)
    /\ norm = (norm_w + norm_p + norm_tr) / 3.
Proof.
  unfold check_covergance, nonzero_previous. intros Hr. apply body_Ok in Hr.
  assert (Hw : exists norm_w,
             relative_norm
               (map fst (List.filter (fun p => negb (snd p =? 0))
                                     (zip (firstn n solk) (firstn n solkm1))))
               (map snd (List.filter (fun p => negb (snd p =? 0))
                                     (zip (firstn n solk) (firstn n solkm1)))) = Ok norm_w
             /\ returns (a ← take solk idx_p; b ← take solkm1 idx_p;
                         norm_p ← call (relative_norm a b);
                         norm_tr ← (if decide (0 < length idx_tr)%nat then
                                      a ← take solk idx_tr; b ← take solkm1 idx_tr;
                                      call (relative_norm a b)
                                    else Next 0);
                         Next ((norm_w <=? tol) && (norm_p <=? tol) && (norm_tr <=? tol),
                               (norm_w + norm_p + norm_tr) / 3)) (converged, norm)).
  { destruct (decide (0 < length (np_where (fun x => (x =? 0)%float) solkm1))%nat) as [Hz|Hz].
    - step Hr as delw Edelw. step Hr as delw1 Edelw1. step Hr as d Ed. step Hr as d1 Ed1.
      step Hr as norm_w Enw. exists norm_w. split; [|exact Hr].
      apply take_seq in Edelw. destruct Edelw as [-> Hn].
      apply take_seq in Edelw1. destruct Edelw1 as [-> Hn1].
      unfold np_delete in Ed, Ed1.
      destruct (delete_strict && _) in Ed; [discriminate|].
      destruct (delete_strict && _) in Ed1; [discriminate|].
      inversion Ed; inversion Ed1; subst. unfold np_where in Enw.
      rewrite delete_from_where in Enw by (rewrite !length_take; lia).
      rewrite delete_from_where_snd in Enw.
      rewrite zip_firstn_r by (rewrite length_take; lia).
      rewrite <- (zip_firstn_r (firstn n solk) solkm1 n) at 2 by (rewrite length_take; lia).
      rewrite (filter_zip_snd (fun x => x =? 0)) by (rewrite !length_take; lia).
      exact Enw.
    - step Hr as a Ea. step Hr as b Eb. step Hr as norm_w Enw.
      exists norm_w. split; [|exact Hr].
      apply take_seq in Ea. destruct Ea as [-> Hn].
      apply take_seq in Eb. destruct Eb as [-> Hn1].
      assert (Hall : forallb (fun y => negb (y =? 0)) solkm1 = true).
      { apply (where_from_nil _ _ 0%nat). unfold np_where in Hz.
        destruct (where_from _ solkm1 0); [reflexivity | simpl in Hz; lia]. }
      rewrite filter_all.
      + rewrite fst_zip, snd_zip by (rewrite !length_take; lia). exact Enw.
      + apply forallb_forall. intros [x y] Hin%list_elem_of_In.
        apply elem_of_zip_r in Hin. simpl.
        apply (forallb_firstn _ _ n) in Hall.
        rewrite forallb_forall in Hall. apply Hall. apply list_elem_of_In. exact Hin. }
  clear Hr. destruct Hw as (norm_w & Hnw & Hr). exists norm_w.
  step Hr as p_k Epk. step Hr as p_km1 Epkm1. step Hr as norm_p Enp.
  apply take_Next in Epk, Epkm1.
  assert (Hand : forall a b c : bool,
             a && b && c = true <-> a = true /\ b = true /\ c = true).
  { intros [] [] []; simpl; intuition congruence. }
  destruct (decide (0 < length idx_tr)%nat) as [Htr|Htr].
  - step Hr as tr_k Etk. step Hr as tr_km1 Etkm1. step Hr as norm_tr Entr. step Hr.
    inversion Hr; subst. apply take_Next in Etk, Etkm1.
    exists norm_p, norm_tr, p_k, p_km1.
    split; [exact Hnw|]. split; [exact Epk|]. split; [exact Epkm1|]. split; [exact Enp|].
    split; [|split; [apply Hand | reflexivity]].
    destruct idx_tr; [simpl in Htr; lia|]. exists tr_k, tr_km1. auto.
  - step Hr as z Ez. step Hr. inversion Ez; subst z. inversion Hr; subst.
    exists norm_p, 0, p_k, p_km1.
    split; [exact Hnw|]. split; [exact Epk|]. split; [exact Epkm1|]. split; [exact Enp|].
    split; [|split; [apply Hand | reflexivity]].
    destruct idx_tr; [reflexivity | simpl in Htr; lia].
Qed.

(** On arrays of the same length [relative_norm] is the norm of the relative
    differences. *)
Lemma relative_norm_same_length (a b : vec) x :
  length a = length b ->
  relative_norm a b = Ok x -> x = np_linalg_norm (relative_differences a b).
Proof.
  intros Hlen. unfold relative_norm, vbinop.
  rewrite decide_True by exact Hlen. simpl.
  rewrite decide_True by (unfold vabs; rewrite !length_map, length_zip_with; lia).
  simpl. rewrite zip_with_relative. intros E. inversion E. reflexivity.
Qed.

Lemma Forall2_same_length {A B C} (P : A -> B -> Prop) (Q : A -> C -> Prop) l k k' :
  Forall2 P l k -> Forall2 Q l k' -> length k = length k'.
Proof. intros E1%Forall2_length E2%Forall2_length. congruence. Qed.


End Facts.
End ConvergenceFacts.

Module FrontFacts.
Import TimeSteppingVolumeControl Shared NumPyFacts BodyFacts FloatFacts.
Local Open Scope float_scope.

Lemma np_minimum1_not_greater a b : (b <? np_minimum1 a b) = false.
Proof.
  unfold np_minimum1. destruct (a <=? b) eqn:Eab; simpl.
  - apply leb_not_gtb. exact Eab.
  - destruct (is_nan a) eqn:Ea.
    + apply is_nan_spec in Ea. subst. apply ltb_nan_r.
    + apply ltb_irrefl.
Qed.

Lemma np_minimum1_le a b :
  is_nan a = false -> is_nan b = false ->
  (np_minimum1 a b <=? a) = true /\ (np_minimum1 a b <=? b) = true.
Proof.
  unfold np_minimum1. intros Ha Hb. rewrite Ha, orb_false_r.
  destruct (a <=? b) eqn:Eab.
  - split; [apply leb_refl; exact Ha | exact Eab].
  - split; [apply leb_false_leb; assumption | apply leb_refl; exact Hb].
Qed.

Lemma np_minimum1_cases a b : np_minimum1 a b = a \/ np_minimum1 a b = b.
Proof. unfold np_minimum1. destruct ((a <=? b) || is_nan a); auto. Qed.

Section Facts.
Context `{NumLib} `{PyFracModules}.

(** Minus the distance that the inversion has given for the place [j] of
    the ribbon: the entry [j], or the single entry that numpy broadcasts. *)
Lemma vneg_entry (inv : vec) j y :
  vneg inv !! j = Some y \/ vneg inv = [y] ->
  exists dist, (inv !! j = Some dist \/ inv = [dist]) /\ y = - dist.
Proof.
  unfold vneg. intros [Hy|Hy].
  - apply list_lookup_fmap_Some in Hy. destruct Hy as (d & -> & Hd). eauto.
  - destruct inv as [|d [|? ?]]; inversion Hy. eauto.
Qed.

(** The inversion in the volume-control steps. *)
Lemma invert_tip_asymptote_minimum {R} (failed : Z -> R) (w : vec) (Fr_lstTmStp : Fracture.t)
    (Material_properties : MaterialProperties.t) (sim_parameters : SimulationParameters.t)
    (timeStep : float) (Kprime_k : option vec) (sgndDist_k : vec) :
  invert_tip_asymptote failed w Fr_lstTmStp Material_properties sim_parameters timeStep
                       Kprime_k = Next sgndDist_k ->
  exists inverted,
    TipAsymInversion w Fr_lstTmStp Material_properties sim_parameters timeStep Kprime_k
    = Ok inverted
    /\ forall (j : nat) (cell : nat),
         Fracture.EltRibbon Fr_lstTmStp !! j = Some cell ->
         (forall j', (j < j')%nat -> Fracture.EltRibbon Fr_lstTmStp !! j' <> Some cell) ->
         exists dist last,
           (inverted !! j = Some dist \/ inverted = [dist])
           /\ is_nan (- dist) = false
           /\ Fracture.sgndDist Fr_lstTmStp !! cell = Some last
           /\ sgndDist_k !! cell = Some (np_minimum1 (- dist) last)
           /\ (last <? np_minimum1 (- dist) last) = false
           /\ (is_nan last = false ->
               (np_minimum1 (- dist) last <=? - dist) = true
               /\ (np_minimum1 (- dist) last <=? last) = true).
Proof.
  unfold invert_tip_asymptote. intros Hsd.
  apply bind_Next_inv in Hsd. destruct Hsd as (inv & Einv & Hsd).
  apply call_Next_inv in Einv. exists inv. split; [exact Einv|].
  apply bind_Next_inv in Hsd. destruct Hsd as (sd1 & Esd1 & Hsd).
  apply bind_Next_inv in Hsd. destruct Hsd as (r & Er & Hsd).
  apply bind_Next_inv in Hsd. destruct Hsd as ([] & Enan & Hsd).
  apply bind_Next_inv in Hsd. destruct Hsd as (last & Elast & Hsd).
  apply bind_Next_inv in Hsd. destruct Hsd as (m & Em & Hsd).
  unfold return_if in Enan. destruct (isnan_any r) eqn:Enan'; [discriminate|]. clear Enan.
  pose proof (take_length _ _ _ Er) as Hlr. pose proof (take_length _ _ _ Elast) as Hll.
  apply vbinop_same_length in Em; [|congruence]. subst m.
  intros j cell Hj Hlast.
  destruct (put_lookup_last _ _ _ _ _ _ Esd1 Hj Hlast) as (y & Hy & Hsd1).
  destruct (vneg_entry _ _ _ Hy) as (dist & Hdist & ->).
  assert (Hrj : r !! j = Some (- dist))
    by (rewrite (take_lookup _ _ _ _ _ Er Hj); exact Hsd1).
  destruct (lookup_lt_is_Some_2 last j) as [lj Hlj].
  { rewrite Hll. eapply lookup_lt_Some. exact Hj. }
  assert (Hcell : Fracture.sgndDist Fr_lstTmStp !! cell = Some lj)
    by (rewrite <- (take_lookup _ _ _ _ _ Elast Hj); exact Hlj).
  assert (Hm : zip_with np_minimum1 r last !! j = Some (np_minimum1 (- dist) lj)).
  { apply lookup_zip_with_Some. exists (- dist), lj. auto. }
  destruct (put_lookup_last _ _ _ _ _ _ Hsd Hj Hlast) as (x & Hx & Hc).
  assert (Hxv : x = np_minimum1 (- dist) lj).
  { destruct Hx as [Hx|Hx]; [congruence|].
    (* a ribbon of one cell: the scalar assignment is the elementwise one *)
    assert (Hone : length (Fracture.EltRibbon Fr_lstTmStp) = 1%nat).
    { rewrite <- Hlr. apply (f_equal length) in Hx. rewrite length_zip_with in Hx.
      simpl in Hx. lia. }
    apply lookup_lt_Some in Hj. destruct j as [|j]; [|lia].
    rewrite Hx in Hm. inversion Hm. reflexivity. }
  subst x.
  assert (Hnan : is_nan (- dist) = false).
  { eapply (any_false is_nan r); [exact Enan'|].
    eapply list_elem_of_lookup_2. exact Hrj. }
  exists dist, lj. split; [exact Hdist|]. split; [exact Hnan|]. split; [exact Hcell|].
  split; [exact Hc|]. split; [apply np_minimum1_not_greater|].
  intros Hl. apply np_minimum1_le; assumption.
Qed.

(** The inversion in the first pass of the toughness loop of the
    viscous-fluid step. *)
Lemma toughness_loop_no_minimum {R} (failed : Z -> R) fuel w_k Fr_lstTmStp timeStep
    Material_properties sim_parameters itr sgndDist_k r :
  (itr < SimulationParameters.maxToughnessItr sim_parameters)%Z ->
  TimeSteppingViscousFluid.toughness_loop (S fuel) w_k Fr_lstTmStp timeStep
    Material_properties sim_parameters failed itr sgndDist_k = Next r ->
  exists Kprime_k inverted sd pstv ngtv sd',
    TipAsymInversion w_k Fr_lstTmStp Material_properties sim_parameters timeStep Kprime_k
    = Ok inverted
    /\ SolveFMM sd (Fracture.EltRibbon Fr_lstTmStp) (Fracture.EltChannel Fr_lstTmStp)
                (Fracture.mesh Fr_lstTmStp) pstv ngtv = Ok sd'
    /\ forall (j : nat) (cell : nat),
         Fracture.EltRibbon Fr_lstTmStp !! j = Some cell ->
         (forall j', (j < j')%nat -> Fracture.EltRibbon Fr_lstTmStp !! j' <> Some cell) ->
         exists dist,
           (inverted !! j = Some dist \/ inverted = [dist])
           /\ sd !! cell = Some (- dist).
Proof.
  intros Hitr Hloop. simpl in Hloop.
  apply Z.ltb_lt in Hitr. rewrite Hitr in Hloop.
  apply bind_Next_inv in Hloop. destruct Hloop as (l_m1 & El & Hloop).
  apply bind_Next_inv in Hloop. destruct Hloop as (K & EK & Hloop).
  apply bind_Next_inv in Hloop. destruct Hloop as (inv & Einv & Hloop).
  apply call_Next_inv in Einv.
  apply bind_Next_inv in Hloop. destruct Hloop as (sd & Esd & Hloop).
  apply bind_Next_inv in Hloop. destruct Hloop as (rr & Er & Hloop).
  apply bind_Next_inv in Hloop. destruct Hloop as ([] & Enan & Hloop).
  apply bind_Next_inv in Hloop. destruct Hloop as ([[fr pstv] ngtv] & Ereg & Hloop).
  apply bind_Next_inv in Hloop. destruct Hloop as (sd' & Efmm & Hloop).
  apply call_Next_inv in Efmm.
  exists K, inv, sd, pstv, ngtv, sd'. split; [exact Einv|]. split; [exact Efmm|].
  intros j cell Hj Hlast.
  destruct (put_lookup_last _ _ _ _ _ _ Esd Hj Hlast) as (y & Hy & Hsd).
  destruct (vneg_entry _ _ _ Hy) as (dist & Hdist & ->).
  exists dist. split; [exact Hdist|exact Hsd].
Qed.


End Facts.
End FrontFacts.

(** * The tip correction of the elasticity matrix and its undoing *)
Module MatrixFacts.
Import Shared NumPyFacts BodyFacts.
Local Open Scope float_scope.

Lemma same_off_tip_diagonal_refl tips C : same_off_tip_diagonal tips C C.
Proof. split; [reflexivity|]. intros i row Hi. exists row. auto. Qed.

Lemma same_off_tip_diagonal_trans tips C C1 C2 :
  same_off_tip_diagonal tips C C1 -> same_off_tip_diagonal tips C1 C2 ->
  same_off_tip_diagonal tips C C2.
Proof.
  intros [Hl1 H1] [Hl2 H2]. split; [congruence|].
  intros i row Hi. destruct (H1 i row Hi) as (row1 & Hi1 & Hlen1 & Hr1).
  destruct (H2 i row1 Hi1) as (row2 & Hi2 & Hlen2 & Hr2).
  exists row2. split; [exact Hi2|]. split; [congruence|].
  intros j Hj. rewrite Hr2, Hr1 by exact Hj. reflexivity.
Qed.

Lemma setitem2_diagonal {R} tips C t c C1 :
  t ∈ tips -> @setitem2 R C t t c = Next C1 -> same_off_tip_diagonal tips C C1.
Proof.
  unfold setitem2. intros Ht E. destruct (C !! t) as [rowt|] eqn:Et; [|discriminate].
  destruct (decide _) as [Hlt|]; [|discriminate]. inversion E; subst C1. clear E.
  split; [apply length_insert|].
  intros i row Hi. destruct (decide (i = t)) as [->|Hit].
  - exists (<[t:=c]> rowt). rewrite Et in Hi. inversion Hi; subst row.
    split; [apply list_lookup_insert_eq; eapply lookup_lt_Some; eassumption|].
    split; [apply length_insert|].
    intros j [Hj|Hj]; [apply list_lookup_insert_ne; congruence | contradiction].
  - exists row. split; [rewrite list_lookup_insert_ne by congruence; exact Hi|]. auto.
Qed.

(** The correction loop assigns into diagonal entries of tip cells only. *)
Lemma tip_correction_frame {R} tips0 tips : forall C FillF e C1,
  (forall t, t ∈ tips -> t ∈ tips0) ->
  @tip_correction R C FillF tips e = Next C1 -> same_off_tip_diagonal tips0 C C1.
Proof.
  induction tips as [|t tips IH]; intros C FillF e C1 Hsub; simpl.
  - intros E. inversion E. apply same_off_tip_diagonal_refl.
  - intros E. apply bind_Next_inv in E. destruct E as (f & _ & E).
    apply bind_Next_inv in E. destruct E as (c & _ & E).
    apply bind_Next_inv in E. destruct E as (C' & EC' & E).
    eapply same_off_tip_diagonal_trans.
    + eapply setitem2_diagonal; [|exact EC']. apply Hsub. apply elem_of_cons. auto.
    + eapply IH; [|exact E]. intros t' Ht'. apply Hsub. apply elem_of_cons. auto.
Qed.

Lemma tip_correction_not_Ret {R} tips : forall C FillF e (r : R),
  @tip_correction R C FillF tips e <> Ret r.
Proof.
  induction tips as [|t tips IH]; intros C FillF e r; simpl; [discriminate|].
  apply bind_not_Ret; [auto with no_ret|]. intros f.
  apply bind_not_Ret; [auto with no_ret|]. intros c.
  apply bind_not_Ret; [auto with no_ret|]. intros C'. apply IH.
Qed.

(** The block that [C[np.ix_(rows, cols)]] copies. *)
Lemma ix_get_lookup {R} C rows cols B :
  @ix_get R C rows cols = Next B ->
  Forall2 (fun i b => exists row, C !! i = Some row
                                  /\ Forall2 (fun j x => row !! j = Some x) cols b) rows B.
Proof.
  revert B. induction rows as [|i rows IH]; intros B; simpl.
  - intros E. inversion E. constructor.
  - intros E. apply bind_Next_inv in E. destruct E as (row & Erow & E).
    apply bind_Next_inv in E. destruct E as (b & Eb & E).
    apply bind_Next_inv in E. destruct E as (bs & Ebs & E). inversion E; subst.
    constructor; [|apply IH; exact Ebs].
    exists row. split; [apply getitem_Next in Erow; exact Erow | apply take_Next in Eb; exact Eb].
Qed.

(** What [C[np.ix_(rows, cols)] = B] leaves in the matrix: rows outside
    [rows] and columns outside [cols] keep their entries, and the entry
    [(i, j)] of the block holds the value that [B] has for one of the
    positions of [i] in [rows] and one of the positions of [j] in [cols]. *)
Lemma ix_put_lookup {R} cols rows : forall C B C2,
  @ix_put R C rows cols B = Next C2 ->
  length C2 = length C
  /\ forall i row, C !! i = Some row ->
       exists row2, C2 !! i = Some row2 /\ length row2 = length row
         /\ (forall j, i ∉ rows \/ j ∉ cols -> row2 !! j = row !! j)
         /\ (i ∈ rows -> exists k b, rows !! k = Some i /\ B !! k = Some b
                           /\ forall j, j ∈ cols ->
                                exists m x, cols !! m = Some j /\ b !! m = Some x
                                            /\ row2 !! j = Some x).
Proof.
  induction rows as [|i0 rows IH]; intros C B C2; destruct B as [|b0 B]; simpl;
    try discriminate.
  - intros E. inversion E; subst. split; [reflexivity|]. intros i row Hi.
    exists row. split; [exact Hi|]. split; [reflexivity|]. split; [auto|].
    intros Hin. inversion Hin.
  - intros E. apply bind_Next_inv in E. destruct E as (row0 & Erow0 & E).
    apply bind_Next_inv in E. destruct E as (row0' & Erow0' & E).
    apply getitem_Next in Erow0.
    destruct (IH _ _ _ E) as [Hlen Hrows]. rewrite length_insert in Hlen.
    split; [exact Hlen|]. intros i row Hi.
    pose proof (put_zip_length _ _ _ _ Erow0') as [Hl0 Hlb].
    destruct (decide (i = i0)) as [->|Hne].
    + rewrite Erow0 in Hi. inversion Hi; subst row0. clear Hi.
      assert (Hi' : <[i0:=row0']> C !! i0 = Some row0')
        by (apply list_lookup_insert_eq; eapply lookup_lt_Some; eassumption).
      destruct (Hrows i0 row0' Hi') as (row2 & H2 & Hlen2 & Hout & Hin).
      exists row2. split; [exact H2|]. split; [congruence|]. split.
      * intros j [Hj|Hj]; [contradiction Hj; apply elem_of_cons; auto|].
        rewrite Hout by auto. eapply put_zip_lookup_notin; eassumption.
      * intros _. destruct (decide (i0 ∈ rows)) as [Hmem|Hmem].
        -- destruct (Hin Hmem) as (k & b & Hk & Hb & Hcols).
           exists (S k), b. auto.
        -- exists 0%nat, b0. split; [reflexivity|]. split; [reflexivity|].
           intros j Hj. rewrite Hout by auto.
           destruct (put_zip_lookup_in _ _ _ _ _ Erow0' Hj) as (m & x & Hm & Hx & Hjx).
           exists m, x. auto.
    + assert (Hi' : <[i0:=row0']> C !! i = Some row)
        by (rewrite list_lookup_insert_ne by congruence; exact Hi).
      destruct (Hrows i row Hi') as (row2 & H2 & Hlen2 & Hout & Hin).
      exists row2. split; [exact H2|]. split; [exact Hlen2|]. split.
      * intros j [Hj|Hj]; apply Hout; [left|right; exact Hj].
        intros Hmem. apply Hj. apply elem_of_cons. auto.
      * intros [Heq|Hmem]%elem_of_cons; [contradiction|].
        destruct (Hin Hmem) as (k & b & Hk & Hb & Hcols). exists (S k), b. auto.
Qed.

(** Writing back the block saved before the correction gives the matrix
    back. *)
Lemma restore_after_correction {R} (C : matrix) FillF tips e saved C1 C2 :
  @ix_get R C tips tips = Next saved ->
  @tip_correction R C FillF tips e = Next C1 ->
  @ix_put R C1 tips tips saved = Next C2 ->
  C2 = C.
Proof.
  intros Hsaved%ix_get_lookup Hcorr Hput.
  apply (tip_correction_frame tips) in Hcorr; [|auto]. destruct Hcorr as [Hlen1 Hc1].
  apply ix_put_lookup in Hput. destruct Hput as [Hlen2 Hc2].
  apply list_eq. intros i. destruct (C !! i) as [row|] eqn:Hi.
  - destruct (Hc1 i row Hi) as (row1 & Hi1 & Hl1 & Hr1).
    destruct (Hc2 i row1 Hi1) as (row2 & Hi2 & Hl2 & Hout & Hin).
    rewrite Hi2. f_equal. apply list_eq. intros j.
    destruct (decide (i ∈ tips)) as [Hit|Hit].
    + destruct (decide (j ∈ tips)) as [Hjt|Hjt].
      * destruct (Hin Hit) as (k & b & Hk & Hb & Hcols).
        destruct (Hcols j Hjt) as (m & x & Hm & Hx & Hjx). rewrite Hjx.
        destruct (Forall2_lookup_l _ _ _ _ _ Hsaved Hk) as (b' & Hb' & row' & Hrow' & Hcopy).
        assert (b' = b) by congruence. subst b'.
        assert (row' = row) by congruence. subst row'.
        destruct (Forall2_lookup_l _ _ _ _ _ Hcopy Hm) as (x' & Hx' & Hrx).
        congruence.
      * rewrite Hout by auto. apply Hr1. left. intros ->. contradiction.
    + rewrite Hout by auto. apply Hr1. auto.
  - apply lookup_ge_None. apply lookup_ge_None in Hi. lia.
Qed.

End MatrixFacts.

#[export] Hint Resolve MatrixFacts.tip_correction_not_Ret : no_ret.

(** * The shared statements do not return from the function *)

(** Closes [m <> Ret r] for a sequence [m] of statements none of which
    returns. *)
Ltac no_return :=
  repeat first
    [ apply BodyFacts.bind_not_Ret; [solve [auto with no_ret] | intros]
    | match goal with |- (let '(_, _) := ?p in _) <> _ => destruct p end
    | match goal with |- (if ?b then _ else _) <> _ => destruct b end
    | match goal with |- (match ?b with Some _ => _ | None => _ end) <> _ => destruct b end ];
  solve [auto with no_ret | discriminate].

Module SharedFacts.
Import Shared.
Section Shared.
Context `{NumLib} `{PyFracModules}.

Lemma iadd_not_Ret {R} a idx vals (r : R) : @iadd R a idx vals <> Ret r.
Proof. unfold iadd. no_return. Qed.

Lemma cell_diagonal_not_Ret {R} mesh (r : R) : @cell_diagonal _ R mesh <> Ret r.
Proof. unfold cell_diagonal. no_return. Qed.

Lemma search_regions_not_Ret {R} sd mesh factor (r : R) :
  @search_regions _ R sd mesh factor <> Ret r.
Proof.
  pose proof (@cell_diagonal_not_Ret R). unfold search_regions. no_return.
Qed.

Lemma front_not_tracked_not_Ret {R} alpha l (r : R) : @front_not_tracked R alpha l <> Ret r.
Proof. unfold front_not_tracked. no_return. Qed.

Lemma tip_at_grid_boundary_not_Ret {R} mesh tips (r : R) :
  @tip_at_grid_boundary R mesh tips <> Ret r.
Proof. unfold tip_at_grid_boundary. no_return. Qed.

Lemma make_InCrack_not_Ret {R} mesh channel tips (r : R) :
  @make_InCrack R mesh channel tips <> Ret r.
Proof. unfold make_InCrack. no_return. Qed.

Lemma front_velocity_not_Ret {R} sd_k sd tips dt (r : R) :
  @front_velocity R sd_k sd tips dt <> Ret r.
Proof. unfold front_velocity. no_return. Qed.

End Shared.
End SharedFacts.

#[export] Hint Resolve SharedFacts.iadd_not_Ret SharedFacts.cell_diagonal_not_Ret
  SharedFacts.search_regions_not_Ret SharedFacts.front_not_tracked_not_Ret
  SharedFacts.tip_at_grid_boundary_not_Ret SharedFacts.make_InCrack_not_Ret
  SharedFacts.front_velocity_not_Ret : no_ret.

(** * Rounding keeps the sign *)
Module RoundingFacts.
Import FloatFacts.
Local Open Scope Z_scope.

Lemma shr_1_nonneg mrs : 0 <= shr_m mrs -> 0 <= shr_m (shr_1 mrs).
Proof.
  destruct mrs as [m r s]. simpl. destruct m as [|p|p]; [| |lia].
  - simpl. lia.
  - destruct p; simpl; lia.
Qed.

Lemma iter_shr_1_nonneg p : forall mrs, 0 <= shr_m mrs -> 0 <= shr_m (SpecFloat.iter_pos shr_1 p mrs).
Proof.
  induction p as [p IH|p IH|]; intros mrs Hm; simpl.
  - apply IH, IH, shr_1_nonneg, Hm.
  - apply IH, IH, Hm.
  - apply shr_1_nonneg, Hm.
Qed.

Lemma shr_fexp_nonneg m e l :
  0 <= m -> 0 <= shr_m (fst (shr_fexp prec emax m e l)).
Proof.
  intros Hm. unfold shr_fexp, shr.
  assert (H0 : 0 <= shr_m (shr_record_of_loc m l)) by (destruct l as [|[]]; exact Hm).
  destruct (fexp prec emax (Zdigits2 m + e) - e); simpl; auto using iter_shr_1_nonneg.
Qed.

Lemma round_nearest_even_nonneg m l : 0 <= m -> 0 <= round_nearest_even m l.
Proof.
  intros Hm. unfold round_nearest_even. destruct l as [|[]]; try lia.
  destruct (IntDef.Z.even m); lia.
Qed.

(** Rounding a non-negative significand gives a number of the sign asked
    for, never a NaN. *)
Lemma binary_round_aux_sign s m e l :
  0 <= m ->
  match binary_round_aux prec emax s m e l with
  | S754_zero s' | S754_infinity s' | S754_finite s' _ _ => s' = s
  | S754_nan => False
  end.
Proof.
  intros Hm. unfold binary_round_aux.
  pose proof (shr_fexp_nonneg m e l Hm) as H1.
  destruct (shr_fexp prec emax m e l) as [mrs' e']. simpl in H1.
  pose proof (shr_fexp_nonneg _ e' loc_Exact
                (round_nearest_even_nonneg _ (loc_of_shr_record mrs') H1)) as H2.
  destruct (shr_fexp prec emax _ e' loc_Exact) as [mrs'' e'']. simpl in H2.
  destruct (shr_m mrs'') as [|p|p]; [reflexivity| |lia].
  destruct (e'' <=? emax - prec); reflexivity.
Qed.

Local Open Scope float_scope.

Lemma Prim2SF_one_hundredth :
  Prim2SF 0.01 = S754_finite false 5764607523034235 (-59).
Proof. reflexivity. Qed.

(** [0.01 * abs x] is not negative. *)
Lemma hundredth_abs_not_negative x : (0.01 * abs x <? 0) = false.
Proof.
  rewrite FloatAxioms.ltb_spec, FloatAxioms.mul_spec, FloatAxioms.abs_spec,
    Prim2SF_one_hundredth.
  unfold SF64mul. destruct (Prim2SF x) as [s|s| |s m e]; try reflexivity.
  simpl SFabs. unfold SFmul.
  pose proof (binary_round_aux_sign (xorb false false)
                (Z.pos (5764607523034235 * m)) (-59 + e) loc_Exact ltac:(lia)) as Hs.
  destruct (binary_round_aux _ _ _ _ _ _) as [s'|s'| |s' m' e']; try reflexivity;
    simpl in Hs; subst s'; reflexivity.
Qed.

(** [0.01 * abs x] is a number whenever [x] is. *)
Lemma hundredth_abs_not_nan x : is_nan x = false -> is_nan (0.01 * abs x) = false.
Proof.
  intros Hx%is_nan_false. apply is_nan_false.
  rewrite FloatAxioms.mul_spec, FloatAxioms.abs_spec, Prim2SF_one_hundredth.
  unfold SF64mul. destruct (Prim2SF x) as [s|s| |s m e]; try discriminate;
    [congruence|].
  simpl SFabs. unfold SFmul.
  pose proof (binary_round_aux_sign (xorb false false)
                (Z.pos (5764607523034235 * m)) (-59 + e) loc_Exact ltac:(lia)) as Hs.
  destruct (binary_round_aux _ _ _ _ _ _); [discriminate..|contradiction|discriminate].
Qed.

End RoundingFacts.

(** * The check of the solved width *)
Module WidthFacts.
Import Shared TimeSteppingViscousFluid FloatFacts RoundingFacts BodyFacts NumPyFacts ConvergenceFacts.
Local Open Scope float_scope.

(** Indexing with the positions of a test gives the entries that pass it. *)
Lemma take_where {R A} (cond : A -> bool) (a : list A) : forall pre,
  @take R A (pre ++ a) (where_from cond a (length pre)) = Next (List.filter cond a).
Proof.
  induction a as [|x a IH]; intros pre; simpl; [reflexivity|].
  pose proof (IH (pre ++ [x])) as IH'.
  rewrite length_app, Nat.add_1_r, <- app_assoc in IH'. simpl in IH'.
  destruct (cond x); simpl; [|exact IH'].
  unfold getitem. rewrite list_lookup_middle by reflexivity. simpl.
  rewrite IH'. reflexivity.
Qed.

(** Assigning at the positions of a test rewrites the entries that pass it. *)
Lemma put_zip_where {R A} (cond : A -> bool) (g : A -> A) (a : list A) : forall pre,
  @put_zip R A (pre ++ a) (where_from cond a (length pre)) (map g (List.filter cond a))
  = Next (pre ++ map (fun x => if cond x then g x else x) a).
Proof.
  induction a as [|x a IH]; intros pre; simpl; [reflexivity|].
  destruct (cond x); simpl.
  - destruct (decide _) as [Hlt|Hge]; [|contradiction Hge; rewrite length_app; simpl; lia].
    rewrite insert_app_r_alt, Nat.sub_diag by lia. simpl.
    specialize (IH (pre ++ [g x])).
    rewrite length_app, Nat.add_1_r, <- !app_assoc in IH. exact IH.
  - specialize (IH (pre ++ [x])).
    rewrite length_app, Nat.add_1_r, <- !app_assoc in IH. exact IH.
Qed.

Lemma put_same_length {R A} (a : list A) idx vals :
  length idx = length vals -> @put R A a idx vals = put_zip a idx vals.
Proof.
  unfold put. destruct vals as [|c [|c' vals]]; try reflexivity.
  destruct idx as [|i [|i' idx]]; try discriminate. intros _. simpl.
  destruct (decide _); reflexivity.
Qed.

Lemma where_from_length {A} (cond : A -> bool) (a : list A) : forall k,
  length (where_from cond a k) = length (List.filter cond a).
Proof.
  induction a as [|x a IH]; intros k; simpl; [reflexivity|].
  destruct (cond x); simpl; rewrite IH; reflexivity.
Qed.

Section Width.
Context `{NumLib}.

(** The hack always goes through and leaves [validated_width]. *)
Lemma ignore_small_negative_width_spec {R} (w_k : vec) :
  @ignore_small_negative_width _ R w_k = Next (validated_width w_k).
Proof.
  unfold ignore_small_negative_width, validated_width, np_where.
  fold (small_negative_width w_k).
  destruct (decide _) as [Hpos|Hnone].
  - rewrite (take_where (small_negative_width w_k) w_k []). simpl.
    unfold vscale, vabs. rewrite map_map, put_same_length.
    + apply (put_zip_where (small_negative_width w_k) (fun x => 0.01 * abs x) w_k []).
    + rewrite length_map. apply where_from_length.
  - f_equal. assert (Hnil : where_from (small_negative_width w_k) w_k 0 = []).
    { destruct (where_from _ w_k 0); [reflexivity | simpl in Hnone; lia]. }
    apply where_from_nil in Hnil. rewrite forallb_forall in Hnil.
    symmetry. rewrite <- (List.map_id w_k) at 2. apply map_ext_in.
    intros x Hx. specialize (Hnil x Hx). destruct (small_negative_width w_k x);
      [discriminate|reflexivity].
Qed.

Lemma check_width_spec {R} (w_k : vec) :
  @check_width _ R w_k
  = Next (if isnan_any (validated_width w_k) || any (fun x => x <? 0) (validated_width w_k)
          then (5%Z, None) else (1%Z, Some (validated_width w_k))).
Proof.
  unfold check_width. rewrite ignore_small_negative_width_spec. simpl.
  destruct (_ || _); reflexivity.
Qed.

Lemma check_width_not_Ret {R} (w_k : vec) (r : R) : @check_width _ R w_k <> Ret r.
Proof. rewrite check_width_spec. discriminate. Qed.

#[local] Hint Resolve check_width_not_Ret : no_ret.

Context `{PyFracModules}.

(** C10.  The check of the width that the same-footprint solve of the
    viscous-fluid step has given: every entry that is negative but greater
    than minus the mean width is replaced by 0.01 times its absolute value,
    which is a number and is not negative; the step returns the status 5
    with no width exactly when the vector so replaced has a NaN or a
    negative entry, and the status 1 with the replaced vector otherwise.
    Whatever [injection_same_footprint] returns is the outcome of this check
    on the previous width plus the increment that was solved for. *)
Theorem small_negative_width_ignored :
  (forall R (w_k : vec),
      @check_width _ R w_k
      = Next (if isnan_any (validated_width w_k) || any (fun x => x <? 0) (validated_width w_k)
              then (5%Z, None) else (1%Z, Some (validated_width w_k))))
  /\ (forall (w_k : vec) (x : float),
         small_negative_width w_k x = true ->
         is_nan (0.01 * abs x) = false /\ (0.01 * abs x <? 0) = false)
  /\ (forall Fr_lstTmStp C timeStep Qin mat_properties Fluid_properties Simulation_Parameters
             r C' out,
         injection_same_footprint Fr_lstTmStp C timeStep Qin mat_properties Fluid_properties
                                  Simulation_Parameters = Ok (r, C', out) ->
         exists sol w_k,
           @iadd (Z * option vec * matrix * list message)
                 (Fracture.w Fr_lstTmStp) (Fracture.EltCrack Fr_lstTmStp) sol = Next w_k
           /\ r = (if isnan_any (validated_width w_k)
                      || any (fun x => x <? 0) (validated_width w_k)
                   then (5%Z, None) else (1%Z, Some (validated_width w_k)))).
Proof.
  split; [intros R w_k; apply check_width_spec|]. split.
  - intros w_k x [Hneg _]%andb_prop. split; [|apply hundredth_abs_not_negative].
    apply hundredth_abs_not_nan. apply ltb_true_not_nan in Hneg. tauto.
  - intros Fr C dt Qin mat fl sim r C' out Hrun.
    unfold injection_same_footprint in Hrun. apply body_Ok in Hrun.
    step Hrun as C_EltTip E1. step Hrun as C1 E2. step Hrun as wguess E3.
    step Hrun as vk E4. step Hrun as pn E5. destruct pn as [printed [sol vel]].
    step Hrun as w_k E6. step Hrun as C2 E7. step Hrun as r' E8.
    step Hrun. exists sol, w_k. split; [exact E6|].
    rewrite check_width_spec in E8. congruence.
Qed.

End Width.

(** The widths 1, -0.5 and 2 have the mean 5/6, so the entry -0.5 is
    replaced and the check passes. *)
Lemma small_negative_width_ignored_witness :
  @check_width Examples.example_NumLib unit [1; -0.5; 2]
  = Next (1%Z, Some [1; 0.01 * abs (-0.5); 2])
  /\ is_nan (0.01 * abs (-0.5)) = false /\ (0.01 * abs (-0.5) <? 0) = false.
Proof.
  split.
  - rewrite (proj1 (small_negative_width_ignored (H:=Examples.example_NumLib)
                      (H0:=Examples.example_modules [] 0 id))).
    vm_compute. reflexivity.
  - apply (proj1 (proj2 (small_negative_width_ignored (H:=Examples.example_NumLib)
                           (H0:=Examples.example_modules [] 0 id))) [1; -0.5; 2]).
    vm_compute. reflexivity.
Defined.

End WidthFacts.

#[export] Hint Resolve WidthFacts.check_width_not_Ret : no_ret.

(** * Walking through a function body *)

Module WalkFacts.

(** A statement returns from the function exactly when the function body
    that ends after it does. *)
Lemma Ret_returns {R A} (m : ctl R A) (r : R) :
  m = Ret r -> returns (m ≫= fun _ => Exc NonTermination) r.
Proof. intros ->. right. reflexivity. Qed.

Lemma return_if_Next {R} b (r : R) u : return_if b r = Next u -> b = false.
Proof. destruct b; [discriminate|reflexivity]. Qed.

End WalkFacts.

(** [walk H] takes the statements off the body in [H : returns _ _] one
    after the other, splitting at each [return], [if] and [match], until
    each case has reached the value returned. *)
Ltac walk H :=
  repeat first
    [ progress cbv zeta in H
    | rewrite BodyFacts.bind_assoc in H
    | match type of H with
      | returns ((if ?b then _ else _) ≫= _) _ => destruct b eqn:?
      | returns ((match ?o with Some _ => _ | None => _ end) ≫= _) _ => destruct o eqn:?
      | returns ((let '(_, _) := ?p in _) ≫= _) _ => destruct p
      | returns (if ?b then _ else _) _ => destruct b eqn:?
      | returns (match ?o with Some _ => _ | None => _ end) _ => destruct o eqn:?
      | returns (let '(_, _) := ?p in _) _ => destruct p
      | returns (match ?p with (_, _) => _ end) _ => destruct p
      end
    | step H ].

(** * The statements of the volume-control step *)
Module VolumeControlFacts.
Import Shared TimeSteppingVolumeControl BodyFacts NumPyFacts MatrixFacts WalkFacts.
Local Open Scope float_scope.

Section Step.
Context `{NumLib} `{PyFracModules}.

Lemma Kprime_factor_not_Ret {R} (r : R) : @Kprime_factor _ R <> Ret r.
Proof. unfold Kprime_factor. no_return. Qed.

#[local] Hint Resolve Kprime_factor_not_Ret : no_ret.

Lemma initial_toughness_not_Ret {R} Fr mat sd (r : R) :
  @initial_toughness _ _ R Fr mat sd <> Ret r.
Proof. unfold initial_toughness. no_return. Qed.

Lemma toughness_norm_not_Ret {R} K Km1 (r : R) : @toughness_norm _ R K Km1 <> Ret r.
Proof. unfold toughness_norm. destruct K, Km1; no_return. Qed.

Lemma stagnant_tip_not_Ret {R} sd_k sd tips (r : R) : @stagnant_tip R sd_k sd tips <> Ret r.
Proof. unfold stagnant_tip. no_return. Qed.

Lemma tip_toughness_not_Ret {R} mat tips sd mesh alpha l (r : R) :
  @tip_toughness _ _ R mat tips sd mesh alpha l <> Ret r.
Proof. unfold tip_toughness. no_return. Qed.

#[local] Hint Resolve initial_toughness_not_Ret toughness_norm_not_Ret stagnant_tip_not_Ret
  tip_toughness_not_Ret : no_ret.

(** The inversion returns from the function with the status 7 only. *)
Lemma invert_tip_asymptote_Ret {R} (failed : Z -> R) w Fr mat sim dt K r :
  invert_tip_asymptote failed w Fr mat sim dt K = Ret r -> r = failed 7%Z.
Proof.
  intros Hr%Ret_returns. unfold invert_tip_asymptote in Hr. walk Hr. congruence.
Qed.

(** The relaxation of the toughness returns with the status 11 only. *)
Lemma relax_toughness_Ret {R} (failed : Z -> R) Fr mat sd K r :
  relax_toughness failed Fr mat sd K = Ret r -> r = failed 11%Z.
Proof.
  intros Hr%Ret_returns. unfold relax_toughness in Hr. walk Hr; congruence.
Qed.

(** The toughness loop returns from the function with one of the statuses
    11, 7 and 2. *)
Lemma toughness_loop_Ret {R} (failed : Z -> R) w_k Fr dt mat sim r :
  forall fuel itr sd K Km1,
    toughness_loop fuel failed w_k Fr dt mat sim itr sd K Km1 = Ret r ->
    r = failed 11%Z \/ r = failed 7%Z \/ r = failed 2%Z.
Proof.
  induction fuel as [|fuel IH]; intros itr sd K Km1 Hr; simpl in Hr;
    destruct (itr <? _)%Z; try discriminate.
  apply Ret_returns in Hr. walk Hr; try congruence;
    repeat match goal with
    | E : relax_toughness _ _ _ _ _ = Ret _ |- _ => apply relax_toughness_Ret in E
    | E : invert_tip_asymptote _ _ _ _ _ _ _ = Ret _ |- _ =>
        apply invert_tip_asymptote_Ret in E
    | E : toughness_loop _ _ _ _ _ _ _ _ _ _ _ = Ret _ |- _ => apply IH in E
    end; auto.
Qed.

End Step.
End VolumeControlFacts.

#[export] Hint Resolve VolumeControlFacts.Kprime_factor_not_Ret
  VolumeControlFacts.initial_toughness_not_Ret VolumeControlFacts.toughness_norm_not_Ret
  VolumeControlFacts.stagnant_tip_not_Ret VolumeControlFacts.tip_toughness_not_Ret : no_ret.

(** * The elasticity matrix after a step *)
Module RestoreFacts.
Import Shared BodyFacts NumPyFacts MatrixFacts WalkFacts VolumeControlFacts.
Local Open Scope float_scope.

(** Closes the goal with the matrix that [ix_put] has given back. *)
Ltac restored :=
  match goal with
  | Hg : ix_get ?C ?t ?t = Next ?S, Hc : tip_correction ?C _ ?t _ = Next ?C1,
    Hp : ix_put ?C1 ?t ?t ?S = Next ?C2 |- _ =>
      pose proof (restore_after_correction _ _ _ _ _ _ _ Hg Hc Hp); subst C2
  end.

Section Step.
Context `{NumLib} `{PyFracModules}.

Lemma injection_same_footprint_restores Fr C dt Qin mat fl sim r C' out :
  TimeSteppingViscousFluid.injection_same_footprint Fr C dt Qin mat fl sim = Ok (r, C', out) ->
  C' = C.
Proof.
  intros Hrun%body_Ok. unfold TimeSteppingViscousFluid.injection_same_footprint in Hrun.
  walk Hrun. restored. congruence.
Qed.

Lemma injection_same_footprint_volumeControl_restores Fr C dt Q r C' :
  TimeSteppingVolumeControl.injection_same_footprint_volumeControl Fr C dt Q = Ok (r, C') ->
  C' = C.
Proof.
  intros Hrun%body_Ok.
  unfold TimeSteppingVolumeControl.injection_same_footprint_volumeControl in Hrun.
  walk Hrun; restored; congruence.
Qed.

Lemma extend_footprint_volumeControl_restores sd w_k Fr C dt Qin mat sim r C' :
  returns (TimeSteppingVolumeControl.extend_footprint_volumeControl sd w_k Fr C dt Qin mat sim)
          (r, C') ->
  C' = C.
Proof.
  intros Hrun. unfold TimeSteppingVolumeControl.extend_footprint_volumeControl in Hrun.
  walk Hrun; try restored; unfold TimeSteppingVolumeControl.failed in *; congruence.
Qed.

Lemma injection_extended_footprint_volumeControl_restores w_k Fr C dt Qin mat sim r C' :
  TimeSteppingVolumeControl.injection_extended_footprint_volumeControl
    w_k Fr C dt Qin mat sim = Ok (r, C') ->
  C' = C.
Proof.
  intros Hrun%body_Ok.
  unfold TimeSteppingVolumeControl.injection_extended_footprint_volumeControl in Hrun.
  walk Hrun.
  - match goal with E : TimeSteppingVolumeControl.toughness_loop _ _ _ _ _ _ _ _ _ _ _ = Ret _
      |- _ => apply toughness_loop_Ret in E; unfold TimeSteppingVolumeControl.failed in E;
              destruct E as [E|[E|E]]; congruence end.
  - eapply extend_footprint_volumeControl_restores. eassumption.
Qed.

Lemma front_loop_volumeControl_restores Frac dt Qin mat sim r C' :
  forall fuel norm k Fr_k w_k s C,
    returns (TimeSteppingVolumeControl.front_loop fuel Frac dt Qin mat sim norm k Fr_k w_k s C)
            (r, C') ->
    C' = C.
Proof.
  induction fuel as [|fuel IH]; intros norm k Fr_k w_k s C Hrun; simpl in Hrun;
    destruct (_ <? norm); try (apply returns_Next in Hrun; congruence);
    try (apply returns_Exc in Hrun; contradiction).
  walk Hrun;
    match goal with
    | E : TimeSteppingVolumeControl.injection_extended_footprint_volumeControl _ _ _ _ _ _ _
          = Ok _ |- _ => apply injection_extended_footprint_volumeControl_restores in E
    end; subst; try congruence.
  eapply IH. eassumption.
Qed.

Lemma attempt_time_step_volumeControl_restores fuel Frac C mat sim inj dt r C' :
  TimeSteppingVolumeControl.attempt_time_step_volumeControl fuel Frac C mat sim inj dt
  = Ok (r, C') ->
  C' = C.
Proof.
  intros Hrun%body_Ok.
  unfold TimeSteppingVolumeControl.attempt_time_step_volumeControl in Hrun.
  walk Hrun;
    repeat match goal with
    | E : TimeSteppingVolumeControl.injection_same_footprint_volumeControl _ _ _ _ = Ok _
      |- _ => apply injection_same_footprint_volumeControl_restores in E
    | E : body (TimeSteppingVolumeControl.front_loop _ _ _ _ _ _ _ _ _ _ _ _) = Ok _
      |- _ => apply body_Ok, front_loop_volumeControl_restores in E
    | E : Next _ = Next _ |- _ => inversion E; clear E
    end; subst; congruence.
Qed.

Lemma attempt_time_step_viscousFluid_restores fuel Frac C mat fl sim inj dt r C' out :
  TimeSteppingViscousFluid.attempt_time_step_viscousFluid fuel Frac C mat fl sim inj dt
  = Ok (r, C', out) ->
  C' = C.
Proof.
  intros Hrun%body_Ok.
  unfold TimeSteppingViscousFluid.attempt_time_step_viscousFluid in Hrun.
  walk Hrun;
    match goal with
    | E : TimeSteppingViscousFluid.injection_same_footprint _ _ _ _ _ _ _ = Ok _
      |- _ => apply injection_same_footprint_restores in E
    end; subst; congruence.
Qed.

(** C2.  Each of the three functions that apply the filling-fraction
    correction to the diagonal of the elasticity matrix leaves the matrix as
    it got it, whatever the pair it returns; so do the two step functions
    that call them.  The correction itself gives a matrix of the same shape
    that differs from the one it started from at most in the diagonal
    entries of the tip cells corrected. *)
Theorem elasticity_matrix_restored :
  (forall Fr C dt Qin mat fl sim r C' out,
      TimeSteppingViscousFluid.injection_same_footprint Fr C dt Qin mat fl sim
      = Ok (r, C', out) -> C' = C)
  /\ (forall Fr C dt Q r C',
         TimeSteppingVolumeControl.injection_same_footprint_volumeControl Fr C dt Q
         = Ok (r, C') -> C' = C)
  /\ (forall w_k Fr C dt Qin mat sim r C',
         TimeSteppingVolumeControl.injection_extended_footprint_volumeControl
           w_k Fr C dt Qin mat sim = Ok (r, C') -> C' = C)
  /\ (forall fuel Frac C mat fl sim inj dt r C' out,
         TimeSteppingViscousFluid.attempt_time_step_viscousFluid
           fuel Frac C mat fl sim inj dt = Ok (r, C', out) -> C' = C)
  /\ (forall fuel Frac C mat sim inj dt r C',
         TimeSteppingVolumeControl.attempt_time_step_volumeControl
           fuel Frac C mat sim inj dt = Ok (r, C') -> C' = C)
  /\ (forall R C FillF tips C1,
         @tip_correction R C FillF tips 0 = Next C1 -> same_off_tip_diagonal tips C C1).
Proof.
  split; [exact injection_same_footprint_restores|].
  split; [exact injection_same_footprint_volumeControl_restores|].
  split; [exact injection_extended_footprint_volumeControl_restores|].
  split; [exact attempt_time_step_viscousFluid_restores|].
  split; [exact attempt_time_step_volumeControl_restores|].
  intros R C FillF tips C1 Hcorr. eapply tip_correction_frame; [|exact Hcorr]. auto.
Qed.

End Step.
End RestoreFacts.

(** * The check of the filling fractions *)
Module FillFractionFacts.
Import Shared BodyFacts NumPyFacts MatrixFacts WalkFacts VolumeControlFacts.
Local Open Scope float_scope.

Lemma take_elem_of {R A} (a : list A) idx xs x :
  @take R A a idx = Next xs -> x ∈ xs -> x ∈ a.
Proof.
  intros E%take_Next Hx. apply list_elem_of_lookup_1 in Hx. destruct Hx as [i Hi].
  destruct (Forall2_lookup_r _ _ _ _ _ E Hi) as (c & _ & Hc).
  eapply list_elem_of_lookup_2. exact Hc.
Qed.

Lemma round_filling_fraction_lookup tol (F : vec) i f :
  F !! i = Some f ->
  round_filling_fraction tol F !! i = Some (if (1 <? f) && (f <? 1 + tol) then 1 else f).
Proof.
  intros Hf. unfold round_filling_fraction, put_where. rewrite list_lookup_fmap, Hf.
  reflexivity.
Qed.

Lemma filling_fraction_correct (F : vec) f :
  filling_fraction_not_correct F = false -> f ∈ F ->
  (1 <? f) = false /\ (f <? 0 - eps) = false.
Proof.
  unfold filling_fraction_not_correct. intros [H1 H2]%orb_false_elim Hf.
  split; [apply (any_false _ _ _ H1 Hf) | apply (any_false _ _ _ H2 Hf)].
Qed.

Section Step.
Context `{NumLib} `{PyFracModules}.

Lemma extend_footprint_volumeControl_fill_fraction sd w_k Fr C dt Q mat sim s o C' :
  returns (TimeSteppingVolumeControl.extend_footprint_volumeControl sd w_k Fr C dt Q mat sim)
          ((s, o), C') ->
  exists tips l alpha cs,
    reconstruct_front sd (Fracture.EltChannel Fr) (Fracture.mesh Fr) = Ok (tips, l, alpha, cs)
    /\ ((o = None /\ (s = 3 \/ s = 12)%Z)
        \/ exists area,
             Integral_over_cell tips alpha l (Fracture.mesh Fr) "A" no_kwargs = Ok area
             /\ fill_fraction_verdict 1e-4
                  (map (fun x => x / CartesianMesh.EltArea (Fracture.mesh Fr)) area) s o).
Proof.
  intros Hrun. unfold TimeSteppingVolumeControl.extend_footprint_volumeControl in Hrun.
  walk Hrun.
  all: unfold TimeSteppingVolumeControl.failed in *.
  all: match goal with E : reconstruct_front _ _ _ = Ok (?t, ?l, ?a, ?c) |- _ =>
         exists t, l, a, c; split; [exact E|] end.
  all: try (left; split; [congruence | first [left; congruence | right; congruence]]).
  all: right.
  all: match goal with E : Integral_over_cell _ _ _ _ "A" _ = Ok ?area |- _ =>
         exists area; split; [exact E|] end.
  all: unfold fill_fraction_verdict; cbv zeta.
  all: match goal with E : filling_fraction_not_correct _ = _ |- _ => rewrite E end.
  all: try (split; congruence).
  all: inversion Hrun; subst; clear Hrun.
  all: split; [discriminate|]; intros Fr'; try discriminate.
  all: intros Heq; inversion Heq; subst; clear Heq; split; [reflexivity|].
  all: match goal with E : process_fracture_front ?Fr0 = Ok ?Fr1 |- _ =>
         exists Fr0, Fr1; split; [exact E|]; split; [reflexivity|] end.
  all: simpl; intros f Hf.
  all: match goal with E : take _ _ = Next ?xs, Hf : _ ∈ ?xs |- _ =>
         apply (take_elem_of _ _ _ _ E) in Hf end.
  all: split; [exact Hf|]; eapply filling_fraction_correct; eassumption.
Qed.

Lemma extend_footprint_fill_fraction sd w_k Fr C dt Qin mat fl sim s o out :
  returns (TimeSteppingViscousFluid.extend_footprint sd w_k Fr C dt Qin mat fl sim)
          ((s, o), out) ->
  exists tips l alpha cs,
    reconstruct_front sd (Fracture.EltChannel Fr) (Fracture.mesh Fr) = Ok (tips, l, alpha, cs)
    /\ ((o = None /\ s = 3%Z)
        \/ exists Vel area,
             VolumeIntegral tips alpha l (Fracture.mesh Fr) "A" mat (Fracture.muPrime Fr) Vel
                            no_kwargs = Ok area
             /\ fill_fraction_verdict 1e-6
                  (map (fun x => x / CartesianMesh.EltArea (Fracture.mesh Fr)) area) s o).
Proof.
  intros Hrun. unfold TimeSteppingViscousFluid.extend_footprint in Hrun.
  walk Hrun.
  all: unfold TimeSteppingViscousFluid.failed in *.
  all: match goal with E : reconstruct_front _ _ _ = Ok (?t, ?l, ?a, ?c) |- _ =>
         exists t, l, a, c; split; [exact E|] end.
  all: try (left; split; congruence).
  all: right.
  all: match goal with E : VolumeIntegral _ _ _ _ "A" _ _ ?Vel no_kwargs = Ok ?area |- _ =>
         exists Vel, area; split; [exact E|] end.
  all: unfold fill_fraction_verdict; cbv zeta.
  all: match goal with E : filling_fraction_not_correct _ = _ |- _ => rewrite E end.
  all: try (split; congruence).
  all: inversion Hrun; subst; clear Hrun.
  all: split; [discriminate|]; intros Fr'; try discriminate.
  all: intros Heq; inversion Heq; subst; clear Heq; split; [reflexivity|].
  all: match goal with E : process_fracture_front ?Fr0 = Ok ?Fr1 |- _ =>
         exists Fr0, Fr1; split; [exact E|]; split; [reflexivity|] end.
  all: simpl; intros f Hf.
  all: match goal with E : take _ _ = Next ?xs, Hf : _ ∈ ?xs |- _ =>
         apply (take_elem_of _ _ _ _ E) in Hf end.
  all: split; [exact Hf|]; eapply filling_fraction_correct; eassumption.
Qed.

End Step.
End FillFractionFacts.

(** * The toughness loops and what follows them *)
Module ToughnessFacts.
Import Shared BodyFacts NumPyFacts MatrixFacts WalkFacts VolumeControlFacts.
Local Open Scope float_scope.

Section Step.
Context `{NumLib} `{PyFracModules}.

(** The toughness loop of the viscous-fluid step returns from the function
    with the status 7 only. *)
Lemma toughness_loop_viscous_Ret {R} (failed : Z -> R) w_k Fr dt mat sim r :
  forall fuel itr sd,
    TimeSteppingViscousFluid.toughness_loop fuel w_k Fr dt mat sim failed itr sd = Ret r ->
    r = failed 7%Z.
Proof.
  induction fuel as [|fuel IH]; intros itr sd Hr; simpl in Hr;
    destruct (itr <? _)%Z; try discriminate.
  apply Ret_returns in Hr. walk Hr; try congruence;
    repeat match goal with
    | E : TimeSteppingViscousFluid.toughness_loop _ _ _ _ _ _ _ _ _ = Ret _ |- _ =>
        apply IH in E
    end; auto.
Qed.

(** The loop of the viscous-fluid step ends with [itr] below the cap when
    it was left by [break], and with the cap itself when the cap stopped
    it (or with the [itr] it was entered with, when that is above the
    cap). *)
Lemma toughness_loop_viscous_itr {R} (failed : Z -> R) w_k Fr dt mat sim :
  forall fuel itr sd itr' sd',
    TimeSteppingViscousFluid.toughness_loop fuel w_k Fr dt mat sim failed itr sd
    = Next (itr', sd') ->
    (itr <= itr')%Z
    /\ ((itr' < SimulationParameters.maxToughnessItr sim)%Z
        \/ itr' = Z.max itr (SimulationParameters.maxToughnessItr sim)).
Proof.
  induction fuel as [|fuel IH]; intros itr sd itr' sd' Hr; simpl in Hr;
    destruct (itr <? _)%Z eqn:Hlt; try discriminate;
    try (inversion Hr; subst; apply Z.ltb_ge in Hlt; lia).
  apply Z.ltb_lt in Hlt. revert Hr.
  repeat match goal with
  | |- (?m ≫= _) = Next _ -> _ =>
      let E := fresh "E" in let a := fresh "a" in
      intros Hr%bind_Next_inv; destruct Hr as (a & E & Hr); revert Hr
  | |- (let '(_, _) := ?p in _) = Next _ -> _ => destruct p
  | |- (if ?b then _ else _) = Next _ -> _ => destruct b
  end; intros Hr; try (inversion Hr; subst; lia).
  apply IH in Hr. lia.
Qed.

(** What a call of [injection_extended_footprint_volumeControl] that returns
    has done: returned from the toughness loop with one of the statuses 11,
    7 and 2, or gone on from the end of the loop to the new footprint. *)
Lemma injection_extended_footprint_volumeControl_stages w_k Fr C dt Q mat sim r :
  TimeSteppingVolumeControl.injection_extended_footprint_volumeControl w_k Fr C dt Q mat sim
  = Ok r ->
  (exists s, r = TimeSteppingVolumeControl.failed C s /\ (s = 11 \/ s = 7 \/ s = 2)%Z)
  \/ exists K Km1 itr sd,
       @TimeSteppingVolumeControl.initial_toughness _ _ (Z * option Fracture.t * matrix)
         Fr mat (Fracture.sgndDist Fr) = Next (K, Km1)
       /\ TimeSteppingVolumeControl.toughness_loop
            (Z.to_nat (SimulationParameters.maxToughnessItr sim - 1))
            (TimeSteppingVolumeControl.failed C) w_k Fr dt mat sim 1%Z
            (Fracture.sgndDist Fr) K Km1 = Next (itr, sd)
       /\ returns (TimeSteppingVolumeControl.extend_footprint_volumeControl
                     sd w_k Fr C dt Q mat sim) r.
Proof.
  intros Hrun%body_Ok.
  unfold TimeSteppingVolumeControl.injection_extended_footprint_volumeControl in Hrun.
  walk Hrun.
  - left. match goal with E : TimeSteppingVolumeControl.toughness_loop _ _ _ _ _ _ _ _ _ _ _
                              = Ret _ |- _ => apply toughness_loop_Ret in E;
                                              destruct E as [E|[E|E]] end; eauto.
  - right. eauto 10.
Qed.

(** The same for [injection_extended_footprint]: the status 7 from inside
    the loop, the status 10 when the loop ends at the cap, or the new
    footprint. *)
Lemma injection_extended_footprint_stages w_k Fr C dt Qin mat fl sim r :
  TimeSteppingViscousFluid.injection_extended_footprint w_k Fr C dt Qin mat fl sim = Ok r ->
  r = TimeSteppingViscousFluid.failed 7%Z
  \/ exists itr sd,
       TimeSteppingViscousFluid.toughness_loop
         (Z.to_nat (SimulationParameters.maxToughnessItr sim)) w_k Fr dt mat sim
         TimeSteppingViscousFluid.failed 0%Z (Fracture.sgndDist Fr) = Next (itr, sd)
       /\ ((itr = SimulationParameters.maxToughnessItr sim
            /\ r = TimeSteppingViscousFluid.failed 10%Z)
           \/ (itr <> SimulationParameters.maxToughnessItr sim
               /\ returns (TimeSteppingViscousFluid.extend_footprint
                             sd w_k Fr C dt Qin mat fl sim) r)).
Proof.
  intros Hrun%body_Ok.
  unfold TimeSteppingViscousFluid.injection_extended_footprint in Hrun.
  walk Hrun.
  - left. eapply toughness_loop_viscous_Ret. eassumption.
  - right. do 2 eexists. split; [eassumption|]. left.
    match goal with E : (_ =? _)%Z = true |- _ => apply Z.eqb_eq in E end. auto.
  - right. do 2 eexists. split; [eassumption|]. right.
    match goal with E : (_ =? _)%Z = false |- _ => apply Z.eqb_neq in E end. auto.
Qed.

End Step.
End ToughnessFacts.

(** * The iteration cap of the Picard-Newton solver *)
Module PicardFacts.
Import ElastoHydrodynamicSolver Shared FloatFacts BodyFacts NumPyFacts MatrixFacts WalkFacts
  WidthFacts.
Local Open Scope float_scope.

Lemma Forall_nan_replicate n : Forall (fun x => is_nan x = true) (full_nan n).
Proof. unfold full_nan. apply Forall_replicate. reflexivity. Qed.

Lemma is_nan_add_r x y : is_nan y = true -> is_nan (x + y) = true.
Proof. intros ->%is_nan_spec. rewrite add_nan_r. reflexivity. Qed.

Lemma Forall_nan_take {R} (a : vec) idx xs :
  Forall (fun x => is_nan x = true) a -> @take R _ a idx = Next xs ->
  Forall (fun x => is_nan x = true) xs.
Proof.
  intros Ha E. apply list.Forall_forall. intros x Hx.
  rewrite list.Forall_forall in Ha. apply Ha. eapply FillFractionFacts.take_elem_of; eassumption.
Qed.

(** Adding NaNs gives NaNs, whichever way the operands are broadcast. *)
Lemma Forall_nan_vbinop_add {R} (a b c : vec) :
  Forall (fun x => is_nan x = true) b -> @vbinop R add a b = Next c ->
  Forall (fun x => is_nan x = true) c.
Proof.
  intros Hb. unfold vbinop. destruct (decide _) as [Hlen|Hlen].
  - intros E. inversion E; subst c. clear E. revert b Hb Hlen.
    induction a as [|x a IH]; intros [|y b] Hb Hlen; simpl; try constructor;
      try discriminate.
    + inversion Hb; subst. apply is_nan_add_r. assumption.
    + inversion Hb; subst. apply IH; [assumption | simpl in Hlen; lia].
  - assert (Hmap : forall x, Forall (fun z => is_nan z = true) (map (add x) b)).
    { intros x. apply list.Forall_forall. intros z (y & -> & Hy)%list_elem_of_fmap.
      apply is_nan_add_r. rewrite list.Forall_forall in Hb. auto. }
    assert (Hmap' : forall y (l : vec), is_nan y = true ->
                            Forall (fun z => is_nan z = true) (map (fun x => x + y) l)).
    { intros y l Hy. apply list.Forall_forall. intros z (x & -> & _)%list_elem_of_fmap.
      apply is_nan_add_r. exact Hy. }
    destruct a as [|x [|x' a]]; destruct b as [|y [|y' b]]; intros E;
      try discriminate E; injection E as <-;
      first [apply Hmap | apply Hmap'; inversion Hb; assumption
            | apply (Hmap' y (x :: x' :: a)); inversion Hb; assumption | constructor].
Qed.

(** [a[idx] += vals] with NaNs for [vals] leaves a NaN in every cell of
    [idx]. *)
Lemma iadd_nan {R} (a : vec) idx vals w k :
  Forall (fun x => is_nan x = true) vals -> @iadd R a idx vals = Next w -> k ∈ idx ->
  exists x, w !! k = Some x /\ is_nan x = true.
Proof.
  intros Hvals E Hk. unfold iadd in E.
  apply bind_Next_inv in E. destruct E as (old & Eold & E).
  apply bind_Next_inv in E. destruct E as (new & Enew & E).
  apply (Forall_nan_vbinop_add _ _ _ Hvals) in Enew.
  destruct (put_lookup_in _ _ _ _ _ E Hk) as (x & Hx & Hwk).
  exists x. split; [exact Hwk|]. rewrite list.Forall_forall in Enew. auto.
Qed.

Lemma isnan_any_lookup (w : vec) k x : w !! k = Some x -> is_nan x = true -> isnan_any w = true.
Proof.
  intros Hk Hx. unfold isnan_any. apply any_true. exists x.
  split; [eapply list_elem_of_lookup_2; eassumption | exact Hx].
Qed.

Section Solver.
Context `{NumLib}.

(** A NaN survives the replacement of the small negative widths. *)
Lemma isnan_any_validated_width (w : vec) :
  isnan_any w = true -> isnan_any (validated_width w) = true.
Proof.
  unfold isnan_any. rewrite !any_true. intros (x & Hx & Hnan). exists x. split; [|exact Hnan].
  unfold validated_width. apply list_elem_of_fmap. exists x. split; [|exact Hx].
  unfold small_negative_width. apply is_nan_spec in Hnan. subst x.
  rewrite ltb_nan_l. reflexivity.
Qed.

Section Picard_Newton.
Context {I : Type}.
Variable Res_fun : vec -> I -> res (vec * I * indices).
Variable sys_fun : vec -> I -> res (matrix * vec * I * indices).
Variable Jacobian : vec -> vec -> I -> res matrix.
Variables (TypValue : vec) (Tol : float) (maxitr : Z) (relax : float) (PicardPerNewton : Z).

(** The loop leaves by the cap with NaNs for the solution and no data. *)
Lemma PN_loop_not_converged m sol data :
  forall fuel solk k interItr newton Jac converged,
    returns (PN_loop Res_fun sys_fun Jacobian TypValue Tol maxitr relax PicardPerNewton
                     fuel solk k interItr newton Jac converged)
            (not_converged_after m, (sol, data)) ->
    m = maxitr /\ data = None /\ exists n, sol = full_nan n.
Proof.
  induction fuel as [|fuel IH]; intros solk k interItr newton Jac converged Hrun;
    simpl in Hrun; destruct (negb converged && _);
    try (apply returns_Next in Hrun; discriminate);
    try (apply returns_Exc in Hrun; contradiction).
  walk Hrun;
    lazymatch goal with
    | Hr : returns (PN_loop _ _ _ _ _ _ _ _ _ _ _ _ _ _ _) _ |- _ => eapply IH; exact Hr
    | Hr : (_, _) = (_, _) |- _ => inversion Hr; subst; eauto
    | E : _ = Ret _ |- _ =>
        match type of E with
        | context [picard_step ?a ?b ?c ?d] =>
            destruct (picard_step a b c d) as [[[? ?] ?]|[]]; discriminate E
        end
    end.
Qed.

Lemma Picard_Newton_printing_not_converged guess interItr m sol data :
  Picard_Newton_printing Res_fun sys_fun Jacobian TypValue Tol maxitr relax PicardPerNewton
                         guess interItr = Ok (not_converged_after m, (sol, data)) ->
  m = maxitr /\ data = None /\ exists n, sol = full_nan n.
Proof.
  unfold Picard_Newton_printing. intros Hrun%body_Ok.
  eapply PN_loop_not_converged. exact Hrun.
Qed.

End Picard_Newton.

Context `{PyFracModules}.

(** The same-footprint solve that ends at the cap returns the status 5. *)
Lemma injection_same_footprint_cap Fr C dt Qin mat fl sim r C' out m :
  TimeSteppingViscousFluid.injection_same_footprint Fr C dt Qin mat fl sim
  = Ok (r, C', out) ->
  head out = Some (print_Picard_Newton (not_converged_after m)) ->
  Fracture.EltCrack Fr <> [] ->
  r = (5%Z, None).
Proof.
  intros Hrun%body_Ok Hout Hcrack.
  unfold TimeSteppingViscousFluid.injection_same_footprint in Hrun.
  pose proof (@check_width_not_Ret _) as Hcw.
  walk Hrun. inversion Hrun; subst; clear Hrun. simpl in Hout. inversion Hout; subst.
  match goal with E : Picard_Newton_printing _ _ _ _ _ _ _ _ _ _ = Ok _ |- _ =>
    apply Picard_Newton_printing_not_converged in E; destruct E as (_ & _ & n & ->) end.
  destruct (Fracture.EltCrack Fr) as [|k crack] eqn:Ecrack; [contradiction|].
  match goal with E : iadd _ _ (full_nan _) = Next ?w |- _ =>
    destruct (iadd_nan _ _ _ _ k (Forall_nan_replicate _) E) as (x & Hx & Hnan);
      [apply elem_of_cons; auto|];
    pose proof (isnan_any_validated_width _ (isnan_any_lookup _ _ _ Hx Hnan)) as Hv end.
  match goal with E : TimeSteppingViscousFluid.check_width _ = Next _ |- _ =>
    rewrite check_width_spec, Hv in E; simpl in E; congruence end.
Qed.

(** What [injection_same_footprint] prints is one line of the solver. *)
Lemma injection_same_footprint_prints Fr C dt Qin mat fl sim r C' out :
  TimeSteppingViscousFluid.injection_same_footprint Fr C dt Qin mat fl sim
  = Ok (r, C', out) ->
  exists p, out = [print_Picard_Newton p].
Proof.
  intros Hrun%body_Ok.
  unfold TimeSteppingViscousFluid.injection_same_footprint in Hrun.
  pose proof (@check_width_not_Ret _) as Hcw.
  walk Hrun. inversion Hrun; subst. eauto.
Qed.

(** The front loop adds to what has been printed. *)
Lemma front_loop_prints Frac C dt Qin mat fl sim r out :
  forall fuel norm k Fr_k w_k s out0,
    returns (TimeSteppingViscousFluid.front_loop fuel Frac C dt Qin mat fl sim norm k Fr_k w_k
                                                 s out0) (r, out) ->
    exists more, out = out0 ++ more.
Proof.
  induction fuel as [|fuel IH]; intros norm k Fr_k w_k s out0 Hrun; simpl in Hrun;
    destruct (_ <? norm);
    try (apply returns_Next in Hrun; inversion Hrun; subst; exists []; rewrite app_nil_r;
         reflexivity);
    try (apply returns_Exc in Hrun; contradiction).
  walk Hrun;
    lazymatch goal with
    | Hr : returns (TimeSteppingViscousFluid.front_loop _ _ _ _ _ _ _ _ _ _ _ _ _ _) _ |- _ =>
        apply IH in Hr; destruct Hr as [more ->]; rewrite <- app_assoc; eauto
    | Hr : (_, _) = (_, _) |- _ => inversion Hr; subst; eauto
    end.
Qed.

End Solver.
End PicardFacts.

(** * A tip cell at the boundary of the grid *)
Module BoundaryFacts.
Import Shared BodyFacts NumPyFacts MatrixFacts WalkFacts VolumeControlFacts.
Local Open Scope float_scope.

(** Indexing succeeds when every index is inside the array. *)
Lemma take_total {R A} (a : list A) idx :
  Forall (fun i => i < length a)%nat idx -> exists xs, @take R A a idx = Next xs.
Proof.
  induction 1 as [|i idx Hi _ [xs IH]]; simpl; [eauto|].
  destruct (lookup_lt_is_Some_2 a i Hi) as [x Hx].
  unfold getitem. rewrite Hx. simpl. rewrite IH. simpl. eauto.
Qed.

(** The loop over the new tip cells finds a cell that is its own
    neighbour. *)
Lemma tip_at_grid_boundary_true {R} mesh tips :
  Forall (fun e => e < length (CartesianMesh.NeiElements mesh))%nat tips ->
  (exists e row, e ∈ tips /\ CartesianMesh.NeiElements mesh !! e = Some row /\ e ∈ row) ->
  @tip_at_grid_boundary R mesh tips = Next true.
Proof.
  intros Hvalid (e & row & He & Hrow & Hself). unfold tip_at_grid_boundary.
  destruct (take_total (R := R) _ _ Hvalid) as [nb Hnb]. rewrite Hnb. simpl. f_equal.
  apply existsb_exists. exists (e, row). split; [|apply bool_decide_eq_true; exact Hself].
  apply list_elem_of_In. apply list_elem_of_lookup_1 in He. destruct He as [i Hi].
  apply (list_elem_of_lookup_2 _ i). apply lookup_zip_with_Some. exists e, row.
  split; [reflexivity|]. split; [exact Hi|].
  rewrite (take_lookup _ _ _ _ _ Hnb Hi). exact Hrow.
Qed.

Section Step.
Context `{NumLib} `{PyFracModules}.

Lemma extend_footprint_volumeControl_boundary sd w_k Fr C dt Q mat sim tips l alpha cs :
  reconstruct_front sd (Fracture.EltChannel Fr) (Fracture.mesh Fr) = Ok (tips, l, alpha, cs) ->
  (forall R, @front_not_tracked R alpha l = Next false) ->
  (forall R, @tip_at_grid_boundary R (Fracture.mesh Fr) tips = Next true) ->
  TimeSteppingVolumeControl.extend_footprint_volumeControl sd w_k Fr C dt Q mat sim
  = Ret ((12%Z, None), C).
Proof.
  intros Hrec Htracked Hboundary.
  unfold TimeSteppingVolumeControl.extend_footprint_volumeControl.
  rewrite Hrec. simpl. rewrite Htracked. simpl. rewrite Hboundary. reflexivity.
Qed.

Lemma extend_footprint_boundary sd w_k Fr C dt Qin mat fl sim tips l alpha cs :
  reconstruct_front sd (Fracture.EltChannel Fr) (Fracture.mesh Fr) = Ok (tips, l, alpha, cs) ->
  (forall R, @front_not_tracked R alpha l = Next false) ->
  (forall R, @tip_at_grid_boundary R (Fracture.mesh Fr) tips = Next true) ->
  TimeSteppingViscousFluid.extend_footprint sd w_k Fr C dt Qin mat fl sim
  = Exc (SystemExit "Reached end of the grid. exiting....").
Proof.
  intros Hrec Htracked Hboundary.
  unfold TimeSteppingViscousFluid.extend_footprint.
  rewrite Hrec. simpl. rewrite Htracked. simpl. rewrite Hboundary. reflexivity.
Qed.

(** Called with a mesh for [PerfNode], the volume-control step raises: the
    exception of its first sub-step, or AttributeError when that sub-step
    has returned. *)
Lemma attempt_time_step_volumeControl_PerfNode_raises Frac C mat sim inj dt PerfNode :
  exists e,
    TimeSteppingVolumeControl.attempt_time_step_volumeControl_PerfNode
      Frac C mat sim inj dt PerfNode = Raise e
    /\ (e = AttributeError
        \/ forall fuel,
             TimeSteppingVolumeControl.attempt_time_step_volumeControl
               fuel Frac C mat sim inj dt = Raise e).
Proof.
  unfold TimeSteppingVolumeControl.attempt_time_step_volumeControl_PerfNode,
    TimeSteppingVolumeControl.attempt_time_step_volumeControl. cbv zeta.
  destruct (getitem (InjectionProperties.injectionRate inj) 0) as [times|r|e] eqn:Et;
    simpl; [|exfalso; eapply getitem_not_Ret; exact Et|eauto].
  destruct (py_max_int _) as [indx|r|e] eqn:Ei;
    simpl; [|exfalso; eapply py_max_int_not_Ret; exact Ei|eauto].
  destruct (getitem2 _ _ _) as [Qin|r|e] eqn:EQ;
    simpl; [|exfalso; eapply getitem2_not_Ret; exact EQ|eauto].
  destruct (String.eqb _ "explicit").
  { destruct (TimeSteppingVolumeControl.time_step_explicit_front_volumeControl _ _ _ _ _ _)
      as [r|e]; simpl; eauto. }
  destruct (String.eqb _ "semi-implicit").
  { destruct (TimeSteppingVolumeControl.time_step_explicit_front_volumeControl _ _ _ _ _ _)
      as [r|e]; simpl; eauto. }
  destruct (String.eqb _ "implicit").
  { destruct (TimeSteppingVolumeControl.injection_same_footprint_volumeControl _ _ _ _)
      as [r|e]; simpl; eauto. }
  simpl. eauto.
Qed.

Section Controller.
Import Controller.
Variables aV aM : step_function.

(** In the volume-control mode [advance_time_step] returns nothing: its
    call of the step raises. *)
Lemma advance_time_step_volumeControl_raises mat inj sim Frac C TimeStep :
  SimulationParameters.viscousInjection sim = false ->
  SimulationParameters.dryCrack_mechLoading sim = false ->
  SimulationParameters.volumeControl sim = true ->
  exists e,
    advance_time_step aV aM (volumeControl_step_PerfNode mat inj) sim Frac C TimeStep
    = Raise e.
Proof.
  intros HV HM HC. unfold advance_time_step.
  assert (Hmode : SimulationParameters.viscousInjection (snd (limit_time_step sim TimeStep))
                  = false
                  /\ SimulationParameters.dryCrack_mechLoading
                       (snd (limit_time_step sim TimeStep)) = false
                  /\ SimulationParameters.volumeControl (snd (limit_time_step sim TimeStep))
                     = true).
  { unfold limit_time_step.
    destruct (SimulationParameters.timeStep_limit sim <? TimeStep);
      match goal with |- context [if ?b then _ else _] => destruct b end; auto. }
  destruct (limit_time_step sim TimeStep) as [TimeStep' sim']. simpl in Hmode.
  destruct Hmode as (HV' & HM' & HC').
  destruct (Z.to_nat (SimulationParameters.maxReattempts sim')) as [|n]; simpl; [eauto|].
  destruct (smallerTimeStep sim' TimeStep' 0) as [dt|e]; simpl; [|eauto].
  unfold dispatch. rewrite HV', HM', HC'. unfold volumeControl_step_PerfNode.
  destruct (attempt_time_step_volumeControl_PerfNode_raises Frac C mat sim' inj dt
              (Fracture.mesh Frac)) as (e & -> & _).
  simpl. eauto.
Qed.

End Controller.


End Step.
End BoundaryFacts.

(** * The statuses of a step *)
Module StatusFacts.
Import ElastoHydrodynamicSolver Shared BodyFacts NumPyFacts MatrixFacts WalkFacts
  VolumeControlFacts ToughnessFacts FillFractionFacts PicardFacts.
Local Open Scope float_scope.

(** Closes [s ∈ [s1; ...]] for a status [s] of the list. *)
Ltac in_list := solve [repeat (apply elem_of_cons; first [left; reflexivity | right])].

Section Step.
Context `{NumLib} `{PyFracModules}.

(** The statuses that the new footprint of the volume-control step returns. *)
Lemma extend_footprint_volumeControl_status sd w_k Fr C dt Q mat sim s o C' :
  returns (TimeSteppingVolumeControl.extend_footprint_volumeControl sd w_k Fr C dt Q mat sim)
          ((s, o), C') ->
  s ∈ [3; 12; 9; 8; 4; 5; 1]%Z.
Proof.
  intros Hrun. unfold TimeSteppingVolumeControl.extend_footprint_volumeControl in Hrun.
  walk Hrun; unfold TimeSteppingVolumeControl.failed in *; inversion Hrun; subst;
    in_list.
Qed.

(** The statuses that the new footprint of the viscous-fluid step returns. *)
Lemma extend_footprint_status sd w_k Fr C dt Qin mat fl sim s o out :
  returns (TimeSteppingViscousFluid.extend_footprint sd w_k Fr C dt Qin mat fl sim)
          ((s, o), out) ->
  s ∈ [3; 9; 8; 4; 5; 1]%Z.
Proof.
  intros Hrun. unfold TimeSteppingViscousFluid.extend_footprint in Hrun.
  walk Hrun; unfold TimeSteppingViscousFluid.failed in *; inversion Hrun; subst;
    in_list.
Qed.

(** C5.  In the viscous-fluid step the toughness loop that ends with [itr]
    at [maxToughnessItr] makes [injection_extended_footprint] return the
    status 10 with no fracture, and the status 10 is returned in no other
    way; the loop ends below the cap when it was left by [break].  In the
    volume-control step [injection_extended_footprint_volumeControl] never
    returns the status 10: after the loop it goes on to the new footprint,
    and its status is one of 11, 7, 2, 3, 12, 9, 8, 4, 5 and 1. *)
Theorem toughness_cap_status :
  (forall w_k Fr C dt Qin mat fl sim itr sd,
      TimeSteppingViscousFluid.toughness_loop
        (Z.to_nat (SimulationParameters.maxToughnessItr sim)) w_k Fr dt mat sim
        TimeSteppingViscousFluid.failed 0%Z (Fracture.sgndDist Fr) = Next (itr, sd) ->
      itr = SimulationParameters.maxToughnessItr sim ->
      TimeSteppingViscousFluid.injection_extended_footprint w_k Fr C dt Qin mat fl sim
      = Ok ((10%Z, None), []))
  /\ (forall w_k Fr C dt Qin mat fl sim o out,
         TimeSteppingViscousFluid.injection_extended_footprint w_k Fr C dt Qin mat fl sim
         = Ok ((10%Z, o), out) ->
         exists sd,
           TimeSteppingViscousFluid.toughness_loop
             (Z.to_nat (SimulationParameters.maxToughnessItr sim)) w_k Fr dt mat sim
             TimeSteppingViscousFluid.failed 0%Z (Fracture.sgndDist Fr)
           = Next (SimulationParameters.maxToughnessItr sim, sd))
  /\ (forall R (failed : Z -> R) w_k Fr dt mat sim fuel itr sd itr' sd',
         TimeSteppingViscousFluid.toughness_loop fuel w_k Fr dt mat sim failed itr sd
         = Next (itr', sd') ->
         (itr <= itr')%Z
         /\ ((itr' < SimulationParameters.maxToughnessItr sim)%Z
             \/ itr' = Z.max itr (SimulationParameters.maxToughnessItr sim)))
  /\ (forall w_k Fr C dt Q mat sim s o C',
         TimeSteppingVolumeControl.injection_extended_footprint_volumeControl
           w_k Fr C dt Q mat sim = Ok ((s, o), C') ->
         s <> 10%Z /\ s ∈ [11; 7; 2; 3; 12; 9; 8; 4; 5; 1]%Z).
Proof.
  split; [|split; [|split]].
  - intros w_k Fr C dt Qin mat fl sim itr sd Hloop ->.
    unfold TimeSteppingViscousFluid.injection_extended_footprint. cbv zeta.
    rewrite Hloop. simpl. rewrite Z.eqb_refl. reflexivity.
  - intros w_k Fr C dt Qin mat fl sim o out Hrun.
    apply injection_extended_footprint_stages in Hrun.
    destruct Hrun as [Hr|(itr & sd & Hloop & [[Hitr _]|[_ Hext]])].
    + discriminate Hr.
    + subst itr. eauto.
    + apply extend_footprint_status in Hext.
      repeat (apply elem_of_cons in Hext; destruct Hext as [Hext|Hext]; [discriminate|]).
      inversion Hext.
  - intros R failed w_k Fr dt mat sim fuel itr sd itr' sd'.
    apply toughness_loop_viscous_itr.
  - intros w_k Fr C dt Q mat sim s o C' Hrun.
    assert (Hs : s ∈ [11; 7; 2; 3; 12; 9; 8; 4; 5; 1]%Z).
    { apply injection_extended_footprint_volumeControl_stages in Hrun.
      destruct Hrun as [(s' & Hr & Hs')|(K & Km1 & itr & sd & _ & _ & Hext)].
      - unfold TimeSteppingVolumeControl.failed in Hr. inversion Hr; subst.
        destruct Hs' as [Hs'|[Hs'|Hs']]; subst s';
          in_list.
      - apply extend_footprint_volumeControl_status in Hext.
        do 3 (apply elem_of_cons; right). exact Hext. }
    split; [|exact Hs]. intros ->.
    repeat (apply elem_of_cons in Hs; destruct Hs as [Hs|Hs]; [discriminate|]).
    inversion Hs.
Qed.

(** C4.  The rounding sets to 1 the filling fractions between 1 and
    [1 + tol], both excluded, and keeps the others.  A volume-control step
    that gets as far as the filling fractions rounds them with the window
    1e-4, and a viscous-fluid step with the window 1e-6; it returns the
    status 9 exactly when a rounded fraction is above 1 or below minus the
    machine epsilon, and the filling fractions of the fracture it hands to
    [process_fracture_front] on success are rounded fractions, none above 1
    and none below minus the machine epsilon. *)
Theorem filling_fraction_checked :
  (forall tol (F : vec) i f,
      F !! i = Some f ->
      round_filling_fraction tol F !! i
      = Some (if (1 <? f) && (f <? 1 + tol) then 1 else f))
  /\ (forall w_k Fr C dt Q mat sim s o C',
         TimeSteppingVolumeControl.injection_extended_footprint_volumeControl
           w_k Fr C dt Q mat sim = Ok ((s, o), C') ->
         (o = None /\ s ∈ [11; 7; 2; 3; 12]%Z)
         \/ exists sd tips l alpha cs area,
              reconstruct_front sd (Fracture.EltChannel Fr) (Fracture.mesh Fr)
              = Ok (tips, l, alpha, cs)
              /\ Integral_over_cell tips alpha l (Fracture.mesh Fr) "A" no_kwargs = Ok area
              /\ fill_fraction_verdict 1e-4
                   (map (fun x => x / CartesianMesh.EltArea (Fracture.mesh Fr)) area) s o)
  /\ (forall w_k Fr C dt Qin mat fl sim s o out,
         TimeSteppingViscousFluid.injection_extended_footprint w_k Fr C dt Qin mat fl sim
         = Ok ((s, o), out) ->
         (o = None /\ s ∈ [7; 10; 3]%Z)
         \/ exists sd tips l alpha cs Vel area,
              reconstruct_front sd (Fracture.EltChannel Fr) (Fracture.mesh Fr)
              = Ok (tips, l, alpha, cs)
              /\ VolumeIntegral tips alpha l (Fracture.mesh Fr) "A" mat (Fracture.muPrime Fr)
                                Vel no_kwargs = Ok area
              /\ fill_fraction_verdict 1e-6
                   (map (fun x => x / CartesianMesh.EltArea (Fracture.mesh Fr)) area) s o).
Proof.
  split; [exact round_filling_fraction_lookup|]. split.
  - intros w_k Fr C dt Q mat sim s o C' Hrun.
    apply injection_extended_footprint_volumeControl_stages in Hrun.
    destruct Hrun as [(s' & Hr & Hs')|(K & Km1 & itr & sd & _ & _ & Hext)].
    + left. unfold TimeSteppingVolumeControl.failed in Hr. inversion Hr; subst.
      split; [reflexivity|].
      destruct Hs' as [ -> | [ -> | -> ] ];
        in_list.
    + apply extend_footprint_volumeControl_fill_fraction in Hext.
      destruct Hext as (tips & l & alpha & cs & Hrec & [[Ho Hs]|(area & Harea & Hv)]).
      * left. split; [exact Ho|].
        destruct Hs as [Hs|Hs]; subst s;
          in_list.
      * right. exists sd, tips, l, alpha, cs, area. auto.
  - intros w_k Fr C dt Qin mat fl sim s o out Hrun.
    apply injection_extended_footprint_stages in Hrun.
    destruct Hrun as [Hr|(itr & sd & Hloop & [[_ Hr]|[_ Hext]])].
    + left. inversion Hr; subst. split; [reflexivity|]. in_list.
    + left. inversion Hr; subst. split; [reflexivity|].
      in_list.
    + apply extend_footprint_fill_fraction in Hext.
      destruct Hext as (tips & l & alpha & cs & Hrec & [[Ho Hs]|(Vel & area & Harea & Hv)]).
      * left. split; [exact Ho|]. subst s. in_list.
      * right. exists sd, tips, l, alpha, cs, Vel, area. auto.
Qed.

End Step.
End StatusFacts.

(** * The loops end within the iterations counted for them

    The loops with a cap are modelled with as many iterations as the cap
    leaves: one iteration more changes nothing, so the model never stops a
    loop that the program would go on with. *)
Module FuelFacts.
Import ElastoHydrodynamicSolver Shared BodyFacts.
Local Open Scope float_scope.

Lemma bind_ext {R A B} (m : ctl R A) (f g : A -> ctl R B) :
  (forall a, f a = g a) -> (m ≫= f) = (m ≫= g).
Proof. intros Hfg. destruct m; simpl; auto. Qed.

(** Two bodies that differ in their last statement only. *)
Ltac same_body :=
  repeat first
    [ reflexivity
    | apply bind_ext; intros
    | match goal with
      | |- (let '(_, _) := ?p in _) = _ => destruct p
      | |- (if ?b then _ else _) = _ => destruct b
      end ].

Section Loops.
Context `{NumLib} `{PyFracModules}.

Lemma PN_loop_fuel {I} Res_fun sys_fun Jacobian TypValue Tol maxitr relax PicardPerNewton :
  forall fuel fuel' solk k (interItr : I) newton Jac converged,
    (maxitr - k <= Z.of_nat fuel)%Z -> (maxitr - k <= Z.of_nat fuel')%Z ->
    PN_loop Res_fun sys_fun Jacobian TypValue Tol maxitr relax PicardPerNewton
            fuel solk k interItr newton Jac converged
    = PN_loop Res_fun sys_fun Jacobian TypValue Tol maxitr relax PicardPerNewton
              fuel' solk k interItr newton Jac converged.
Proof.
  induction fuel as [|fuel IH]; intros [|fuel'] solk k interItr newton Jac converged Hk Hk';
    simpl; destruct (k <? maxitr)%Z eqn:Hlt;
    rewrite ?andb_false_r, ?andb_true_r; try reflexivity;
    try (apply Z.ltb_lt in Hlt; simpl in Hk, Hk'; lia).
  destruct (negb converged); [|reflexivity].
  same_body. apply IH; lia.
Qed.

Lemma toughness_loop_viscous_fuel {R} (failed : Z -> R) w_k Fr dt mat sim :
  forall fuel fuel' itr sd,
    (SimulationParameters.maxToughnessItr sim - itr <= Z.of_nat fuel)%Z ->
    (SimulationParameters.maxToughnessItr sim - itr <= Z.of_nat fuel')%Z ->
    TimeSteppingViscousFluid.toughness_loop fuel w_k Fr dt mat sim failed itr sd
    = TimeSteppingViscousFluid.toughness_loop fuel' w_k Fr dt mat sim failed itr sd.
Proof.
  induction fuel as [|fuel IH]; intros [|fuel'] itr sd Hk Hk';
    simpl; destruct (itr <? _)%Z eqn:Hlt; try reflexivity;
    try (apply Z.ltb_lt in Hlt; simpl in Hk, Hk'; lia).
  same_body. apply IH; lia.
Qed.

Lemma toughness_loop_volumeControl_fuel {R} (failed : Z -> R) w_k Fr dt mat sim :
  forall fuel fuel' itr sd K Km1,
    (SimulationParameters.maxToughnessItr sim - itr <= Z.of_nat fuel)%Z ->
    (SimulationParameters.maxToughnessItr sim - itr <= Z.of_nat fuel')%Z ->
    TimeSteppingVolumeControl.toughness_loop fuel failed w_k Fr dt mat sim itr sd K Km1
    = TimeSteppingVolumeControl.toughness_loop fuel' failed w_k Fr dt mat sim itr sd K Km1.
Proof.
  induction fuel as [|fuel IH]; intros [|fuel'] itr sd K Km1 Hk Hk';
    simpl; destruct (itr <? _)%Z eqn:Hlt; try reflexivity;
    try (apply Z.ltb_lt in Hlt; simpl in Hk, Hk'; lia).
  same_body. apply IH; lia.
Qed.

End Loops.
End FuelFacts.

(** * The theorems on the runs of the examples *)
Module RunFacts.
Import Examples Runs FrontRuns BoundaryRuns ElastoHydrodynamicSolver Shared.
Local Open Scope float_scope.

(** C1 as stated fails: every reattempt of the viscous-fluid step of the
    example ends with the Picard iteration at its cap of 3 iterations, and
    [advance_time_step] returns the status 5, not 6. *)
Lemma Picard_cap_is_not_status_6 :
  (exists C',
      TimeSteppingViscousFluid.attempt_time_step_viscousFluid
        (H := example_NumLib) (H0 := example_modules interior 6 doubling)
        10 example_fracture example_C (example_material None) example_fluid
        (example_sim 3 2 4 "implicit") example_injection 1
      = Ok ((5%Z, None), C', [print_Picard_Newton (not_converged_after 3)]))
  /\ exists a,
       Controller.advance_time_step (H := example_NumLib) (viscous_step interior doubling)
         always_fails always_fails (example_sim 3 2 4 "implicit") example_fracture example_C 1
       = Ok a
       /\ Controller.returned a = (5%Z, None)
       /\ fst (Controller.returned a) <> 6%Z.
Proof.
  split.
  - eexists. vm_compute. reflexivity.
  - eexists. split; [vm_compute; reflexivity|]. split; [reflexivity|discriminate].
Qed.

(** The volume-control step of the example leaves the elasticity matrix as
    it was. *)
Lemma elasticity_matrix_restored_witness :
  match volumeControl_step interior 6 None 2 with
  | Ok (_, C') => C' = example_C
  | Raise _ => False
  end.
Proof.
  destruct (volumeControl_step interior 6 None 2) as [[r C']|e] eqn:E.
  - exact (proj1 (proj2 (proj2 (RestoreFacts.elasticity_matrix_restored
                                  (H := example_NumLib)
                                  (H0 := example_modules interior 6 id))))
                 _ _ _ _ _ _ _ _ _ E).
  - vm_compute in E. discriminate.
Defined.



(** The filling fraction 0.5 of the example passes the check: the step
    returns the status 1, so it is not one of the early failures, and what
    it returns is in accord with the check. *)
Lemma filling_fraction_checked_witness :
  match volumeControl_step interior 6 None 2 with
  | Ok ((s, o), _) =>
      s = 1%Z
      /\ exists area,
           fill_fraction_verdict (H := example_NumLib) (H0 := example_modules interior 6 id)
             1e-4 (map (fun x => x / 12) area) s o
  | Raise _ => False
  end.
Proof.
  destruct (volumeControl_step interior 6 None 2) as [[[s o] C']|e] eqn:E.
  - assert (Hs : s = 1%Z) by (pose proof E as E'; vm_compute in E'; congruence).
    split; [exact Hs|].
    destruct (proj1 (proj2 (StatusFacts.filling_fraction_checked
                              (H := example_NumLib) (H0 := example_modules interior 6 id)))
                    _ _ _ _ _ _ _ _ _ _ E)
      as [[_ Hearly]|(sd & tips & l & alpha & cs & area & _ & _ & Hv)].
    + exfalso. subst s. apply list_elem_of_In in Hearly. simpl in Hearly.
      repeat destruct Hearly as [Hearly|Hearly]; try discriminate Hearly. exact Hearly.
    + exists area. exact Hv.
  - vm_compute in E. discriminate.
Defined.

(** C4 as stated fails: the tip cells of area 12.0006 in cells of area 12
    have the filling fraction 1.00005, which is above [1 + 1e-6]; the
    volume-control step rounds it to 1 and returns the status 1, not 9. *)
Lemma filling_fraction_above_small_window_accepted :
  (1 + 1e-6 <? 12.0006 / 12) = true
  /\ (12.0006 / 12 <? 1 + 1e-4) = true
  /\ exists Fr C',
       volumeControl_step interior 12.0006 None 2 = Ok ((1%Z, Some Fr), C')
       /\ Fracture.FillF Fr = [1; 1; 1; 1].
Proof.
  split; [reflexivity|]. split; [reflexivity|].
  do 2 eexists. split; [vm_compute; reflexivity|]. reflexivity.
Qed.

(** The volume-control step of the example with a toughness function and a
    cap of 2 iterations does not return the status 10. *)
Lemma toughness_cap_status_witness :
  match volumeControl_step interior 6 (Some (fun _ => 1)) 2 with
  | Ok ((s, _), _) => s <> 10%Z
  | Raise _ => False
  end.
Proof.
  destruct (volumeControl_step interior 6 (Some (fun _ => 1)) 2) as [[[s o] C']|e] eqn:E.
  - exact (proj1 (proj2 (proj2 (proj2 (StatusFacts.toughness_cap_status
                                         (H := example_NumLib)
                                         (H0 := example_modules interior 6 id))))
                        _ _ _ _ _ _ _ _ _ _ E)).
  - vm_compute in E. discriminate.
Defined.

(** C5 as stated fails in the volume-control branch: with a toughness
    function, the first estimate of the toughness is compared with zeros,
    the norm is infinite, and the loop of the example ends with [itr] at
    the cap of 2; the step goes on and returns the status 1, not 10. *)
Lemma toughness_cap_ignored_in_volume_control :
  (exists K sd,
      @TimeSteppingVolumeControl.initial_toughness
        example_NumLib (example_modules interior 6 id) (Z * option Fracture.t * matrix)
        example_fracture (example_material (Some (fun _ => 1)))
        (Fracture.sgndDist example_fracture) = Next (Some K, Some [0])
      /\ TimeSteppingVolumeControl.toughness_loop
           (H := example_NumLib) (H0 := example_modules interior 6 id)
           (Z.to_nat (2 - 1)) (TimeSteppingVolumeControl.failed example_C)
           (Fracture.w example_fracture) example_fracture 1
           (example_material (Some (fun _ => 1))) (example_sim 3 2 4 "implicit")
           1%Z (Fracture.sgndDist example_fracture) (Some K) (Some [0])
         = Next (2%Z, sd))
  /\ exists Fr C',
       volumeControl_step interior 6 (Some (fun _ => 1)) 2 = Ok ((1%Z, Some Fr), C').
Proof.
  split.
  - do 2 eexists. split; vm_compute; reflexivity.
  - do 2 eexists. vm_compute. reflexivity.
Qed.

(** Two channel cells and one tip cell: the last row of the system is
    (1, 1, 0), and its last right-hand side [4 * 1 / 2 - (0.5 - 3) - 0]. *)
Lemma volume_balance_row_witness :
  (exists A_top, length A_top = 2%nat
                 /\ [[2; 1; -1]; [1; 2; -1]; [1; 1; 0]] = A_top ++ [replicate 2 1 ++ [0]])
  /\ exists S_top w_tip_lst,
       Forall2 (fun e x => [1; 2; 3] !! e = Some x) [2%nat] w_tip_lst
       /\ [-4.5; -5.5; 4.5]
          = S_top ++ [py_sum [4; 0; 0] * 1 / 2 - (py_sum [0.5] - py_sum w_tip_lst)
                      - example_sum [0; 0; 0]].
Proof.
  apply (SolverFacts.volume_balance_row (H := example_NumLib)
           [1; 2; 3] [0.5] [0; 1]%nat [2%nat] [0; 0; 0]
           [[2; 1; 1]; [1; 2; 1]; [1; 1; 2]] 1 [4; 0; 0] 2 [0; 0; 0]).
  vm_compute. reflexivity.
Defined.





End RunFacts.

(** * The neighbours of a cell *)
Module MeshFacts.
Import CartesianMesh BodyFacts NumPyFacts.

Lemma mapM_Ok {A B} (f : A -> res B) (l : list A) (ys : list B) :
  mapM f l = Ok ys <-> Forall2 (fun x y => f x = Ok y) l ys.
Proof.
  revert ys. induction l as [|x l IH]; intros ys; simpl.
  - split; intros E; [inversion E; constructor | inversion E; reflexivity].
  - split.
    + intros E. apply res_bind_Ok_inv in E. destruct E as (y & Ey & E).
      apply res_bind_Ok_inv in E. destruct E as (k & Ek & E). inversion E; subst.
      constructor; [exact Ey | apply IH; exact Ek].
    + intros E. inversion E as [|? y ? k Hy Hk]; subst. apply IH in Hk.
      rewrite Hy. simpl. rewrite Hk. reflexivity.
Qed.

Local Open Scope Z_scope.

(** The four neighbours, written out. *)
Lemma Neighbors_Ok elem nx ny :
  nx <> 0 ->
  Neighbors elem nx ny
  = Ok (if elem mod nx =? 0 then elem else elem / nx * nx + elem mod nx - 1,
        if elem mod nx =? nx - 1 then elem else elem / nx * nx + elem mod nx + 1,
        if elem / nx =? 0 then elem else (elem / nx - 1) * nx + elem mod nx,
        if elem / nx =? ny - 1 then elem else (elem / nx + 1) * nx + elem mod nx).
Proof.
  intros Hnx. unfold Neighbors. apply Z.eqb_neq in Hnx. rewrite Hnx. reflexivity.
Qed.

(** The column and the row of an element of the mesh. *)
Lemma column_row elem nx ny :
  0 < nx -> 0 < ny -> 0 <= elem < nx * ny ->
  0 <= elem mod nx < nx /\ 0 <= elem / nx < ny
  /\ elem = elem / nx * nx + elem mod nx.
Proof.
  intros Hnx Hny He.
  pose proof (Z.mod_pos_bound elem nx Hnx) as Hi.
  pose proof (Z.div_mod elem nx ltac:(lia)) as Hdm.
  assert (Hj : 0 <= elem / nx) by (apply Z.div_pos; lia).
  assert (Hj' : elem / nx < ny) by (apply Z.div_lt_upper_bound; lia).
  repeat split; lia.
Qed.

(** The rows below and above the element lie in the mesh when the element
    is not in the first or the last row. *)
Lemma row_bounds j nx ny :
  0 < nx -> 0 <= j < ny ->
  0 <= j * nx /\ j * nx + nx <= nx * ny
  /\ (j <> 0 -> nx <= j * nx) /\ (j <> ny - 1 -> j * nx + 2 * nx <= nx * ny).
Proof. intros Hnx Hj. repeat split; intros; nia. Qed.

(** The neighbours lie in the mesh. *)
Lemma Neighbors_range elem nx ny left right bottom up :
  0 < nx -> 0 < ny -> 0 <= elem < nx * ny ->
  Neighbors elem nx ny = Ok (left, right, bottom, up) ->
  0 <= left < nx * ny /\ 0 <= right < nx * ny
  /\ 0 <= bottom < nx * ny /\ 0 <= up < nx * ny.
Proof.
  intros Hnx Hny He HN. rewrite Neighbors_Ok in HN by lia.
  destruct (column_row elem nx ny Hnx Hny He) as (Hi & Hj & Hdm).
  destruct (row_bounds (elem / nx) nx ny Hnx Hj) as (Hr0 & Hr1 & Hr2 & Hr3).
  inversion HN; subst; clear HN.
  set (i := elem mod nx) in *. set (j := elem / nx) in *. set (jn := j * nx) in *.
  replace ((j - 1) * nx) with (jn - nx) by (unfold jn; ring).
  replace ((j + 1) * nx) with (jn + nx) by (unfold jn; ring).
  repeat match goal with |- context [if ?b then _ else _] => destruct b eqn:? end;
    repeat match goal with
           | H : (_ =? _) = false |- _ => apply Z.eqb_neq in H
           | H : (_ =? _) = true |- _ => apply Z.eqb_eq in H
           end; lia.
Qed.

(** Which neighbour an element has on each side. *)
Lemma Neighbors_cases elem nx ny left right bottom up :
  0 < nx -> 0 < ny -> 0 <= elem < nx * ny ->
  Neighbors elem nx ny = Ok (left, right, bottom, up) ->
  (left = elem <-> elem mod nx = 0) /\ (left <> elem -> left = elem - 1)
  /\ (right = elem <-> elem mod nx = nx - 1) /\ (right <> elem -> right = elem + 1)
  /\ (bottom = elem <-> elem / nx = 0) /\ (bottom <> elem -> bottom = elem - nx)
  /\ (up = elem <-> elem / nx = ny - 1) /\ (up <> elem -> up = elem + nx).
Proof.
  intros Hnx Hny He HN. rewrite Neighbors_Ok in HN by lia.
  destruct (column_row elem nx ny Hnx Hny He) as (Hi & Hj & Hdm).
  inversion HN; subst; clear HN.
  set (i := elem mod nx) in *. set (j := elem / nx) in *. set (jn := j * nx) in *.
  replace ((j - 1) * nx) with (jn - nx) by (unfold jn; ring).
  replace ((j + 1) * nx) with (jn + nx) by (unfold jn; ring).
  repeat match goal with |- context [if ?b then _ else _] => destruct b eqn:? end;
    repeat match goal with
           | H : (_ =? _) = false |- _ => apply Z.eqb_neq in H
           | H : (_ =? _) = true |- _ => apply Z.eqb_eq in H
           end; lia.
Qed.

Lemma div_mod_cell i j nx :
  0 <= i < nx -> (j * nx + i) / nx = j /\ (j * nx + i) mod nx = i.
Proof.
  intros Hi. split.
  - symmetry. apply (Z.div_unique _ _ j i); lia.
  - symmetry. apply (Z.mod_unique _ _ j i); lia.
Qed.

(** The neighbours of the element in column [i] and row [j]. *)
Lemma Neighbors_cell i j nx ny :
  0 <= i < nx ->
  Neighbors (j * nx + i) nx ny
  = Ok (if i =? 0 then j * nx + i else j * nx + i - 1,
        if i =? nx - 1 then j * nx + i else j * nx + i + 1,
        if j =? 0 then j * nx + i else (j - 1) * nx + i,
        if j =? ny - 1 then j * nx + i else (j + 1) * nx + i).
Proof.
  intros Hi. rewrite Neighbors_Ok by lia.
  destruct (div_mod_cell i j nx Hi) as [-> ->]. reflexivity.
Qed.

(** X1.  The neighbours of an element of the mesh are elements of the
    mesh. *)
Theorem Neighbors_in_mesh elem nx ny left right bottom up :
  0 < nx -> 0 < ny -> 0 <= elem < nx * ny ->
  Neighbors elem nx ny = Ok (left, right, bottom, up) ->
  0 <= left < nx * ny /\ 0 <= right < nx * ny
  /\ 0 <= bottom < nx * ny /\ 0 <= up < nx * ny.
Proof.
  intros Hnx Hny He HN.
  destruct (column_row elem nx ny Hnx Hny He) as (Hi & Hj & Hdm).
  destruct (row_bounds (elem / nx) nx ny Hnx Hj) as (Hr0 & Hr1 & Hr2 & Hr3).
  set (i := elem mod nx) in *. set (j := elem / nx) in *. clearbody i j. subst elem.
  rewrite Neighbors_cell in HN by exact Hi. inversion HN; subst; clear HN He.
  destruct (i =? 0) eqn:Ei0, (i =? nx - 1) eqn:Ei1, (j =? 0) eqn:Ej0, (j =? ny - 1) eqn:Ej1;
    try apply Z.eqb_neq in Ei0; try apply Z.eqb_neq in Ei1;
    try apply Z.eqb_neq in Ej0; try apply Z.eqb_neq in Ej1;
    try specialize (Hr2 Ej0); try specialize (Hr3 Ej1); lia.
Qed.

(** X2.  An element is its own left neighbour exactly when it is in the
    first column, and its left neighbour is the element before it
    otherwise; likewise on the right (last column, the element after it),
    at the bottom (first row, the element [nx] before it) and at the top
    (last row, the element [nx] after it). *)
Theorem Neighbors_boundary elem nx ny left right bottom up :
  0 < nx -> 0 < ny -> 0 <= elem < nx * ny ->
  Neighbors elem nx ny = Ok (left, right, bottom, up) ->
  (left = elem <-> elem mod nx = 0) /\ (left <> elem -> left = elem - 1)
  /\ (right = elem <-> elem mod nx = nx - 1) /\ (right <> elem -> right = elem + 1)
  /\ (bottom = elem <-> elem / nx = 0) /\ (bottom <> elem -> bottom = elem - nx)
  /\ (up = elem <-> elem / nx = ny - 1) /\ (up <> elem -> up = elem + nx).
Proof.
  intros Hnx Hny He HN.
  destruct (column_row elem nx ny Hnx Hny He) as (Hi & Hj & Hdm).
  set (i := elem mod nx) in *. set (j := elem / nx) in *. clearbody i j. subst elem.
  rewrite Neighbors_cell in HN by exact Hi. inversion HN; subst; clear HN He.
  destruct (i =? 0) eqn:Ei0, (i =? nx - 1) eqn:Ei1, (j =? 0) eqn:Ej0, (j =? ny - 1) eqn:Ej1;
    try apply Z.eqb_neq in Ei0; try apply Z.eqb_neq in Ei1;
    try apply Z.eqb_neq in Ej0; try apply Z.eqb_neq in Ej1;
    try apply Z.eqb_eq in Ei0; try apply Z.eqb_eq in Ei1;
    try apply Z.eqb_eq in Ej0; try apply Z.eqb_eq in Ej1; lia.
Qed.

(** X3.  Being neighbours is mutual: the element is the left neighbour of
    its right neighbour, the right neighbour of its left neighbour, the
    bottom neighbour of its top neighbour and the top neighbour of its
    bottom neighbour, whenever that neighbour is another element. *)
Theorem Neighbors_mutual elem nx ny left right bottom up :
  0 < nx -> 0 < ny -> 0 <= elem < nx * ny ->
  Neighbors elem nx ny = Ok (left, right, bottom, up) ->
  (right <> elem -> exists r b u, Neighbors right nx ny = Ok (elem, r, b, u))
  /\ (left <> elem -> exists l b u, Neighbors left nx ny = Ok (l, elem, b, u))
  /\ (up <> elem -> exists l r u, Neighbors up nx ny = Ok (l, r, elem, u))
  /\ (bottom <> elem -> exists l r b, Neighbors bottom nx ny = Ok (l, r, b, elem)).
Proof.
  intros Hnx Hny He HN.
  destruct (column_row elem nx ny Hnx Hny He) as (Hi & Hj & Hdm).
  set (i := elem mod nx) in *. set (j := elem / nx) in *. clearbody i j. subst elem.
  rewrite Neighbors_cell in HN by exact Hi. inversion HN; subst; clear HN He.
  split; [|split; [|split]].
  - destruct (i =? nx - 1) eqn:E; [contradiction|]. intros _. apply Z.eqb_neq in E.
    replace (j * nx + i + 1) with (j * nx + (i + 1)) by ring.
    rewrite Neighbors_cell by lia.
    destruct (i + 1 =? 0) eqn:E0; [apply Z.eqb_eq in E0; lia|].
    do 3 eexists. f_equal. f_equal. f_equal. f_equal. ring.
  - destruct (i =? 0) eqn:E; [contradiction|]. intros _. apply Z.eqb_neq in E.
    replace (j * nx + i - 1) with (j * nx + (i - 1)) by ring.
    rewrite Neighbors_cell by lia.
    destruct (i - 1 =? nx - 1) eqn:E0; [apply Z.eqb_eq in E0; lia|].
    do 3 eexists. f_equal. f_equal. f_equal. f_equal. ring.
  - destruct (j =? ny - 1) eqn:E; [contradiction|]. intros _. apply Z.eqb_neq in E.
    rewrite Neighbors_cell by exact Hi.
    destruct (j + 1 =? 0) eqn:E0; [apply Z.eqb_eq in E0; lia|].
    do 3 eexists. f_equal. f_equal. f_equal. ring.
  - destruct (j =? 0) eqn:E; [contradiction|]. intros _. apply Z.eqb_neq in E.
    rewrite Neighbors_cell by exact Hi.
    destruct (j - 1 =? ny - 1) eqn:E0; [apply Z.eqb_eq in E0; lia|].
    do 3 eexists. f_equal. f_equal. ring.
Qed.

Local Close Scope Z_scope.

(** The rows of [NeiElements]. *)
Lemma make_NeiElements_rows nx ny N :
  make_NeiElements nx ny = Ok N ->
  length N = Z.to_nat (nx * ny)
  /\ forall e row, N !! e = Some row ->
       exists l r b u, Neighbors (Z.of_nat e) nx ny = Ok (l, r, b, u)
                       /\ row = [Z.to_nat l; Z.to_nat r; Z.to_nat b; Z.to_nat u].
Proof.
  unfold make_NeiElements. intros HN%mapM_Ok. split.
  - apply Forall2_length in HN. rewrite <- HN. apply length_seq.
  - intros e row He.
    destruct (Forall2_lookup_r _ _ _ _ _ HN He) as (x & Hx & Hrow).
    apply lookup_seq in Hx. destruct Hx as [-> _]. simpl in Hrow.
    apply res_bind_Ok_inv in Hrow. destruct Hrow as ([[[l r] b] u] & HNe & Hrow).
    inversion Hrow; subst. eauto 10.
Qed.

(** The array is built for every mesh with at least one column. *)
Lemma make_NeiElements_total nx ny :
  (nx <> 0)%Z -> exists N, make_NeiElements nx ny = Ok N.
Proof.
  intros Hnx. unfold make_NeiElements.
  induction (seq 0 (Z.to_nat (nx * ny))) as [|e l [N IH]]; simpl; [eauto|].
  rewrite Neighbors_Ok by exact Hnx. simpl. rewrite IH. simpl. eauto.
Qed.

(** X4.  [NeiElements] has one row of four elements of the mesh for each
    element of the mesh, so that an array with an entry per element can be
    indexed with any neighbour. *)
Theorem NeiElements_in_mesh nx ny N :
  (0 < nx)%Z -> (0 < ny)%Z ->
  make_NeiElements nx ny = Ok N ->
  length N = Z.to_nat (nx * ny)
  /\ Forall (fun row => length row = 4%nat /\ Forall (fun n => (n < length N)%nat) row) N.
Proof.
  intros Hnx Hny HN. destruct (make_NeiElements_rows _ _ _ HN) as [Hlen Hrows].
  split; [exact Hlen|]. apply list.Forall_forall. intros row Hrow.
  apply list_elem_of_lookup_1 in Hrow. destruct Hrow as [e He].
  destruct (Hrows e row He) as (l & r & b & u & HNe & ->).
  assert (Hlt : (e < length N)%nat) by (eapply lookup_lt_Some; eassumption).
  assert (Hin : (0 <= Z.of_nat e < nx * ny)%Z) by lia.
  destruct (Neighbors_range _ _ _ _ _ _ _ Hnx Hny Hin HNe) as (Hl & Hr & Hb & Hu).
  split; [reflexivity|]. repeat constructor; lia.
Qed.

(** X5.  On a mesh whose [NeiElements] is the array that the constructor
    builds, the test for a tip cell that is its own neighbour finds exactly
    the tip cells in the first or last column or row of the mesh. *)
Theorem tip_at_grid_boundary_meaning {R} (mesh : CartesianMesh.t) nx ny (tips : list nat) :
  (0 < nx)%Z -> (0 < ny)%Z ->
  make_NeiElements nx ny = Ok (NeiElements mesh) ->
  Forall (fun e => (e < length (NeiElements mesh))%nat) tips ->
  exists b, @Shared.tip_at_grid_boundary R mesh tips = Next b
            /\ (b = true <-> exists e, e ∈ tips /\ on_grid_boundary nx ny (Z.of_nat e)).
Proof.
  intros Hnx Hny HN Htips. destruct (make_NeiElements_rows _ _ _ HN) as [Hlen Hrows].
  unfold Shared.tip_at_grid_boundary.
  destruct (BoundaryFacts.take_total (R := R) _ _ Htips) as [nb Hnb]. rewrite Hnb. simpl.
  eexists. split; [reflexivity|].
  assert (Hself : forall e row, e ∈ tips -> NeiElements mesh !! e = Some row ->
                                e ∈ row <-> on_grid_boundary nx ny (Z.of_nat e)).
  { intros e row He Hrow. destruct (Hrows e row Hrow) as (l & r & b & u & HNe & ->).
    assert (Hlt : (e < length (NeiElements mesh))%nat) by (eapply lookup_lt_Some; eassumption).
    assert (Hin : (0 <= Z.of_nat e < nx * ny)%Z) by lia.
    destruct (Neighbors_range _ _ _ _ _ _ _ Hnx Hny Hin HNe) as (Hl & Hr & Hb & Hu).
    destruct (Neighbors_cases _ _ _ _ _ _ _ Hnx Hny Hin HNe)
      as (Bl & _ & Br & _ & Bb & _ & Bu & _).
    unfold on_grid_boundary. rewrite <- Bl, <- Br, <- Bb, <- Bu.
    rewrite !elem_of_cons, elem_of_nil. split.
    - intros [E|[E|[E|[E|[]]]]]; subst e; rewrite Z2Nat.id by lia; auto.
    - intros [E|[E|[E|E]]]; subst; rewrite Nat2Z.id; auto. }
  rewrite existsb_exists. split.
  - intros ([e row] & Hin & Hdec). apply bool_decide_eq_true in Hdec.
    apply list_elem_of_In, list_elem_of_lookup_1 in Hin. destruct Hin as [i Hi].
    apply lookup_zip_with_Some in Hi. destruct Hi as (e' & row' & Heq & Hti & Hni).
    inversion Heq; subst e' row'.
    rewrite (take_lookup _ _ _ _ _ Hnb Hti) in Hni.
    assert (He : e ∈ tips) by (eapply list_elem_of_lookup_2; eassumption).
    exists e. split; [exact He|]. apply (Hself e row He Hni). exact Hdec.
  - intros (e & He & Hb). pose proof He as He'.
    apply list_elem_of_lookup_1 in He'. destruct He' as [i Hi].
    rewrite list.Forall_forall in Htips. specialize (Htips e He).
    destruct (lookup_lt_is_Some_2 _ _ Htips) as [row Hrow].
    exists (e, row). split.
    + apply list_elem_of_In. apply (list_elem_of_lookup_2 _ i).
      apply lookup_zip_with_Some. exists e, row. split; [reflexivity|]. split; [exact Hi|].
      rewrite (take_lookup _ _ _ _ _ Hnb Hi). exact Hrow.
    + apply bool_decide_eq_true. apply (Hself e row He Hrow). exact Hb.
Qed.

End MeshFacts.

(** * The vertices of the elements *)
Module ConnectivityFacts.
Import CartesianMesh MeshInit MeshFacts.

Lemma lookup_concat_uniform {A} (ls : list (list A)) (n j i : nat) :
  Forall (fun l => length l = n) ls -> (i < n)%nat ->
  concat ls !! (j * n + i)%nat = ls !! j ≫= (.!! i).
Proof.
  intros Hls Hi. revert j. induction Hls as [|l ls Hl _ IH]; intros j; simpl.
  - destruct j; reflexivity.
  - destruct j as [|j]; simpl.
    + rewrite lookup_app_l by lia. reflexivity.
    + rewrite lookup_app_r by lia. replace (n + j * n + i - length l)%nat with (j * n + i)%nat
        by lia. apply IH.
Qed.

Lemma length_concat_uniform {A} (n : nat) (ls : list (list A)) :
  Forall (fun l => length l = n) ls -> length (concat ls) = (length ls * n)%nat.
Proof.
  intros Hls. induction Hls as [|l ls Hl _ IH]; simpl; [reflexivity|].
  rewrite length_app, IH, Hl. reflexivity.
Qed.

Lemma range_lookup n (i : nat) : (Z.of_nat i < n)%Z -> range n !! i = Some (Z.of_nat i).
Proof.
  intros Hi. unfold range. rewrite list_lookup_fmap, lookup_seq_lt by lia. reflexivity.
Qed.

Lemma length_range n : length (range n) = Z.to_nat n.
Proof. unfold range. rewrite length_map, length_seq. reflexivity. Qed.

Local Open Scope Z_scope.

(** The row of the element in column [i] and row [j]. *)
Lemma Connectivity_lookup nx ny i j :
  0 <= i < nx -> 0 <= j < ny ->
  Connectivity nx ny !! Z.to_nat (j * nx + i)
  = Some [i + j * (nx + 1); (i + 1) + j * (nx + 1);
          i + 1 + (j + 1) * (nx + 1); i + (j + 1) * (nx + 1)].
Proof.
  intros Hi Hj. unfold Connectivity.
  replace (Z.to_nat (j * nx + i)) with (Z.to_nat j * Z.to_nat nx + Z.to_nat i)%nat by nia.
  rewrite (lookup_concat_uniform _ (Z.to_nat nx)).
  - rewrite list_lookup_fmap, range_lookup by lia. simpl.
    rewrite list_lookup_fmap, range_lookup by lia. simpl.
    rewrite !Z2Nat.id by lia. reflexivity.
  - apply list.Forall_fmap, list.Forall_true. intros j'. simpl.
    rewrite length_map. apply length_range.
  - lia.
Qed.

Lemma Connectivity_length nx ny :
  0 <= nx -> 0 <= ny -> length (Connectivity nx ny) = Z.to_nat (nx * ny).
Proof.
  intros Hnx Hny. unfold Connectivity.
  rewrite (length_concat_uniform (Z.to_nat nx)).
  - rewrite length_map, length_range. nia.
  - apply list.Forall_fmap, list.Forall_true. intros j'. simpl.
    rewrite length_map. apply length_range.
Qed.

Ltac same_row :=
  f_equal; repeat (apply (f_equal2 cons); [first [reflexivity | ring]|]); reflexivity.

(** X6.  [Connectivity] has a row of four vertices for each element, all
    of them among the [(nx + 1) * (ny + 1)] vertices of the mesh and no two
    the same.  An element shares its right edge with its right neighbour:
    its vertices 1 and 2 are the vertices 0 and 3 of that neighbour.  It
    shares its top edge with its top neighbour, its left edge with its left
    neighbour and its bottom edge with its bottom neighbour in the same
    way. *)
Theorem Connectivity_shared_edges nx ny elem left right bottom up :
  0 < nx -> 0 < ny -> 0 <= elem < nx * ny ->
  Neighbors elem nx ny = Ok (left, right, bottom, up) ->
  length (Connectivity nx ny) = Z.to_nat (nx * ny)
  /\ exists v0 v1 v2 v3,
       Connectivity nx ny !! Z.to_nat elem = Some [v0; v1; v2; v3]
       /\ 0 <= v0 < v1 /\ v1 < v3 < v2 /\ v2 < (nx + 1) * (ny + 1)
       /\ (right <> elem ->
           exists w1 w2, Connectivity nx ny !! Z.to_nat right = Some [v1; w1; w2; v2])
       /\ (up <> elem ->
           exists w2 w3, Connectivity nx ny !! Z.to_nat up = Some [v3; v2; w2; w3])
       /\ (left <> elem ->
           exists w0 w3, Connectivity nx ny !! Z.to_nat left = Some [w0; v0; v3; w3])
       /\ (bottom <> elem ->
           exists w0 w1, Connectivity nx ny !! Z.to_nat bottom = Some [w0; w1; v1; v0]).
Proof.
  intros Hnx Hny He HN. split; [apply Connectivity_length; lia|].
  destruct (column_row elem nx ny Hnx Hny He) as (Hi & Hj & Hdm).
  destruct (row_bounds (elem / nx) nx ny Hnx Hj) as (Hr0 & Hr1 & _ & _).
  set (i := elem mod nx) in *. set (j := elem / nx) in *. clearbody i j. subst elem.
  rewrite Neighbors_cell in HN by exact Hi. inversion HN; subst; clear HN He.
  exists (i + j * (nx + 1)), ((i + 1) + j * (nx + 1)), (i + 1 + (j + 1) * (nx + 1)),
    (i + (j + 1) * (nx + 1)).
  split; [apply Connectivity_lookup; assumption|].
  split; [lia|]. split; [lia|]. split; [lia|]. clear Hr0 Hr1.
  split; [|split; [|split]].
  - destruct (i =? nx - 1) eqn:E; [contradiction|]. intros _. apply Z.eqb_neq in E.
    replace (j * nx + i + 1) with (j * nx + (i + 1)) by ring.
    rewrite Connectivity_lookup by lia. do 2 eexists. same_row.
  - destruct (j =? ny - 1) eqn:E; [contradiction|]. intros _. apply Z.eqb_neq in E.
    rewrite Connectivity_lookup by lia. do 2 eexists. same_row.
  - destruct (i =? 0) eqn:E; [contradiction|]. intros _. apply Z.eqb_neq in E.
    replace (j * nx + i - 1) with (j * nx + (i - 1)) by ring.
    rewrite Connectivity_lookup by lia. do 2 eexists. same_row.
  - destruct (j =? 0) eqn:E; [contradiction|]. intros _. apply Z.eqb_neq in E.
    rewrite Connectivity_lookup by lia. do 2 eexists. same_row.
Qed.

End ConnectivityFacts.

(** * The mirror images of an element *)
Module SymmetryFacts.
Import Symmetry MeshFacts.
Local Open Scope Z_scope.

Lemma int64_small z : - 2 ^ 63 <= z < 2 ^ 63 -> int64 z = z.
Proof. intros Hz. unfold int64. rewrite Z.mod_small; lia. Qed.

(** The row of an element of the mesh, without the wrap-around. *)
Lemma get_symetric_elements_row nx ny e :
  0 < nx -> 0 < ny -> nx * ny < 2 ^ 62 -> 0 <= e < nx * ny ->
  get_symetric_elements nx ny [e]
  = [[e;
      (ny - e / nx - 1) * nx + e mod nx;
      e / nx * nx + (nx - e mod nx - 1);
      (ny - e / nx - 1) * nx + (nx - e mod nx - 1)]].
Proof.
  intros Hnx Hny Hsize He.
  destruct (column_row e nx ny Hnx Hny He) as (Hi & Hj & Hdm).
  assert (Hnx' : nx < 2 ^ 62) by nia. assert (Hny' : ny < 2 ^ 62) by nia.
  unfold get_symetric_elements, np_mod, np_floor_divide. simpl map.
  destruct (nx =? 0) eqn:E0; [apply Z.eqb_eq in E0; lia|].
  set (i := e mod nx) in *. set (j := e / nx) in *.
  assert (Hjn : 0 <= j * nx <= e) by nia.
  assert (Hsn : 0 <= (ny - j - 1) * nx < nx * ny) by nia.
  assert (Hsn' : (ny - j - 1) * nx + nx <= nx * ny) by nia.
  rewrite !(int64_small i), !(int64_small j) by lia.
  rewrite !(int64_small (nx - i)), !(int64_small (ny - j)) by lia.
  rewrite !(int64_small (nx - i - 1)), !(int64_small (ny - j - 1)) by lia.
  rewrite !(int64_small (j * nx)), !(int64_small ((ny - j - 1) * nx)) by lia.
  rewrite !int64_small by lia.
  repeat f_equal. lia.
Qed.

(** X7.  For an element of the mesh, [get_symetric_elements] gives the
    element itself and three elements of the mesh: its mirror images in the
    x axis, in the y axis and in both.  Mirroring is an involution: the row
    of each mirror image holds the same four elements, with the element and
    that image exchanged and the other two exchanged. *)
Theorem get_symetric_elements_mirror nx ny e :
  0 < nx -> 0 < ny -> nx * ny < 2 ^ 62 -> 0 <= e < nx * ny ->
  exists m_y m_x m_xy,
    get_symetric_elements nx ny [e] = [[e; m_y; m_x; m_xy]]
    /\ 0 <= m_y < nx * ny /\ 0 <= m_x < nx * ny /\ 0 <= m_xy < nx * ny
    /\ get_symetric_elements nx ny [m_y] = [[m_y; e; m_xy; m_x]]
    /\ get_symetric_elements nx ny [m_x] = [[m_x; m_xy; e; m_y]]
    /\ get_symetric_elements nx ny [m_xy] = [[m_xy; m_x; m_y; e]].
Proof.
  intros Hnx Hny Hsize He.
  destruct (column_row e nx ny Hnx Hny He) as (Hi & Hj & Hdm).
  set (i := e mod nx) in *. set (j := e / nx) in *.
  assert (Hcell : forall i' j', 0 <= i' < nx -> 0 <= j' < ny ->
                    0 <= j' * nx + i' < nx * ny
                    /\ (j' * nx + i') / nx = j' /\ (j' * nx + i') mod nx = i').
  { intros i' j' Hi' Hj'. destruct (div_mod_cell i' j' nx Hi') as [Hd Hm].
    split; [nia|]. split; assumption. }
  destruct (Hcell i (ny - j - 1)) as (Hy & Hyd & Hym); [lia|lia|].
  destruct (Hcell (nx - i - 1) j) as (Hx & Hxd & Hxm); [lia|lia|].
  destruct (Hcell (nx - i - 1) (ny - j - 1)) as (Hxy & Hxyd & Hxym); [lia|lia|].
  exists ((ny - j - 1) * nx + i), (j * nx + (nx - i - 1)),
    ((ny - j - 1) * nx + (nx - i - 1)).
  split; [apply get_symetric_elements_row; assumption|].
  split; [exact Hy|]. split; [exact Hx|]. split; [exact Hxy|].
  split; [|split].
  - rewrite get_symetric_elements_row by assumption. rewrite Hyd, Hym.
    repeat f_equal; lia.
  - rewrite get_symetric_elements_row by assumption. rewrite Hxd, Hxm.
    repeat f_equal; lia.
  - rewrite get_symetric_elements_row by assumption. rewrite Hxyd, Hxym.
    repeat f_equal; lia.
Qed.

End SymmetryFacts.

(** * The reattempts of the controller *)
Module ReattemptFacts.
Import Controller BodyFacts FloatFacts RoundingFacts.
Local Open Scope float_scope.

Lemma Prim2SF_two : Prim2SF 2 = S754_finite false 4503599627370496 (-51).
Proof. reflexivity. Qed.

(** Twice a number that is not negative is not negative. *)
Lemma twice_not_negative x : (x <? 0) = false -> (x * 2 <? 0) = false.
Proof.
  rewrite !FloatAxioms.ltb_spec, FloatAxioms.mul_spec, Prim2SF_two.
  unfold SF64mul. destruct (Prim2SF x) as [s|s| |s m e]; try reflexivity.
  - destruct s; [discriminate|reflexivity].
  - destruct s; [discriminate|]. intros _. unfold SFmul.
    pose proof (binary_round_aux_sign (xorb false false)
                  (Z.pos (m * 4503599627370496)) (e + -51) loc_Exact ltac:(lia)) as Hs.
    destruct (binary_round_aux _ _ _ _ _ _) as [s'|s'| |s' m' e']; try reflexivity;
      simpl in Hs; subst s'; reflexivity.
Qed.

(** X10.  The time step that the reattempts start from is never negative
    when [timeStep_limit] is not negative: it is the limit when the given
    step exceeds it, twice the limit when the given step is negative, and
    the given step otherwise.  The limit kept for the next call is 1.8
    times as large exactly when the given step exceeded it. *)
Theorem limit_time_step_not_negative (sim_prop : SimulationParameters.t) (TimeStep : float) :
  (SimulationParameters.timeStep_limit sim_prop <? 0) = false ->
  (fst (limit_time_step sim_prop TimeStep) <? 0) = false
  /\ fst (limit_time_step sim_prop TimeStep)
     = (if SimulationParameters.timeStep_limit sim_prop <? TimeStep
        then SimulationParameters.timeStep_limit sim_prop
        else if TimeStep <? 0 then SimulationParameters.timeStep_limit sim_prop * 2
        else TimeStep)
  /\ SimulationParameters.timeStep_limit (snd (limit_time_step sim_prop TimeStep))
     = (if SimulationParameters.timeStep_limit sim_prop <? TimeStep
        then SimulationParameters.timeStep_limit sim_prop * 1.8
        else SimulationParameters.timeStep_limit sim_prop).
Proof.
  intros Hlimit. unfold limit_time_step.
  destruct (SimulationParameters.timeStep_limit sim_prop <? TimeStep) eqn:Hgt.
  - rewrite Hlimit. simpl. rewrite Hlimit. auto.
  - destruct (TimeStep <? 0) eqn:Hneg; simpl; rewrite ?Hneg; auto.
    split; [|auto]. apply twice_not_negative. exact Hlimit.
Qed.

Section Facts.
Context `{NumLib}.
Variables aV aM aC : step_function.

Lemma limit_time_step_modes sim TimeStep :
  SimulationParameters.maxReattempts (snd (limit_time_step sim TimeStep))
  = SimulationParameters.maxReattempts sim
  /\ SimulationParameters.viscousInjection (snd (limit_time_step sim TimeStep))
     = SimulationParameters.viscousInjection sim
  /\ SimulationParameters.dryCrack_mechLoading (snd (limit_time_step sim TimeStep))
     = SimulationParameters.dryCrack_mechLoading sim
  /\ SimulationParameters.volumeControl (snd (limit_time_step sim TimeStep))
     = SimulationParameters.volumeControl sim.
Proof.
  unfold limit_time_step.
  destruct (SimulationParameters.timeStep_limit sim <? TimeStep);
    match goal with |- context [if ?b then _ else _] => destruct b end; auto.
Qed.

(** Without a solver mode the first reattempt ends in UnboundLocalError or
    in the exception of the power. *)
Lemma reattempts_without_mode n i sim Frac C TimeStep out r :
  SimulationParameters.viscousInjection sim = false ->
  SimulationParameters.dryCrack_mechLoading sim = false ->
  SimulationParameters.volumeControl sim = false ->
  ~ returns (reattempts aV aM aC n i sim Frac C TimeStep None out) r.
Proof.
  intros HV HM HC Hrun. destruct n as [|n]; simpl in Hrun.
  - apply returns_Exc in Hrun. exact Hrun.
  - destruct (smallerTimeStep sim TimeStep i) as [dt|e]; simpl in Hrun;
      [|apply returns_Exc in Hrun; exact Hrun].
    unfold dispatch in Hrun. rewrite HV, HM, HC in Hrun. simpl in Hrun.
    apply returns_Exc in Hrun. exact Hrun.
Qed.

(** X8.  [advance_time_step] returns only with at least one reattempt
    allowed and a solver mode selected: with [maxReattempts] at most 0 it
    raises UnboundLocalError, the status never having been assigned, and
    without a mode it raises at the first reattempt. *)
Theorem advance_time_step_needs_mode :
  (forall sim Frac C TimeStep,
      (SimulationParameters.maxReattempts sim <= 0)%Z ->
      advance_time_step aV aM aC sim Frac C TimeStep = Raise UnboundLocalError)
  /\ (forall sim Frac C TimeStep r,
         advance_time_step aV aM aC sim Frac C TimeStep = Ok r ->
         (0 < SimulationParameters.maxReattempts sim)%Z
         /\ (SimulationParameters.viscousInjection sim = true
             \/ SimulationParameters.dryCrack_mechLoading sim = true
             \/ SimulationParameters.volumeControl sim = true)).
Proof.
  split.
  - intros sim Frac C TimeStep Hmax. unfold advance_time_step.
    destruct (limit_time_step_modes sim TimeStep) as (Hm & _).
    destruct (limit_time_step sim TimeStep) as [TimeStep' sim']. simpl in Hm.
    rewrite Hm. replace (Z.to_nat (SimulationParameters.maxReattempts sim)) with 0%nat by lia.
    reflexivity.
  - intros sim Frac C TimeStep r Hrun. unfold advance_time_step in Hrun.
    destruct (limit_time_step_modes sim TimeStep) as (Hm & HV & HM & HC).
    destruct (limit_time_step sim TimeStep) as [TimeStep' sim']. simpl in *.
    apply body_Ok in Hrun. split.
    + destruct (Z.to_nat (SimulationParameters.maxReattempts sim')) eqn:En; [|lia].
      simpl in Hrun. apply returns_Exc in Hrun. contradiction.
    + destruct (SimulationParameters.viscousInjection sim) eqn:EV; [auto|].
      destruct (SimulationParameters.dryCrack_mechLoading sim) eqn:EM; [auto|].
      destruct (SimulationParameters.volumeControl sim) eqn:EC; [auto|].
      exfalso. eapply reattempts_without_mode; [| | |exact Hrun]; congruence.
Qed.

Lemma printed_statuses_app out1 out2 :
  printed_statuses (out1 ++ out2) = printed_statuses out1 ++ printed_statuses out2.
Proof. unfold printed_statuses. apply omap_app. Qed.

(** The statuses that the reattempt loop prints: one for each reattempt
    made, none of them 1 or 12 but possibly the last, which is the one
    returned. *)
Lemma reattempts_statuses n : forall i sim Frac C TimeStep before out r,
  body (reattempts aV aM aC n i sim Frac C TimeStep before out) = Ok r ->
  exists ss,
    printed_statuses (printed r) = printed_statuses out ++ ss
    /\ (length ss <= n)%nat
    /\ Forall (fun s => (-13 <= s <= 12)%Z) ss
    /\ (forall j s, ss !! j = Some s -> (S j < length ss)%nat -> s <> 1%Z /\ s <> 12%Z)
    /\ (list.last ss = Some (fst (returned r)) \/ (ss = [] /\ before = Some (returned r)))
    /\ (length ss = n \/ fst (returned r) = 1%Z \/ fst (returned r) = 12%Z).
Proof.
  induction n as [|n IH]; intros i sim Frac C TimeStep before out r Hr.
  - exists []. simpl in Hr. destruct before; inversion Hr; subst; simpl.
    rewrite app_nil_r. split; [reflexivity|]. split; [lia|]. split; [constructor|].
    split; [intros j s Hj; discriminate|]. split; [right; auto|left; reflexivity].
  - simpl in Hr. apply body_Ok in Hr.
    destruct (smallerTimeStep sim TimeStep i) as [dt|] eqn:Edt; simpl in Hr;
      [|destruct Hr; discriminate].
    destruct (dispatch aV aM aC sim Frac C dt before) as [[[status Fr] C']| |] eqn:Ed;
      simpl in Hr; try (destruct Hr; discriminate).
    + destruct ((status <? -13)%Z || (12 <? status)%Z) eqn:Erange; simpl in Hr;
        [destruct Hr; discriminate|].
      assert (Hrange : (-13 <= status <= 12)%Z).
      { apply orb_false_iff in Erange. destruct Erange as [E1 E2].
        apply Z.ltb_ge in E1. apply Z.ltb_ge in E2. lia. }
      destruct ((status =? 1)%Z || (status =? 12)%Z) eqn:Es; simpl in Hr.
      * destruct Hr as [Hr|Hr]; inversion Hr; subst; simpl.
        exists [status]. rewrite !printed_statuses_app. simpl. rewrite app_nil_r.
        split; [reflexivity|]. split; [lia|]. split; [repeat constructor; lia|].
        split; [intros j s _ Hj; simpl in Hj; lia|]. split; [left; reflexivity|].
        right. apply orb_true_iff in Es. destruct Es as [Es|Es]; apply Z.eqb_eq in Es; auto.
      * assert (Hb : body (reattempts aV aM aC n (i + 1) sim Frac C' TimeStep
                             (Some (status, Fr))
                             ((out ++ [print_attempting_time_step dt]
                                   ++ [print_status status]) ++ [print_time_step_failed]))
                     = Ok r).
        { rewrite <- !app_assoc in *. simpl in *.
          destruct Hr as [Hr|Hr]; rewrite Hr; reflexivity. }
        apply IH in Hb. destruct Hb as (ss & Hout & Hlen & Hall & Hinner & Hlast & Hstop).
        apply orb_false_iff in Es. destruct Es as [Es1 Es2].
        apply Z.eqb_neq in Es1. apply Z.eqb_neq in Es2.
        exists (status :: ss).
        split; [rewrite Hout, !printed_statuses_app; simpl; rewrite app_nil_r, <- !app_assoc;
                reflexivity|].
        split; [simpl; lia|]. split; [constructor; assumption|].
        split; [|split].
        -- intros [|j] s Hj Hlt; simpl in Hj, Hlt.
           ++ inversion Hj; subst. auto.
           ++ apply (Hinner j s Hj). lia.
        -- left. destruct Hlast as [Hlast|[-> Hbefore]].
           ++ destruct ss as [|s ss]; [discriminate|]. exact Hlast.
           ++ inversion Hbefore; subst. reflexivity.
        -- destruct Hstop as [Hstop|Hstop]; [left; simpl; lia|right; exact Hstop].
    + exfalso. unfold dispatch in Ed.
      repeat match type of Ed with
             | (if ?b then _ else _) = _ => destruct b
             | call _ = Ret _ => apply call_not_Ret in Ed; contradiction
             | match ?o with _ => _ end = _ => destruct o; try discriminate
             end.
Qed.

(** X9.  When [advance_time_step] returns, it has printed the status of
    every reattempt it made, at least one and at most [maxReattempts]; each
    lies between -13 and 12, none but the last is 1 or 12, the last is the
    status returned, and unless that is 1 or 12 all [maxReattempts]
    reattempts were made. *)
Theorem advance_time_step_stops_at_first_success sim Frac C TimeStep r :
  advance_time_step aV aM aC sim Frac C TimeStep = Ok r ->
  list.last (printed_statuses (printed r)) = Some (fst (returned r))
  /\ (1 <= Z.of_nat (length (printed_statuses (printed r)))
       <= SimulationParameters.maxReattempts sim)%Z
  /\ Forall (fun s => (-13 <= s <= 12)%Z) (printed_statuses (printed r))
  /\ (forall j s, printed_statuses (printed r) !! j = Some s ->
                  (S j < length (printed_statuses (printed r)))%nat ->
                  s <> 1%Z /\ s <> 12%Z)
  /\ (Z.of_nat (length (printed_statuses (printed r)))
      = SimulationParameters.maxReattempts sim
      \/ fst (returned r) = 1%Z \/ fst (returned r) = 12%Z).
Proof.
  unfold advance_time_step. intros Hr.
  destruct (limit_time_step_modes sim TimeStep) as (Hmax & _).
  destruct (limit_time_step sim TimeStep) as [TimeStep' sim'] eqn:El. simpl in *.
  apply reattempts_statuses in Hr.
  destruct Hr as (ss & Hout & Hlen & Hall & Hinner & Hlast & Hstop).
  simpl in Hout. rewrite Hout.
  destruct Hlast as [Hlast|[_ Hbefore]]; [|discriminate].
  split; [exact Hlast|].
  assert (Hpos : (1 <= length ss)%nat) by (destruct ss; [discriminate|simpl; lia]).
  split; [lia|].
  split; [exact Hall|]. split; [exact Hinner|].
  destruct Hstop as [Hstop|Hstop]; [left; lia|right; exact Hstop].
Qed.

End Facts.
End ReattemptFacts.

(** * The time-stepping loop of the controller *)
Module RunLoopFacts.
Import Controller ControllerRun BodyFacts NumPyFacts WalkFacts.
Local Open Scope float_scope.

Section Facts.
Context `{NumLib}.
Variables aV aM aC : step_function.
Variable np_max : vec -> res float.
Variable remesh : Fracture.t -> float -> matrix -> SimulationParameters.t -> res Fracture.t.
Variable load_elasticity_matrix : CartesianMesh.t -> res matrix.
Variable p : run_parameters.

Lemma choose_time_step_not_Ret {R} Fr st (r : R) :
  @choose_time_step np_max p R Fr st <> Ret r.
Proof. unfold choose_time_step. destruct (Fracture.v Fr); no_return. Qed.

Lemma after_time_step_not_Ret {R} Fr st idx next a (r : R) :
  @after_time_step remesh p R Fr st idx next a <> Ret r.
Proof.
  unfold after_time_step. destruct (returned a) as [status Fr']. no_return.
Qed.

(** A time step that ends leaves [i] one higher. *)
Lemma after_time_step_i {R} Fr st idx next a st' :
  @after_time_step remesh p R Fr st idx next a = Next st' -> i st' = (i st + 1)%Z.
Proof.
  unfold after_time_step. destruct (returned a) as [status Fr'].
  destruct (status =? 1)%Z; [intros E; inversion E; reflexivity|].
  destruct (status =? 12)%Z.
  - intros E. apply bind_Next_inv in E. destruct E as (Fr2 & _ & E).
    inversion E. reflexivity.
  - intros E. apply bind_Next_inv in E. destruct E as (cp & _ & E).
    destruct cp as [cp|]; [|discriminate].
    apply bind_Next_inv in E. destruct E as (u & _ & E). inversion E. reflexivity.
Qed.

(** A time step assigns into the place [i % 5] of [fr_queue] at most. *)
Lemma after_time_step_queue {R} Fr st idx next a st' :
  @after_time_step remesh p R Fr st idx next a = Next st' ->
  length (fr_queue st') = length (fr_queue st)
  /\ forall j : nat, j <> Z.to_nat (i st mod 5) -> fr_queue st' !! j = fr_queue st !! j.
Proof.
  unfold after_time_step. destruct (returned a) as [status Fr'].
  destruct (status =? 1)%Z.
  - intros E. inversion E; subst; simpl. split; [apply length_insert|].
    intros j Hj. apply list_lookup_insert_ne. congruence.
  - destruct (status =? 12)%Z.
    + intros E. apply bind_Next_inv in E. destruct E as (Fr2 & _ & E).
      inversion E; subst; simpl. auto.
    + intros E. apply bind_Next_inv in E. destruct E as (cp & _ & E).
      destruct cp as [cp|]; [|discriminate].
      apply bind_Next_inv in E. destruct E as (u & _ & E). inversion E; subst; simpl. auto.
Qed.

(** X11.  [run] starts with no check point stored, and a time step that
    ends stores none in the places of [fr_queue] after the new [i].  While
    that is so and [i] is at most 3, that is in the first four time steps,
    a time step for which [advance_time_step] returns a status other than
    1 and 12 raises SystemExit, "Simulation failed.": there is no check
    point to restart from. *)
Theorem failure_in_first_steps_ends_run :
  (forall fracture C sim_prop next,
      no_check_point_after (initial_state fracture C sim_prop next))
  /\ (forall R Fr st st',
         (0 <= i st)%Z -> no_check_point_after st ->
         @time_step _ aV aM aC np_max remesh p R Fr st = Next st' ->
         i st' = (i st + 1)%Z /\ no_check_point_after st')
  /\ (forall R Fr st TimeStep idx next a,
         (0 <= i st <= 3)%Z -> no_check_point_after st ->
         @choose_time_step np_max p R Fr st = Next (TimeStep, idx, next) ->
         advance_time_step aV aM aC (sim_prop st) Fr (C st) TimeStep = Ok a ->
         fst (returned a) <> 1%Z -> fst (returned a) <> 12%Z ->
         @time_step _ aV aM aC np_max remesh p R Fr st
         = Exc (SystemExit "Simulation failed.")).
Proof.
  split; [|split].
  - intros fracture C0 sim next. split; [reflexivity|].
    intros j _ Hj. simpl. do 5 (destruct j as [|j]; [reflexivity|]). lia.
  - intros R Fr0 st st' Hi [Hlen Hnone] E. unfold time_step in E.
    apply bind_Next_inv in E. destruct E as ([[TimeStep idx] next] & _ & E).
    apply bind_Next_inv in E. destruct E as (a & _ & E).
    pose proof (after_time_step_i _ _ _ _ _ _ E) as Hi'.
    destruct (after_time_step_queue _ _ _ _ _ _ E) as [Hlen' Hother].
    split; [exact Hi'|]. split; [congruence|].
    intros j Hlt Hj. rewrite Hother; [apply Hnone; lia|].
    intros ->. rewrite Hi' in Hlt.
    assert (Hmod : (0 <= i st mod 5 <= i st)%Z).
    { split; [apply Z.mod_pos_bound; lia|apply Z.mod_le; lia]. }
    lia.
  - intros R Fr0 st TimeStep idx next a Hi [Hlen Hnone] Echoose Eadvance H1 H12.
    unfold time_step. rewrite Echoose. simpl. rewrite Eadvance. simpl.
    unfold after_time_step. destruct (returned a) as [status Fr']. simpl in H1, H12.
    apply Z.eqb_neq in H1. apply Z.eqb_neq in H12. rewrite H1, H12.
    assert (Hmod : ((i st + 1) mod 5 = i st + 1)%Z) by (apply Z.mod_small; lia).
    unfold getitem. rewrite Hmod, (Hnone (Z.to_nat (i st + 1))) by lia. reflexivity.
Qed.

(** The loop left by its condition. *)
Lemma time_stepping_loop_ends {R} : forall fuel st final,
  (0 <= i st)%Z ->
  @time_stepping_loop _ aV aM aC np_max remesh p R fuel st = Next final ->
  (i st <= i final)%Z
  /\ (i final <= Z.max (i st) (maxTimeSteps p))%Z
  /\ exists Fr_final,
       Fr final = Some Fr_final
       /\ ((Fracture.time Fr_final <? FinalTime p) = false
           \/ (maxTimeSteps p <= i final)%Z).
Proof.
  induction fuel as [|fuel IH]; intros st final Hi E; simpl in E;
    destruct (Fr st) as [Fr0|] eqn:EFr; try discriminate;
    destruct ((Fracture.time Fr0 <? FinalTime p) && (i st <? maxTimeSteps p)%Z) eqn:Hcond;
    try discriminate.
  1, 3: inversion E; subst; split; [lia|]; split; [lia|]; exists Fr0; split; [exact EFr|];
    apply andb_false_iff in Hcond; destruct Hcond as [Hc|Hc];
    [left; exact Hc|right; apply Z.ltb_ge in Hc; exact Hc].
  apply andb_true_iff in Hcond. destruct Hcond as [_ Hlt]. apply Z.ltb_lt in Hlt.
  apply bind_Next_inv in E. destruct E as (st1 & Estep & E).
  assert (Hi1 : i st1 = (i st + 1)%Z).
  { unfold time_step in Estep.
    apply bind_Next_inv in Estep. destruct Estep as ([[TimeStep idx] next] & _ & Estep).
    apply bind_Next_inv in Estep. destruct Estep as (a & _ & Estep).
    eapply after_time_step_i. exact Estep. }
  apply IH in E; [|lia]. destruct E as (Hle & Hmax & Hend).
  split; [lia|]. split; [lia|exact Hend].
Qed.

Lemma time_stepping_loop_not_Ret {R} : forall fuel st (r : R),
  @time_stepping_loop _ aV aM aC np_max remesh p R fuel st <> Ret r.
Proof.
  induction fuel as [|fuel IH]; intros st r; simpl; destruct (Fr st) as [Fr0|];
    try discriminate; destruct (_ && _); try discriminate.
  apply bind_not_Ret; [|intros st'; apply IH].
  unfold time_step. apply bind_not_Ret; [apply choose_time_step_not_Ret|].
  intros [[TimeStep idx] next]. apply bind_not_Ret; [auto with no_ret|].
  intros a. apply after_time_step_not_Ret.
Qed.

(** X12.  When [run] returns, having reported that the simulation has
    finished, it has made at most [maxTimeSteps] time steps, and either the
    time of the fracture is not below [FinalTime] or all [maxTimeSteps]
    time steps have been made: the report does not tell the two apart. *)
Theorem run_ends fracture sim C final :
  run aV aM aC np_max remesh load_elasticity_matrix p fracture sim C = Ok final ->
  (0 <= i final <= Z.max 0 (maxTimeSteps p))%Z
  /\ exists Fr_final,
       Fr final = Some Fr_final
       /\ ((Fracture.time Fr_final <? FinalTime p) = false
           \/ (maxTimeSteps p <= i final)%Z).
Proof.
  unfold run. intros Hrun%body_Ok.
  apply returns_bind in Hrun. destruct Hrun as [Hrun|(C0 & _ & Hrun)].
  { destruct C; [discriminate|]. exfalso. revert Hrun. apply call_not_Ret. }
  step Hrun as next Enext. step Hrun as Elate.
  destruct Hrun as [Hrun|Hrun]; [|exfalso; revert Hrun; apply time_stepping_loop_not_Ret].
  apply time_stepping_loop_ends in Hrun; [|simpl; lia].
  simpl in Hrun. destruct Hrun as (Hle & Hmax & Hend). split; [lia|exact Hend].
Qed.

End Facts.
End RunLoopFacts.

(** * What the solver reports *)
Module ReportFacts.
Import ElastoHydrodynamicSolver Shared FloatFacts BodyFacts NumPyFacts WalkFacts.
Local Open Scope float_scope.

Section Solver.
Context `{NumLib}.
Context {I : Type}.
Variable Res_fun : vec -> I -> res (vec * I * indices).
Variable sys_fun : vec -> I -> res (matrix * vec * I * indices).
Variable Jacobian : vec -> vec -> I -> res matrix.
Variables (TypValue : vec) (Tol : float) (maxitr : Z) (relax : float) (PicardPerNewton : Z).

Lemma picard_step_Ret solk (interItr : I) (newton : Z) (Jac : option matrix)
    (r : @PN_result I) :
  match picard_step sys_fun relax solk interItr
        return ctl PN_result (vec * I * indices * Z * option matrix) with
  | Ok (solk', interItr', ind) =>
      Next (solk', interItr', ind, newton, Jac)
  | Raise LinAlgError => Ret (singular_matrix, (full_nan (length solk), None))
  | Raise e => Exc e
  end = Ret r ->
  r = (singular_matrix, (full_nan (length solk), @None I)).
Proof.
  destruct (picard_step _ _ _ _) as [[[? ?] ?]|[]]; intros E; try discriminate E.
  inversion E. reflexivity.
Qed.

Lemma picard_step_Next solk (interItr : I) (newton : Z) (Jac : option matrix) a :
  match picard_step sys_fun relax solk interItr
        return ctl (@PN_result I) (vec * I * indices * Z * option matrix) with
  | Ok (solk', interItr', ind) =>
      Next (solk', interItr', ind, newton, Jac)
  | Raise LinAlgError => Ret (singular_matrix, (full_nan (length solk), None))
  | Raise e => Exc e
  end = Next a ->
  exists solk' interItr' ind,
    picard_step sys_fun relax solk interItr = Ok (solk', interItr', ind)
    /\ a = (solk', interItr', ind, newton, Jac).
Proof.
  destruct (picard_step _ _ _ _) as [[[s i] ind]|[]]; intros E; try discriminate E.
  inversion E. eauto.
Qed.

(** The loop left by its condition: either at once, or after a pass whose
    result passed the check of convergence below the cap. *)
Lemma PN_loop_converged guess interItr_init k' sol data :
  forall fuel solk k interItr newton Jac converged,
    PN_iterate Res_fun sys_fun Jacobian TypValue relax PicardPerNewton guess interItr_init
               k solk interItr ->
    returns (PN_loop Res_fun sys_fun Jacobian TypValue Tol maxitr relax PicardPerNewton
                     fuel solk k interItr newton Jac converged)
            (converged_after k', (sol, data)) ->
    (k' = k /\ sol = solk /\ data = Some interItr
     /\ (converged = true \/ (maxitr <= k)%Z))
    \/ ((k < k' < maxitr)%Z
        /\ exists solkm1 interItr0 interItr' ind norm,
             PN_iterate Res_fun sys_fun Jacobian TypValue relax PicardPerNewton guess
                        interItr_init (k' - 1) solkm1 interItr0
             /\ PN_pass Res_fun sys_fun Jacobian TypValue relax PicardPerNewton
                        (k' - 1) solkm1 interItr0 sol interItr' ind
             /\ data = Some interItr'
             /\ check_covergance sol solkm1 ind Tol = Ok (true, norm)).
Proof.
  induction fuel as [|fuel IH]; intros solk k interItr newton Jac converged Hit Hrun;
    simpl in Hrun; destruct (negb converged && (k <? maxitr)%Z) eqn:Hcond.
  1: apply returns_Exc in Hrun; contradiction.
  1, 3: apply returns_Next in Hrun; inversion Hrun; subst; left;
    split; [reflexivity|]; split; [reflexivity|]; split; [reflexivity|];
    apply andb_false_iff in Hcond;
    destruct Hcond as [Hc|Hc]; [left; destruct converged; [reflexivity|discriminate]
                               |right; apply Z.ltb_ge in Hc; exact Hc].
  apply andb_true_iff in Hcond. destruct Hcond as [_ Hlt]. apply Z.ltb_lt in Hlt.
  walk Hrun.
  all: try discriminate Hrun.
  all: try (match goal with E : _ = Ret _ |- _ =>
              apply picard_step_Ret in E; discriminate E end).
  all: match goal with Hk : ((_ =? _)%Z = false) |- _ =>
         match type of Hk with ((_ + 1 =? _)%Z = false) => apply Z.eqb_neq in Hk end end.
  all: match goal with
       | E : Next _ = Next _ |- _ => inversion E; subst; clear E
       | E : _ = Next _ |- _ =>
           apply picard_step_Next in E; destruct E as (s' & i' & ind' & Estep & Ea);
           inversion Ea; subst; clear Ea
       end.
  all: match type of Hrun with
       | returns (PN_loop _ _ _ _ _ _ _ _ _ ?s _ ?it' _ _ _) _ =>
           match goal with
           | Ec : check_covergance s _ ?ind _ = Ok _ |- _ =>
               assert (Hpass : PN_pass Res_fun sys_fun Jacobian TypValue relax
                                       PicardPerNewton k solk interItr s it' ind)
                 by (unfold PN_pass;
                     match goal with E : (_ mod _ =? 0)%Z = _ |- _ => rewrite E end; eauto)
           end
       end.
  all: apply IH in Hrun; [|eapply iterate_pass; eassumption]; right;
    destruct Hrun as [(-> & -> & -> & [->|Hge])|(Hk' & Hrest)];
    [ | lia | split; [lia|exact Hrest] ].
  all: split; [lia|]; replace (k + 1 - 1)%Z with k by lia;
    do 5 eexists;
    split; [exact Hit|]; split; [exact Hpass|]; split; [reflexivity|eassumption].
Qed.

(** X13.  When [Picard_Newton] reports convergence after [k], either
    [maxitr] is at most 1 and the guess and the initial data come back
    without a single solve, or [k] is below [maxitr] and the solution
    returned is the result of the pass numbered [k - 1] (a Newton step when
    [k - 1] is a multiple of [PicardPerNewton], a Picard step otherwise)
    from the iterate that the passes before have given; it is returned
    with the data of that pass, and [check_covergance] has declared it
    converged against that iterate.  A solution that converges in the pass
    that reaches [maxitr] is never returned. *)
Theorem Picard_Newton_converged_below_cap guess interItr_init k sol data :
  Picard_Newton_printing Res_fun sys_fun Jacobian TypValue Tol maxitr relax PicardPerNewton
                         guess interItr_init = Ok (converged_after k, (sol, data)) ->
  ((maxitr <= 1)%Z /\ k = 1%Z /\ sol = guess /\ data = Some interItr_init)
  \/ ((1 < k < maxitr)%Z
      /\ exists solkm1 interItr interItr' ind norm,
           PN_iterate Res_fun sys_fun Jacobian TypValue relax PicardPerNewton guess
                      interItr_init (k - 1) solkm1 interItr
           /\ PN_pass Res_fun sys_fun Jacobian TypValue relax PicardPerNewton
                      (k - 1) solkm1 interItr sol interItr' ind
           /\ data = Some interItr'
           /\ check_covergance sol solkm1 ind Tol = Ok (true, norm)).
Proof.
  unfold Picard_Newton_printing. intros Hrun%body_Ok.
  apply (PN_loop_converged guess interItr_init) in Hrun; [|constructor].
  destruct Hrun as [(-> & -> & -> & [Hc|Hge])|(Hk & Hrest)].
  - discriminate Hc.
  - left. auto.
  - right. split; [lia|exact Hrest].
Qed.

(** The loop left by a [return]: the solution is NaN everywhere. *)
Lemma PN_loop_failed p sol data :
  forall fuel solk k interItr newton Jac converged,
    returns (PN_loop Res_fun sys_fun Jacobian TypValue Tol maxitr relax PicardPerNewton
                     fuel solk k interItr newton Jac converged)
            (p, (sol, data)) ->
    match p with
    | converged_after _ => data <> None
    | singular_matrix => data = None /\ exists n, sol = full_nan n
    | not_converged_after m => m = maxitr /\ data = None /\ exists n, sol = full_nan n
    end.
Proof.
  induction fuel as [|fuel IH]; intros solk k interItr newton Jac converged Hrun;
    simpl in Hrun; destruct (negb converged && _);
    try (apply returns_Next in Hrun; inversion Hrun; subst; discriminate);
    try (apply returns_Exc in Hrun; contradiction).
  walk Hrun;
    lazymatch goal with
    | Hr : returns (PN_loop _ _ _ _ _ _ _ _ _ _ _ _ _ _ _) _ |- _ => eapply IH; exact Hr
    | Hr : (_, _) = (_, _) |- _ => inversion Hr; subst; eauto
    | E : _ = Ret _ |- _ => apply picard_step_Ret in E; inversion E; subst; eauto
    end.
Qed.

(** X14.  [Picard_Newton] returns no data exactly when it did not
    converge, that is when a Picard step met a singular system or the
    iteration reached [maxitr], and its solution is then NaN in every
    entry. *)
Theorem Picard_Newton_no_data_is_nan guess interItr_init p sol data :
  Picard_Newton_printing Res_fun sys_fun Jacobian TypValue Tol maxitr relax PicardPerNewton
                         guess interItr_init = Ok (p, (sol, data)) ->
  (data = None <-> p = singular_matrix \/ p = not_converged_after maxitr)
  /\ (data = None -> Forall (fun x => is_nan x = true) sol).
Proof.
  unfold Picard_Newton_printing. intros Hrun%body_Ok. apply PN_loop_failed in Hrun.
  destruct p as [|m|k].
  - destruct Hrun as (-> & n & ->). split; [split; auto|].
    intros _. apply PicardFacts.Forall_nan_replicate.
  - destruct Hrun as (-> & -> & n & ->). split; [split; auto|].
    intros _. apply PicardFacts.Forall_nan_replicate.
  - split; [|contradiction]. split; [contradiction|]. intros [Hp|Hp]; discriminate Hp.
Qed.

End Solver.

Section Picard.
Context `{NumLib}.
Context {I : Type}.
Variables Res_fun Res_fun' : vec -> I -> res (vec * I * indices).
Variable sys_fun : vec -> I -> res (matrix * vec * I * indices).
Variables Jacobian Jacobian' : vec -> vec -> I -> res matrix.
Variables (TypValue TypValue' : vec) (Tol : float) (maxitr : Z) (relax : float)
          (PicardPerNewton : Z).

(** Below [PicardPerNewton] iterations every step is a Picard step. *)
Lemma PN_loop_Picard_only :
  (maxitr <= PicardPerNewton)%Z ->
  forall fuel solk k interItr newton Jac converged,
    (1 <= k)%Z ->
    PN_loop Res_fun sys_fun Jacobian TypValue Tol maxitr relax PicardPerNewton
            fuel solk k interItr newton Jac converged
    = PN_loop Res_fun' sys_fun Jacobian' TypValue' Tol maxitr relax PicardPerNewton
              fuel solk k interItr newton Jac converged.
Proof.
  intros Hmax. induction fuel as [|fuel IH]; intros solk k interItr newton Jac converged Hk;
    simpl; [reflexivity|].
  destruct (negb converged && (k <? maxitr)%Z) eqn:Hcond; [|reflexivity].
  apply andb_true_iff in Hcond. destruct Hcond as [_ Hlt]. apply Z.ltb_lt in Hlt.
  assert (Hmod : (k mod PicardPerNewton =? 0)%Z = false).
  { apply Z.eqb_neq. rewrite Z.mod_small by lia. lia. }
  rewrite Hmod. FuelFacts.same_body. apply IH. lia.
Qed.

(** X15.  With [maxitr] at most [PicardPerNewton], as in the
    time-stepping functions for up to 1000 solver iterations,
    [Picard_Newton] makes Picard steps only: what it returns and prints
    does not depend on the residual function, on the Jacobian or on the
    typical values. *)
Theorem Picard_Newton_Picard_steps_only guess interItr_init :
  (maxitr <= PicardPerNewton)%Z ->
  Picard_Newton_printing Res_fun sys_fun Jacobian TypValue Tol maxitr relax PicardPerNewton
                         guess interItr_init
  = Picard_Newton_printing Res_fun' sys_fun Jacobian' TypValue' Tol maxitr relax
                           PicardPerNewton guess interItr_init.
Proof.
  intros Hmax. unfold Picard_Newton_printing. f_equal.
  apply PN_loop_Picard_only; [exact Hmax|lia].
Qed.

End Picard.
End ReportFacts.

(** * The system of the volume-control solve *)
Module SystemFacts.
Import ElastoHydrodynamicSolver NumPyFacts BodyFacts MatrixFacts.
Local Open Scope float_scope.

Section Facts.
Context `{NumLib}.

(** X16.  The system that [MakeEquationSystem_volumeControl] assembles is
    square, with one row and one column more than there are channel cells.
    Row [i] holds the entries of the elasticity matrix for the channel cell
    [EltChannel[i]] against the channel cells, in the order of
    [EltChannel], followed by the coefficient -1 of the pressure. *)
Theorem elasticity_rows w_lst_tmstp wTip EltChannel EltTip sigma_o C dt Q ElemArea lkOff A S :
  MakeEquationSystem_volumeControl w_lst_tmstp wTip EltChannel EltTip sigma_o C dt Q
                                   ElemArea lkOff = Ok (A, S) ->
  length A = (length EltChannel + 1)%nat
  /\ Forall (fun row => length row = (length EltChannel + 1)%nat) A
  /\ forall i e, EltChannel !! i = Some e ->
       exists Crow row,
         C !! e = Some Crow
         /\ A !! i = Some (row ++ [-1])
         /\ Forall2 (fun j x => Crow !! j = Some x) EltChannel row.
Proof.
  unfold MakeEquationSystem_volumeControl. intros HAS. apply body_Ok in HAS.
  step HAS as Ccc ECcc. step HAS as Cct ECct. step HAS as A' EA.
  step HAS as s0 Es0. step HAS as wch Ewch. step HAS as d1 Ed1. step HAS as d2 Ed2.
  step HAS as t Et. step HAS as S' ES. step HAS as wtip_old Ewtip.
  step HAS. inversion HAS; subst. clear HAS.
  pose proof (ix_get_length _ _ _ _ ECcc) as Hlen.
  pose proof (ix_get_lookup _ _ _ _ ECcc) as Hrows.
  rewrite setitem2_last_row in EA by (rewrite length_replicate; lia).
  inversion EA; subst. clear EA.
  assert (Hwidth : Forall (fun row : vec => length row = length EltChannel) Ccc).
  { apply list.Forall_forall. intros row Hrow.
    apply list_elem_of_lookup_1 in Hrow. destruct Hrow as [i Hi].
    destruct (Forall2_lookup_r _ _ _ _ _ Hrows Hi) as (e & _ & Crow & _ & Hcols).
    symmetry. eapply Forall2_length. exact Hcols. }
  split; [rewrite length_app, length_map; simpl; lia|]. split.
  - apply Forall_app. split.
    + apply Forall_fmap. eapply list.Forall_impl; [exact Hwidth|].
      intros row Hrow. unfold compose. rewrite length_app. simpl. rewrite Hrow. reflexivity.
    + constructor; [|constructor]. rewrite length_insert, length_replicate. reflexivity.
  - intros i e Hi.
    destruct (Forall2_lookup_l _ _ _ _ _ Hrows Hi) as (row & Hrow & Crow & HC & Hcols).
    exists Crow, row. split; [exact HC|]. split; [|exact Hcols].
    rewrite lookup_app_l by (rewrite length_map; eapply lookup_lt_Some; exact Hrow).
    rewrite list_lookup_fmap, Hrow. reflexivity.
Qed.

End Facts.
End SystemFacts.

(** * What a step attempt returns *)
Module AttemptFacts.
Import ElastoHydrodynamicSolver Shared BodyFacts NumPyFacts MatrixFacts WalkFacts
  VolumeControlFacts ToughnessFacts StatusFacts.
Local Open Scope float_scope.

Section Step.
Context `{NumLib} `{PyFracModules}.

(** The pairs that the steps return: the status 1 with a fracture, or
    another status of the list without one. *)
Lemma pair_with {A} (l : list Z) (x : A) : 1%Z ∈ l -> (1%Z = 1%Z <-> Some x <> None) /\ 1%Z ∈ l.
Proof. intros Hl. split; [split; [discriminate|reflexivity]|exact Hl]. Qed.

Lemma pair_without {A} (l : list Z) s :
  s <> 1%Z -> s ∈ l -> (s = 1%Z <-> @None A <> None) /\ s ∈ l.
Proof. intros Hs Hl. split; [split; [contradiction|congruence]|exact Hl]. Qed.

(** A status of a list is a status of a list that holds the first. *)
Lemma status_weaken (l1 l2 : list Z) s :
  forallb (fun x => bool_decide (x ∈ l2)) l1 = true -> s ∈ l1 -> s ∈ l2.
Proof.
  intros Hall Hs. rewrite forallb_forall in Hall. apply list_elem_of_In in Hs.
  apply Hall in Hs. apply bool_decide_eq_true in Hs. exact Hs.
Qed.

Lemma injection_same_footprint_volumeControl_pair Fr C dt Q s o C' :
  TimeSteppingVolumeControl.injection_same_footprint_volumeControl Fr C dt Q
  = Ok ((s, o), C') ->
  (s = 1%Z <-> o <> None) /\ s ∈ [5; 1]%Z.
Proof.
  intros Hrun%body_Ok.
  unfold TimeSteppingVolumeControl.injection_same_footprint_volumeControl in Hrun.
  walk Hrun; inversion Hrun; subst;
    first [apply pair_with; in_list | apply pair_without; [discriminate|in_list]].
Qed.

Lemma extend_footprint_volumeControl_pair sd w_k Fr C dt Q mat sim s o C' :
  returns (TimeSteppingVolumeControl.extend_footprint_volumeControl sd w_k Fr C dt Q mat sim)
          ((s, o), C') ->
  (s = 1%Z <-> o <> None) /\ s ∈ [3; 12; 9; 8; 4; 5; 1]%Z.
Proof.
  intros Hrun. unfold TimeSteppingVolumeControl.extend_footprint_volumeControl in Hrun.
  walk Hrun; unfold TimeSteppingVolumeControl.failed in *; inversion Hrun; subst;
    first [apply pair_with; in_list | apply pair_without; [discriminate|in_list]].
Qed.

Lemma injection_extended_footprint_volumeControl_pair w_k Fr C dt Q mat sim s o C' :
  TimeSteppingVolumeControl.injection_extended_footprint_volumeControl w_k Fr C dt Q mat sim
  = Ok ((s, o), C') ->
  (s = 1%Z <-> o <> None) /\ s ∈ [11; 7; 2; 3; 12; 9; 8; 4; 5; 1]%Z.
Proof.
  intros Hrun. apply injection_extended_footprint_volumeControl_stages in Hrun.
  destruct Hrun as [(s' & Hr & Hs')|(K & Km1 & itr & sd & _ & _ & Hext)].
  - unfold TimeSteppingVolumeControl.failed in Hr. inversion Hr; subst.
    destruct Hs' as [Hs'|[Hs'|Hs']]; subst s'; apply pair_without; try discriminate; in_list.
  - apply extend_footprint_volumeControl_pair in Hext. destruct Hext as [Hpair Hs].
    split; [exact Hpair|]. do 3 (apply elem_of_cons; right). exact Hs.
Qed.

(** The toughness loop of the explicit step returns from the function with
    one of the statuses 11 and 7. *)
Lemma toughness_loop_explicit_Ret {R} (failed : Z -> R) w Fr dt mat sim r :
  forall fuel itr sd K Km1,
    TimeSteppingVolumeControl.toughness_loop_explicit fuel failed w Fr dt mat sim itr sd K Km1
    = Ret r ->
    r = failed 11%Z \/ r = failed 7%Z.
Proof.
  induction fuel as [|fuel IH]; intros itr sd K Km1 Hr; simpl in Hr;
    destruct (itr <? _)%Z; try discriminate.
  apply Ret_returns in Hr. walk Hr; try congruence;
    repeat match goal with
    | E : TimeSteppingVolumeControl.relax_toughness _ _ _ _ _ = Ret _ |- _ =>
        apply relax_toughness_Ret in E
    | E : TimeSteppingVolumeControl.invert_tip_asymptote _ _ _ _ _ _ _ = Ret _ |- _ =>
        apply invert_tip_asymptote_Ret in E
    | E : TimeSteppingVolumeControl.toughness_loop_explicit _ _ _ _ _ _ _ _ _ _ _ = Ret _
      |- _ => apply IH in E
    end; auto.
Qed.

Lemma time_step_explicit_front_volumeControl_pair Fr C dt Q mat sim s o :
  TimeSteppingVolumeControl.time_step_explicit_front_volumeControl Fr C dt Q mat sim
  = Ok (s, o) ->
  (s = 1%Z <-> o <> None) /\ s ∈ [11; 7; 3; 12; 9; 8; 4; 5; 1]%Z.
Proof.
  intros Hrun%body_Ok.
  unfold TimeSteppingVolumeControl.time_step_explicit_front_volumeControl in Hrun.
  walk Hrun;
    try match goal with
        | E : TimeSteppingVolumeControl.toughness_loop_explicit _ _ _ _ _ _ _ _ _ _ _ = Ret _
          |- _ => apply toughness_loop_explicit_Ret in E; destruct E as [E|E]
        end;
    try (inversion Hrun; subst);
    try match goal with E : (_, _) = (_, _) |- _ => inversion E; subst end;
    first [apply pair_with; in_list | apply pair_without; [discriminate|in_list]].
Qed.

(** The front loop entered with the status 1. *)
Lemma front_loop_volumeControl_pair Frac dt Qin mat sim s o C' :
  forall fuel norm k Fr_k w_k C,
    returns (TimeSteppingVolumeControl.front_loop fuel Frac dt Qin mat sim norm k Fr_k w_k
                                                  1%Z C) ((s, o), C') ->
    (s = 1%Z <-> o <> None) /\ s ∈ [6; 11; 7; 2; 3; 12; 9; 8; 4; 5; 1]%Z.
Proof.
  induction fuel as [|fuel IH]; intros norm k Fr_k w_k C Hrun; simpl in Hrun;
    destruct (_ <? norm);
    try (apply returns_Next in Hrun; inversion Hrun; subst; apply pair_with; in_list);
    try (apply returns_Exc in Hrun; contradiction).
  walk Hrun.
  all: match goal with
       | E : TimeSteppingVolumeControl.injection_extended_footprint_volumeControl
               _ _ _ _ _ _ _ = Ok _ |- _ =>
           apply injection_extended_footprint_volumeControl_pair in E;
           destruct E as [Hpair Hs]
       end.
  all: try match goal with E : negb (_ =? 1)%Z = true |- _ =>
             apply negb_true_iff, Z.eqb_neq in E end.
  all: try match goal with E : negb (_ =? 1)%Z = false |- _ =>
             apply negb_false_iff, Z.eqb_eq in E; subst end.
  all: try (inversion Hrun; subst; apply pair_without;
            [first [assumption|discriminate]
            |first [in_list | apply elem_of_cons; right; assumption]]).
  all: try (eapply IH; exact Hrun).
Qed.

(** X17.  A volume-control step, called without a performance node,
    returns a fracture exactly when it returns the status 1; the statuses
    it returns are 1 to 9, 11 and 12, never 10, so each is an index of the
    messages of the controller. *)
Theorem attempt_time_step_volumeControl_pair fuel Frac C mat sim inj dt s o C' :
  TimeSteppingVolumeControl.attempt_time_step_volumeControl fuel Frac C mat sim inj dt
  = Ok ((s, o), C') ->
  (s = 1%Z <-> o <> None) /\ s ∈ [6; 11; 7; 2; 3; 12; 9; 8; 4; 5; 1]%Z.
Proof.
  intros Hrun%body_Ok.
  unfold TimeSteppingVolumeControl.attempt_time_step_volumeControl in Hrun.
  walk Hrun.
  all: try match goal with
           | E : Ret _ = Next _ |- _ => discriminate E
           | E : Next _ = Ret _ |- _ => discriminate E
           | E : Exc _ = _ |- _ => discriminate E
           end.
  all: repeat match goal with
       | E : Ret _ = Ret _ |- _ => inversion E; subst; clear E
       | E : Next _ = Next _ |- _ => inversion E; subst; clear E
       | E : (_, _, _) = (_, _, _) |- _ => inversion E; subst; clear E
       | E : TimeSteppingVolumeControl.time_step_explicit_front_volumeControl
               _ _ _ _ _ _ = Ok _ |- _ =>
           apply time_step_explicit_front_volumeControl_pair in E; destruct E as [? ?]
       | E : TimeSteppingVolumeControl.injection_same_footprint_volumeControl _ _ _ _
             = Ok _ |- _ =>
           apply injection_same_footprint_volumeControl_pair in E; destruct E as [? ?]
       | E : body _ = Ok _ |- _ => apply body_Ok in E
       | E : negb (_ =? 1)%Z = true |- _ => apply negb_true_iff, Z.eqb_neq in E
       | E : negb (_ =? 1)%Z = false |- _ => apply negb_false_iff, Z.eqb_eq in E; subst
       end.
  all: try match goal with
           | E : returns (TimeSteppingVolumeControl.front_loop _ _ _ _ _ _ _ _ _ _ _ _) _
             |- _ => eapply front_loop_volumeControl_pair; exact E
           end.
  all: try (split; [assumption|]).
  all: try (apply pair_without; [assumption|]).
  all: match goal with Hs : ?s ∈ _ |- ?s ∈ _ =>
         refine (status_weaken _ _ _ _ Hs); reflexivity end.
Qed.

Lemma injection_same_footprint_pair Fr C dt Qin mat fl sim s o C' out :
  TimeSteppingViscousFluid.injection_same_footprint Fr C dt Qin mat fl sim
  = Ok ((s, o), C', out) ->
  (s = 1%Z <-> o <> None) /\ s ∈ [5; 1]%Z.
Proof.
  intros Hrun%body_Ok.
  unfold TimeSteppingViscousFluid.injection_same_footprint in Hrun.
  pose proof (@WidthFacts.check_width_not_Ret _) as Hcw.
  walk Hrun.
  match goal with E : TimeSteppingViscousFluid.check_width _ = Next _ |- _ =>
    rewrite WidthFacts.check_width_spec in E;
    match type of E with context [if ?b then _ else _] => destruct b end;
    inversion E; subst; clear E end;
    inversion Hrun; subst;
    first [apply pair_with; in_list | apply pair_without; [discriminate|in_list]].
Qed.

Lemma extend_footprint_pair sd w_k Fr C dt Qin mat fl sim s o out :
  returns (TimeSteppingViscousFluid.extend_footprint sd w_k Fr C dt Qin mat fl sim)
          ((s, o), out) ->
  (s = 1%Z <-> o <> None) /\ s ∈ [3; 9; 8; 4; 5; 1]%Z.
Proof.
  intros Hrun. unfold TimeSteppingViscousFluid.extend_footprint in Hrun.
  walk Hrun; unfold TimeSteppingViscousFluid.failed in *; inversion Hrun; subst;
    first [apply pair_with; in_list | apply pair_without; [discriminate|in_list]].
Qed.

Lemma injection_extended_footprint_pair w_k Fr C dt Qin mat fl sim s o out :
  TimeSteppingViscousFluid.injection_extended_footprint w_k Fr C dt Qin mat fl sim
  = Ok ((s, o), out) ->
  (s = 1%Z <-> o <> None) /\ s ∈ [7; 10; 3; 9; 8; 4; 5; 1]%Z.
Proof.
  intros Hrun. apply injection_extended_footprint_stages in Hrun.
  unfold TimeSteppingViscousFluid.failed in Hrun.
  destruct Hrun as [Hr|(itr & sd & _ & [[_ Hr]|[_ Hext]])].
  - inversion Hr; subst. apply pair_without; [discriminate|in_list].
  - inversion Hr; subst. apply pair_without; [discriminate|in_list].
  - apply extend_footprint_pair in Hext. destruct Hext as [Hpair Hs].
    split; [exact Hpair|]. refine (status_weaken _ _ _ _ Hs). reflexivity.
Qed.

(** The front loop of the viscous-fluid step entered with the status 1. *)
Lemma front_loop_pair Frac C dt Qin mat fl sim s o out :
  forall fuel norm k Fr_k w_k out0,
    returns (TimeSteppingViscousFluid.front_loop fuel Frac C dt Qin mat fl sim norm k Fr_k w_k
                                                 1%Z out0) ((s, o), out) ->
    (s = 1%Z <-> o <> None) /\ s ∈ [6; 7; 10; 3; 9; 8; 4; 5; 1]%Z.
Proof.
  induction fuel as [|fuel IH]; intros norm k Fr_k w_k out0 Hrun; simpl in Hrun;
    destruct (_ <? norm);
    try (apply returns_Next in Hrun; inversion Hrun; subst; apply pair_with; in_list);
    try (apply returns_Exc in Hrun; contradiction).
  walk Hrun.
  all: match goal with
       | E : TimeSteppingViscousFluid.injection_extended_footprint _ _ _ _ _ _ _ _ = Ok _
         |- _ => apply injection_extended_footprint_pair in E; destruct E as [Hpair Hs]
       end.
  all: try match goal with E : negb (_ =? 1)%Z = true |- _ =>
             apply negb_true_iff, Z.eqb_neq in E end.
  all: try match goal with E : negb (_ =? 1)%Z = false |- _ =>
             apply negb_false_iff, Z.eqb_eq in E; subst end.
  all: try (inversion Hrun; subst; apply pair_without;
            [first [assumption|discriminate]
            |first [in_list | apply elem_of_cons; right; assumption]]).
  all: try (eapply IH; exact Hrun).
Qed.

(** The pairs that the whole step returns. *)
Lemma attempt_time_step_viscousFluid_steps fuel Frac C mat fl sim inj dt s o C' out :
  TimeSteppingViscousFluid.attempt_time_step_viscousFluid fuel Frac C mat fl sim inj dt
  = Ok ((s, o), C', out) ->
  (s = 1%Z <-> o <> None) /\ s ∈ [6; 7; 10; 3; 9; 8; 4; 5; 1]%Z.
Proof.
  intros Hrun%body_Ok.
  unfold TimeSteppingViscousFluid.attempt_time_step_viscousFluid in Hrun.
  walk Hrun.
  all: try match goal with
           | E : Ret _ = Next _ |- _ => discriminate E
           | E : Next _ = Ret _ |- _ => discriminate E
           | E : Exc _ = _ |- _ => discriminate E
           end.
  all: repeat match goal with
       | E : TimeSteppingViscousFluid.injection_same_footprint _ _ _ _ _ _ _ = Ok _ |- _ =>
           apply injection_same_footprint_pair in E; destruct E as [? ?]
       | E : body _ = Ok _ |- _ => apply body_Ok in E
       | E : negb (_ =? 1)%Z = true |- _ => apply negb_true_iff, Z.eqb_neq in E
       | E : negb (_ =? 1)%Z = false |- _ => apply negb_false_iff, Z.eqb_eq in E; subst
       end.
  all: inversion Hrun; subst.
  all: try match goal with
           | E : returns (TimeSteppingViscousFluid.front_loop _ _ _ _ _ _ _ _ _ _ _ _ _ _) _
             |- _ => eapply front_loop_pair; exact E
           end.
  all: try (apply pair_without; [assumption|]).
  all: match goal with Hs : ?s ∈ _ |- ?s ∈ _ =>
         refine (status_weaken _ _ _ _ Hs); reflexivity end.
Qed.

(** X18.  A viscous-fluid step returns a fracture exactly when it returns
    the status 1; the statuses it returns are 1 and 3 to 10, each an index
    of the messages of the controller. *)
Theorem attempt_time_step_viscousFluid_pair fuel Frac C mat fl sim inj dt s o C' out :
  TimeSteppingViscousFluid.attempt_time_step_viscousFluid fuel Frac C mat fl sim inj dt
  = Ok ((s, o), C', out) ->
  (s = 1%Z <-> o <> None) /\ s ∈ [6; 7; 10; 3; 9; 8; 4; 5; 1]%Z.
Proof.
  intros Hrun.
  destruct (attempt_time_step_viscousFluid_steps _ _ _ _ _ _ _ _ _ _ _ _ Hrun) as [Hpair Hs].
  split; [exact Hpair|exact Hs].
Qed.

Lemma where_from_none {A} (cond : A -> bool) (a : list A) k :
  Forall (fun x => cond x = false) a -> where_from cond a k = [].
Proof.
  intros Ha. revert k. induction Ha as [|x a Hx _ IH]; intros k; simpl; [reflexivity|].
  rewrite Hx. apply IH.
Qed.

(** X19.  A step attempted on a fracture whose time is not at or after any
    time of the injection schedule raises ValueError, in the volume-control
    and in the viscous-fluid mode alike: there is no current injection rate
    to take the maximum position of. *)
Theorem no_injection_time_raises fuel Frac C mat fl sim inj dt times :
  InjectionProperties.injectionRate inj !! 0%nat = Some times ->
  Forall (fun t => (t <=? Fracture.time Frac) = false) times ->
  TimeSteppingVolumeControl.attempt_time_step_volumeControl fuel Frac C mat sim inj dt
  = Raise ValueError
  /\ TimeSteppingViscousFluid.attempt_time_step_viscousFluid fuel Frac C mat fl sim inj dt
     = Raise ValueError.
Proof.
  intros Hrow Htimes.
  unfold TimeSteppingVolumeControl.attempt_time_step_volumeControl,
    TimeSteppingViscousFluid.attempt_time_step_viscousFluid, getitem, np_where.
  rewrite Hrow. simpl. rewrite (where_from_none _ _ _ Htimes). split; reflexivity.
Qed.

End Step.
End AttemptFacts.

(** * The controller in the viscous-fluid mode *)
Module ModeFacts.
Import Controller BodyFacts AttemptFacts.
Local Open Scope float_scope.

Section Facts.
Context `{NumLib} `{PyFracModules}.
Variables aV aM aC : step_function.

(** What holds of every pair that the step of the viscous-fluid mode
    returns holds of the pair that the reattempts return. *)
Lemma reattempts_viscous (Q : Z -> option Fracture.t -> Prop) n :
  (forall Frac C sim dt s o C', aV Frac C sim dt = Ok ((s, o), C') -> Q s o) ->
  forall i sim Frac C TimeStep before out r,
    SimulationParameters.viscousInjection sim = true ->
    (forall s o, before = Some (s, o) -> Q s o) ->
    returns (reattempts aV aM aC n i sim Frac C TimeStep before out) r ->
    Q (fst (returned r)) (snd (returned r)).
Proof.
  intros Hstep. induction n as [|n IH]; intros i sim Frac C TimeStep before out r HV Hbefore Hr;
    simpl in Hr.
  - destruct before as [[s o]|]; [|apply returns_Exc in Hr; contradiction].
    apply returns_Next in Hr. subst r. simpl. apply Hbefore. reflexivity.
  - destruct (smallerTimeStep sim TimeStep i) as [dt|] eqn:Edt; simpl in Hr;
      [|apply returns_Exc in Hr; contradiction].
    unfold dispatch in Hr. rewrite HV in Hr.
    destruct (aV Frac C sim dt) as [[[s o] C']|e] eqn:Estep; simpl in Hr;
      [|apply returns_Exc in Hr; contradiction].
    apply Hstep in Estep.
    destruct ((s <? -13)%Z || (12 <? s)%Z); simpl in Hr;
      [apply returns_Exc in Hr; contradiction|].
    destruct ((s =? 1)%Z || (s =? 12)%Z); simpl in Hr.
    + apply returns_Ret in Hr. subst r. exact Estep.
    + eapply IH; [exact HV| |exact Hr]. intros s' o' E. inversion E; subst. exact Estep.
Qed.

End Facts.

Section Mode.
Context `{NumLib} `{PyFracModules}.

(** X20.  In the viscous-fluid mode [advance_time_step] returns a fracture
    exactly when it returns the status 1, and the status it returns is one
    of 1 and 3 to 10: a step that fails is reattempted whatever its
    status, since the status 12, which alone ends the reattempts early, is
    never returned in this mode. *)
Theorem advance_time_step_viscous_mode (aM aC : step_function) fuel solid_prop fluid_prop
    injection_prop sim Frac C TimeStep r :
  SimulationParameters.viscousInjection sim = true ->
  advance_time_step (viscousFluid_step fuel solid_prop fluid_prop injection_prop) aM aC
                    sim Frac C TimeStep = Ok r ->
  (fst (returned r) = 1%Z <-> snd (returned r) <> None)
  /\ fst (returned r) ∈ [6; 7; 10; 3; 9; 8; 4; 5; 1]%Z.
Proof.
  intros HV Hrun. unfold advance_time_step in Hrun.
  destruct (ReattemptFacts.limit_time_step_modes sim TimeStep) as (_ & HV' & _).
  destruct (limit_time_step sim TimeStep) as [TimeStep' sim']. simpl in HV'.
  apply body_Ok in Hrun.
  refine (reattempts_viscous _ aM aC
            (fun s o => (s = 1%Z <-> o <> None) /\ s ∈ [6; 7; 10; 3; 9; 8; 4; 5; 1]%Z)
            _ _ _ _ _ _ _ _ _ _ _ _ Hrun).
  - intros Frac' C0 sim0 dt s o C' Estep. unfold viscousFluid_step in Estep.
    destruct (TimeSteppingViscousFluid.attempt_time_step_viscousFluid _ _ _ _ _ _ _ _)
      as [[[[s' o'] C1] out]|e] eqn:Erun; simpl in Estep; [|discriminate].
    inversion Estep; subst.
    eapply attempt_time_step_viscousFluid_steps. exact Erun.
  - rewrite HV'. exact HV.
  - intros s o E. discriminate E.
Qed.

End Mode.
End ModeFacts.

(** * The vertex of a cell that the front has passed first *)
Module VertexFacts.
Import CartesianMesh Shared FloatFacts BodyFacts NumPyFacts.
Local Open Scope float_scope.

Lemma mapM_Next {R A B} (f : A -> ctl R B) (l : list A) (ys : list B) :
  mapM f l = Next ys -> Forall2 (fun x y => f x = Next y) l ys.
Proof.
  revert ys. induction l as [|x l IH]; intros ys; simpl.
  - intros E. inversion E. constructor.
  - intros E. apply bind_Next_inv in E. destruct E as (y & Ey & E).
    apply bind_Next_inv in E. destruct E as (k & Ek & E). inversion E; subst.
    constructor; [exact Ey | apply IH; exact Ek].
Qed.

Lemma mapM_not_Ret {R A B} (f : A -> ctl R B) (l : list A) (r : R) :
  (forall x, f x <> Ret r) -> mapM f l <> Ret r.
Proof.
  intros Hf. induction l as [|x l IH]; simpl; [discriminate|].
  apply bind_not_Ret; [apply Hf|]. intros y.
  apply bind_not_Ret; [exact IH|]. intros k. discriminate.
Qed.

Lemma leb_true_not_nan x y : (x <=? y) = true -> is_nan x = false /\ is_nan y = false.
Proof.
  rewrite FloatAxioms.leb_spec. unfold SFleb. intros Hle.
  split; apply is_nan_false; intros E; rewrite E in Hle;
    [|destruct (Prim2SF x)]; discriminate Hle.
Qed.

Section Facts.
Context `{NumLib} `{PyFracModules}.

(** X21.  [find_zero_vertex] gives one vertex, 0 to 3, for each of the
    given cells.  With the level set [n0], [n1], [n2] and [n3] at the left,
    right, bottom and top neighbours of the cell, the vertex is 1 or 2,
    on the right side of the cell, only if [n1 < n0], and 2 or 3, on its
    top side, only if [n3 < n2]; when none of the four is NaN the converses
    hold as well, and when one of them is NaN the vertex is 0. *)
Theorem find_zero_vertex_direction (Elts : list nat) (level_set : vec) (mesh : CartesianMesh.t)
    (zero_vertex : list nat) :
  find_zero_vertex Elts level_set mesh = Ok zero_vertex ->
  length zero_vertex = length Elts
  /\ forall i e v,
       Elts !! i = Some e -> zero_vertex !! i = Some v ->
       exists row n0 n1 n2 n3,
         NeiElements mesh !! e = Some row
         /\ (row !! 0%nat ≫= (level_set !!.)) = Some n0
         /\ (row !! 1%nat ≫= (level_set !!.)) = Some n1
         /\ (row !! 2%nat ≫= (level_set !!.)) = Some n2
         /\ (row !! 3%nat ≫= (level_set !!.)) = Some n3
         /\ (v <= 3)%nat
         /\ (v = 1%nat \/ v = 2%nat -> (n1 <? n0) = true)
         /\ (v = 2%nat \/ v = 3%nat -> (n3 <? n2) = true)
         /\ (is_nan n0 || is_nan n1 || is_nan n2 || is_nan n3 = false ->
             ((n1 <? n0) = true -> v = 1%nat \/ v = 2%nat)
             /\ ((n3 <? n2) = true -> v = 2%nat \/ v = 3%nat))
         /\ (is_nan n0 || is_nan n1 || is_nan n2 || is_nan n3 = true -> v = 0%nat).
Proof.
  unfold find_zero_vertex. intros Hrun%body_Ok.
  step Hrun as neighbors Enei.
  apply returns_bind in Hrun. destruct Hrun as [Hrun|(rows & Erows & Hrun)].
  { exfalso. revert Hrun. apply mapM_not_Ret. intros row. apply take_not_Ret. }
  destruct Hrun as [Hrun|Hrun].
  2:{ exfalso. revert Hrun. apply mapM_not_Ret. intros row. no_return. }
  apply take_Next in Enei. apply mapM_Next in Erows. apply mapM_Next in Hrun.
  split; [pose proof Hrun as Hrun'; pose proof Erows as Erows'; pose proof Enei as Enei'|].
  { apply Forall2_length in Hrun'. apply Forall2_length in Erows'.
    apply Forall2_length in Enei'. congruence. }
  intros i e v Hi Hv.
  destruct (Forall2_lookup_l _ _ _ _ _ Enei Hi) as (row & Hrow & Hnei).
  destruct (Forall2_lookup_l _ _ _ _ _ Erows Hrow) as (ns & Hns & Htake).
  destruct (Forall2_lookup_l _ _ _ _ _ Hrun Hns) as (v' & Hv' & Hcase).
  rewrite Hv in Hv'. inversion Hv'; subst v'. clear Hv'.
  apply bind_Next_inv in Hcase. destruct Hcase as (n0 & E0 & Hcase).
  apply bind_Next_inv in Hcase. destruct Hcase as (n1 & E1 & Hcase).
  apply bind_Next_inv in Hcase. destruct Hcase as (n2 & E2 & Hcase).
  apply bind_Next_inv in Hcase. destruct Hcase as (n3 & E3 & Hcase).
  apply getitem_Next in E0, E1, E2, E3.
  assert (Hlevel : forall k n, ns !! k = Some n -> (row !! k ≫= (level_set !!.)) = Some n).
  { intros k n Hk. apply take_Next in Htake.
    destruct (Forall2_lookup_r _ _ _ _ _ Htake Hk) as (c & Hc & Hl).
    rewrite Hc. exact Hl. }
  exists row, n0, n1, n2, n3. split; [exact Hnei|].
  do 4 (split; [apply Hlevel; assumption|]).
  inversion Hcase as [Hv']. clear Hcase.
  destruct (n0 <=? n1) eqn:L01, (n1 <? n0) eqn:L10, (n2 <=? n3) eqn:L23, (n3 <? n2) eqn:L32;
    simpl;
    try (apply leb_not_gtb in L01; congruence);
    try (apply leb_not_gtb in L23; congruence).
  all: split; [lia|].
  all: split; [intros [?|?]; first [reflexivity|discriminate|lia]|].
  all: split; [intros [?|?]; first [reflexivity|discriminate|lia]|].
  all: split.
  all: try (intros Hnan; apply orb_false_iff in Hnan as [Hnan N3];
            apply orb_false_iff in Hnan as [Hnan N2];
            apply orb_false_iff in Hnan as [N0 N1];
            try (rewrite (ltb_false_leb n1 n0 N1 N0 L10) in L01; discriminate L01);
            try (rewrite (ltb_false_leb n3 n2 N3 N2 L32) in L23; discriminate L23);
            split; intros ?; first [discriminate | left; reflexivity | right; reflexivity]).
  all: intros Hnan; try reflexivity; exfalso.
  all: repeat match goal with
       | E : (_ <=? _) = true |- _ => apply leb_true_not_nan in E; destruct E as [? ?]
       | E : (_ <? _) = true |- _ => apply ltb_true_not_nan in E; destruct E as [? ?]
       end.
  all: repeat match goal with E : is_nan _ = false |- _ => rewrite E in Hnan; clear E end.
  all: discriminate Hnan.
Qed.

End Facts.
End VertexFacts.

(** * The propagation regime *)
Module RegimeFacts.
Import BodyFacts NumPyFacts.
Local Open Scope float_scope.

Section Facts.
Context `{NumLib} `{PyFracModules}.

(** X22.  No entry of the regime that [find_regime] returns is below 0
    or above 1: an entry is a number from 0 to 1, or NaN where the
    asymptotes leave the ratio undefined. *)
Theorem find_regime_clipped w Fr mat sim timeStep Kprime asymptote_universal regime :
  Utility.find_regime w Fr mat sim timeStep Kprime asymptote_universal = Ok regime ->
  Forall (fun x => (x <? 0) = false /\ (1 <? x) = false) regime.
Proof.
  unfold Utility.find_regime. intros Hrun%body_Ok.
  step Hrun as asymptote_toughness Et. step Hrun as asymptote_viscosity Ev.
  step Hrun as to_universal Eu. step Hrun as to_toughness Ek. step Hrun as ratio Er.
  step Hrun. subst regime. unfold put_where.
  rewrite !list.Forall_fmap. apply list.Forall_true. intros x. simpl.
  destruct (1 - x <? 0) eqn:Eneg.
  - split; reflexivity.
  - destruct (1 <? 1 - x) eqn:Ebig.
    + split; reflexivity.
    + split; assumption.
Qed.

End Facts.
End RegimeFacts.

(** * The filling-fraction correction *)
Module CorrectionFacts.
Import Shared BodyFacts NumPyFacts MatrixFacts.
Local Open Scope float_scope.

Lemma getitem2_diagonal {R} C t c :
  @getitem2 R C t t = Next c -> diagonal_entry C t = Some c.
Proof.
  unfold getitem2, diagonal_entry. intros E.
  apply bind_Next_inv in E. destruct E as (row & Erow & E).
  apply getitem_Next in Erow. apply getitem_Next in E. rewrite Erow. exact E.
Qed.

Lemma setitem2_diagonal_entry {R} C t c C1 :
  @setitem2 R C t t c = Next C1 ->
  diagonal_entry C1 t = Some c
  /\ forall t', t' <> t -> diagonal_entry C1 t' = diagonal_entry C t'.
Proof.
  unfold setitem2, diagonal_entry. intros E.
  destruct (C !! t) as [row|] eqn:Erow; [|discriminate].
  destruct (decide _) as [Hlt|]; [|discriminate]. inversion E; subst C1. clear E. split.
  - rewrite list_lookup_insert_eq by (eapply lookup_lt_Some; exact Erow). simpl.
    apply list_lookup_insert_eq. exact Hlt.
  - intros t' Hne. rewrite list_lookup_insert_ne by congruence. reflexivity.
Qed.

Lemma frame_diagonal_entry tips C C1 t :
  same_off_tip_diagonal tips C C1 -> t ∉ tips -> diagonal_entry C1 t = diagonal_entry C t.
Proof.
  intros [Hlen Hrows] Ht. unfold diagonal_entry.
  destruct (C !! t) as [row|] eqn:Erow.
  - destruct (Hrows t row Erow) as (row1 & Hrow1 & _ & Hsame).
    rewrite Hrow1. simpl. apply Hsame. right. exact Ht.
  - apply lookup_ge_None in Erow. rewrite <- Hlen in Erow.
    apply lookup_ge_None in Erow. rewrite Erow. reflexivity.
Qed.

(** The correction loop entered at position [e]. *)
Lemma tip_correction_from {R} FillF tips : forall C e C1,
  NoDup tips ->
  @tip_correction R C FillF tips e = Next C1 ->
  forall i t, tips !! i = Some t ->
    exists f c, FillF !! (e + i)%nat = Some f
                /\ diagonal_entry C t = Some c
                /\ diagonal_entry C1 t = Some (c * tip_correction_factor f).
Proof.
  induction tips as [|t0 tips IH]; intros C e C1 Hnodup E i t Hi; [discriminate|].
  simpl in E. apply list.NoDup_cons in Hnodup. destruct Hnodup as [Ht0 Hnodup].
  apply bind_Next_inv in E. destruct E as (f & Ef & E).
  apply bind_Next_inv in E. destruct E as (c & Ec & E).
  apply bind_Next_inv in E. destruct E as (C' & EC' & E).
  apply getitem_Next in Ef. apply getitem2_diagonal in Ec.
  apply setitem2_diagonal_entry in EC'. destruct EC' as [Hset Hother].
  destruct i as [|i]; simpl in Hi.
  - inversion Hi; subst t0. exists f, c. rewrite Nat.add_0_r.
    split; [exact Ef|]. split; [exact Ec|].
    rewrite (frame_diagonal_entry tips C' C1 t); [exact Hset| |exact Ht0].
    eapply tip_correction_frame; [|exact E]. auto.
  - destruct (IH C' (S e) C1 Hnodup E i t Hi) as (f' & c' & Hf' & Hc' & Hc1).
    exists f', c'. replace (e + S i)%nat with (S e + i)%nat by lia.
    split; [exact Hf'|]. split; [|exact Hc1].
    rewrite <- Hc'. symmetry. apply Hother. intros ->.
    apply Ht0. eapply list_elem_of_lookup_2. exact Hi.
Qed.

(** X23.  The filling-fraction correction of the tip cells, each listed
    once, multiplies the diagonal entry of the tip cell at position [i] by
    the factor for the filling fraction at position [i], and changes
    nothing else: the corrected matrix has the shape of the given one and
    the same entries off the diagonal and in the rows of the other cells. *)
Theorem tip_correction_entries {R} (C : matrix) (FillF : vec) (tips : list nat) (C1 : matrix) :
  NoDup tips ->
  @tip_correction R C FillF tips 0 = Next C1 ->
  same_off_tip_diagonal tips C C1
  /\ forall i t, tips !! i = Some t ->
       exists f c, FillF !! i = Some f
                   /\ diagonal_entry C t = Some c
                   /\ diagonal_entry C1 t = Some (c * tip_correction_factor f).
Proof.
  intros Hnodup E. split.
  - eapply tip_correction_frame; [|exact E]. auto.
  - intros i t Hi. exact (tip_correction_from FillF tips C 0 C1 Hnodup E i t Hi).
Qed.

Section Step.
Context `{NumLib} `{PyFracModules}.

(** X24.  With [maxToughnessItr] at most 1 and no toughness function, the
    volume-control step on the extended footprint never enters its
    toughness loop: no tip asymptote is inverted, and the new footprint is
    the one of the level set of the last time step. *)
Theorem toughness_loop_skipped w_k Fr C dt Q mat sim :
  (SimulationParameters.maxToughnessItr sim <= 1)%Z ->
  MaterialProperties.K1cFunc mat = None ->
  TimeSteppingVolumeControl.injection_extended_footprint_volumeControl w_k Fr C dt Q mat sim
  = body (TimeSteppingVolumeControl.extend_footprint_volumeControl
            (Fracture.sgndDist Fr) w_k Fr C dt Q mat sim).
Proof.
  intros Hmax HK.
  unfold TimeSteppingVolumeControl.injection_extended_footprint_volumeControl,
    TimeSteppingVolumeControl.initial_toughness.
  rewrite HK. simpl.
  assert (Hlt : (1 <? SimulationParameters.maxToughnessItr sim)%Z = false)
    by (apply Z.ltb_ge; lia).
  destruct (Z.to_nat (SimulationParameters.maxToughnessItr sim - 1)); simpl;
    rewrite Hlt; reflexivity.
Qed.

End Step.
End CorrectionFacts.

(** * The array statements in bodies of different return types *)
Module AnyBodyFacts.
Import Shared BodyFacts NumPyFacts.
Local Open Scope float_scope.

(** A statement that gives a value in a body whose [return] type is [R]
    gives the same value in a body whose [return] type is [R']. *)
Lemma getitem_any {R R' A} (a : list A) i x :
  @getitem R A a i = Next x -> @getitem R' A a i = Next x.
Proof. rewrite !getitem_Next. auto. Qed.

Lemma take_any {R R' A} (a : list A) idx xs :
  @take R A a idx = Next xs -> @take R' A a idx = Next xs.
Proof. rewrite !take_Next. auto. Qed.

Lemma fill_any {R R' A} (a : list A) idx c a' :
  @fill R A a idx c = Next a' -> @fill R' A a idx c = Next a'.
Proof.
  revert a. induction idx as [|i idx IH]; intros a; simpl; [congruence|].
  destruct (decide _); [apply IH|discriminate].
Qed.

Lemma put_zip_any {R R' A} (a : list A) idx vals a' :
  @put_zip R A a idx vals = Next a' -> @put_zip R' A a idx vals = Next a'.
Proof.
  revert a vals. induction idx as [|i idx IH]; intros a [|v vals]; simpl;
    try congruence; try discriminate.
  destruct (decide _); [apply IH|discriminate].
Qed.

Lemma put_any {R R' A} (a : list A) idx vals a' :
  @put R A a idx vals = Next a' -> @put R' A a idx vals = Next a'.
Proof.
  unfold put. destruct vals as [|c [|? ?]];
    first [apply fill_any | apply put_zip_any].
Qed.

Lemma vbinop_any {R R'} op (a b c : vec) :
  @vbinop R op a b = Next c -> @vbinop R' op a b = Next c.
Proof.
  unfold vbinop. destruct (decide _); [congruence|].
  destruct a as [|? [|? ?]]; destruct b as [|? [|? ?]]; try congruence; discriminate.
Qed.

Lemma getitem2_any {R R'} (C : matrix) i j x :
  @getitem2 R C i j = Next x -> @getitem2 R' C i j = Next x.
Proof.
  unfold getitem2. intros E. apply bind_Next_inv in E. destruct E as (row & Erow & E).
  rewrite (getitem_any _ _ _ Erow). simpl. eapply getitem_any. exact E.
Qed.

Lemma setitem2_any {R R'} (C : matrix) i j c C' :
  @setitem2 R C i j c = Next C' -> @setitem2 R' C i j c = Next C'.
Proof.
  unfold setitem2. destruct (C !! i); [|discriminate].
  destruct (decide _); [congruence|discriminate].
Qed.

Lemma ix_get_any {R R'} (C : matrix) rows cols B :
  @ix_get R C rows cols = Next B -> @ix_get R' C rows cols = Next B.
Proof.
  revert B. induction rows as [|i rows IH]; intros B; simpl; [congruence|].
  intros E. apply bind_Next_inv in E. destruct E as (row & Erow & E).
  apply bind_Next_inv in E. destruct E as (r & Er & E).
  apply bind_Next_inv in E. destruct E as (rs & Ers & E).
  rewrite (getitem_any _ _ _ Erow). simpl. rewrite (take_any _ _ _ Er). simpl.
  rewrite (IH _ Ers). simpl. congruence.
Qed.

Lemma tip_correction_any {R R'} (C : matrix) FillF tips e C' :
  @tip_correction R C FillF tips e = Next C' -> @tip_correction R' C FillF tips e = Next C'.
Proof.
  revert C e. induction tips as [|t tips IH]; intros C e; simpl; [congruence|].
  intros E. apply bind_Next_inv in E. destruct E as (f & Ef & E).
  apply bind_Next_inv in E. destruct E as (c & Ec & E).
  apply bind_Next_inv in E. destruct E as (C1 & EC1 & E).
  rewrite (getitem_any _ _ _ Ef). simpl. rewrite (getitem2_any _ _ _ _ Ec). simpl.
  rewrite (setitem2_any _ _ _ _ _ EC1). simpl. apply IH. exact E.
Qed.

Lemma iadd_any {R R'} (a : vec) idx vals a' :
  @iadd R a idx vals = Next a' -> @iadd R' a idx vals = Next a'.
Proof.
  unfold iadd. intros E. apply bind_Next_inv in E. destruct E as (old & Eold & E).
  apply bind_Next_inv in E. destruct E as (new & Enew & E).
  rewrite (take_any _ _ _ Eold). simpl. rewrite (vbinop_any _ _ _ _ Enew). simpl.
  eapply put_any. exact E.
Qed.

Lemma py_max_int_any {R R'} (a : list nat) x :
  @py_max_int R a = Next x -> @py_max_int R' a = Next x.
Proof. destruct a; simpl; [discriminate|congruence]. Qed.

End AnyBodyFacts.

(** * The cap of the Picard-Newton iteration in the viscous-fluid step *)
Module CapFacts.
Import ElastoHydrodynamicSolver Shared BodyFacts NumPyFacts MatrixFacts WalkFacts WidthFacts
  PicardFacts AnyBodyFacts.
Local Open Scope float_scope.

Lemma reports_app out1 out2 :
  solver_reports (out1 ++ out2) = solver_reports out1 ++ solver_reports out2.
Proof. unfold solver_reports. apply omap_app. Qed.

Section Step.
Context `{NumLib} `{PyFracModules}.

(** [injection_same_footprint] returns after the call of [Picard_Newton]
    has returned, and has printed the report of that call. *)
Lemma injection_same_footprint_solve Fr C dt Qin mat fl sim r C' out :
  TimeSteppingViscousFluid.injection_same_footprint Fr C dt Qin mat fl sim
  = Ok (r, C', out) ->
  exists pn sol vel,
    TimeSteppingViscousFluid.Picard_Newton_same_footprint Fr C dt Qin mat fl sim
    = Ok (pn, (sol, vel))
    /\ out = [print_Picard_Newton pn].
Proof.
  intros Hrun%body_Ok.
  unfold TimeSteppingViscousFluid.injection_same_footprint in Hrun.
  pose proof (@check_width_not_Ret _) as Hcw.
  walk Hrun. inversion Hrun; subst; clear Hrun.
  do 3 eexists. split; [|reflexivity].
  unfold TimeSteppingViscousFluid.Picard_Newton_same_footprint. cbv zeta.
  repeat match goal with
         | E : ix_get _ _ _ = Next _ |- _ =>
             rewrite (ix_get_any (R' := @PN_result matrix) _ _ _ _ E); clear E; simpl
         | E : tip_correction _ _ _ _ = Next _ |- _ =>
             rewrite (tip_correction_any (R' := @PN_result matrix) _ _ _ _ _ E); clear E; simpl
         | E : iadd _ _ _ = Next _ |- _ =>
             rewrite (iadd_any (R' := @PN_result matrix) _ _ _ _ E); clear E; simpl
         | E : velocity _ _ _ _ _ _ _ = Ok _ |- _ => rewrite E; clear E; simpl
         | E : Picard_Newton_printing _ _ _ _ _ _ _ _ _ _ = Ok _ |- _ =>
             rewrite E; clear E; simpl
         end.
  reflexivity.
Qed.

(** The same-footprint solve that ends at the cap makes
    [injection_same_footprint] return the status 5. *)
Lemma injection_same_footprint_at_cap Fr C dt Qin mat fl sim m sol data r C' out :
  TimeSteppingViscousFluid.Picard_Newton_same_footprint Fr C dt Qin mat fl sim
  = Ok (not_converged_after m, (sol, data)) ->
  TimeSteppingViscousFluid.injection_same_footprint Fr C dt Qin mat fl sim
  = Ok (r, C', out) ->
  Fracture.EltCrack Fr <> [] ->
  r = (5%Z, None).
Proof.
  intros Hsolve Hrun Hcrack.
  destruct (injection_same_footprint_solve _ _ _ _ _ _ _ _ _ _ Hrun)
    as (pn & sol' & vel & Hsolve' & Hout).
  rewrite Hsolve in Hsolve'. inversion Hsolve'; subst.
  eapply injection_same_footprint_cap; [exact Hrun|reflexivity|exact Hcrack].
Qed.

(** [attempt_time_step_viscousFluid] calls [injection_same_footprint] with
    the current injection, and returns its status with no fracture when it
    is not 1. *)
Lemma attempt_time_step_viscousFluid_same_footprint fuel Frac C mat fl sim inj dt r C' out :
  TimeSteppingViscousFluid.attempt_time_step_viscousFluid fuel Frac C mat fl sim inj dt
  = Ok (r, C', out) ->
  exists Qin s w_k C1 out1,
    TimeSteppingViscousFluid.current_injection Frac inj = Ok Qin
    /\ TimeSteppingViscousFluid.injection_same_footprint Frac C dt Qin mat fl sim
       = Ok ((s, w_k), C1, out1)
    /\ (s <> 1%Z -> r = (s, None) /\ C' = C1 /\ out = out1)
    /\ (s = 1%Z ->
        exists w r' out',
          w_k = Some w
          /\ returns (TimeSteppingViscousFluid.front_loop fuel Frac C1 dt Qin mat fl sim
                        10 0%Z Frac w s out1) (r', out')
          /\ r = r' /\ C' = C1 /\ out = out').
Proof.
  intros Hrun%body_Ok.
  unfold TimeSteppingViscousFluid.attempt_time_step_viscousFluid in Hrun.
  walk Hrun.
  all: match goal with
       | E : TimeSteppingViscousFluid.injection_same_footprint _ _ _ ?Qin _ _ _
             = Ok (?s, ?w, ?C1, ?o1) |- _ =>
           exists Qin, s, w, C1, o1; split; [|split; [exact E|]]
       end.
  1, 3: unfold TimeSteppingViscousFluid.current_injection;
    repeat match goal with
           | E : getitem _ _ = Next _ |- _ =>
               rewrite (getitem_any (R' := vec) _ _ _ E); clear E; simpl
           | E : py_max_int _ = Next _ |- _ =>
               rewrite (py_max_int_any (R' := vec) _ _ E); clear E; simpl
           | E : getitem2 _ _ _ = Next _ |- _ =>
               rewrite (getitem2_any (R' := vec) _ _ _ _ E); clear E; simpl
           | E : fill _ _ _ = Next _ |- _ =>
               rewrite (fill_any (R' := vec) _ _ _ _ E); clear E; simpl
           end; reflexivity.
  - apply negb_true_iff, Z.eqb_neq in E4. inversion Hrun; subst.
    split; [auto|]. intros Hs. contradiction.
  - apply negb_false_iff, Z.eqb_eq in E4. subst z. inversion Hrun; subst.
    split; [intros Hs; contradiction|]. intros _.
    apply body_Ok in E5. eauto 10.
Qed.

(** The step whose same-footprint solve ends at the cap returns the
    status 5, the elasticity matrix as it was, and has printed the report
    of that solve only. *)
Lemma attempt_time_step_viscousFluid_at_cap fuel Frac C mat fl sim inj dt Qin m sol data
    r C' out :
  TimeSteppingViscousFluid.current_injection Frac inj = Ok Qin ->
  TimeSteppingViscousFluid.Picard_Newton_same_footprint Frac C dt Qin mat fl sim
  = Ok (not_converged_after m, (sol, data)) ->
  TimeSteppingViscousFluid.attempt_time_step_viscousFluid fuel Frac C mat fl sim inj dt
  = Ok (r, C', out) ->
  Fracture.EltCrack Frac <> [] ->
  r = (5%Z, None) /\ C' = C /\ solver_reports out = [not_converged_after m].
Proof.
  intros HQ Hsolve Hrun Hcrack.
  pose proof (RestoreFacts.attempt_time_step_viscousFluid_restores _ _ _ _ _ _ _ _ _ _ _ Hrun)
    as HC.
  apply attempt_time_step_viscousFluid_same_footprint in Hrun.
  destruct Hrun as (Qin' & s & w_k & C1 & out1 & HQ' & Hsame & Hfail & _).
  rewrite HQ in HQ'. inversion HQ'; subst Qin'.
  pose proof (injection_same_footprint_at_cap _ _ _ _ _ _ _ _ _ _ _ _ _ Hsolve Hsame Hcrack)
    as Hr.
  inversion Hr; subst.
  destruct Hfail as (-> & _ & ->); [discriminate|].
  split; [reflexivity|]. split; [first [exact HC | reflexivity | congruence]|].
  destruct (injection_same_footprint_solve _ _ _ _ _ _ _ _ _ _ Hsame)
    as (pn & sol' & vel & Hsolve' & ->).
  rewrite Hsolve in Hsolve'. inversion Hsolve'; subst. reflexivity.
Qed.

(** A step on the new footprint that returns the status 1 has printed one
    report of the solver. *)
Lemma extend_footprint_one_report sd w_k Fr C dt Qin mat fl sim o out :
  returns (TimeSteppingViscousFluid.extend_footprint sd w_k Fr C dt Qin mat fl sim)
          ((1%Z, o), out) ->
  exists pn, out = [print_Picard_Newton pn].
Proof.
  intros Hrun. unfold TimeSteppingViscousFluid.extend_footprint in Hrun.
  walk Hrun; unfold TimeSteppingViscousFluid.failed in *; inversion Hrun; subst; eauto.
Qed.

Lemma injection_extended_footprint_one_report w_k Fr C dt Qin mat fl sim o out :
  TimeSteppingViscousFluid.injection_extended_footprint w_k Fr C dt Qin mat fl sim
  = Ok ((1%Z, o), out) ->
  exists pn, out = [print_Picard_Newton pn].
Proof.
  intros Hrun. apply ToughnessFacts.injection_extended_footprint_stages in Hrun.
  unfold TimeSteppingViscousFluid.failed in Hrun.
  destruct Hrun as [Hr|(itr & sd & _ & [[_ Hr]|[_ Hext]])]; try discriminate Hr.
  eapply extend_footprint_one_report. exact Hext.
Qed.

(** The front loop returns the status 6 only from the pass in which [k]
    reaches [maxFrontItr], after a step on the new footprint with the
    status 1 in each pass. *)
Lemma front_loop_status_6 Frac C dt Qin mat fl sim o out :
  forall fuel norm k Fr_k w_k s out0,
    s <> 6%Z ->
    returns (TimeSteppingViscousFluid.front_loop fuel Frac C dt Qin mat fl sim norm k Fr_k w_k
                                                 s out0) ((6%Z, o), out) ->
    o = None
    /\ (k < SimulationParameters.maxFrontItr sim)%Z
    /\ length (solver_reports out)
       = (length (solver_reports out0)
          + Z.to_nat (SimulationParameters.maxFrontItr sim - k))%nat.
Proof.
  induction fuel as [|fuel IH]; intros norm k Fr_k w_k s out0 Hs Hrun; simpl in Hrun;
    destruct (_ <? norm);
    try (apply returns_Next in Hrun; inversion Hrun; subst; contradiction);
    try (apply returns_Exc in Hrun; contradiction).
  walk Hrun.
  all: try match goal with E : negb (_ =? 1)%Z = true |- _ =>
             apply negb_true_iff, Z.eqb_neq in E end.
  all: try match goal with E : negb (_ =? 1)%Z = false |- _ =>
             apply negb_false_iff, Z.eqb_eq in E; subst end.
  - (* the step on the new footprint has failed: its status is not 6 *)
    inversion Hrun; subst.
    match goal with
    | E : TimeSteppingViscousFluid.injection_extended_footprint _ _ _ _ _ _ _ _ = Ok _ |- _ =>
        apply AttemptFacts.injection_extended_footprint_pair in E; destruct E as [_ Hin]
    end.
    exfalso.
    repeat (apply elem_of_cons in Hin; destruct Hin as [Hin|Hin]; [discriminate|]).
    inversion Hin.
  - (* [k] has reached the cap *)
    inversion Hrun; subst.
    match goal with
    | E : TimeSteppingViscousFluid.injection_extended_footprint _ _ _ _ _ _ _ _ = Ok _ |- _ =>
        apply injection_extended_footprint_one_report in E; destruct E as [pn ->]
    end.
    match goal with E : (_ =? _)%Z = true |- _ => apply Z.eqb_eq in E end.
    split; [reflexivity|]. split; [lia|].
    rewrite reports_app. rewrite length_app. simpl.
    replace (SimulationParameters.maxFrontItr sim - k)%Z with 1%Z by lia. reflexivity.
  - (* another pass *)
    match goal with
    | E : TimeSteppingViscousFluid.injection_extended_footprint _ _ _ _ _ _ _ _ = Ok _ |- _ =>
        apply injection_extended_footprint_one_report in E; destruct E as [pn ->]
    end.
    match goal with E : (_ =? _)%Z = false |- _ => apply Z.eqb_neq in E end.
    apply IH in Hrun; [|discriminate].
    destruct Hrun as (-> & Hk & Hlen).
    split; [reflexivity|]. split; [lia|].
    rewrite Hlen, reports_app, length_app. simpl.
    replace (SimulationParameters.maxFrontItr sim - k)%Z
      with (Z.succ (SimulationParameters.maxFrontItr sim - (k + 1)))%Z by lia.
    rewrite Z2Nat.inj_succ by lia. lia.
Qed.

(** The step returns the status 6 only when the front loop has made
    [maxFrontItr] passes. *)
Lemma attempt_time_step_viscousFluid_status_6 fuel Frac C mat fl sim inj dt o C' out :
  TimeSteppingViscousFluid.attempt_time_step_viscousFluid fuel Frac C mat fl sim inj dt
  = Ok ((6%Z, o), C', out) ->
  o = None
  /\ (1 <= SimulationParameters.maxFrontItr sim)%Z
  /\ length (solver_reports out)
     = S (Z.to_nat (SimulationParameters.maxFrontItr sim)).
Proof.
  intros Hrun. apply attempt_time_step_viscousFluid_same_footprint in Hrun.
  destruct Hrun as (Qin & s & w_k & C1 & out1 & _ & Hsame & Hfail & Hloop).
  destruct (injection_same_footprint_solve _ _ _ _ _ _ _ _ _ _ Hsame)
    as (pn & sol' & vel & _ & ->).
  apply AttemptFacts.injection_same_footprint_pair in Hsame. destruct Hsame as [_ Hin].
  apply elem_of_cons in Hin. destruct Hin as [->|Hin].
  - destruct Hfail as (Hr & _); [discriminate|]. discriminate Hr.
  - apply list_elem_of_singleton in Hin. subst s.
    destruct (Hloop eq_refl) as (w & r' & out' & _ & Hr & <- & _ & <-).
    apply front_loop_status_6 in Hr; [|discriminate].
    destruct Hr as (-> & Hk & Hlen). split; [reflexivity|]. split; [lia|].
    rewrite Hlen. simpl. rewrite Z.sub_0_r. reflexivity.
Qed.

End Step.

Section Reattempts.
Import Controller.
Context `{NumLib}.
Variables aV aM aC : step_function.

(** When every attempt at its trial time step ends with the status [s],
    which is not 1 or 12, and leaves the elasticity matrix as it was,
    [advance_time_step] makes all its reattempts and returns [s]. *)
Lemma reattempts_all_fail (s : Z) (o : option Fracture.t) sim Frac C TimeStep :
  s <> 1%Z -> s <> 12%Z -> (-13 <= s <= 12)%Z ->
  forall n i before out r,
    (forall (j : nat) dt before' rr C',
        (j < n)%nat ->
        smallerTimeStep sim TimeStep (i + Z.of_nat j) = Ok dt ->
        dispatch aV aM aC sim Frac C dt before' = Next (rr, C') ->
        rr = (s, o) /\ C' = C) ->
    (0 < n)%nat ->
    body (reattempts aV aM aC n i sim Frac C TimeStep before out) = Ok r ->
    returned r = (s, o) /\ C_after r = C
    /\ printed_statuses (printed r) = printed_statuses out ++ replicate n s.
Proof.
  intros Hs1 Hs12 Hrange. induction n as [|n IH]; intros i before out r Hstep Hn Hr; [lia|].
  simpl in Hr. apply BodyFacts.body_Ok in Hr.
  destruct (smallerTimeStep sim TimeStep i) as [dt|] eqn:Edt; simpl in Hr;
    [|destruct Hr; discriminate].
  destruct (dispatch aV aM aC sim Frac C dt before) as [[rr C']| |] eqn:Ed;
    simpl in Hr; try (destruct Hr; discriminate).
  2: { exfalso. unfold dispatch in Ed.
       repeat match type of Ed with
              | (if ?b then _ else _) = _ => destruct b
              | call _ = Ret _ => apply BodyFacts.call_not_Ret in Ed; contradiction
              | match ?o with _ => _ end = _ => destruct o; try discriminate
              end. }
  destruct (Hstep 0%nat dt before rr C') as [-> ->];
    [lia|rewrite Z.add_0_r; exact Edt|exact Ed|].
  simpl in Hr.
  replace ((s <? -13)%Z || (12 <? s)%Z) with false in Hr
    by (symmetry; apply orb_false_iff; split; apply Z.ltb_ge; lia).
  replace ((s =? 1)%Z || (s =? 12)%Z) with false in Hr
    by (symmetry; apply orb_false_iff; split; apply Z.eqb_neq; assumption).
  simpl in Hr. apply BodyFacts.body_Ok in Hr.
  destruct n as [|n].
  - simpl in Hr. inversion Hr; subst; simpl.
    split; [reflexivity|]. split; [reflexivity|].
    rewrite !ReattemptFacts.printed_statuses_app. simpl. rewrite !app_nil_r. reflexivity.
  - apply IH in Hr; [|intros j dt' before' rr C' Hj Hdt; apply (Hstep (S j)); [lia|];
                      rewrite <- Hdt; f_equal; lia | lia].
    destruct Hr as (Hret & HC & Hst). split; [exact Hret|]. split; [exact HC|].
    rewrite Hst, !ReattemptFacts.printed_statuses_app. simpl.
    rewrite !app_nil_r, <- app_assoc. reflexivity.
Qed.

End Reattempts.
Section Cap.
Import Controller.
Context `{NumLib} `{PyFracModules}.

(** In the viscous-fluid mode, when the same-footprint solve ends at the
    cap at each trial time step, [advance_time_step] makes all its
    reattempts and returns the status 5. *)
Lemma advance_time_step_at_cap (aM aC : step_function) fuel mat fl inj sim Frac C TimeStep r :
  SimulationParameters.viscousInjection sim = true ->
  Fracture.EltCrack Frac <> [] ->
  (forall (i : nat) (dt : float),
      (Z.of_nat i < SimulationParameters.maxReattempts sim)%Z ->
      smallerTimeStep (snd (limit_time_step sim TimeStep)) (fst (limit_time_step sim TimeStep))
                      (Z.of_nat i) = Ok dt ->
      exists Qin m sol data,
        TimeSteppingViscousFluid.current_injection Frac inj = Ok Qin
        /\ TimeSteppingViscousFluid.Picard_Newton_same_footprint
             Frac C dt Qin mat fl (snd (limit_time_step sim TimeStep))
           = Ok (not_converged_after m, (sol, data))) ->
  advance_time_step (viscousFluid_step fuel mat fl inj) aM aC sim Frac C TimeStep = Ok r ->
  returned r = (5%Z, None)
  /\ C_after r = C
  /\ printed_statuses (printed r)
     = replicate (Z.to_nat (SimulationParameters.maxReattempts sim)) 5%Z.
Proof.
  intros HV Hcrack Hcap Hr. unfold advance_time_step in Hr.
  destruct (ReattemptFacts.limit_time_step_modes sim TimeStep) as (Hmax & HV' & _).
  destruct (limit_time_step sim TimeStep) as [TimeStep' sim'] eqn:El. simpl in *.
  rewrite HV in HV'. rewrite <- Hmax in *.
  assert (Hn : (0 < Z.to_nat (SimulationParameters.maxReattempts sim'))%nat).
  { destruct (Z.to_nat (SimulationParameters.maxReattempts sim')); [discriminate Hr|lia]. }
  eapply (reattempts_all_fail _ aM aC 5%Z None) in Hr;
    [exact Hr|discriminate|discriminate|lia| |exact Hn].
  intros j dt before' rr C' Hj Hdt Hd. simpl in Hdt.
  unfold dispatch in Hd. rewrite HV' in Hd. apply call_Next_inv in Hd.
  unfold viscousFluid_step in Hd.
  destruct (TimeSteppingViscousFluid.attempt_time_step_viscousFluid _ _ _ _ _ _ _ _)
    as [[[rr' C''] out]|e] eqn:Ea; simpl in Hd; [|discriminate].
  inversion Hd; subst rr' C''.
  destruct (Hcap j dt) as (Qin & m & sol & data & HQ & Hsolve); [lia|exact Hdt|].
  destruct (attempt_time_step_viscousFluid_at_cap _ _ _ _ _ _ _ _ _ _ _ _ _ _ _
              HQ Hsolve Ea Hcrack) as (-> & -> & _).
  split; reflexivity.
Qed.

(** C1 (amended).  The Picard-Newton iteration that stops at [maxitr]
    returns NaNs for the solution and no data.  When the solve on the
    footprint of the last time step ends in this way, in a fracture that
    has a cell, [injection_same_footprint] returns the status 5 with no
    width, [attempt_time_step_viscousFluid] returns the status 5 with no
    fracture, with the elasticity matrix as it was and without another
    solve, and [advance_time_step] in the viscous-fluid mode, when this
    happens at each of its trial time steps, makes all its [maxReattempts]
    reattempts and returns the status 5.  The status 6 is returned only by
    the front loop that has made [maxFrontItr] passes, each with a solve on
    the new footprint and the status 1: [injection_same_footprint] returns
    the statuses 5 and 1 only, and [injection_extended_footprint] the
    statuses 7, 10, 3, 9, 8, 4, 5 and 1 only. *)
Theorem Picard_cap_gives_status_5 :
  (forall I Res_fun sys_fun Jacobian TypValue Tol maxitr relax PicardPerNewton guess
          (interItr : I) m sol data,
      Picard_Newton_printing Res_fun sys_fun Jacobian TypValue Tol maxitr relax
                             PicardPerNewton guess interItr
      = Ok (not_converged_after m, (sol, data)) ->
      m = maxitr /\ data = None /\ exists n, sol = full_nan n)
  /\ (forall Fr C dt Qin mat fl sim m sol data r C' out,
         TimeSteppingViscousFluid.Picard_Newton_same_footprint Fr C dt Qin mat fl sim
         = Ok (not_converged_after m, (sol, data)) ->
         TimeSteppingViscousFluid.injection_same_footprint Fr C dt Qin mat fl sim
         = Ok (r, C', out) ->
         Fracture.EltCrack Fr <> [] ->
         r = (5%Z, None))
  /\ (forall fuel Frac C mat fl sim inj dt Qin m sol data r C' out,
         TimeSteppingViscousFluid.current_injection Frac inj = Ok Qin ->
         TimeSteppingViscousFluid.Picard_Newton_same_footprint Frac C dt Qin mat fl sim
         = Ok (not_converged_after m, (sol, data)) ->
         TimeSteppingViscousFluid.attempt_time_step_viscousFluid fuel Frac C mat fl sim inj dt
         = Ok (r, C', out) ->
         Fracture.EltCrack Frac <> [] ->
         r = (5%Z, None) /\ C' = C /\ solver_reports out = [not_converged_after m])
  /\ (forall (aM aC : step_function) fuel mat fl inj sim Frac C TimeStep r,
         SimulationParameters.viscousInjection sim = true ->
         Fracture.EltCrack Frac <> [] ->
         (forall (i : nat) (dt : float),
             (Z.of_nat i < SimulationParameters.maxReattempts sim)%Z ->
             smallerTimeStep (snd (limit_time_step sim TimeStep))
                             (fst (limit_time_step sim TimeStep)) (Z.of_nat i) = Ok dt ->
             exists Qin m sol data,
               TimeSteppingViscousFluid.current_injection Frac inj = Ok Qin
               /\ TimeSteppingViscousFluid.Picard_Newton_same_footprint
                    Frac C dt Qin mat fl (snd (limit_time_step sim TimeStep))
                  = Ok (not_converged_after m, (sol, data))) ->
         advance_time_step (viscousFluid_step fuel mat fl inj) aM aC sim Frac C TimeStep
         = Ok r ->
         returned r = (5%Z, None)
         /\ C_after r = C
         /\ printed_statuses (printed r)
            = replicate (Z.to_nat (SimulationParameters.maxReattempts sim)) 5%Z)
  /\ (forall fuel Frac C mat fl sim inj dt o C' out,
         TimeSteppingViscousFluid.attempt_time_step_viscousFluid fuel Frac C mat fl sim inj dt
         = Ok ((6%Z, o), C', out) ->
         o = None
         /\ (1 <= SimulationParameters.maxFrontItr sim)%Z
         /\ length (solver_reports out)
            = S (Z.to_nat (SimulationParameters.maxFrontItr sim)))
  /\ (forall Fr C dt Qin mat fl sim s o C' out,
         TimeSteppingViscousFluid.injection_same_footprint Fr C dt Qin mat fl sim
         = Ok ((s, o), C', out) ->
         s ∈ [5; 1]%Z)
  /\ (forall w_k Fr C dt Qin mat fl sim s o out,
         TimeSteppingViscousFluid.injection_extended_footprint w_k Fr C dt Qin mat fl sim
         = Ok ((s, o), out) ->
         s ∈ [7; 10; 3; 9; 8; 4; 5; 1]%Z).
Proof.
  split; [|split; [|split; [|split; [|split; [|split]]]]].
  - intros I Res_fun sys_fun Jacobian TypValue Tol maxitr relax PicardPerNewton guess
      interItr m sol data. apply Picard_Newton_printing_not_converged.
  - intros Fr C dt Qin mat fl sim m sol data r C' out.
    apply injection_same_footprint_at_cap.
  - intros fuel Frac C mat fl sim inj dt Qin m sol data r C' out.
    apply attempt_time_step_viscousFluid_at_cap.
  - intros aM aC fuel mat fl inj sim Frac C TimeStep r. apply advance_time_step_at_cap.
  - intros fuel Frac C mat fl sim inj dt o C' out.
    apply attempt_time_step_viscousFluid_status_6.
  - intros Fr C dt Qin mat fl sim s o C' out Hrun.
    apply AttemptFacts.injection_same_footprint_pair in Hrun. apply Hrun.
  - intros w_k Fr C dt Qin mat fl sim s o out Hrun.
    apply AttemptFacts.injection_extended_footprint_pair in Hrun. apply Hrun.
Qed.

End Cap.
End CapFacts.

(** The runs of the example in which the solver stops at its cap. *)
Module CapRunFacts.
Import Examples Runs CapRuns ElastoHydrodynamicSolver Controller.
Local Open Scope float_scope.

(** The status 6 without the cap of the solver: both solves converge in
    their second pass, and the front loop, which may make one pass, ends
    the step with the status 6 after two reports of the solver. *)
Lemma front_loop_cap_gives_status_6 :
  converging_step 1
  = Ok ((6%Z, None), example_C,
        [print_Picard_Newton (converged_after 2); print_Picard_Newton (converged_after 2)])
  /\ length (solver_reports [print_Picard_Newton (converged_after 2);
                             print_Picard_Newton (converged_after 2)])
     = S (Z.to_nat (SimulationParameters.maxFrontItr (example_sim_front 1))).
Proof. split; vm_compute; reflexivity. Qed.

(** With the doubling right-hand side the solve on the footprint of the
    last time step stops at the cap of 3 iterations at each of the four
    trial time steps 1, 0.5, 2 and 4, and [advance_time_step] returns the
    status 5 after four reattempts. *)
Lemma Picard_cap_gives_status_5_witness :
  exists r,
    advance_time_step (H := example_NumLib)
      (viscousFluid_step (H := example_NumLib) (H0 := example_modules interior 6 doubling)
                         10 (example_material None) example_fluid example_injection)
      always_fails always_fails (example_sim 3 2 4 "implicit") example_fracture example_C 1
    = Ok r
    /\ returned r = (5%Z, None)
    /\ C_after r = example_C
    /\ printed_statuses (printed r) = [5; 5; 5; 5]%Z.
Proof.
  destruct (advance_time_step (H := example_NumLib)
      (viscousFluid_step (H := example_NumLib) (H0 := example_modules interior 6 doubling)
                         10 (example_material None) example_fluid example_injection)
      always_fails always_fails (example_sim 3 2 4 "implicit") example_fracture example_C 1)
    as [r|e] eqn:E; [|vm_compute in E; discriminate].
  exists r. split; [reflexivity|].
  apply (proj1 (proj2 (proj2 (proj2 (CapFacts.Picard_cap_gives_status_5
                                       (H := example_NumLib)
                                       (H0 := example_modules interior 6 doubling)))))
               always_fails always_fails 10%nat (example_material None) example_fluid
               example_injection (example_sim 3 2 4 "implicit") example_fracture example_C 1 r);
    [reflexivity|discriminate| |exact E].
  - intros i dt Hi Hdt.
    destruct i as [|[|[|[|i]]]]; [| | | |simpl in Hi; lia];
      vm_compute in Hdt; inversion Hdt; subst dt;
      do 4 eexists; split; vm_compute; reflexivity.
Defined.

End CapRunFacts.

(** * The theorems on further runs of the examples *)
Module FurtherRunFacts.
Import Examples Runs FurtherRuns ElastoHydrodynamicSolver Shared.
Local Open Scope float_scope.

(** The neighbours 11, 13, 7 and 17 of the centre cell 12 of the 5 x 5 mesh
    are cells of the mesh. *)
Lemma Neighbors_in_mesh_witness :
  (0 <= 11 < 5 * 5 /\ 0 <= 13 < 5 * 5 /\ 0 <= 7 < 5 * 5 /\ 0 <= 17 < 5 * 5)%Z.
Proof.
  apply (MeshFacts.Neighbors_in_mesh 12 5 5 11 13 7 17); [lia|lia|lia|reflexivity].
Defined.

(** The cell 2 is its own bottom neighbour: it lies in the first row. *)
Lemma Neighbors_boundary_witness : (2 / 5 = 0)%Z.
Proof.
  destruct (MeshFacts.Neighbors_boundary 2 5 5 1 3 2 7 ltac:(lia) ltac:(lia) ltac:(lia)
              eq_refl) as (_ & _ & _ & _ & Hbottom & _).
  apply Hbottom. reflexivity.
Defined.

(** The centre cell 12 is the left neighbour of its right neighbour 13. *)
Lemma Neighbors_mutual_witness :
  exists r b u, CartesianMesh.Neighbors 13 5 5 = Ok (12%Z, r, b, u).
Proof.
  destruct (MeshFacts.Neighbors_mutual 12 5 5 11 13 7 17 ltac:(lia) ltac:(lia) ltac:(lia)
              eq_refl) as (Hright & _).
  apply Hright. discriminate.
Defined.

(** The neighbour array of the 5 x 5 mesh of the examples. *)
Lemma NeiElements_in_mesh_witness :
  length (CartesianMesh.NeiElements example_mesh) = Z.to_nat (5 * 5)
  /\ Forall (fun row => length row = 4%nat
                        /\ Forall (fun n => (n < length (CartesianMesh.NeiElements
                                                           example_mesh))%nat) row)
            (CartesianMesh.NeiElements example_mesh).
Proof.
  apply (MeshFacts.NeiElements_in_mesh 5 5); [lia|lia|vm_compute; reflexivity].
Defined.

(** The tip cell 2 lies in the first row of the mesh: the test finds it. *)
Lemma tip_at_grid_boundary_meaning_witness :
  exists b, @tip_at_grid_boundary unit example_mesh [2%nat] = Next b
            /\ (b = true <-> exists e, e ∈ [2%nat] /\ on_grid_boundary 5 5 (Z.of_nat e)).
Proof.
  apply (MeshFacts.tip_at_grid_boundary_meaning example_mesh 5 5 [2%nat]);
    [lia|lia|vm_compute; reflexivity|].
  repeat constructor.
Defined.

(** The four reattempts of a step that always fails with the status 5. *)
Lemma advance_time_step_stops_at_first_success_witness :
  exists r,
    Controller.advance_time_step (H := example_NumLib) always_fails always_fails always_fails
      (example_sim 2 2 4 "implicit") example_fracture example_C 1 = Ok r
    /\ Z.of_nat (length (printed_statuses (Controller.printed r))) = 4%Z.
Proof.
  eexists. split; [vm_compute; reflexivity|].
  destruct (ReattemptFacts.advance_time_step_stops_at_first_success
              (H := example_NumLib) always_fails always_fails always_fails
              (example_sim 2 2 4 "implicit") example_fracture example_C 1 _ eq_refl)
    as (_ & _ & _ & _ & [Hall|[Hone|Htwelve]]).
  - exact Hall.
  - discriminate Hone.
  - discriminate Htwelve.
Defined.

(** A negative time step is replaced by twice the limit of 100. *)
Lemma limit_time_step_not_negative_witness :
  (fst (Controller.limit_time_step (example_sim 2 2 4 "implicit") (-1)) <? 0) = false.
Proof.
  apply (ReattemptFacts.limit_time_step_not_negative (example_sim 2 2 4 "implicit") (-1)).
  reflexivity.
Defined.

(** The iteration on [x = 1] from the guess 2 converges in its second
    pass, below the cap of 5: the first pass gives 1 from the guess 2, the
    second gives 1 from 1 and meets the test. *)
Lemma Picard_Newton_converged_below_cap_witness :
  exists sol data,
    solve (fun _ => [1]) 5 [2] = Ok (converged_after 3, (sol, data))
    /\ exists solkm1 interItr interItr' ind norm,
         PN_iterate (H := example_NumLib) (fun _ _ => Raise TypeError)
           (fun solk interItr =>
              Ok (identity (length solk), [1], interItr, (seq 0 (length solk), [], [])))
           (fun _ _ _ => Raise TypeError) [2] 1 1000 [2] tt 2 solkm1 interItr
         /\ PN_pass (H := example_NumLib) (fun _ _ => Raise TypeError)
              (fun solk interItr =>
                 Ok (identity (length solk), [1], interItr, (seq 0 (length solk), [], [])))
              (fun _ _ _ => Raise TypeError) [2] 1 1000 2 solkm1 interItr sol interItr' ind
         /\ data = Some interItr'
         /\ check_covergance (H := example_NumLib) sol solkm1 ind 0.001 = Ok (true, norm).
Proof.
  assert (E : solve (fun _ => [1]) 5 [2] = Ok (converged_after 3, ([1], Some tt)))
    by (vm_compute; reflexivity).
  exists [1], (Some tt). split; [exact E|]. unfold solve in E.
  destruct (ReportFacts.Picard_Newton_converged_below_cap _ _ _ _ _ _ _ _ _ _ _ _ _ E)
    as [(Hmax & _)|(_ & Hpass)].
  - exfalso. revert Hmax. vm_compute. intros Hmax. apply Hmax. reflexivity.
  - exact Hpass.
Defined.

(** The iteration on [x = 2 x] reaches the cap of 3 and returns NaN. *)
Lemma Picard_Newton_no_data_is_nan_witness :
  exists p sol,
    solve doubling 3 [2] = Ok (p, (sol, None)) /\ Forall (fun x => is_nan x = true) sol.
Proof.
  assert (E : solve doubling 3 [2] = Ok (not_converged_after 3, ([nan], None)))
    by (vm_compute; reflexivity).
  exists (not_converged_after 3), [nan]. split; [exact E|]. unfold solve in E.
  exact (proj2 (ReportFacts.Picard_Newton_no_data_is_nan _ _ _ _ _ _ _ _ _ _ _ _ _ E)
               eq_refl).
Defined.

(** Two channel cells and one tip cell: the system has three rows. *)
Lemma elasticity_rows_witness :
  length [[2; 1; -1]; [1; 2; -1]; [1; 1; 0]] = (length [0; 1]%nat + 1)%nat.
Proof.
  refine (proj1 (SystemFacts.elasticity_rows (H := example_NumLib)
                   [1; 2; 3] [0.5] [0; 1]%nat [2%nat] [0; 0; 0]
                   [[2; 1; 1]; [1; 2; 1]; [1; 1; 2]] 1 [4; 0; 0] 2 [0; 0; 0]
                   [[2; 1; -1]; [1; 2; -1]; [1; 1; 0]] [-4.5; -5.5; 4.5] _)).
  vm_compute. reflexivity.
Defined.

(** The controller in the viscous-fluid mode on the step whose Picard
    iteration does not converge: the status 5 and no fracture. *)
Lemma advance_time_step_viscous_mode_witness :
  exists r,
    Controller.advance_time_step (H := example_NumLib)
      (viscousFluid_step (H := example_NumLib) (H0 := example_modules interior 6 doubling)
                         10 (example_material None) example_fluid example_injection)
      always_fails always_fails (example_sim 3 2 4 "implicit") example_fracture example_C 1
    = Ok r
    /\ (fst (Controller.returned r) = 1%Z <-> snd (Controller.returned r) <> None).
Proof.
  eexists. split; [vm_compute; reflexivity|].
  refine (proj1 (ModeFacts.advance_time_step_viscous_mode
                   (H := example_NumLib) (H0 := example_modules interior 6 doubling)
                   always_fails always_fails 10 (example_material None) example_fluid
                   example_injection (example_sim 3 2 4 "implicit") example_fracture
                   example_C 1 _ eq_refl _)).
  vm_compute. reflexivity.
Defined.

(** The whole volume-control step of the example. *)
Lemma attempt_time_step_volumeControl_pair_witness :
  match whole_volumeControl_step with
  | Ok ((s, o), _) =>
      (s = 1%Z <-> o <> None) /\ s ∈ [6; 11; 7; 2; 3; 12; 9; 8; 4; 5; 1]%Z
  | Raise _ => False
  end.
Proof.
  destruct whole_volumeControl_step as [[[s o] C']|e] eqn:E.
  - exact (AttemptFacts.attempt_time_step_volumeControl_pair
             (H := example_NumLib) (H0 := example_modules interior 6 id)
             _ _ _ _ _ _ _ _ _ _ E).
  - vm_compute in E. discriminate.
Defined.

(** The whole viscous-fluid step of the example. *)
Lemma attempt_time_step_viscousFluid_pair_witness :
  match whole_viscous_step with
  | Ok ((s, o), _, out) =>
      (s = 1%Z <-> o <> None) /\ s ∈ [6; 7; 10; 3; 9; 8; 4; 5; 1]%Z
  | Raise _ => False
  end.
Proof.
  destruct whole_viscous_step as [[[[s o] C'] out]|e] eqn:E.
  - exact (AttemptFacts.attempt_time_step_viscousFluid_pair
             (H := example_NumLib) (H0 := example_modules interior 6 doubling)
             _ _ _ _ _ _ _ _ _ _ _ _ E).
  - vm_compute in E. discriminate.
Defined.

(** The fracture of the example has the time 1, before the injection
    starts at the time 5. *)
Lemma no_injection_time_raises_witness :
  TimeSteppingVolumeControl.attempt_time_step_volumeControl
    (H := example_NumLib) (H0 := example_modules interior 6 id)
    10 example_fracture example_C (example_material None) (example_sim 3 2 4 "implicit")
    late_injection 1 = Raise ValueError
  /\ TimeSteppingViscousFluid.attempt_time_step_viscousFluid
       (H := example_NumLib) (H0 := example_modules interior 6 id)
       10 example_fracture example_C (example_material None) example_fluid
       (example_sim 3 2 4 "implicit") late_injection 1 = Raise ValueError.
Proof.
  apply (AttemptFacts.no_injection_time_raises
           (H := example_NumLib) (H0 := example_modules interior 6 id)
           10 example_fracture example_C (example_material None) example_fluid
           (example_sim 3 2 4 "implicit") late_injection 1 [5]).
  - reflexivity.
  - repeat constructor.
Defined.

(** The tip cell 7 below the centre cell: the level set at its top
    neighbour 12 is smaller than at its bottom neighbour 2, and the vertex
    is 3. *)
Lemma find_zero_vertex_direction_witness :
  exists row n2 n3,
    CartesianMesh.NeiElements example_mesh !! 7%nat = Some row
    /\ (row !! 2%nat ≫= (Fracture.sgndDist example_fracture !!.)) = Some n2
    /\ (row !! 3%nat ≫= (Fracture.sgndDist example_fracture !!.)) = Some n3
    /\ (n3 <? n2) = true.
Proof.
  destruct (VertexFacts.find_zero_vertex_direction
              [7%nat] (Fracture.sgndDist example_fracture) example_mesh [3%nat]) as [_ Hcell].
  { vm_compute. reflexivity. }
  destruct (Hcell 0%nat 7%nat 3%nat eq_refl eq_refl)
    as (row & n0 & n1 & n2 & n3 & Hrow & _ & _ & H2 & H3 & _ & _ & Htop & _).
  exists row, n2, n3. split; [exact Hrow|]. split; [exact H2|]. split; [exact H3|].
  apply Htop. right. reflexivity.
Defined.

(** The regime of the ribbon cell of the example. *)
Lemma find_regime_clipped_witness :
  match Utility.find_regime (H0 := example_modules interior 6 id)
          (Fracture.w example_fracture) example_fracture (example_material None)
          (example_sim 3 2 4 "implicit") 1 None [2] with
  | Ok regime => Forall (fun x => (x <? 0) = false /\ (1 <? x) = false) regime
  | Raise _ => False
  end.
Proof.
  destruct (Utility.find_regime (H0 := example_modules interior 6 id)
              (Fracture.w example_fracture) example_fracture (example_material None)
              (example_sim 3 2 4 "implicit") 1 None [2]) as [regime|e] eqn:E.
  - exact (RegimeFacts.find_regime_clipped _ _ _ _ _ _ _ _ E).
  - vm_compute in E. discriminate.
Defined.

(** The centre cell 12 of the 5 x 5 mesh has the vertices 14, 15, 21 and
    20; its right neighbour 13 has 15 and 21 as its vertices 0 and 3. *)
Lemma Connectivity_shared_edges_witness :
  exists w1 w2, MeshInit.Connectivity 5 5 !! 13%nat = Some [15; w1; w2; 21]%Z.
Proof.
  destruct (ConnectivityFacts.Connectivity_shared_edges 5 5 12 11 13 7 17
              ltac:(lia) ltac:(lia) ltac:(lia) eq_refl)
    as (_ & v0 & v1 & v2 & v3 & Hrow & _ & _ & _ & Hright & _).
  vm_compute in Hrow. inversion Hrow; subst. apply Hright. discriminate.
Defined.

(** The correction of the four tip cells of the example. *)
Lemma tip_correction_entries_witness :
  match @tip_correction unit example_C [0.5; 0.5; 0.5; 0.5] interior 0 with
  | Next C1 => same_off_tip_diagonal interior example_C C1
  | _ => False
  end.
Proof.
  destruct (@tip_correction unit example_C [0.5; 0.5; 0.5; 0.5] interior 0)
    as [C1|r|e] eqn:E.
  - refine (proj1 (CorrectionFacts.tip_correction_entries _ _ _ _ _ E)).
    apply (bool_decide_eq_true_1 (NoDup interior)). vm_compute. reflexivity.
  - vm_compute in E. discriminate.
  - vm_compute in E. discriminate.
Defined.

(** The step of the example with [maxToughnessItr = 1]. *)
Lemma toughness_loop_skipped_witness :
  TimeSteppingVolumeControl.injection_extended_footprint_volumeControl
    (H := example_NumLib) (H0 := example_modules interior 6 id)
    (Fracture.w example_fracture) example_fracture example_C 1 10
    (example_material None) (example_sim 3 1 4 "implicit")
  = body (TimeSteppingVolumeControl.extend_footprint_volumeControl
            (H := example_NumLib) (H0 := example_modules interior 6 id)
            (Fracture.sgndDist example_fracture) (Fracture.w example_fracture)
            example_fracture example_C 1 10 (example_material None)
            (example_sim 3 1 4 "implicit")).
Proof.
  apply CorrectionFacts.toughness_loop_skipped; [simpl; lia|reflexivity].
Defined.

(** With at most 5 iterations the solve of the example makes Picard steps
    only. *)
Lemma Picard_Newton_Picard_steps_only_witness :
  solve (fun _ => [1]) 5 [2]
  = Picard_Newton_printing (H := example_NumLib)
      (fun _ _ => Raise ValueError)
      (fun solk interItr =>
         Ok (identity (length solk), [1], interItr, (seq 0 (length solk), [], [])))
      (fun _ _ _ => Raise ValueError)
      [] 0.001 5 1 1000 [2] tt.
Proof.
  unfold solve. apply ReportFacts.Picard_Newton_Picard_steps_only. lia.
Defined.

(** The first time step of the run of the example fails with the status
    5: the run ends with SystemExit. *)
Lemma failure_in_first_steps_ends_run_witness :
  @ControllerRun.time_step example_NumLib always_fails always_fails always_fails
     example_np_max (fun _ _ _ _ => Raise AttributeError) example_run_parameters unit
     example_fracture
     (ControllerRun.initial_state example_fracture example_C (example_sim 2 2 4 "implicit") 9)
  = Exc (SystemExit "Simulation failed.").
Proof.
  destruct (RunLoopFacts.failure_in_first_steps_ends_run
              (H := example_NumLib) always_fails always_fails always_fails
              example_np_max (fun _ _ _ _ => Raise AttributeError) example_run_parameters)
    as (Hinit & _ & Hfail).
  eapply Hfail.
  - simpl. lia.
  - apply Hinit.
  - vm_compute. reflexivity.
  - vm_compute. reflexivity.
  - discriminate.
  - discriminate.
Defined.

(** The run of the example reaches the final time 2 in one time step. *)
Lemma run_ends_witness :
  exists final,
    example_run always_succeeds = Ok final
    /\ (0 <= ControllerRun.i final
        <= Z.max 0 (ControllerRun.maxTimeSteps example_run_parameters))%Z.
Proof.
  eexists. split; [vm_compute; reflexivity|].
  refine (proj1 (RunLoopFacts.run_ends (H := example_NumLib)
                   always_succeeds always_succeeds always_succeeds example_np_max
                   (fun _ _ _ _ => Raise AttributeError) (fun _ => Raise TypeError)
                   example_run_parameters example_fracture (example_sim 2 2 4 "implicit")
                   (Some example_C) _ _)).
  vm_compute. reflexivity.
Defined.

(** The cell 6 of the 5 x 5 mesh has the mirror images 16, 8 and 18; the
    row of 16 holds 6 as the mirror image of 16. *)
Lemma get_symetric_elements_mirror_witness :
  Symmetry.get_symetric_elements 5 5 [16%Z] = [[16; 6; 18; 8]]%Z.
Proof.
  destruct (SymmetryFacts.get_symetric_elements_mirror 5 5 6
              ltac:(lia) ltac:(lia) ltac:(lia) ltac:(lia))
    as (m_y & m_x & m_xy & Hrow & _ & _ & _ & Hy & _).
  vm_compute in Hrow. inversion Hrow; subst. exact Hy.
Defined.

(** The run of the example has four reattempts and the viscous-fluid
    mode. *)
Lemma advance_time_step_needs_mode_witness :
  (0 < SimulationParameters.maxReattempts (example_sim 2 2 4 "implicit"))%Z
  /\ (SimulationParameters.viscousInjection (example_sim 2 2 4 "implicit") = true
      \/ SimulationParameters.dryCrack_mechLoading (example_sim 2 2 4 "implicit") = true
      \/ SimulationParameters.volumeControl (example_sim 2 2 4 "implicit") = true).
Proof.
  eapply (proj2 (ReattemptFacts.advance_time_step_needs_mode
                   (H := example_NumLib) always_fails always_fails always_fails)
                _ example_fracture example_C 1).
  vm_compute. reflexivity.
Defined.

End FurtherRunFacts.
